(** * KeyLocker: a shallow embedding of the vault engine

    The development follows the Python sources of the repository:
    [shamir.py] (finite-field shares and Lagrange interpolation),
    [bitfun.py] (byte helpers, [ByteTracker], the [ABA] envelope),
    [crypto.py] (cipher facade, prime derivation) and [slots.py]
    (the [KeyLocker] vault).

    Python integers are [Z]; a byte string is a list of integers, each a
    byte value; [//] and [%] are [Z.div] and [Z.modulo], which round like
    Python's (towards minus infinity, remainder with the sign of the
    divisor). *)

From Equations Require Import Equations.
From Stdlib Require Import ZArith List Lia Bool Znumtheory QArith Qround Permutation.
Import ListNotations.
Local Open Scope Z_scope.

(** ** Results of possibly failing code *)

(** The Python exceptions the modelled code can raise.  [SystemExit] is
    what [sd.common.error] ends with. *)
Inductive exn : Type :=
| ValueError
| AttributeError
| OverflowError
| AssertionError
| IndexError
| ZeroDivisionError
| RecursionError
| SystemExit.

(** A run returns, raises, or is [Stuck]: the random tape handed to the
    model was exhausted or held a draw the random source cannot produce.
    [Stuck] is not a behaviour of the program. *)
Inductive outcome (A : Type) : Type :=
| Ok (a : A)
| Raise (e : exn)
| Stuck.
Arguments Ok {A} a.
Arguments Raise {A} e.
Arguments Stuck {A}.

Definition obind {A B} (x : outcome A) (f : A -> outcome B) : outcome B :=
  match x with
  | Ok a => f a
  | Raise e => Raise e
  | Stuck => Stuck
  end.

(** ** Bytes *)

Definition byte := Z.
Definition bytes := list byte.

Definition is_byte (b : byte) : Prop := 0 <= b < 256.
Definition is_bytes (l : bytes) : Prop := Forall is_byte l.

Definition len {A} (l : list A) : Z := Z.of_nat (length l).

(** [data[start:stop]] for non-negative bounds. *)
Definition slice {A} (l : list A) (start stop : Z) : list A :=
  firstn (Z.to_nat (stop - start)) (skipn (Z.to_nat start) l).

(** [shared.BYTEORDER = 'little']: [int.from_bytes(src, 'little')]. *)
Fixpoint from_bytes (src : bytes) : Z :=
  match src with
  | [] => 0
  | b :: rest => b + 256 * from_bytes rest
  end.

Fixpoint le_bytes (count : nat) (n : Z) : bytes :=
  match count with
  | O => []
  | S c => n mod 256 :: le_bytes c (n / 256)
  end.

(** [integer.to_bytes(count, 'little')]: [OverflowError] when the integer
    is negative or does not fit. *)
Definition int_to_bytes (integer : Z) (count : nat) : outcome bytes :=
  if (0 <=? integer) && (integer <? 256 ^ Z.of_nat count)
  then Ok (le_bytes count integer)
  else Raise OverflowError.

(** ** What the code takes from outside

    Libraries and helpers the sources import but that are not part of the
    vault's own code: they are parameters of the model, and no property
    below depends on what they compute. *)
Class Externals : Type := {
  (** [hashlib.sha512(data).digest()], 64 bytes long *)
  sha512 : bytes -> bytes;
  sha512_length : forall data, length (sha512 data) = 64%nat;
  (** [Crypto.Cipher.AES] in OFB mode: the keystream byte at a position,
      for a key and an initialisation vector *)
  aes_ofb : bytes -> bytes -> nat -> byte;
  (** [Crypto.Util.number.getPrime(N, randfunc)]; [randfunc] is given as
      the bytes its n-th call returns for a requested count *)
  getPrime : Z -> (nat -> Z -> bytes) -> Z;
  (** [sd.common.roundint(num, multiple)] *)
  roundint : Z -> Z -> Z;
  (** floating point: [math.ceil(math.log(integer + 1, 256))] *)
  ceil_log256 : Z -> Z;
  (** floating point: the rounded product of two floats *)
  fmul : Q -> Q -> Q;
  (** how many nested calls the interpreter still allows
      ([sys.getrecursionlimit()], less the frames in use) *)
  recursion_depth : nat
}.

(** ** The random source and the file

    Every value the code asks of a random source ([os.urandom], the mouse
    hasher, [random.SystemRandom], [secrets]) is read off a tape; any tape
    is a behaviour of the source. *)
Inductive draw : Type :=
| DBytes (b : bytes)
| DFloat (q : Q)
| DInt (z : Z)
| DPerm (p : list nat).

Inductive io_event : Type :=
| IORead (offset count : Z)
| IOWrite (offset count : Z).

Record world : Type := mkWorld {
  tape : list draw;
  content : bytes;        (* the bytes of the data file *)
  position : Z;           (* the file object's position *)
  io : list io_event      (* reads and writes so far, oldest first *)
}.

Definition M (A : Type) : Type := world -> outcome A * world.

Definition ret {A} (a : A) : M A := fun w => (Ok a, w).
Definition raise {A} (e : exn) : M A := fun w => (Raise e, w).
Definition stuck {A} : M A := fun w => (Stuck, w).

Definition bind {A B} (m : M A) (f : A -> M B) : M B :=
  fun w =>
    match m w with
    | (Ok a, w') => f a w'
    | (Raise e, w') => (Raise e, w')
    | (Stuck, w') => (Stuck, w')
    end.

(** A pure step that may raise. *)
Definition lift {A} (x : outcome A) : M A := fun w => (x, w).

Declare Scope monad_scope.
Delimit Scope monad_scope with monad.
Notation "x <- m ;; f" := (bind m (fun x => f))
  (at level 61, m at next level, right associativity) : monad_scope.
Notation "' pat <- m ;; f" := (bind m (fun x => match x with pat => f end))
  (at level 61, pat pattern, m at next level, right associativity) : monad_scope.
Notation "m ;;; f" := (bind m (fun _ => f))
  (at level 61, right associativity) : monad_scope.
Local Open Scope monad_scope.

Definition set_tape (w : world) (t : list draw) : world :=
  mkWorld t (content w) (position w) (io w).

Definition is_byteb (b : byte) : bool := (0 <=? b) && (b <? 256).

(** [p] lists each of [0 .. n-1] once. *)
Definition is_permb (n : nat) (p : list nat) : bool :=
  (length p =? n)%nat &&
  forallb (fun i => existsb (Nat.eqb i) p) (seq 0 n).

Definition pick {A} (l : list A) (p : list nat) : list A :=
  flat_map (fun i => match nth_error l i with
                     | Some a => [a]
                     | None => []
                     end) p.

(** [os.urandom(count)] *)
Definition urandom (count : Z) : M bytes :=
  fun w =>
    if count <? 0 then (Raise ValueError, w)
    else if count =? 0 then (Ok [], w)
    else match tape w with
         | DBytes b :: t =>
             if (len b =? count) && forallb is_byteb b
             then (Ok b, set_tape w t) else (Stuck, w)
         | _ => (Stuck, w)
         end.

(** [rand.random()]: a float in [0, 1). *)
Definition random_float : M Q :=
  fun w =>
    match tape w with
    | DFloat q :: t =>
        if Qle_bool 0 q && negb (Qle_bool 1 q)
        then (Ok q, set_tape w t) else (Stuck, w)
    | _ => (Stuck, w)
    end.

(** [rand.lognormvariate(mu, sigma)]: a positive float. *)
Definition lognormvariate (mu sigma : Q) : M Q :=
  fun w =>
    match tape w with
    | DFloat q :: t =>
        if negb (Qle_bool q 0) then (Ok q, set_tape w t) else (Stuck, w)
    | _ => (Stuck, w)
    end.

(** [rand.shuffle(l)] *)
Definition shuffle {A} (l : list A) : M (list A) :=
  fun w =>
    match tape w with
    | DPerm p :: t =>
        if is_permb (length l) p then (Ok (pick l p), set_tape w t)
        else (Stuck, w)
    | _ => (Stuck, w)
    end.

(** [rand.sample(range(n), n)] *)
Definition sample_range (n : nat) : M (list nat) := shuffle (seq 0 n).

(** Modelled from the spec: [sd.common.randint(low, high)], which is not
    under src/; section 4.5 has it "uniform in [1, slot_max - 1]", both
    ends included. *)
Definition sd_randint (low high : Z) : M Z :=
  fun w =>
    match tape w with
    | DInt z :: t =>
        if (low <=? z) && (z <=? high) then (Ok z, set_tape w t)
        else (Stuck, w)
    | _ => (Stuck, w)
    end.

(** [secrets.randbelow(n)]: an integer in [0, n). *)
Definition randbelow (n : Z) : M Z :=
  fun w =>
    if n <=? 0 then (Raise ValueError, w)
    else match tape w with
         | DInt z :: t =>
             if (0 <=? z) && (z <? n) then (Ok z, set_tape w t)
             else (Stuck, w)
         | _ => (Stuck, w)
         end.

(** [file.seek(offset)] *)
Definition seek (offset : Z) : M unit :=
  fun w =>
    if offset <? 0 then (Raise ValueError, w)
    else (Ok tt, mkWorld (tape w) (content w) offset (io w)).

(** [file.read(count)]: up to [count] bytes from the position. *)
Definition file_read (count : Z) : M bytes :=
  fun w =>
    let data := slice (content w) (position w) (position w + count) in
    (Ok data,
     mkWorld (tape w) (content w) (position w + len data)
             (io w ++ [IORead (position w) (len data)])).

(** The file after [data] is written at [pos]; a write past the end
    extends the file, a gap reads as zeros. *)
Definition write_at (f : bytes) (pos : Z) (data : bytes) : bytes :=
  if pos <=? len f
  then firstn (Z.to_nat pos) f ++ data ++ skipn (Z.to_nat pos + length data) f
  else f ++ repeat 0 (Z.to_nat (pos - len f)) ++ data.

(** [file.write(data)] *)
Definition file_write (data : bytes) : M unit :=
  fun w =>
    (Ok tt,
     mkWorld (tape w) (write_at (content w) (position w) data)
             (position w + len data)
             (io w ++ [IOWrite (position w) (len data)])).

(** [get_size(file)] of slots.py: the position is put back. *)
Definition get_size : M Z := fun w => (Ok (len (content w)), w).

(** A [for] loop with an accumulator. *)
Fixpoint for_each {A S} (l : list A) (body : A -> S -> M S) (s : S) : M S :=
  match l with
  | [] => ret s
  | a :: l' => s' <- body a s ;; for_each l' body s'
  end.

(** Modelled from the spec: [sd.common.error], which is not under src/,
    reports and ends the program ("fail", sections 4.1 and 4.12). *)
Definition error {A} : M A := raise SystemExit.

(** Modelled from the spec: [sd.common.chunk_up], which is not under
    src/: "capacity rounded up to a multiple of 64" (section 4.3); in
    crypto.py it replaces [((length - 1) // 64 + 1) * 64]. *)
Definition chunk_up (num chunk : Z) : Z := ((num - 1) / chunk + 1) * chunk.

(** [sorted(l)] *)
Fixpoint insert_sorted (x : Z) (l : list Z) : list Z :=
  match l with
  | [] => [x]
  | y :: l' => if x <=? y then x :: l else y :: insert_sorted x l'
  end.

Definition sorted (l : list Z) : list Z := fold_right insert_sorted [] l.

(** [itertools.combinations(l, r)], in its order. *)
Fixpoint combinations {A} (r : nat) (l : list A) : list (list A) :=
  match r, l with
  | O, _ => [[]]
  | S _, [] => []
  | S r', x :: l' => map (cons x) (combinations r' l') ++ combinations r l'
  end.

(** The list goes strictly up. *)
Fixpoint increasing (l : list Z) : bool :=
  match l with
  | a :: ((b :: _) as rest) => (a <? b) && increasing rest
  | _ => true
  end.

(** [[f(x) for x in l]] where [f] may raise. *)
Fixpoint map_outcome {A B} (f : A -> outcome B) (l : list A) : outcome (list B) :=
  match l with
  | [] => Ok []
  | a :: l' => obind (f a) (fun b => obind (map_outcome f l') (fun bs => Ok (b :: bs)))
  end.

(** ** shamir.py *)

Module shamir.

(** The loop of [_divmod]: extended Euclid on [(den, prime)], carrying
    [x, last_x, y, last_y]; it ends when [prime] is 0. *)
Equations? divmod_loop (den prime x last_x y last_y : Z) : Z * Z
  by wf (Z.abs_nat prime) lt :=
divmod_loop den prime x last_x y last_y with Z.eq_dec prime 0 := {
  | left _ => (last_x, last_y)
  | right _ =>
      divmod_loop prime (den mod prime)
        (last_x - (den / prime) * x) x
        (last_y - (den / prime) * y) y }.
Proof.
  pose proof (Z.mod_bound_or den prime n). lia.
Qed.

Definition _divmod (num den prime : Z) : Z :=
  num * fst (divmod_loop den prime 0 1 1 0).

(** [math.prod] of a sequence. *)
Definition product (l : list Z) : Z := fold_left Z.mul l 1.

(** [others = list(indexes); cur = others.pop(count)]: what is left. *)
Definition others (indexes : list Z) (count : nat) : list Z :=
  firstn count indexes ++ skipn (S count) indexes.

Definition nums (indexes : list Z) : list Z :=
  map (fun count => product (map (fun o => 0 - o) (others indexes count)))
      (seq 0 (length indexes)).

Definition dens (indexes : list Z) : list Z :=
  map (fun count =>
         let cur := nth count indexes 0 in
         product (map (fun o => cur - o) (others indexes count)))
      (seq 0 (length indexes)).

(** One round of the second loop of [interpolate]:
    [total += _divmod(nums[count] * den * values[count] % prime,
                      dens[count], prime)]. *)
Definition interpolate_step (prime den : Z) (ns ds values : list Z)
    (acc : outcome Z) (count : nat) : outcome Z :=
  obind acc (fun total =>
    match nth_error values count with
    | None => Raise IndexError
    | Some v =>
        if prime =? 0 then Raise ZeroDivisionError
        else Ok (total + _divmod (nth count ns 0 * den * v mod prime)
                                 (nth count ds 0) prime)
    end).

(** [interpolate(prime, indexes, values)], the Lagrange interpolater at 0. *)
Definition interpolate (prime : Z) (indexes values : list Z) : outcome Z :=
  let ns := nums indexes in
  let ds := dens indexes in
  let den := product ds in
  obind (fold_left (interpolate_step prime den ns ds values)
                   (seq 0 (length indexes)) (Ok 0))
        (fun total =>
           if prime =? 0 then Raise ZeroDivisionError
           else Ok ((_divmod total den prime + prime) mod prime)).

(** The inner loop of [make_shares]: Horner's rule on the reversed
    coefficient list, reduced at each step. *)
Definition eval_poly (prime : Z) (poly : list Z) (x : Z) : Z :=
  fold_left (fun total coeff => (total * x + coeff) mod prime) poly 0.

(** What a generator hands to its consumer, from what each of its steps
    gives when it is reached: an error ends the generator, so it is the
    last thing the consumer gets. *)
Fixpoint until_raise {A} (l : list (outcome A)) : list (outcome A) :=
  match l with
  | [] => []
  | Ok a :: rest => Ok a :: until_raise rest
  | e :: _ => [e]
  end.

(** [make_shares(minimum, shares, prime, secret, data_len)] once the
    [minimum - 1] coefficients have been drawn: share [count] is the
    polynomial at [count + 1], as [data_len] bytes.  The source is a
    generator: the [OverflowError] of a [to_bytes] ends it. *)
Definition make_shares_from (coeffs : list Z) (shares : nat) (prime : Z)
    (secret : bytes) (data_len : nat) : list (outcome bytes) :=
  let poly := rev (from_bytes secret :: coeffs) in
  until_raise
    (map (fun count =>
            int_to_bytes (eval_poly prime poly (Z.of_nat count + 1)) data_len)
         (seq 0 shares)).

(** [randint(num)]: [secrets.randbelow(num + 1)]. *)
Definition randint (num : Z) : M Z := randbelow (num + 1).

(** [[randint(prime) for count in range(n)]] *)
Fixpoint random_coefficients (n : nat) (prime : Z) : M (list Z) :=
  match n with
  | O => ret []
  | S n' =>
      (c <- randint prime ;;
       cs <- random_coefficients n' prime ;;
       ret (c :: cs))%monad
  end.

(** [make_shares(minimum, shares, prime, secret, data_len)] *)
Definition make_shares (minimum : Z) (shares : nat) (prime : Z)
    (secret : bytes) (data_len : nat) : M (list (outcome bytes)) :=
  (coeffs <- random_coefficients (Z.to_nat (minimum - 1)) prime ;;
   ret (make_shares_from coeffs shares prime secret data_len))%monad.

(** One round of the outer loop of [get_combos(share_c, maximum)]: the
    index sets of one size, in the order they are yielded. *)
Definition combos_of_size (share_c minimum : nat) : M (list (list Z)) :=
  (sample <- shuffle (map (fun i => Z.of_nat i + 1) (seq 0 share_c)) ;;
   ret (map sorted (combinations minimum sample)))%monad.

End shamir.

(** ** bitfun.py *)

Module bitfun.

Section WithExternals.
Context {ext : Externals}.

(** [to_bytes(integer, count=0)]: the number of bytes is computed in
    floating point when none is given. *)
Definition to_bytes (integer : Z) : outcome bytes :=
  let count := if integer <? 256 then 1 else ceil_log256 integer in
  if count <? 0 then Raise ValueError
  else int_to_bytes integer (Z.to_nat count).

(** *** ByteTracker *)

Record ByteTracker : Type := mkTracker {
  hash_len : Z;          (* bytes available in the hash *)
  tr_num_slots : nat;    (* slices reserved per request *)
  ptr : Z                (* first unreserved byte *)
}.

(** A [slice(start, stop)]. *)
Definition section : Type := (Z * Z)%type.

(** [slots] sections of [count] bytes each, one after the other from
    [from] on. *)
Definition sections_from (from count : Z) (slots : nat) : list section :=
  map (fun x => (from + Z.of_nat x * count,
                 from + Z.of_nat x * count + count)) (seq 0 slots).

(** [ByteTracker.reserve(count, slots=None)]: the sections and the
    tracker afterwards. *)
Definition reserve (t : ByteTracker) (count : Z) (slots : option nat)
  : outcome (list section * ByteTracker) :=
  let slots := match slots with
               | Some (S n) => S n
               | _ => tr_num_slots t
               end in
  let sections := sections_from (ptr t) count slots in
  let ptr' := ptr t + Z.of_nat slots * count in
  if ptr' + 1 >=? hash_len t then Raise ValueError
  else Ok (sections, mkTracker (hash_len t) (tr_num_slots t) ptr').

(** *** copy_bytearray *)

(** [copy_bytearray(src, target, start, stop, tstart)]: the target
    afterwards.  [start] and [tstart] are never negative in the code. *)
Definition copy_bytearray (src target : bytes) (start stop tstart : Z)
  : outcome bytes :=
  let stop := if stop =? 0 then len src else stop in
  let stop := if stop - start + tstart >? len target
              then len target - tstart + start else stop in
  if stop <? start then Raise AssertionError
  else if stop >? len src then Raise AssertionError
  else Ok (firstn (Z.to_nat tstart) target
           ++ slice src start stop
           ++ skipn (Z.to_nat (tstart + (stop - start))) target).

(** *** ABA: byte arrays with a checksum

    Format: 8 bytes of checksum, 1 byte of length, the data.  The copies
    [data()] hands out are kept in [datas]; overwriting dropped copies
    with random bytes ([wipe_bytes]) changes no value read afterwards and
    is left out. *)

Definition chk_len : Z := 8.
Definition header : Z := chk_len + 1.
Definition start : Z := header.

Record ABA : Type := mkABA {
  seed : bytes;
  arr : option bytes;     (* [None]: the attribute was never set *)
  end_ : Z;
  datas : list bytes;
  updated : bool
}.

(** [len(aba)]: the length of the data portion. *)
Definition ABA_len (a : ABA) : Z := end_ a - start.

(** Truth value of an [ABA] object: Python falls back on [__len__]. *)
Definition ABA_truth (a : ABA) : bool := negb (ABA_len a =? 0).

Definition get_arr (a : ABA) : outcome bytes :=
  match arr a with
  | Some b => Ok b
  | None => Raise AttributeError
  end.

(** [data(checksum=False)]: the bytes and the object afterwards. *)
Definition data (a : ABA) : outcome (bytes * ABA) :=
  if negb (updated a) then
    match rev (datas a) with
    | last :: _ => Ok (last, a)
    | [] => Raise IndexError
    end
  else
    let st := header in
    let en := end_ a in
    if en - st <? 0 then Raise ValueError
    else
      obind (get_arr a) (fun src =>
      obind (copy_bytearray src (repeat 0 (Z.to_nat (en - st))) st en 0)
            (fun target =>
         let ds := datas a ++ [target] in
         let ds := if (3 <=? length ds)%nat then tl ds else ds in
         Ok (target, mkABA (seed a) (arr a) (end_ a) ds false))).

(** [checksum()]: SHA-512 of seed and data, cut to [chk_len] bytes. *)
Definition checksum (a : ABA) : outcome (bytes * ABA) :=
  obind (data a) (fun '(d, a') =>
    Ok (slice (sha512 (seed a' ++ d)) 0 chk_len, a')).

(** [prepend()]: write checksum and length byte at the front. *)
Definition prepend (a : ABA) : outcome ABA :=
  if ABA_len a >? 255 then Raise SystemExit
  else
    obind (to_bytes (ABA_len a)) (fun lb =>
    obind (checksum a) (fun '(chk, a') =>
    obind (get_arr a') (fun target =>
    obind (copy_bytearray (chk ++ lb) target 0 0 0) (fun target' =>
      Ok (mkABA (seed a') (Some target') (end_ a') (datas a') (updated a')))))).

(** [read(src)]: append bytes to the data. *)
Definition read (a : ABA) (src : bytes) : outcome ABA :=
  obind (get_arr a) (fun target =>
  obind (copy_bytearray src target 0 0 (end_ a)) (fun target' =>
  obind (prepend (mkABA (seed a) (Some target') (end_ a + len src)
                        (datas a) (updated a))) (fun a' =>
    Ok (mkABA (seed a') (arr a') (end_ a') (datas a') true)))).

(** [ABA(src, size, seed, raw)] *)
Definition ABA_new (src : bytes) (size : Z) (sd : bytes) (raw : bool)
  : outcome ABA :=
  let a0 := mkABA sd None start [] true in
  match src with
  | [] => Ok a0
  | _ :: _ =>
      if raw then Ok (mkABA sd (Some src) start [] true)
      else
        let size := if len src + header >? size
                    then chunk_up (len src + header) size else size in
        if size - header >? 255 then Raise ValueError
        else read (mkABA sd (Some (repeat 0 (Z.to_nat size))) start [] true) src
  end.

(** [read_lb()] *)
Definition read_lb (a : ABA) : outcome byte :=
  obind (get_arr a) (fun b =>
    match nth_error b (Z.to_nat chk_len) with
    | Some lb => Ok lb
    | None => Raise IndexError
    end).

Definition bytes_eqb (a b : bytes) : bool :=
  (length a =? length b)%nat && forallb (fun '(x, y) => x =? y) (combine a b).

(** [validate()]: the verdict and the object afterwards. *)
Definition validate (a : ABA) : outcome (bool * ABA) :=
  obind (read_lb a) (fun lb =>
  obind (get_arr a) (fun b =>
    let en := header + lb in
    if en >? len b then Ok (false, a)
    else
      let old := end_ a in
      obind (checksum (mkABA (seed a) (arr a) en (datas a) (updated a)))
            (fun '(chk, a') =>
         let status := bytes_eqb chk (slice b 0 chk_len) in
         if status then Ok (true, a')
         else Ok (false, mkABA (seed a') (arr a') old (datas a') (updated a'))))).

(** [scramble(src)] with the junk given: fill the rest of the array. *)
Definition scramble_with (a : ABA) (src : bytes) : outcome ABA :=
  obind (get_arr a) (fun target =>
  obind (copy_bytearray src target 0 0 (end_ a)) (fun target' =>
    Ok (mkABA (seed a) (Some target') (end_ a) (datas a) (updated a)))).

(** [scramble(src=None)] *)
Definition scramble (a : ABA) (src : option bytes) : M ABA :=
  (target <- lift (get_arr a) ;;
   let size := len target - end_ a in
   match src with
   | Some (b :: l) => lift (scramble_with a (b :: l))
   | _ => junk <- urandom size ;; lift (scramble_with a junk)
   end)%monad.

(** The layout of a filled array: checksum, length byte, data, and
    whatever fills the rest. *)
Definition envelope (src rest : bytes) : bytes :=
  slice (sha512 src) 0 chk_len ++ [len src] ++ src ++ rest.

(** The size [ABA(src, size=64)] settles on. *)
Definition capacity (src : bytes) : Z :=
  if len src + header >? 64 then chunk_up (len src + header) 64 else 64.

(** [bytes(aba)] *)
Definition ABA_bytes (a : ABA) : outcome (bytes * ABA) := data a.

End WithExternals.

(** *** slicer *)

(** Where Python's slicing puts an index of a sequence: a negative index
    counts from the end, and both ends are clamped. *)
Definition py_index {A} (data : list A) (i : Z) : Z :=
  if i <? 0 then Z.max 0 (len data + i) else Z.min i (len data).

(** [data[start:stop]] *)
Definition py_slice {A} (data : list A) (start stop : Z) : list A :=
  slice data (py_index data start) (py_index data stop).

(** The loop of [slicer] with [stop] bytes handed out so far. *)
Fixpoint slicer_from {A} (data : list A) (stop : Z) (args : list Z)
  : list (list A) :=
  match args with
  | [] => []
  | arg :: rest =>
      py_slice data stop (stop + arg) :: slicer_from data (stop + arg) rest
  end.

(** [slicer(data, *args)]: slice up data into pieces of the lengths set
    by [args].  The warning it prints when data is left over is left
    out. *)
Definition slicer {A} (data : list A) (args : list Z) : list (list A) :=
  slicer_from data 0 args.

End bitfun.

(** ** crypto.py *)

Module crypto.

Section WithExternals.
Context {ext : Externals}.

(** [get_random(count)]; the mouse hasher, when present, is one more
    random source. *)
Definition get_random (count : Z) : M bytes :=
  if count <=? 0 then ret [] else urandom count.

(** [pad(data)]: fill up to a multiple of 16 bytes with random bytes. *)
Definition pad (data : bytes) : M bytes :=
  if len data mod 16 =? 0 then ret data
  else junk <- get_random (16 - len data mod 16) ;; ret (data ++ junk).

(** XOR with the keystream from position [from] on. *)
Fixpoint xor_stream (ks : nat -> byte) (from : nat) (data : bytes) : bytes :=
  match data with
  | [] => []
  | b :: rest => Z.lxor b (ks from) :: xor_stream ks (S from) rest
  end.

(** [AES.new(key, AES.MODE_OFB, IV=vector)] *)
Definition aes_new (key vector : bytes) : outcome (nat -> byte) :=
  if ((len key =? 16) || (len key =? 24) || (len key =? 32))
     && (len vector =? 16)
  then Ok (aes_ofb key vector) else Raise ValueError.

(** [encrypt_data(data, key, vector, crop=True)] *)
Definition encrypt_data (data key vector : bytes) (crop : bool) : M bytes :=
  ks <- lift (aes_new key vector) ;;
  padded <- pad data ;;
  let c := xor_stream ks 0 padded in
  ret (if crop then firstn (length data) c else c).

(** [decrypt_data(data, key, vector, crop=0)] *)
Definition decrypt_data (data key vector : bytes) (crop : Z) : M bytes :=
  ks <- lift (aes_new key vector) ;;
  padded <- pad data ;;
  let c := xor_stream ks 0 padded in
  ret (if crop =? 0 then c else slice c 0 crop).

(** [root * mult] *)
Definition repeat_bytes (root : bytes) (mult : Z) : bytes :=
  concat (repeat root (Z.to_nat mult)).

(** [get_prime(length, ran_bytes)]: a prime of [length] bytes from a
    byte source. *)
Definition get_prime (length : Z) (ran_bytes : bytes) : outcome Z :=
  if len ran_bytes <? 128 then Raise AssertionError
  else
    obind (aes_new (slice ran_bytes 0 32) (slice ran_bytes 32 48)) (fun ks =>
    let root := skipn 64 ran_bytes in
    obind (if len root <? length then
             if len root <? 16 then Raise AssertionError
             else
               let mult := (length - 1) / len root + 1 in
               let crop := chunk_up length 64 in
               Ok (slice (repeat_bytes root mult) 0 crop)
           else Ok root) (fun root =>
    if negb (len root mod 16 =? 0) then Raise AssertionError
    else if len root <? length then Raise AssertionError
    else
      let ran_generator (call : nat) (count : Z) : bytes :=
        slice (xor_stream ks (call * List.length root) root) 0 count in
      Ok (getPrime (length * 8) ran_generator))).

End WithExternals.

End crypto.

(** ** slots.py *)

Module slots.

Section WithExternals.
Context {ext : Externals}.

Definition slot_len : Z := 64.
Definition max_len : Z := 256.
Definition max_shamir : Z := slot_len * 2.
Definition max_data : Z := 255 - bitfun.header.
Definition max_area : Z := 1024 * 1024.

(** The slices of phash that [set_phash] names. *)
Record Tracker : Type := mkTr {
  tr_shamir_key : bitfun.section;
  tr_key : list bitfun.section;
  tr_shamir_vector : bitfun.section;
  tr_vector : list bitfun.section;
  tr_prime : bitfun.section;
  tr_offset : list bitfun.section
}.

Record KeyLocker : Type := mkKL {
  phash : bytes;
  shamir_mode : bool;
  testing : bool;
  salt_len : Z;
  area : Z;
  storage : Z;
  num_slots : Z;
  slot_target : Z;
  slot_max : Z;
  max_reqs : Z;
  salt : bytes;           (* what the salt hasher has been fed *)
  tracker : Tracker
}.

(** [len(str(size))] for a non-negative integer. *)
Fixpoint digits_from (fuel : nat) (n : Z) : Z :=
  match fuel with
  | O => 1
  | S f => if n <? 10 then 1 else 1 + digits_from f (n / 10)
  end.

Definition digits (n : Z) : Z := digits_from (S (Z.to_nat (Z.log2 n))) n.

(** [calc_salt_size(size)] *)
Definition calc_salt_size (size : Z) : Z :=
  let divisor := 8 * digits size in
  let salt := size / divisor in
  let salt_max := 10 * 1024 * 1024 in
  let salt := if salt >? salt_max then salt_max else salt in
  if salt >? 4096 * 4 then roundint salt 4096 else salt.

Definition empty_tracker : Tracker :=
  mkTr (0, 0) [] (0, 0) [] (0, 0) [].

(** [set_boundaries()]: the layout for a file size.  The picture that
    [show_size] prints is left out. *)
Definition set_boundaries (filesize : Z) (shamir testing : bool)
  : outcome KeyLocker :=
  let salt_len := calc_salt_size filesize in
  let notsalt := filesize - salt_len * 2 in
  let '(area, shamir) :=
    if notsalt >=? max_area * 2 then (max_area, shamir)
    else if notsalt >=? max_area / 5 then (notsalt / 2, shamir)
    else (notsalt, false) in
  let storage := filesize - salt_len * 2 - area in
  let num_slots := (area - max_len) / slot_len in
  if negb (filesize =? salt_len * 2 + area + storage) then Raise SystemExit
  else if num_slots <? 10 then Raise SystemExit
  else if num_slots * slot_len + (max_len - slot_len) >? area
       then Raise SystemExit
  else
    let slot_target := if area >=? 1024 * 1024 then 4 else 8 in
    let slot_max := slot_target * 2 + 1 in
    Ok (mkKL [] shamir testing salt_len area storage num_slots
             slot_target slot_max 4 [] empty_tracker).

(** [set_phash(phash)]: name the sections of the hash, in this order. *)
Definition set_phash (self : KeyLocker) (ph : bytes) : outcome KeyLocker :=
  let t0 := bitfun.mkTracker (len ph) (Z.to_nat (slot_max self + 1)) 0 in
  obind (bitfun.reserve t0 32 (Some 1%nat)) (fun '(sk, t1) =>
  obind (bitfun.reserve t1 32 None) (fun '(ks, t2) =>
  obind (bitfun.reserve t2 16 (Some 1%nat)) (fun '(sv, t3) =>
  obind (bitfun.reserve t3 16 None) (fun '(vs, t4) =>
  obind (bitfun.reserve t4 (64 + 128) (Some 1%nat)) (fun '(pr, t5) =>
  obind (bitfun.reserve t5 16 None) (fun '(os, t6) =>
    Ok (mkKL ph (shamir_mode self) (testing self) (salt_len self)
             (area self) (storage self) (num_slots self)
             (slot_target self) (slot_max self) (max_reqs self) (salt self)
             (mkTr (hd (0, 0) sk) ks (hd (0, 0) sv) vs (hd (0, 0) pr) os)))))))).

(** Two vaults with the same layout. *)
Definition same_layout (a b : KeyLocker) : Prop :=
  salt_len a = salt_len b /\ area a = area b /\ storage a = storage b /\
  num_slots a = num_slots b /\ slot_target a = slot_target b /\
  slot_max a = slot_max b /\ max_reqs a = max_reqs b.

(** [self] is a vault on a file of [filesize] bytes with its password
    hash set: what [set_boundaries] and [set_phash] made, whatever the
    switches and the salt are. *)
Definition opened (filesize : Z) (self : KeyLocker) : Prop :=
  exists (shamir testing : bool) (k0 k1 : KeyLocker),
    set_boundaries filesize shamir testing = Ok k0 /\
    set_phash k0 (phash self) = Ok k1 /\
    same_layout self k1 /\ tracker self = tracker k1.

(** [phash[sec]] *)
Definition phash_at (self : KeyLocker) (sec : bitfun.section) : bytes :=
  slice (phash self) (fst sec) (snd sec).

Definition index {A} (l : list A) (i : nat) : outcome A :=
  match nth_error l i with
  | Some a => Ok a
  | None => Raise IndexError
  end.

(** [get_key('shamir')] *)
Definition get_key_shamir (self : KeyLocker) : bytes * bytes :=
  (phash_at self (tr_shamir_key (tracker self)),
   phash_at self (tr_shamir_vector (tracker self))).

(** [get_key(seg)] for a slot number. *)
Definition get_key (self : KeyLocker) (seg : nat) : outcome (bytes * bytes) :=
  obind (index (tr_key (tracker self)) seg) (fun k =>
  obind (index (tr_vector (tracker self)) seg) (fun v =>
    Ok (phash_at self k, phash_at self v))).

(** [get_prime(data_len)] *)
Definition get_prime (self : KeyLocker) (data_len : Z) : outcome Z :=
  crypto.get_prime data_len (phash_at self (tr_prime (tracker self))).

(** [get_offset(seg)]: a 128 bit pseudorandom number, reduced to a slot
    position. *)
Definition get_offset (self : KeyLocker) (seg : nat) : outcome Z :=
  obind (index (tr_offset (tracker self)) seg) (fun sec =>
    if negb (snd sec <? len (phash self)) then Raise AssertionError
    else if num_slots self =? 0 then Raise ZeroDivisionError
    else
      let big := from_bytes (phash_at self sec) in
      Ok ((big mod num_slots self) * slot_len + salt_len self)).


Definition with_shamir_mode (self : KeyLocker) (b : bool) : KeyLocker :=
  mkKL (phash self) b (testing self) (salt_len self) (area self)
       (storage self) (num_slots self) (slot_target self) (slot_max self)
       (max_reqs self) (salt self) (tracker self).

Definition with_salt (self : KeyLocker) (s : bytes) : KeyLocker :=
  mkKL (phash self) (shamir_mode self) (testing self) (salt_len self)
       (area self) (storage self) (num_slots self) (slot_target self)
       (slot_max self) (max_reqs self) s (tracker self).

(** [not data.end % 64] *)
Definition end_mod64 (data : bitfun.ABA) : bool :=
  bitfun.end_ data mod 64 =? 0.

Local Open Scope monad_scope.

(** *** Slot-count selection *)

(** The floats [.2] and [.1], exactly. *)
Definition float_0_2 : Q := 3602879701896397 # 18014398509481984.
Definition float_0_1 : Q := 3602879701896397 # 36028797018963968.

Definition Qlt_bool (a b : Q) : bool := negb (Qle_bool b a).

(** [get_slot_count(target, sigma)] with [depth] nested calls left; the
    inner call does not pass [sigma] on. *)
Fixpoint get_slot_count_at (depth : nat) (self : KeyLocker) (target : Z)
    (sigma : Q) : M Z :=
  match depth with
  | O => raise RecursionError
  | S depth' =>
      u <- random_float ;;
      if Qlt_bool u float_0_2 then ret target
      else
        small <- (if target >? 6
                  then v <- random_float ;; ret (Qlt_bool v float_0_1)
                  else ret false) ;;
        if (small : bool) then sd_randint 1 (slot_max self - 1)
        else
          ln <- lognormvariate 0 sigma ;;
          let value := fmul (fmul ln 1) (inject_Z target) in
          let value := if Qlt_bool value (inject_Z target)
                       then fmul value 3 else value in
          if Qlt_bool (inject_Z (slot_max self)) value
          then get_slot_count_at depth' self target (1 # 2)
          else if Qlt_bool value 1 then ret 1
          else ret (Qfloor value)
  end.

Definition get_slot_count (self : KeyLocker) (target : Z) : M Z :=
  get_slot_count_at recursion_depth self target (1 # 2).

(** *** Reading *)

(** How a loop body ends. *)
Inductive flow (S : Type) : Type :=
| Continue (s : S)
| Break (s : S)
| ReturnNone.
Arguments Continue {S} s.
Arguments Break {S} s.
Arguments ReturnNone {S}.

Definition truthy (valid : option bitfun.ABA) : bool :=
  match valid with
  | None => false
  | Some a => bitfun.ABA_truth a
  end.

(** The body of the loop of [read_shamir] for one combination; the state
    is [valid] and the running count [tries]. *)
Definition read_shamir_body (prime : Z) (shares : list Z) (giveup : nat)
    (combo : list Z) (st : option bitfun.ABA * nat)
  : outcome (flow (option bitfun.ABA * nat)) :=
  let '(valid, tries) := st in
  let next (valid : option bitfun.ABA) :=
    if negb (giveup =? 0)%nat && (giveup <=? tries)%nat
    then ReturnNone else Continue (valid, S tries) in
  obind (map_outcome (fun seg => index shares (Z.to_nat (seg - 1))) combo)
        (fun vals =>
  obind (shamir.interpolate prime combo vals) (fun r =>
  obind (bitfun.to_bytes r) (fun b =>
  obind (bitfun.ABA_new b 64 [] true) (fun result =>
  obind (bitfun.validate result) (fun '(ok, result') =>
    if (ok : bool) then
      if negb (truthy valid) then Ok (next (Some result'))
      else Ok (Break (valid, tries))
    else Ok (next valid)))))).

Fixpoint read_shamir_combos (prime : Z) (shares : list Z) (giveup : nat)
    (combos : list (list Z)) (st : option bitfun.ABA * nat)
  : outcome (flow (option bitfun.ABA * nat)) :=
  match combos with
  | [] => Ok (Continue st)
  | combo :: rest =>
      obind (read_shamir_body prime shares giveup combo st) (fun f =>
        match f with
        | Continue st' => read_shamir_combos prime shares giveup rest st'
        | other => Ok other
        end)
  end.

Fixpoint read_shamir_sizes (prime : Z) (shares : list Z) (giveup : nat)
    (sizes : list nat) (st : option bitfun.ABA * nat)
  : M (flow (option bitfun.ABA * nat)) :=
  match sizes with
  | [] => ret (Continue st)
  | minimum :: rest =>
      combos <- shamir.combos_of_size (length shares) minimum ;;
      f <- lift (read_shamir_combos prime shares giveup combos st) ;;
      match f with
      | Continue st' => read_shamir_sizes prime shares giveup rest st'
      | other => ret other
      end
  end.

(** [read_shamir(prime, shares, giveup)]: try combinations of shares
    until one validates and a second confirms it. *)
Definition read_shamir (self : KeyLocker) (prime : Z) (shares : list Z)
    (giveup : nat) : M (option bitfun.ABA) :=
  let maximum := if max_reqs self =? 0 then length shares
                 else Z.to_nat (max_reqs self) in
  f <- read_shamir_sizes prime shares giveup (seq 1 maximum) (None, O) ;;
  match f with
  | Continue (valid, _) | Break (valid, _) =>
      ret (if truthy valid then valid else None)
  | ReturnNone => ret None
  end.

(** What the first loop of [read_slot] sees in slot [seg] of a file with
    bytes [f], read in full: the decrypted block and whether it
    validates. *)
Definition slot_block (self : KeyLocker) (f : bytes) (seg : nat)
  : outcome (bool * bitfun.ABA) :=
  obind (get_offset self seg) (fun offset =>
  obind (get_key self seg) (fun kv =>
  obind (crypto.aes_new (fst kv) (snd kv)) (fun ks =>
  let raw := slice f offset (offset + max_len) in
  obind (bitfun.ABA_new (crypto.xor_stream ks 0 raw) 64 [] true)
        bitfun.validate))).

(** The data found in slot [seg], when its block validates. *)
Definition slot_payload (self : KeyLocker) (f : bytes) (seg : nat)
  : option bytes :=
  match slot_block self f seg with
  | Ok (true, a) =>
      match bitfun.ABA_bytes a with
      | Ok (d, _) => Some d
      | _ => None
      end
  | _ => None
  end.

(** The block of slot [seg] is checked without an exception and, when it
    validates, holds the data [x]. *)
Definition slot_agrees (self : KeyLocker) (f x : bytes) (seg : nat) : bool :=
  match slot_block self f seg with
  | Ok (true, a) =>
      match bitfun.ABA_bytes a with
      | Ok (d, _) => bitfun.bytes_eqb d x
      | _ => false
      end
  | Ok (false, _) => true
  | _ => false
  end.

(** The state of the first loop of [read_slot] when no slot was found
    yet, or the first one found holds [x]. *)
Definition scan_inv (x : bytes) (st : Z * option bitfun.ABA) : Prop :=
  0 <= fst st /\
  (1 <= fst st ->
   exists a a', snd st = Some a /\ bitfun.ABA_bytes a = Ok (x, a')).

(** No candidate slot of the file validates with other data than [x]. *)
Definition candidates_agree (self : KeyLocker) (f x : bytes) : bool :=
  forallb (slot_agrees self f x) (seq 0 (Z.to_nat (slot_max self))).

(** The first loop of [read_slot]: the state is [found_count] and the
    first valid slot. *)
Fixpoint read_slot_scan (self : KeyLocker) (segs : list nat)
    (st : Z * option bitfun.ABA) : M (Z * option bitfun.ABA) :=
  match segs with
  | [] => ret st
  | seg :: rest =>
      offset <- lift (get_offset self seg) ;;
      seek offset ;;;
      raw <- file_read max_len ;;
      kv <- lift (get_key self seg) ;;
      dec <- crypto.decrypt_data raw (fst kv) (snd kv) 0 ;;
      data <- lift (bitfun.ABA_new dec 64 [] true) ;;
      r <- lift (bitfun.validate data) ;;
      if (fst r : bool) then
        let found_count := fst st + 1 in
        let valid := if found_count =? 1 then Some (snd r) else snd st in
        if found_count >=? 2 then ret (found_count, valid)
        else read_slot_scan self rest (found_count, valid)
      else read_slot_scan self rest st
  end.

(** The decrypted blocks of all slots, [max_shamir] bytes each. *)
Fixpoint read_datablock (self : KeyLocker) (segs : list nat) : M (list bytes) :=
  match segs with
  | [] => ret []
  | seg :: rest =>
      offset <- lift (get_offset self seg) ;;
      seek offset ;;;
      raw <- file_read max_shamir ;;
      kv <- lift (get_key self seg) ;;
      dec <- crypto.decrypt_data raw (fst kv) (snd kv) 0 ;;
      blocks <- read_datablock self rest ;;
      ret (dec :: blocks)
  end.

(** [[from_bytes(os.urandom(data_len)) for share in datablock]] *)
Fixpoint random_shares (n : nat) (data_len : Z) : M (list Z) :=
  match n with
  | O => ret []
  | S n' =>
      b <- urandom data_len ;;
      rest <- random_shares n' data_len ;;
      ret (from_bytes b :: rest)
  end.

(** The runs of [read_shamir] on random data after a recovery. *)
Fixpoint bogus_runs (self : KeyLocker) (n : nat) (prime : Z)
    (count : nat) (data_len : Z) : M unit :=
  match n with
  | O => ret tt
  | S n' =>
      shares <- random_shares count data_len ;;
      read_shamir self prime shares 99 ;;;
      bogus_runs self n' prime count data_len
  end.

(** The second half of [read_slot]: recover from Shamir shares of one
    width, then the next. *)
Fixpoint read_slot_widths (self : KeyLocker) (datablock : list bytes)
    (widths : list Z) : M bytes :=
  match widths with
  | [] => ret []
  | data_len :: rest =>
      prime <- lift (get_prime self data_len) ;;
      data <- read_shamir self prime
                (map (fun share => from_bytes (slice share 0 data_len)) datablock) 0 ;;
      match data with
      | Some a =>
          bogus_runs self 99 prime (length datablock) data_len ;;;
          d <- lift (bitfun.ABA_bytes a) ;;
          let kv := get_key_shamir self in
          crypto.decrypt_data (fst d) (fst kv) (snd kv) (bitfun.ABA_len (snd d))
      | None => read_slot_widths self datablock rest
      end
  end.

(** [read_slot()]: the data for this password, or nothing. *)
Definition read_slot (self : KeyLocker) : M bytes :=
  order <- sample_range (Z.to_nat (slot_max self)) ;;
  st <- read_slot_scan self order (0, None) ;;
  if fst st >? 0 then
    match snd st with
    | Some valid => d <- lift (bitfun.ABA_bytes valid) ;; ret (fst d)
    | None => raise AttributeError
    end
  else
    datablock <- read_datablock self (seq 0 (Z.to_nat (slot_max self))) ;;
    read_slot_widths self datablock [slot_len; slot_len * 2].

(** *** Writing *)

(** [enumerate(l)] *)
Definition enumerate {A} (l : list A) : list (nat * A) :=
  combine (seq 0 (length l)) l.

(** Write [data], encrypted for slot [seg], at the slot's offset. *)
Definition write_encrypted (self : KeyLocker) (seg : nat) (data : bytes)
  : M unit :=
  offset <- lift (get_offset self seg) ;;
  seek offset ;;;
  kv <- lift (get_key self seg) ;;
  c <- crypto.encrypt_data data (fst kv) (snd kv) true ;;
  file_write c.

(** [write_normal(data)]: the same encrypted array in each chosen slot.
    The display of the offsets is left out. *)
Definition write_normal (self : KeyLocker) (data : bitfun.ABA) : M unit :=
  count <- get_slot_count self (slot_target self) ;;
  let slots := firstn (Z.to_nat (slot_max self))
                 (repeat true (Z.to_nat count)
                  ++ repeat false (Z.to_nat (slot_max self))) in
  slots <- shuffle slots ;;
  for_each (enumerate slots)
    (fun '(seg, val) (_ : unit) =>
       if (val : bool) then
         b <- lift (bitfun.get_arr data) ;;
         write_encrypted self seg b
       else ret tt) tt.

(** Modelled from the spec: [sd.common.chunker(offsets, overlap=True)],
    which is not under src/: the sorted offsets are "pairwise separated
    by at least [data_len]" (section 4.8), neighbour by neighbour. *)
Fixpoint test_offsets (data_len : Z) (offsets : list Z) : bool :=
  match offsets with
  | low :: ((high :: _) as rest) =>
      if high - low <? data_len then false else test_offsets data_len rest
  | _ => true
  end.

(** The loop of [get_valid_slots] with [tries] rounds left. *)
Fixpoint get_valid_slots_loop (tries : nat) (self : KeyLocker)
    (minimum maximum data_len : Z) : M (list bool) :=
  match tries with
  | O => error
  | S tries' =>
      count <- get_slot_count self (slot_target self) ;;
      let valid_count := Z.min maximum (count - 1 + minimum) in
      let valid := repeat true (Z.to_nat valid_count)
                   ++ repeat false (Z.to_nat (maximum - valid_count)) in
      valid <- shuffle valid ;;
      offsets <- lift (map_outcome (fun '(seg, val) => get_offset self seg)
                         (filter (fun '(seg, val) => (val : bool))
                                 (enumerate valid))) ;;
      if test_offsets data_len (sorted offsets) then ret valid
      else get_valid_slots_loop tries' self minimum maximum data_len
  end.

(** [get_valid_slots(minimum, maximum, data_len)] *)
Definition get_valid_slots (self : KeyLocker) (minimum maximum data_len : Z)
  : M (list bool) :=
  get_valid_slots_loop (Z.to_nat (10 ^ 5 - 1)) self minimum maximum data_len.

(** The padding loop of [write_shamir] with [tries] rounds left: random
    padding until the array, as a number, is below the prime. *)
Fixpoint pad_below_prime (tries : nat) (data : bitfun.ABA) (prime : Z)
  : M bitfun.ABA :=
  match tries with
  | O => error
  | S tries' =>
      junk <- crypto.get_random (slot_len * 2) ;;
      data <- bitfun.scramble data (Some junk) ;;
      b <- lift (bitfun.get_arr data) ;;
      if from_bytes b >=? prime then pad_below_prime tries' data prime
      else ret data
  end.

(** [write_shamir(data)]: one share per chosen slot. *)
Definition write_shamir (self : KeyLocker) (data : bitfun.ABA) : M unit :=
  data <- (if end_mod64 data
           then
             b <- lift (bitfun.get_arr data) ;;
             lift (bitfun.prepend
                     (bitfun.mkABA (bitfun.seed data)
                        (Some (b ++ repeat 48 64)) (bitfun.end_ data)
                        (bitfun.datas data) (bitfun.updated data)))
           else ret data) ;;
  b <- lift (bitfun.get_arr data) ;;
  let data_len := len b in
  prime <- lift (get_prime self data_len) ;;
  data <- pad_below_prime (Z.to_nat (10 ^ 5 - 1)) data prime ;;
  count <- get_slot_count self (slot_target self) ;;
  let minimum := Z.min (Z.min (count + 1) (max_reqs self))
                       (slot_max self - slot_target self) in
  b <- lift (bitfun.get_arr data) ;;
  valid <- get_valid_slots self minimum (slot_max self) (len b) ;;
  shares <- shamir.make_shares minimum (Z.to_nat (slot_max self)) prime b
              (Z.to_nat data_len) ;;
  for_each (enumerate shares)
    (fun '(seg, share) (_ : unit) =>
       share <- lift share ;;
       v <- lift (index valid seg) ;;
       if (v : bool) then write_encrypted self seg share else ret tt) tt ;;;
  shuffle valid ;;;
  ret tt.

(** [write_slot(data)]: write data to slots; the vault afterwards (the
    Shamir switch may have been turned off). *)
Definition write_slot (self : KeyLocker) (data : bytes) : M KeyLocker :=
  let self :=
    if shamir_mode self && (len data + bitfun.header >=? max_shamir)
    then with_shamir_mode self false else self in
  aba <- (if shamir_mode self
          then
            let kv := get_key_shamir self in
            enc <- crypto.encrypt_data data (fst kv) (snd kv) true ;;
            lift (bitfun.ABA_new enc slot_len [] false)
          else lift (bitfun.ABA_new data slot_len [] false)) ;;
  aba <- bitfun.scramble aba None ;;
  found <- (if testing self then ret true
            else r <- read_slot self ;; ret (negb (len r =? 0))) ;;
  (if (found : bool) then
     for_each (seq 0 (Z.to_nat (slot_max self)))
       (fun seg (_ : unit) =>
          offset <- lift (get_offset self seg) ;;
          seek offset ;;;
          junk <- crypto.get_random slot_len ;;
          file_write junk) tt
   else ret tt) ;;;
  (if shamir_mode self then write_shamir self aba
   else write_normal self aba) ;;;
  r <- read_slot self ;;
  if len r =? 0 then error else ret self.

(** [KeyLocker(file, phash, seed, shamir_mode, testing)] *)
Definition KeyLocker_new (ph seed : bytes) (shamir testing : bool)
  : M KeyLocker :=
  filesize <- get_size ;;
  self <- lift (set_boundaries filesize shamir testing) ;;
  seek 0 ;;;
  head <- file_read (salt_len self) ;;
  seek (filesize - salt_len self) ;;;
  tail <- file_read (salt_len self) ;;
  let self := with_salt self (head ++ tail ++ seed) in
  match ph with
  | [] => ret self
  | _ :: _ => lift (set_phash self ph)
  end.

End WithExternals.

(** *** Wiping *)

(** [file.seek(offset, 2)]: a position counted from the end of the file.
    A position before the start of the file is an error. *)
Definition seek_end (offset : Z) : M unit :=
  fun w => seek (len (content w) + offset) w.

(** One round of [wipe]: random bytes over the leading salt and the slot
    area, then over the trailing salt.  Flushing, syncing, the pause and
    the dot printed are left out. *)
Definition wipe_round (self : KeyLocker) : M unit :=
  (seek 0 ;;;
   junk <- urandom (salt_len self + area self) ;;
   file_write junk ;;;
   seek_end (- salt_len self) ;;;
   junk <- urandom (salt_len self) ;;
   file_write junk)%monad.

(** [wipe(reps)]; [can_write] tells whether the mode of the file has a
    ['w'] or a ['+']. *)
Definition wipe (can_write : bool) (self : KeyLocker) (reps : nat) : M unit :=
  if negb can_write then ret tt
  else for_each (seq 0 reps) (fun _ (_ : unit) => wipe_round self) tt.

End slots.

(** ** What a run leaves alone *)

Module frame.

(** Only the tape moved. *)
Definition tape_only (w w' : world) : Prop :=
  content w' = content w /\ position w' = position w /\ io w' = io w.

Definition quiet {A} (m : M A) : Prop := forall w, tape_only w (snd (m w)).

Definition is_read (e : io_event) : Prop :=
  match e with
  | IORead _ _ => True
  | IOWrite _ _ => False
  end.

(** The file was read at most. *)
Definition read_only (w w' : world) : Prop :=
  content w' = content w /\
  exists evs, io w' = io w ++ evs /\ Forall is_read evs.

Definition reads {A} (m : M A) : Prop := forall w, read_only w (snd (m w)).

Section Area.

(** The slot area lies from [lo] up to [hi]. *)
Variables lo hi : Z.

Definition write_in_area (e : io_event) : Prop :=
  match e with
  | IORead _ _ => True
  | IOWrite offset count => lo <= offset /\ offset + count <= hi
  end.

(** Every write fell within the slot area, and the file is as long as it
    was and holds the same bytes before [lo] and from [hi] on. *)
Definition framed (w w' : world) : Prop :=
  len (content w') = len (content w) /\
  firstn (Z.to_nat lo) (content w') = firstn (Z.to_nat lo) (content w) /\
  skipn (Z.to_nat hi) (content w') = skipn (Z.to_nat hi) (content w) /\
  exists evs, io w' = io w ++ evs /\ Forall write_in_area evs.

(** [m] keeps to the slot area of a file that holds it, and what it
    returns satisfies [Q]. *)
Definition keeps {A} (m : M A) (Q : A -> Prop) : Prop :=
  forall w, hi <= len (content w) ->
    framed w (snd (m w)) /\ forall a, fst (m w) = Ok a -> Q a.

End Area.

(** An array object whose end mark is not negative and whose array, when
    set, holds at most [n] bytes. *)
Definition sized (n : Z) (a : bitfun.ABA) : Prop :=
  0 <= bitfun.end_ a /\
  forall b, bitfun.arr a = Some b -> len b <= n.

End frame.

(** ** Polynomials over the integers, for the interpolation proofs

    A coefficient list, lowest degree first. *)

Module poly.

Fixpoint peval (l : list Z) (x : Z) : Z :=
  match l with
  | [] => 0
  | c :: l' => c + x * peval l' x
  end.

Fixpoint padd (l1 l2 : list Z) : list Z :=
  match l1, l2 with
  | [], _ => l2
  | _, [] => l1
  | a :: l1', b :: l2' => (a + b) :: padd l1' l2'
  end.

Definition pscale (k : Z) (l : list Z) : list Z := map (Z.mul k) l.

(** Multiplication by [x - o]. *)
Definition pmul_lin (o : Z) (l : list Z) : list Z :=
  padd (0 :: l) (pscale (- o) l).

(** The polynomial whose roots are the elements of [os]. *)
Fixpoint poly_of_roots (os : list Z) : list Z :=
  match os with
  | [] => [1]
  | o :: os' => pmul_lin o (poly_of_roots os')
  end.

(** Division by [x - r]: quotient and remainder. *)
Fixpoint sdiv (r : Z) (l : list Z) : list Z * Z :=
  match l with
  | [] => ([], 0)
  | a :: l' =>
      match l' with
      | [] => ([], a)
      | _ :: _ => let (q, rm) := sdiv r l' in (rm :: q, a + r * rm)
      end
  end.

(** All coefficients vanish modulo [p]. *)
Definition allz (p : Z) (l : list Z) : Prop :=
  Forall (fun c => c mod p = 0) l.

(** Pairwise distinct modulo [p]. *)
Fixpoint distinct_mod (p : Z) (xs : list Z) : Prop :=
  match xs with
  | [] => True
  | r :: xs' => (forall x, In x xs' -> ~ (p | x - r)) /\ distinct_mod p xs'
  end.

Definition sumZ (l : list Z) : Z := fold_right Z.add 0 l.

(** [f] is a polynomial function with at most [k] coefficients. *)
Definition is_poly (k : nat) (f : Z -> Z) : Prop :=
  exists l, (length l <= k)%nat /\ forall x, f x = peval l x.

End poly.

(** ** Concrete inputs, for evaluating the model *)

Module fixtures.

(** Stand-ins for the outside world, to run the model on: a digest of 64
    bytes that depends on the data, a keystream that depends on key and
    position, exact arithmetic for the floats. *)
Definition toy_digest_byte (data : bytes) (i : nat) : byte :=
  (fold_right Z.add 0 data + Z.of_nat i * 7 + 13) mod 256.

Definition toy_sha512 (data : bytes) : bytes :=
  map (toy_digest_byte data) (seq 0 64).

Definition toy_sha512_length (data : bytes)
  : length (toy_sha512 data) = 64%nat :=
  eq_trans (length_map (toy_digest_byte data) (seq 0 64)) (length_seq 64 0).

Definition toy_externals : Externals := {|
  sha512 := toy_sha512;
  sha512_length := toy_sha512_length;
  aes_ofb := fun key vector i => (nth 0 key 0 + 3 * Z.of_nat i) mod 256;
  getPrime := fun bits randfunc => 257;
  roundint := fun num multiple => (num / multiple) * multiple;
  ceil_log256 := fun integer => Z.log2 integer / 8 + 1;
  fmul := Qmult;
  recursion_depth := 1000
|}.

(** A password hash of 1400 bytes. *)
Definition phash_1400 : bytes :=
  map (fun i => Z.of_nat (i * 7 + i / 5) mod 256) (seq 0 1400).

(** The layout of a file of 2000 bytes: 62 bytes of salt at each end,
    25 slots, 17 candidates. *)
Definition vault_2000 : slots.KeyLocker :=
  slots.mkKL [] false true 62 1876 0 25 8 17 4 [] slots.empty_tracker.

(** The same vault with the password hash set. *)
Definition vault_2000_open : slots.KeyLocker :=
  match slots.set_phash vault_2000 phash_1400 with
  | Ok k => k
  | _ => vault_2000
  end.

(** A file of 2000 bytes. *)
Definition file_2000 : bytes := repeat 255 2000.

(** Two files of 2000 bytes with different contents, and the vaults the
    constructor makes over them with the same password hash, different
    salt seeds and different switches. *)
Definition world_a : world := mkWorld [] file_2000 0 [].
Definition world_b : world := mkWorld [DInt 5] (repeat 17 2000) 0 [].

Definition vault_a : slots.KeyLocker :=
  match fst (@slots.KeyLocker_new toy_externals phash_1400 [] true true world_a) with
  | Ok k => k
  | _ => vault_2000
  end.

Definition vault_b : slots.KeyLocker :=
  match fst (@slots.KeyLocker_new toy_externals phash_1400 [1; 2; 3] false false world_b) with
  | Ok k => k
  | _ => vault_2000
  end.

(** A secret of five bytes, and a file of 2000 bytes with the random
    draws one write in testing mode and one read take: the bytes that
    fill the array, the bytes that wipe the 17 candidate slots, the
    float of the slot count, and the orders of the write and the read. *)
Definition secret_hello : bytes := [104; 101; 108; 108; 111].

Definition tape_write : list draw :=
  [DBytes (repeat 7 50)] ++ repeat (DBytes (repeat 9 64)) 17
  ++ [DFloat (1 # 10); DPerm (rev (seq 0 17)); DPerm (seq 0 17)].

Definition world_write : world := mkWorld tape_write file_2000 0 [].

(** The world after the secret was written, and a world with the same
    file in which [read_slot] samples the slots in increasing order. *)
Definition world_written : world :=
  snd (@slots.write_slot toy_externals vault_2000_open secret_hello
         world_write).

Definition world_reread : world :=
  mkWorld [DPerm (seq 0 17)] (content world_written) 0 [].

(** A vault over a file of 220000 bytes, which is large enough to have
    storage: 4583 bytes of salt at each end, a slot area of 105417 bytes
    and 105417 bytes of storage. *)
Definition vault_220000 : slots.KeyLocker :=
  match @slots.set_boundaries toy_externals 220000 true true with
  | Ok k => k
  | _ => vault_2000
  end.

Definition vault_220000_open : slots.KeyLocker :=
  match slots.set_phash vault_220000 phash_1400 with
  | Ok k => k
  | _ => vault_220000
  end.

(** A secret of 120 bytes, which with its header goes past
    [max_shamir], and the file of that vault with the random draws one
    write of it in testing mode takes: the bytes that fill the array,
    the bytes that wipe the 17 candidate slots, the float of the slot
    count, and the orders of the write and the read. *)
Definition secret_120 : bytes := repeat 65 120.

Definition world_write_220000 : world :=
  mkWorld ([DBytes (repeat 7 63)] ++ repeat (DBytes (repeat 9 64)) 17
           ++ [DFloat (1 # 10); DPerm (rev (seq 0 17)); DPerm (seq 0 17)])
          (repeat 255 (Z.to_nat 220000)) 0 [].

(** The file of that vault, with the random bytes that three rounds of
    [wipe] take. *)
Definition world_wipe_220000 : world :=
  mkWorld (concat (repeat [DBytes (repeat 1 (Z.to_nat 110000)); DBytes (repeat 2 4583)]
                          3))
          (repeat 255 (Z.to_nat 220000)) 7 [].

End fixtures.

(** ** bitfun.py: FileMapper

    Sections of a file put together to make an abstract file.  The file
    underneath ([self.src]) is the file of the world. *)

Module filemapper.

Record FileMapper : Type := mkFM {
  mapper : list Z;        (* length of each mapped section *)
  starts : list Z;        (* where each section starts in the file *)
  section : nat;          (* which section is in use *)
  mapper_ptr : Z;         (* where in that section *)
  pos : Z;                (* position in the abstract file *)
  size : Z;               (* total size of the abstract file *)
  max_section : Z
}.

Inductive rw_mode : Type := ModeRead | ModeWrite | ModeSeek.

(** [self.src.seek(count, 1)]: a position counted from the current one.
    A position before the start of the file is an error. *)
Definition seek_rel (count : Z) : M unit :=
  fun w => seek (position w + count) w.

(** [self.src.read(count)] of a buffered file: -1 reads to the end, and
    a count below -1 is an error. *)
Definition src_read (count : Z) : M bytes :=
  fun w =>
    if count <? -1 then (Raise ValueError, w)
    else if count =? -1 then file_read (len (content w) - position w) w
    else file_read count w.

(** [update_seek()]: put the file at the start of the section. *)
Definition update_seek (fm : FileMapper) : M unit :=
  (s <- lift (slots.index (starts fm) (section fm)) ;; seek s)%monad.

(** The two loops of [__init__] over [maps]: the assertion, the lengths
    and the starts. *)
Fixpoint scan_maps (maps : list (Z * Z)) : outcome (list Z * list Z) :=
  match maps with
  | [] => Ok ([], [])
  | (start, stop) :: rest =>
      if negb (stop >? start) then Raise AssertionError
      else obind (scan_maps rest) (fun '(lens, sts) =>
             Ok ((stop - start) :: lens, start :: sts))
  end.

(** [FileMapper(name, *maps)]; opening the file puts it at position 0. *)
Definition FileMapper_new (maps : list (Z * Z)) : M FileMapper :=
  (seek 0 ;;;
   ms <- lift (scan_maps maps) ;;
   let fm := mkFM (fst ms) (snd ms) 0 0 0 (fold_right Z.add 0 (fst ms))
                  (len (fst ms) - 1) in
   update_seek fm ;;;
   ret fm)%monad.

(** [_rw(request, mode, data)] with [fuel] nested calls left: what it
    returns ([None] where the source returns nothing) and the object
    afterwards. *)
Fixpoint _rw (fuel : nat) (fm : FileMapper) (request : Z) (mode : rw_mode)
    (data : bytes) : M (option bytes * FileMapper) :=
  match fuel with
  | O => raise RecursionError
  | S fuel' =>
      (if pos fm >=? size fm then
         ret (match mode with ModeRead => Some [] | _ => None end, fm)
       else
         sec_len <- lift (slots.index (mapper fm) (section fm)) ;;
         let avail := sec_len - mapper_ptr fm in
         let count := if avail >=? request then request else avail in
         got <- match mode with
                | ModeRead => src_read count
                | ModeWrite =>
                    file_write (bitfun.py_slice data 0 count) ;;; ret data
                | ModeSeek => seek_rel count ;;; ret data
                end ;;
         let avail := avail - count in
         fm <- (if (avail =? 0) && (Z.of_nat (section fm) <? max_section fm)
                then
                  let fm' := mkFM (mapper fm) (starts fm) (S (section fm)) 0
                                  (pos fm + count) (size fm)
                                  (max_section fm) in
                  update_seek fm' ;;; ret fm'
                else
                  ret (mkFM (mapper fm) (starts fm) (section fm)
                            (mapper_ptr fm + count) (pos fm + count)
                            (size fm) (max_section fm))) ;;
         if request >? count then
           match mode with
           | ModeRead =>
               (* [data + self._rw(...)]: in read mode every call
                  returns bytes, so the last case is never met *)
               r <- _rw fuel' fm (request - count) mode data ;;
               match fst r with
               | Some rest => ret (Some (got ++ rest), snd r)
               | None => raise SystemExit
               end
           | ModeWrite =>
               _rw fuel' fm (request - count) mode
                   (bitfun.py_slice got count (len got))
           | ModeSeek => _rw fuel' fm (request - count) mode data
           end
         else
           ret (match mode with ModeRead => Some got | _ => None end, fm))%monad
  end.

Section WithExternals.

Context {ext : Externals}.

(** [read(count)]: what [_rw] returns in read mode, which is bytes. *)
Definition read (fm : FileMapper) (count : Z) : M (bytes * FileMapper) :=
  (r <- _rw recursion_depth fm count ModeRead [] ;;
   match fst r with
   | Some b => ret (b, snd r)
   | None => raise SystemExit
   end)%monad.

(** [write(data)]; the flush is left out. *)
Definition write (fm : FileMapper) (data : bytes) : M FileMapper :=
  (r <- _rw recursion_depth fm (len data) ModeWrite data ;;
   ret (snd r))%monad.

(** [seek(count, 0)] once [count] is not negative: from the beginning of
    the abstract file. *)
Definition seek_from_start (fm : FileMapper) (count : Z) : M FileMapper :=
  (let count := if count <? 0 then 0 else count in
   let fm := mkFM (mapper fm) (starts fm) 0 0 0 (size fm) (max_section fm) in
   update_seek fm ;;;
   r <- _rw recursion_depth fm count ModeSeek [] ;;
   ret (snd r))%monad.

(** [seek(count, ref)]; [ref] is [None], 0, 1 or 2. *)
Definition seek_to (fm : FileMapper) (count : Z) (ref : option Z)
  : M FileMapper :=
  (let ref := match ref with
              | None => if count <? 0 then 2 else 0
              | Some r => r
              end in
   if ref =? 0 then seek_from_start fm count
   else if ref =? 1 then
     if count <? 0 then
       if mapper_ptr fm >? - count then
         seek_rel count ;;;
         ret (mkFM (mapper fm) (starts fm) (section fm)
                   (mapper_ptr fm + count) (pos fm + count)
                   (size fm) (max_section fm))
       else seek_from_start fm (pos fm + count)
     else
       r <- _rw recursion_depth fm count ModeSeek [] ;; ret (snd r)
   else if ref =? 2 then seek_from_start fm (size fm + count)
   else ret fm)%monad.

End WithExternals.

(** [tell()] *)
Definition tell (fm : FileMapper) : Z := pos fm.

(** The lengths of the sections before section [i], added up. *)
Definition before (lens : list Z) (i : nat) : Z :=
  fold_right Z.add 0 (firstn i lens).

(** The abstract file: the mapped sections of the file, one after the
    other. *)
Definition abstract (fm : FileMapper) (f : bytes) : bytes :=
  concat (map (fun '(s, l) => slice f s (s + l))
              (combine (starts fm) (mapper fm))).

(** The sections are laid out over a file of [n] bytes: none is empty,
    each lies within the file, and the totals are what [__init__] set. *)
Definition laid_out (fm : FileMapper) (n : Z) : Prop :=
  length (starts fm) = length (mapper fm) /\
  Forall (fun l => 0 < l) (mapper fm) /\
  (forall i s l, nth_error (starts fm) i = Some s ->
                 nth_error (mapper fm) i = Some l -> 0 <= s /\ s + l <= n) /\
  size fm = fold_right Z.add 0 (mapper fm) /\
  max_section fm = len (mapper fm) - 1.

(** The object is in order over a file of [n] bytes that stands at
    [src_pos]: the sections are laid out, the pointers agree with each
    other and with the file, and the section in use is left at its end
    only when it is the last one. *)
Definition in_order (fm : FileMapper) (n : Z) (src_pos : Z) : Prop :=
  laid_out fm n /\
  exists s l,
    nth_error (starts fm) (section fm) = Some s /\
    nth_error (mapper fm) (section fm) = Some l /\
    0 <= mapper_ptr fm <= l /\
    (mapper_ptr fm = l -> Z.of_nat (section fm) = max_section fm) /\
    pos fm = before (mapper fm) (section fm) + mapper_ptr fm /\
    src_pos = s + mapper_ptr fm.

(** A place of the file that no section covers. *)
Definition outside (fm : FileMapper) (x : Z) : Prop :=
  forall i s l,
    nth_error (starts fm) i = Some s -> nth_error (mapper fm) i = Some l ->
    x < s \/ s + l <= x.

(** No two sections overlap. *)
Definition disjoint (fm : FileMapper) : Prop :=
  forall i j si li sj lj,
    i <> j ->
    nth_error (starts fm) i = Some si -> nth_error (mapper fm) i = Some li ->
    nth_error (starts fm) j = Some sj -> nth_error (mapper fm) j = Some lj ->
    si + li <= sj \/ sj + lj <= si.

(** [x] brought into the range from 0 to [n]. *)
Definition clamp (x n : Z) : Z := Z.max 0 (Z.min x n).

(** Where [seek(count, ref)] aims in the abstract file: [ref] 0 counts
    from the start, 1 from the position, 2 from the end; without [ref] a
    negative count is from the end; any other [ref] moves nothing. *)
Definition seek_target (fm : FileMapper) (count : Z) (ref : option Z) : Z :=
  match ref with
  | None => if count <? 0 then size fm + count else count
  | Some r =>
      if r =? 0 then count
      else if r =? 1 then pos fm + count
      else if r =? 2 then size fm + count
      else pos fm
  end.

End filemapper.

(** Objects for the examples: the file mapper of the class's own example
    over a file of 30 bytes. *)
Module mapper_fixtures.

Import filemapper.

(** A file of 30 bytes, each byte the number of its place. *)
Definition file_30 : bytes := map Z.of_nat (seq 0 30).

(** [maps=(10, 15), (20, 25)] *)
Definition maps_two : list (Z * Z) := [(10, 15); (20, 25)].

Definition world_30 : world := mkWorld [] file_30 0 [].

(** The object [FileMapper(name, (10, 15), (20, 25))] makes, and the file
    at the start of its first section. *)
Definition fm_two : FileMapper := mkFM [5; 5] [10; 20] 0 0 0 10 1.
Definition world_two : world := mkWorld [] file_30 10 [].

(** The same object three bytes into the abstract file. *)
Definition fm_two_at_3 : FileMapper := mkFM [5; 5] [10; 20] 0 3 3 10 1.
Definition world_two_at_3 : world := mkWorld [] file_30 13 [].

End mapper_fixtures.


(** * Properties *)

(** ** Modular division *)

Section DivMod.

Import shamir.

(** The loop keeps both pairs of Bezout coefficients in step with the
    pair it reduces, and ends on the greatest common divisor. *)
Lemma divmod_loop_bezout (den0 p0 : Z) :
  forall den prime x last_x y last_y,
    0 < den -> 0 <= prime ->
    last_x * den0 + last_y * p0 = den ->
    x * den0 + y * p0 = prime ->
    let r := divmod_loop den prime x last_x y last_y in
    fst r * den0 + snd r * p0 = Z.gcd den prime.
Proof.
  intros den prime x last_x y last_y.
  funelim (divmod_loop den prime x last_x y last_y); intros Hden Hprime Hl Hx.
  - subst prime. cbn. rewrite Z.gcd_0_r, Z.abs_eq by lia. exact Hl.
  - cbn zeta in *.
    rewrite H.
    + rewrite Z.gcd_comm, Z.gcd_mod by assumption. apply Z.gcd_comm.
    + lia.
    + apply Z.mod_pos_bound. lia.
    + exact Hx.
    + rewrite (Z.mod_eq den prime) by assumption.
      generalize (den / prime); intros q.
      rewrite <- Hl, <- Hx. ring.
Qed.

Lemma divmod_first_step (den p : Z) :
  p <> 0 ->
  divmod_loop den p 0 1 1 0 =
  divmod_loop p (den mod p) (1 - den / p * 0) 0 (0 - den / p * 1) 1.
Proof.
  intros Hp. etransitivity; [apply divmod_loop_equation_1|].
  destruct (Z.eq_dec p 0) as [e|n]; [contradiction|]. reflexivity.
Qed.

Lemma divmod_inverse (den p : Z) :
  Z.prime p -> ~ (p | den) ->
  exists t, fst (divmod_loop den p 0 1 1 0) * den + t * p = 1.
Proof.
  intros Hp Hnd.
  assert (Hp1 : 1 < p) by (destruct Hp; assumption).
  exists (snd (divmod_loop den p 0 1 1 0)).
  rewrite divmod_first_step by lia.
  pose proof (divmod_loop_bezout den p p (den mod p)
                (1 - den / p * 0) 0 (0 - den / p * 1) 1) as HB.
  cbn zeta in HB. rewrite HB.
  - rewrite Z.gcd_comm, Z.gcd_mod by lia.
    apply Z.coprime_prime_l; assumption.
  - lia.
  - apply Z.mod_pos_bound. lia.
  - ring.
  - rewrite (Z.mod_eq den p) by lia. ring.
Qed.

End DivMod.

(** ** Polynomials with many roots modulo a prime *)

Section Roots.

Import poly.

Variable p : Z.
Hypothesis p_prime : Z.prime p.

Lemma p_nonzero : p <> 0.
Proof. destruct p_prime; lia. Qed.

Lemma mod0_divide c : c mod p = 0 <-> (p | c).
Proof. exact (Z.mod_divide c p p_nonzero). Qed.

Lemma peval_allz l x : allz p l -> peval l x mod p = 0.
Proof.
  induction 1 as [|c l Hc _ IH]; [apply Zmod_0_l|].
  cbn [peval]. apply mod0_divide. apply mod0_divide in Hc, IH.
  apply Z.divide_add_r; [assumption|].
  apply Z.divide_mul_r; assumption.
Qed.

Lemma sdiv_cons2 r a b l :
  sdiv r (a :: b :: l) =
  (snd (sdiv r (b :: l)) :: fst (sdiv r (b :: l)),
   a + r * snd (sdiv r (b :: l))).
Proof.
  change (sdiv r (a :: b :: l))
    with (let (q, rm) := sdiv r (b :: l) in (rm :: q, a + r * rm)).
  destruct (sdiv r (b :: l)); reflexivity.
Qed.

Lemma sdiv_eval r l x :
  peval l x = (x - r) * peval (fst (sdiv r l)) x + snd (sdiv r l).
Proof.
  induction l as [|a l IH]; [cbn; ring|].
  destruct l as [|b l']; [cbn; ring|].
  rewrite sdiv_cons2. cbn [fst snd].
  change (peval (a :: b :: l') x) with (a + x * peval (b :: l') x).
  rewrite IH. cbn [peval]. ring.
Qed.

Lemma sdiv_length r l : length (fst (sdiv r l)) = pred (length l).
Proof.
  induction l as [|a l IH]; [reflexivity|].
  destruct l as [|b l']; [reflexivity|].
  rewrite sdiv_cons2. cbn [fst length] in *. rewrite IH. reflexivity.
Qed.

Lemma sdiv_allz r l :
  allz p (fst (sdiv r l)) -> snd (sdiv r l) mod p = 0 -> allz p l.
Proof.
  induction l as [|a l IH]; [constructor|].
  destruct l as [|b l'].
  - cbn. intros _ Ha. repeat constructor. exact Ha.
  - rewrite sdiv_cons2. cbn [fst snd]. intros Hq Hrm.
    unfold allz in Hq. apply Forall_cons_iff in Hq as [Hrm0 Hq0].
    constructor.
    + apply mod0_divide. apply mod0_divide in Hrm, Hrm0.
      replace a with ((a + r * snd (sdiv r (b :: l')))
                      - r * snd (sdiv r (b :: l'))) by ring.
      apply Z.divide_sub_r; [assumption|].
      apply Z.divide_mul_r; assumption.
    + apply IH; assumption.
Qed.

(** A polynomial with at most [k] coefficients that vanishes modulo [p]
    at [k] points distinct modulo [p] vanishes identically modulo [p]. *)
Lemma roots_allz :
  forall xs l,
    (length l <= length xs)%nat ->
    distinct_mod p xs ->
    (forall x, In x xs -> peval l x mod p = 0) ->
    allz p l.
Proof.
  assert (Hp : p <> 0) by (destruct p_prime; lia).
  induction xs as [|r xs IH]; intros l Hlen Hd Hroots.
  - destruct l; [constructor | cbn in Hlen; lia].
  - destruct Hd as [Hr Hd].
    apply (sdiv_allz r).
    + apply IH.
      * rewrite sdiv_length. cbn in Hlen. lia.
      * exact Hd.
      * intros x Hx.
        pose proof (Hroots x (or_intror Hx)) as H0.
        pose proof (Hroots r (or_introl eq_refl)) as Hr0.
        rewrite (sdiv_eval r l r) in Hr0.
        replace ((r - r) * peval (fst (sdiv r l)) r + snd (sdiv r l))
          with (snd (sdiv r l)) in Hr0 by ring.
        rewrite (sdiv_eval r l x) in H0.
        apply mod0_divide in H0, Hr0.
        assert (Hm : (p | (x - r) * peval (fst (sdiv r l)) x)).
        { replace ((x - r) * peval (fst (sdiv r l)) x)
            with (((x - r) * peval (fst (sdiv r l)) x + snd (sdiv r l))
                  - snd (sdiv r l)) by ring.
          apply Z.divide_sub_r; assumption. }
        apply Z.divide_prime_mul in Hm; [|assumption].
        destruct Hm as [Hm|Hm]; [elim (Hr x Hx Hm)|].
        apply mod0_divide; assumption.
    + pose proof (Hroots r (or_introl eq_refl)) as Hr0.
      rewrite (sdiv_eval r l r) in Hr0.
      replace ((r - r) * peval (fst (sdiv r l)) r + snd (sdiv r l))
        with (snd (sdiv r l)) in Hr0 by ring.
      exact Hr0.
Qed.

(** Hence a polynomial function of that size is zero modulo [p]
    everywhere. *)
Lemma is_poly_roots (xs : list Z) (f : Z -> Z) :
  is_poly (length xs) f ->
  distinct_mod p xs ->
  (forall x, In x xs -> f x mod p = 0) ->
  forall x, f x mod p = 0.
Proof.
  intros [l [Hlen Hf]] Hd Hroots x.
  rewrite Hf. apply peval_allz.
  apply (roots_allz xs); [assumption|assumption|].
  intros y Hy. rewrite <- Hf. apply Hroots, Hy.
Qed.

End Roots.

(** ** Polynomial functions *)

Section PolyFun.

Import poly.

Lemma peval_padd l1 l2 x : peval (padd l1 l2) x = peval l1 x + peval l2 x.
Proof.
  revert l2; induction l1 as [|a l1 IH]; intros [|b l2]; cbn; try ring.
  rewrite IH. ring.
Qed.

Lemma length_padd l1 l2 :
  length (padd l1 l2) = Nat.max (length l1) (length l2).
Proof.
  revert l2; induction l1 as [|a l1 IH]; intros [|b l2]; cbn; try reflexivity.
  rewrite IH. reflexivity.
Qed.

Lemma peval_pscale k l x : peval (pscale k l) x = k * peval l x.
Proof.
  induction l as [|a l IH]; cbn; [ring|].
  unfold pscale in IH. rewrite IH. ring.
Qed.

Lemma peval_pmul_lin o l x : peval (pmul_lin o l) x = (x - o) * peval l x.
Proof.
  unfold pmul_lin. rewrite peval_padd, peval_pscale. cbn. ring.
Qed.

Lemma length_pmul_lin o l : length (pmul_lin o l) = S (length l).
Proof.
  unfold pmul_lin, pscale. rewrite length_padd, length_map.
  cbn [length]. lia.
Qed.

Lemma is_poly_add k f g :
  is_poly k f -> is_poly k g -> is_poly k (fun x => f x + g x).
Proof.
  intros [lf [Hlf Hf]] [lg [Hlg Hg]].
  exists (padd lf lg). split.
  - rewrite length_padd. lia.
  - intros x. rewrite peval_padd, Hf, Hg. reflexivity.
Qed.

Lemma is_poly_scale k c f : is_poly k f -> is_poly k (fun x => c * f x).
Proof.
  intros [lf [Hlf Hf]].
  exists (pscale c lf). split.
  - unfold pscale. rewrite length_map. exact Hlf.
  - intros x. rewrite peval_pscale, Hf. reflexivity.
Qed.

Lemma is_poly_sum {A} k (g : A -> Z -> Z) (cs : list A) :
  (forall c, In c cs -> is_poly k (g c)) ->
  is_poly k (fun x => sumZ (map (fun c => g c x) cs)).
Proof.
  induction cs as [|c cs IH]; intros H.
  - exists []. split; [cbn; lia|]. reflexivity.
  - cbn. apply is_poly_add.
    + apply H. left. reflexivity.
    + apply IH. intros c' Hc'. apply H. right. exact Hc'.
Qed.

Lemma is_poly_peval k l : (length l <= k)%nat -> is_poly k (peval l).
Proof. intros H. exists l. split; [exact H|reflexivity]. Qed.

End PolyFun.

(** ** Products of linear factors *)

Section Products.

Import shamir poly.

Lemma fold_mul_acc l a : fold_left Z.mul l a = a * fold_left Z.mul l 1.
Proof.
  revert a; induction l as [|b l IH]; intros a; cbn [fold_left]; [ring|].
  rewrite (IH (a * b)), (IH (1 * b)). ring.
Qed.

Lemma product_cons a l : product (a :: l) = a * product l.
Proof.
  unfold product. cbn [fold_left]. rewrite fold_mul_acc. ring.
Qed.

Lemma product_nil : product [] = 1.
Proof. reflexivity. Qed.

Lemma product_zero l : In 0 l -> product l = 0.
Proof.
  induction l as [|a l IH]; intros H; [destruct H|].
  rewrite product_cons. destruct H as [->|H]; [ring|].
  rewrite IH by assumption. ring.
Qed.

(** [prod (x - o for o in os)]. *)
Lemma lin_prod_poly os x :
  product (map (fun o => x - o) os) = peval (poly_of_roots os) x.
Proof.
  induction os as [|o os IH]; cbn [map poly_of_roots].
  - rewrite product_nil. cbn [peval]. ring.
  - rewrite product_cons, peval_pmul_lin, IH. reflexivity.
Qed.

Lemma length_poly_of_roots os : length (poly_of_roots os) = S (length os).
Proof.
  induction os as [|o os IH]; [reflexivity|].
  cbn [poly_of_roots]. rewrite length_pmul_lin, IH. reflexivity.
Qed.

Lemma product_not_divisible p l :
  Z.prime p -> (forall a, In a l -> ~ (p | a)) -> ~ (p | product l).
Proof.
  intros Hp. induction l as [|a l IH]; intros H.
  - rewrite product_nil. intros Hd.
    apply Z.divide_1_r in Hd. destruct Hp. lia.
  - rewrite product_cons. intros Hd.
    apply Z.divide_prime_mul in Hd; [|assumption].
    destruct Hd as [Hd|Hd].
    + apply (H a); [left; reflexivity|assumption].
    + apply IH; [|assumption]. intros b Hb. apply H. right. exact Hb.
Qed.

Lemma others_length {A} (xs : list A) (c : nat) :
  (c < length xs)%nat -> length (firstn c xs ++ skipn (S c) xs) = pred (length xs).
Proof.
  intros H. rewrite length_app, length_firstn, length_skipn. lia.
Qed.

Lemma others_in (xs : list Z) (c j : nat) :
  (j < length xs)%nat -> j <> c -> In (nth j xs 0) (others xs c).
Proof.
  intros Hj Hne. unfold others. apply in_or_app.
  destruct (Nat.lt_ge_cases j c) as [Hlt|Hge].
  - left. rewrite <- (firstn_skipn c xs) at 1.
    rewrite app_nth1 by (rewrite length_firstn; lia).
    apply nth_In. rewrite length_firstn. lia.
  - right. rewrite <- (firstn_skipn (S c) xs) at 1.
    rewrite app_nth2 by (rewrite length_firstn; lia).
    apply nth_In. rewrite length_firstn, length_skipn. lia.
Qed.

Lemma in_others (xs : list Z) (c : nat) (o : Z) :
  In o (others xs c) ->
  exists j, (j < length xs)%nat /\ j <> c /\ nth j xs 0 = o.
Proof.
  unfold others. intros H. apply in_app_or in H. destruct H as [H|H].
  - apply (In_nth _ _ 0) in H. destruct H as [j [Hj Hn]].
    rewrite length_firstn in Hj.
    exists j. repeat split; try lia.
    rewrite <- (firstn_skipn c xs).
    rewrite app_nth1 by (rewrite length_firstn; lia). exact Hn.
  - apply (In_nth _ _ 0) in H. destruct H as [j [Hj Hn]].
    rewrite length_skipn in Hj.
    exists (S c + j)%nat. repeat split; try lia.
    rewrite <- (firstn_skipn (S c) xs).
    rewrite app_nth2 by (rewrite length_firstn; lia).
    rewrite length_firstn.
    replace (S c + j - Nat.min (S c) (length xs))%nat with j by lia.
    exact Hn.
Qed.

Lemma distinct_mod_nth p xs :
  distinct_mod p xs ->
  forall i j, (i < length xs)%nat -> (j < length xs)%nat -> i <> j ->
              ~ (p | nth i xs 0 - nth j xs 0).
Proof.
  induction xs as [|r xs IH]; intros Hd i j Hi Hj Hne; [cbn in Hi; lia|].
  destruct Hd as [Hr Hd]. cbn in Hi, Hj.
  destruct i as [|i], j as [|j]; cbn [nth].
  - lia.
  - intros H. apply (Hr (nth j xs 0)).
    + apply nth_In. lia.
    + apply Z.divide_opp_r in H.
      replace (nth j xs 0 - r) with (- (r - nth j xs 0)) by ring. exact H.
  - apply Hr. apply nth_In. lia.
  - apply IH; [assumption|lia|lia|lia].
Qed.

End Products.

(** ** Lagrange interpolation modulo a prime *)

Section Lagrange.

Import shamir poly.

Variable p : Z.
Hypothesis p_prime : Z.prime p.

Local Notation "a == b" := (eqm p a b) (at level 70).
Local Abbreviation inv d := (fst (divmod_loop d p 0 1 1 0)).

#[local] Instance eqm_p_equiv : Equivalence (eqm p) := eqm_setoid p.
#[local] Instance eqm_p_add : Proper (eqm p ==> eqm p ==> eqm p) Z.add :=
  Zplus_eqm p.
#[local] Instance eqm_p_sub : Proper (eqm p ==> eqm p ==> eqm p) Z.sub :=
  Zminus_eqm p.
#[local] Instance eqm_p_mul : Proper (eqm p ==> eqm p ==> eqm p) Z.mul :=
  Zmult_eqm p.

Lemma prime_nonzero : p <> 0.
Proof. destruct p_prime; lia. Qed.

Lemma inv_spec d : ~ (p | d) -> d * inv d == 1.
Proof.
  intros Hd. destruct (divmod_inverse d p p_prime Hd) as [t Ht].
  unfold eqm. replace (d * inv d) with (1 + (- t) * p) by lia.
  apply Z_mod_plus_full.
Qed.

Lemma eqm_eq a b : a = b -> a == b.
Proof. intros ->. reflexivity. Qed.

Lemma eqm_zero a : a == 0 -> a mod p = 0.
Proof. unfold eqm. rewrite Zmod_0_l. auto. Qed.

Lemma eqm_zero_iff a b : (a - b) mod p = 0 <-> a == b.
Proof.
  unfold eqm. split; intros H.
  - replace a with (b + (a - b)) by ring.
    rewrite Z.add_mod, H, Z.add_0_r, Z.mod_mod by apply prime_nonzero.
    reflexivity.
  - rewrite Zminus_mod, H, Z.sub_diag. apply Zmod_0_l.
Qed.

Lemma sumZ_cons a l : sumZ (a :: l) = a + sumZ l.
Proof. reflexivity. Qed.

Lemma sumZ_eqm {A} (g h : A -> Z) cs :
  (forall c, In c cs -> g c == h c) ->
  sumZ (map g cs) == sumZ (map h cs).
Proof.
  induction cs as [|c cs IH]; intros H; cbn [map]; [reflexivity|].
  rewrite !sumZ_cons.
  rewrite (H c) by (left; reflexivity).
  rewrite IH; [reflexivity|].
  intros c' Hc'. apply H. right. exact Hc'.
Qed.

Lemma sumZ_scale {A} k (g : A -> Z) cs :
  sumZ (map (fun c => k * g c) cs) = k * sumZ (map g cs).
Proof.
  induction cs as [|c cs IH]; cbn [map]; [cbn; ring|].
  rewrite !sumZ_cons, IH. ring.
Qed.

Lemma sumZ_zero {A} (g : A -> Z) cs :
  (forall c, In c cs -> g c = 0) -> sumZ (map g cs) = 0.
Proof.
  induction cs as [|c cs IH]; intros H; cbn [map]; [reflexivity|].
  rewrite sumZ_cons, (H c) by (left; reflexivity).
  rewrite IH; [reflexivity|]. intros c' Hc'. apply H. right. exact Hc'.
Qed.

Lemma sumZ_single (g : nat -> Z) cs j :
  NoDup cs -> In j cs ->
  (forall c, In c cs -> c <> j -> g c = 0) ->
  sumZ (map g cs) = g j.
Proof.
  induction cs as [|c cs IH]; intros Hnd Hin Hz; [destruct Hin|].
  apply NoDup_cons_iff in Hnd as [Hc Hnd]. cbn [map]. rewrite sumZ_cons.
  destruct Hin as [->|Hin].
  - rewrite sumZ_zero; [ring|].
    intros c' Hc'. apply Hz; [right; exact Hc'|].
    intros ->. contradiction.
  - rewrite (Hz c); [|left; reflexivity|intros ->; contradiction].
    rewrite IH; [ring|assumption|assumption|].
    intros c' Hc' Hne. apply Hz; [right; exact Hc'|exact Hne].
Qed.

Lemma interpolate_fold values ns ds den cs a :
  (forall c, In c cs -> (c < length values)%nat) ->
  fold_left (interpolate_step p den ns ds values) cs (Ok a) =
  Ok (a + sumZ (map (fun c =>
                       _divmod (nth c ns 0 * den * nth c values 0 mod p)
                               (nth c ds 0) p) cs)).
Proof.
  revert a. induction cs as [|c cs IH]; intros a H; cbn [fold_left map].
  - f_equal. cbn. ring.
  - unfold interpolate_step at 2. cbn [obind].
    rewrite (nth_error_nth' values 0) by (apply H; left; reflexivity).
    destruct (Z.eqb_spec p 0) as [E|_]; [elim (prime_nonzero E)|].
    rewrite IH by (intros c' Hc'; apply H; right; exact Hc').
    f_equal. rewrite sumZ_cons. ring.
Qed.

Lemma nth_map_seq {A} (f : nat -> A) k c d :
  (c < k)%nat -> nth c (map f (seq 0 k)) d = f c.
Proof.
  intros H. rewrite (nth_indep _ d (f 0%nat)) by (rewrite length_map, length_seq; exact H).
  rewrite map_nth, seq_nth by exact H. reflexivity.
Qed.

Lemma dens_not_divisible xs c :
  distinct_mod p xs -> (c < length xs)%nat ->
  ~ (p | nth c (dens xs) 0).
Proof.
  intros Hd Hc. unfold dens. rewrite nth_map_seq by exact Hc.
  apply product_not_divisible; [exact p_prime|].
  intros a Ha. apply in_map_iff in Ha as [o [<- Ho]].
  apply in_others in Ho as [j [Hj [Hne <-]]].
  apply distinct_mod_nth; auto.
Qed.

Lemma den_not_divisible xs :
  distinct_mod p xs -> ~ (p | product (dens xs)).
Proof.
  intros Hd. apply product_not_divisible; [exact p_prime|].
  intros a Ha. apply (In_nth _ _ 0) in Ha as [c [Hc <-]].
  apply dens_not_divisible; [exact Hd|].
  unfold dens in Hc. rewrite length_map, length_seq in Hc. exact Hc.
Qed.

(** The value [interpolate] returns is, modulo [p], the Lagrange sum
    [sum_c values[c] * nums[c] / dens[c]]. *)
Lemma interpolate_value xs vs :
  distinct_mod p xs -> length vs = length xs ->
  exists r,
    interpolate p xs vs = Ok r /\ 0 <= r < p /\
    r == sumZ (map (fun c => (nth c vs 0 * inv (nth c (dens xs) 0))
                             * nth c (nums xs) 0)
                   (seq 0 (length xs))).
Proof.
  intros Hd Hlen.
  unfold interpolate. cbv zeta.
  rewrite interpolate_fold
    by (intros c Hc; apply in_seq in Hc; rewrite Hlen; lia).
  cbn [obind].
  destruct (Z.eqb_spec p 0) as [E|_]; [elim (prime_nonzero E)|].
  eexists. split; [reflexivity|]. split.
  { apply Z.mod_pos_bound. destruct p_prime; lia. }
  set (den := product (dens xs)).
  set (total := 0 + sumZ _).
  assert (Hden : den * inv den == 1)
    by (apply inv_spec, den_not_divisible, Hd).
  transitivity (_divmod total den p).
  { unfold eqm. rewrite Z.mod_mod by apply prime_nonzero.
    replace (_divmod total den p + p) with (_divmod total den p + 1 * p) by ring.
    apply Z_mod_plus_full. }
  unfold _divmod.
  assert (Ht : total ==
               den * sumZ (map (fun c => (nth c vs 0 * inv (nth c (dens xs) 0))
                                         * nth c (nums xs) 0)
                               (seq 0 (length xs)))).
  { unfold total. rewrite Z.add_0_l, <- sumZ_scale.
    apply sumZ_eqm. intros c Hc. unfold _divmod.
    rewrite (Zmod_eqm p). apply eqm_eq. ring. }
  rewrite Ht.
  set (S := sumZ _).
  transitivity ((den * inv den) * S).
  { apply eqm_eq. ring. }
  rewrite Hden. apply eqm_eq. ring.
Qed.

(** Lagrange: when the values agree modulo [p] with a polynomial of at
    most [length xs] coefficients at nodes distinct modulo [p], the sum is
    the polynomial's constant term. *)
Lemma lagrange_sum xs vs P :
  distinct_mod p xs -> length vs = length xs ->
  (length P <= length xs)%nat ->
  (forall j, (j < length xs)%nat -> nth j vs 0 == peval P (nth j xs 0)) ->
  sumZ (map (fun c => (nth c vs 0 * inv (nth c (dens xs) 0))
                      * nth c (nums xs) 0)
            (seq 0 (length xs)))
  == peval P 0.
Proof.
  intros Hd Hlen HP Hv.
  set (w := fun c => nth c vs 0 * inv (nth c (dens xs) 0)).
  set (f := fun x =>
              sumZ (map (fun c => w c * product (map (fun o => x - o) (others xs c)))
                        (seq 0 (length xs)))
              + (-1) * peval P x).
  assert (Hf0 : forall x, f x mod p = 0).
  { apply (is_poly_roots p p_prime xs f).
    - unfold f. apply is_poly_add.
      + apply (is_poly_sum (length xs)
                 (fun c x => w c * product (map (fun o => x - o) (others xs c)))).
        intros c Hc. apply in_seq in Hc.
        apply is_poly_scale with (f := fun x => product (map (fun o => x - o) (others xs c))).
        exists (poly_of_roots (others xs c)). split.
        * rewrite length_poly_of_roots. unfold others.
          rewrite others_length by lia. lia.
        * intros x. apply lin_prod_poly.
      + apply is_poly_scale with (f := peval P). apply is_poly_peval, HP.
    - exact Hd.
    - intros x Hx. apply (In_nth _ _ 0) in Hx as [j [Hj <-]].
      unfold f.
      rewrite (sumZ_single _ _ j).
      + apply eqm_zero.
        replace (w j * product (map (fun o => nth j xs 0 - o) (others xs j))
                 + -1 * peval P (nth j xs 0))
          with (nth j vs 0 * (nth j (dens xs) 0 * inv (nth j (dens xs) 0))
                - peval P (nth j xs 0)).
        2:{ unfold w, dens. rewrite nth_map_seq by exact Hj. ring. }
        rewrite (inv_spec _ (dens_not_divisible xs j Hd Hj)).
        rewrite (Hv j Hj).
        apply eqm_eq. ring.
      + apply seq_NoDup.
      + apply in_seq. lia.
      + intros c Hc Hne. apply in_seq in Hc.
        rewrite (product_zero (map _ _)); [ring|].
        apply in_map_iff. exists (nth j xs 0). split; [ring|].
        apply others_in; [exact Hj|intros E; apply Hne; symmetry; exact E]. }
  apply eqm_zero_iff.
  specialize (Hf0 0). unfold f in Hf0.
  replace (sumZ _ - peval P 0) with
    (sumZ (map (fun c => w c * product (map (fun o => 0 - o) (others xs c)))
               (seq 0 (length xs))) + -1 * peval P 0); [exact Hf0|].
  replace (sumZ (map (fun c => w c * product (map (fun o => 0 - o) (others xs c)))
                     (seq 0 (length xs))))
    with (sumZ (map (fun c => (nth c vs 0 * inv (nth c (dens xs) 0))
                              * nth c (nums xs) 0) (seq 0 (length xs)))); [ring|].
  f_equal. apply map_ext_in. intros c Hc. apply in_seq in Hc.
  unfold w, nums. rewrite nth_map_seq by lia. reflexivity.
Qed.

End Lagrange.

(** ** Integers and bytes *)

Section Bytes.

Lemma len_nonneg {A} (l : list A) : 0 <= len l.
Proof. unfold len. lia. Qed.

Lemma len_app {A} (l1 l2 : list A) : len (l1 ++ l2) = len l1 + len l2.
Proof. unfold len. rewrite length_app. lia. Qed.

Lemma len_cons {A} (a : A) (l : list A) : len (a :: l) = 1 + len l.
Proof. unfold len. cbn [length]. lia. Qed.

Lemma len_repeat {A} (a : A) n : len (repeat a n) = Z.of_nat n.
Proof. unfold len. rewrite repeat_length. reflexivity. Qed.

Lemma le_bytes_length count n : length (le_bytes count n) = count.
Proof.
  revert n; induction count as [|c IH]; intros n; cbn; [reflexivity|].
  rewrite IH. reflexivity.
Qed.

Lemma le_bytes_is_bytes count n : is_bytes (le_bytes count n).
Proof.
  revert n; induction count as [|c IH]; intros n; cbn; constructor.
  - unfold is_byte. apply Z.mod_pos_bound. lia.
  - apply IH.
Qed.

(** Little-endian bytes read back give the integer. *)
Lemma from_bytes_le_bytes count n :
  0 <= n < 256 ^ Z.of_nat count -> from_bytes (le_bytes count n) = n.
Proof.
  revert n; induction count as [|c IH]; intros n Hn.
  - cbn in *. lia.
  - cbn [le_bytes from_bytes].
    rewrite Nat2Z.inj_succ, Z.pow_succ_r in Hn by lia.
    rewrite IH.
    + pose proof (Z.div_mod n 256). lia.
    + split; [apply Z.div_pos; lia|].
      apply Z.div_lt_upper_bound; lia.
Qed.

Lemma int_to_bytes_ok integer count :
  0 <= integer < 256 ^ Z.of_nat count ->
  int_to_bytes integer count = Ok (le_bytes count integer).
Proof.
  intros [H0 H1]. unfold int_to_bytes.
  apply Z.leb_le in H0. apply Z.ltb_lt in H1. rewrite H0, H1. reflexivity.
Qed.

Lemma from_bytes_nonneg b : is_bytes b -> 0 <= from_bytes b.
Proof.
  induction 1 as [|x l Hx _ IH]; cbn [from_bytes]; [lia|].
  unfold is_byte in Hx. lia.
Qed.

End Bytes.

(** ** Shares *)

Section Shares.

Import shamir poly.

(** The Horner loop of [make_shares] computes the polynomial modulo the
    prime. *)
Lemma eval_poly_peval prime P x :
  prime <> 0 ->
  eval_poly prime (rev P) x = peval P x mod prime.
Proof.
  intros Hp. unfold eval_poly.
  rewrite <- fold_left_rev_right, rev_involutive.
  induction P as [|c P IH]; cbn [fold_right peval].
  - rewrite Zmod_0_l. reflexivity.
  - rewrite IH.
    rewrite Z.add_mod, Z.mul_mod_idemp_l by exact Hp.
    rewrite <- Z.add_mod by exact Hp.
    f_equal. ring.
Qed.

Lemma until_raise_map_Ok {A} (l : list A) :
  until_raise (map Ok l) = map Ok l.
Proof.
  induction l as [|a l IH]; [reflexivity|].
  cbn [map until_raise]. rewrite IH. reflexivity.
Qed.

Lemma in_until_raise {A} (x : outcome A) l : In x (until_raise l) -> In x l.
Proof.
  induction l as [|[a|e|] l IH]; cbn [until_raise]; intros H.
  - exact H.
  - destruct H as [H|H]; [left; exact H|right; apply IH; exact H].
  - destruct H as [H|[]]. left. exact H.
  - destruct H as [H|[]]. left. exact H.
Qed.

Lemma until_raise_length {A} (l : list (outcome A)) :
  (length (until_raise l) <= length l)%nat.
Proof.
  induction l as [|[a|e|] l IH]; cbn [until_raise length]; lia.
Qed.

(** Only the last thing a generator hands out can be an error. *)
Lemma until_raise_ends {A} (l : list (outcome A)) i :
  (S i < length (until_raise l))%nat ->
  exists a, nth_error (until_raise l) i = Some (Ok a).
Proof.
  revert i. induction l as [|[a|e|] l IH]; intros i H;
    cbn [until_raise length] in *; try lia.
  destruct i as [|i]; [exists a; reflexivity|].
  cbn [nth_error]. apply IH. lia.
Qed.

(** When the prime fits the share width every share is produced: share
    number [i] (from 1) is the polynomial at [i]. *)
Lemma make_shares_from_fits coeffs shares prime secret data_len :
  1 < prime -> prime <= 256 ^ Z.of_nat data_len ->
  make_shares_from coeffs shares prime secret data_len
  = map Ok
      (map (fun i : nat =>
              le_bytes data_len
                (peval (from_bytes secret :: coeffs) (Z.of_nat i + 1)
                 mod prime))
           (seq 0 shares)).
Proof.
  intros Hp Hfit. unfold make_shares_from.
  rewrite <- until_raise_map_Ok. f_equal.
  rewrite map_map. apply map_ext_in.
  intros i Hi. rewrite eval_poly_peval by lia.
  apply int_to_bytes_ok.
  pose proof (Z.mod_pos_bound
                (peval (from_bytes secret :: coeffs) (Z.of_nat i + 1)) prime).
  lia.
Qed.

Lemma make_shares_from_length coeffs shares prime secret data_len :
  1 < prime -> prime <= 256 ^ Z.of_nat data_len ->
  length (make_shares_from coeffs shares prime secret data_len) = shares.
Proof.
  intros Hp Hfit. rewrite make_shares_from_fits by assumption.
  rewrite !length_map, length_seq. reflexivity.
Qed.

End Shares.

Section Reconstruct.

Import shamir poly.

Lemma distinct_mod_small p bound xs :
  bound < p -> NoDup xs -> (forall x, In x xs -> 1 <= x <= bound) ->
  distinct_mod p xs.
Proof.
  intros Hb. induction xs as [|r xs IH]; intros Hnd Hin; cbn; [exact I|].
  apply NoDup_cons_iff in Hnd as [Hr Hnd]. split.
  - intros x Hx [q Hq].
    pose proof (Hin r (or_introl eq_refl)).
    pose proof (Hin x (or_intror Hx)).
    assert (x <> r) by (intros ->; contradiction).
    destruct (Z.eq_dec q 0) as [->|Hq0]; [lia|].
    assert (Hc : 1 <= q \/ q <= -1) by lia.
    destruct Hc as [Hc|Hc].
    + assert (p <= q * p) by nia. lia.
    + assert (q * p <= - p) by nia. lia.
  - apply IH; [exact Hnd|]. intros x Hx. apply Hin. right. exact Hx.
Qed.

Lemma reconstruct_from (p : Z) (slot_max : nat) (secret : bytes)
    (coeffs : list Z) (data_len : nat) (C : list Z) :
  Z.prime p -> Z.of_nat slot_max < p -> p <= 256 ^ Z.of_nat data_len ->
  is_bytes secret -> from_bytes secret < p ->
  length C = S (length coeffs) ->
  NoDup C -> (forall i, In i C -> 1 <= i <= Z.of_nat slot_max) ->
  exists shares : list bytes,
    make_shares_from coeffs slot_max p secret data_len = map Ok shares /\
    interpolate p C
      (map (fun i => from_bytes (nth (Z.to_nat (i - 1)) shares [])) C)
    = Ok (from_bytes secret).
Proof.
  intros Hp Hmax Hfit Hsec Hlt Hlen Hnd Hin.
  assert (Hp1 : 1 < p) by (destruct Hp; assumption).
  set (P := from_bytes secret :: coeffs).
  set (share := fun i : nat => le_bytes data_len (peval P (Z.of_nat i + 1) mod p)).
  exists (map share (seq 0 slot_max)). split.
  { apply make_shares_from_fits; assumption. }
  set (vs := map _ C).
  assert (Hd : distinct_mod p C) by (apply (distinct_mod_small p (Z.of_nat slot_max)); assumption).
  assert (Hvs : length vs = length C) by (unfold vs; apply length_map).
  destruct (interpolate_value p Hp C vs Hd Hvs) as [r [Hr [Hrange Hsum]]].
  rewrite Hr. f_equal.
  assert (HL := lagrange_sum p Hp C vs P Hd Hvs).
  assert (Hr2 : eqm p r (peval P 0)).
  { apply (eqm_trans p _ _ _ Hsum). apply HL.
    - unfold P. cbn [length]. lia.
    - intros j Hj. unfold vs.
      rewrite (nth_indep _ 0 ((fun i => from_bytes (nth (Z.to_nat (i - 1)) (map share (seq 0 slot_max)) [])) 0))
        by (rewrite length_map; exact Hj).
      rewrite (map_nth (fun i => from_bytes (nth (Z.to_nat (i - 1)) (map share (seq 0 slot_max)) [])) C 0 j).
      pose proof (Hin (nth j C 0) (nth_In C 0 Hj)) as Hb.
      rewrite nth_map_seq by lia.
      unfold share. rewrite from_bytes_le_bytes.
      + replace (Z.of_nat (Z.to_nat (nth j C 0 - 1)) + 1) with (nth j C 0) by lia.
        apply Zmod_eqm.
      + pose proof (Z.mod_pos_bound (peval P (Z.of_nat (Z.to_nat (nth j C 0 - 1)) + 1)) p).
        lia. }
  unfold eqm in Hr2. unfold P in Hr2. cbn [peval] in Hr2.
  rewrite Z.mul_0_l, Z.add_0_r in Hr2.
  rewrite !Z.mod_small in Hr2; [exact Hr2| |lia].
  split; [apply from_bytes_nonneg; exact Hsec|exact Hlt].
Qed.

Lemma random_coefficients_length n prime w cs w' :
  random_coefficients n prime w = (Ok cs, w') -> length cs = n.
Proof.
  revert w cs w'. induction n as [|n IH]; intros w cs w' H; cbn in H.
  - inversion H. reflexivity.
  - unfold bind in H.
    destruct (randint prime w) as [[c| |] w1]; try discriminate.
    destruct (random_coefficients n prime w1) as [[cs1| |] w2] eqn:E; try discriminate.
    inversion H; subst. cbn. f_equal. eapply IH. exact E.
Qed.

End Reconstruct.

(** ** The claims on shamir.py *)

(** C10.  For a prime [p] and a denominator [den] that [p] does not
    divide, [_divmod(num, den, p)] is [num / den] modulo [p]:
    [den * _divmod(num, den, p) = num (mod p)], for every integer [num]
    and [den] of either sign. *)
Theorem divmod_is_modular_division (p num den : Z) :
  Z.prime p -> ~ (p | den) ->
  (den * shamir._divmod num den p) mod p = num mod p.
Proof.
  intros Hp Hd. destruct (divmod_inverse den p Hp Hd) as [t Ht].
  unfold shamir._divmod.
  replace (den * (num * fst (shamir.divmod_loop den p 0 1 1 0)))
    with (num * (fst (shamir.divmod_loop den p 0 1 1 0) * den + t * p)
          + (- (num * t)) * p) by ring.
  rewrite Ht, Z.mul_1_r. apply Z_mod_plus_full.
Qed.

Lemma divmod_is_modular_division_witness :
  (4 * shamir._divmod 5 4 3) mod 3 = 5 mod 3.
Proof.
  apply (divmod_is_modular_division 3 5 4).
  - exact Z.prime_3.
  - intros [q Hq]. lia.
Defined.

(** C2, as the code has it.  For a prime [p] above [slot_max] that fits
    the share width ([p <= 256 ^ data_len]), a secret below [p], a
    threshold [k >= 1] and any [k] distinct share numbers among
    [1 .. slot_max]: every share is produced, and interpolating the
    chosen shares at 0 gives back the secret, whatever coefficients the
    random source hands out. *)
Theorem shamir_shares_reconstruct (p : Z) (slot_max k : nat) (secret : bytes)
    (data_len : nat) (C : list Z) (w w' : world)
    (produced : list (outcome bytes)) :
  Z.prime p -> Z.of_nat slot_max < p -> p <= 256 ^ Z.of_nat data_len ->
  is_bytes secret -> from_bytes secret < p ->
  (1 <= k)%nat -> length C = k -> NoDup C ->
  (forall i, In i C -> 1 <= i <= Z.of_nat slot_max) ->
  shamir.make_shares (Z.of_nat k) slot_max p secret data_len w
    = (Ok produced, w') ->
  exists shares : list bytes,
    produced = map Ok shares /\
    shamir.interpolate p C
      (map (fun i => from_bytes (nth (Z.to_nat (i - 1)) shares [])) C)
    = Ok (from_bytes secret).
Proof.
  intros Hp Hmax Hfit Hsec Hlt Hk HC Hnd Hin Hrun.
  unfold shamir.make_shares, bind in Hrun.
  destruct (shamir.random_coefficients (Z.to_nat (Z.of_nat k - 1)) p w)
    as [[coeffs| |] w1] eqn:E; try discriminate.
  inversion Hrun; subst produced w'. clear Hrun.
  apply random_coefficients_length in E.
  apply reconstruct_from; try assumption. lia.
Qed.

Lemma prime_by_trial (p : Z) :
  1 < p ->
  forallb (fun i => negb (p mod (Z.of_nat i + 2) =? 0))
          (seq 0 (Z.to_nat (p - 2))) = true ->
  Z.prime p.
Proof.
  intros Hp Hall. split; [exact Hp|].
  intros n Hn [q Hq].
  rewrite forallb_forall in Hall.
  specialize (Hall (Z.to_nat (n - 2))).
  rewrite in_seq in Hall.
  assert (Hb : (0 <= Z.to_nat (n - 2) < 0 + Z.to_nat (p - 2))%nat) by lia.
  specialize (Hall Hb).
  replace (Z.of_nat (Z.to_nat (n - 2)) + 2) with n in Hall by lia.
  rewrite Hq, Z.mod_mul in Hall by lia. discriminate.
Qed.

Lemma shamir_shares_reconstruct_witness :
  exists shares : list bytes,
    [Ok [217; 0]; Ok [11; 0]; Ok [96; 0]; Ok [215; 0]; Ok [111; 0];
     Ok [41; 0]; Ok [5; 0]; Ok [3; 0]; Ok [35; 0]] = map Ok shares /\
    shamir.interpolate 257 [2; 5; 9]
      (map (fun i => from_bytes (nth (Z.to_nat (i - 1)) shares [])) [2; 5; 9])
    = Ok (from_bytes [200]).
Proof.
  apply (shamir_shares_reconstruct 257 9 3 [200] 2 [2; 5; 9]
           (mkWorld [DInt 257; DInt 17] [] 0 [])
           (mkWorld [] [] 0 [])).
  - apply prime_by_trial; [lia|vm_compute; reflexivity].
  - vm_compute; reflexivity.
  - vm_compute; discriminate.
  - repeat constructor; unfold is_byte; lia.
  - vm_compute; reflexivity.
  - lia.
  - reflexivity.
  - repeat constructor; cbn; intuition lia.
  - intros i Hi. cbn in Hi. intuition lia.
  - vm_compute. reflexivity.
Defined.

(** C2 as stated fails for a prime that does not exceed the share
    numbers: with [p = 3], threshold 2, secret 1 and coefficient 1, the
    shares number 1 and 4 are both 2, and interpolation returns 0. *)
Lemma shamir_small_prime_counterexample :
  Z.prime 3 /\ from_bytes [1] < 3 /\
  shamir.make_shares 2 4 3 [1] 1 (mkWorld [DInt 1] [] 0 [])
    = (Ok [Ok [2]; Ok [0]; Ok [1]; Ok [2]], mkWorld [] [] 0 []) /\
  shamir.interpolate 3 [1; 4] [from_bytes [2]; from_bytes [2]] = Ok 0 /\
  0 <> from_bytes [1].
Proof.
  split; [exact Z.prime_3|].
  split; [vm_compute; reflexivity|].
  split; [vm_compute; reflexivity|].
  split; [vm_compute; reflexivity|].
  vm_compute. discriminate.
Qed.

(** C6, as the code has it.  [randint(prime)] is
    [secrets.randbelow(prime + 1)]: each of the coefficients drawn for a
    polynomial lies in the closed interval from 0 to [prime], and there
    are as many as asked for. *)
Theorem random_coefficients_range (n : nat) (prime : Z) (w w' : world)
    (cs : list Z) :
  shamir.random_coefficients n prime w = (Ok cs, w') ->
  length cs = n /\ Forall (fun c => 0 <= c <= prime) cs.
Proof.
  revert w cs w'. induction n as [|n IH]; intros w cs w' H; cbn in H.
  - inversion H. split; [reflexivity|constructor].
  - unfold bind in H.
    destruct (shamir.randint prime w) as [[c| |] w1] eqn:Ec; try discriminate.
    destruct (shamir.random_coefficients n prime w1) as [[cs1| |] w2] eqn:E;
      try discriminate.
    inversion H; subst. destruct (IH _ _ _ E) as [Hl Hf].
    split; [cbn; f_equal; exact Hl|]. constructor; [|exact Hf].
    unfold shamir.randint, randbelow in Ec.
    destruct (prime + 1 <=? 0); [discriminate|].
    destruct (tape w) as [|[b|q|z|pm] t]; try discriminate.
    destruct ((0 <=? z) && (z <? prime + 1)) eqn:Ez; [|discriminate].
    inversion Ec; subst. apply andb_true_iff in Ez as [E0 E1].
    apply Z.leb_le in E0. apply Z.ltb_lt in E1. lia.
Qed.

Lemma random_coefficients_range_witness :
  length [7; 3] = 2%nat /\ Forall (fun c => 0 <= c <= 7) [7; 3].
Proof.
  apply (random_coefficients_range 2 7
           (mkWorld [DInt 7; DInt 3] [] 0 []) (mkWorld [] [] 0 [])).
  vm_compute. reflexivity.
Defined.

(** C6 as stated fails: the random source may hand out the prime
    itself as a coefficient. *)
Lemma random_coefficient_equals_prime :
  shamir.random_coefficients 1 7 (mkWorld [DInt 7] [] 0 [])
    = (Ok [7], mkWorld [] [] 0 []) /\
  ~ (7 < 7).
Proof. split; [vm_compute; reflexivity|lia]. Qed.

(** ** The hash tracker *)

Section Tracker.

Import bitfun slots.

Lemma reserve_ok t count slots secs t' :
  reserve t count slots = Ok (secs, t') ->
  let n := match slots with Some (S k) => S k | _ => tr_num_slots t end in
  secs = sections_from (ptr t) count n /\
  ptr t' = ptr t + Z.of_nat n * count /\
  hash_len t' = hash_len t /\ tr_num_slots t' = tr_num_slots t /\
  ptr t' + 1 < hash_len t.
Proof.
  unfold reserve. cbv zeta.
  destruct (_ >=? _) eqn:E; [discriminate|].
  intros H. inversion H; subst. cbn [ptr hash_len tr_num_slots].
  repeat split; try reflexivity.
  rewrite Z.geb_leb in E. apply Z.leb_gt in E. exact E.
Qed.

Lemma sections_from_length from count n :
  length (sections_from from count n) = n.
Proof. unfold sections_from. rewrite length_map, length_seq. reflexivity. Qed.

Lemma sections_from_nth from count n i :
  (i < n)%nat ->
  nth_error (sections_from from count n) i
  = Some (from + Z.of_nat i * count, from + Z.of_nat i * count + count).
Proof.
  intros Hi. unfold sections_from.
  rewrite nth_error_map, nth_error_seq.
  apply Nat.ltb_lt in Hi. rewrite Hi. reflexivity.
Qed.

(** What a successful [set_phash] leaves in the tracker. *)
Lemma set_phash_tracker self ph self' :
  set_phash self ph = Ok self' ->
  let N := Z.to_nat (slot_max self + 1) in
  let n := Z.of_nat N in
  tracker self' =
    mkTr (0, 32) (sections_from 32 32 N)
         (32 + 32 * n, 48 + 32 * n) (sections_from (48 + 32 * n) 16 N)
         (48 + 48 * n, 240 + 48 * n) (sections_from (240 + 48 * n) 16 N)
  /\ 240 + 64 * n + 1 < len ph
  /\ phash self' = ph
  /\ salt_len self' = salt_len self /\ area self' = area self
  /\ storage self' = storage self /\ num_slots self' = num_slots self
  /\ slot_target self' = slot_target self /\ slot_max self' = slot_max self
  /\ max_reqs self' = max_reqs self
  /\ shamir_mode self' = shamir_mode self /\ testing self' = testing self.
Proof.
  unfold set_phash. intros H. cbv zeta.
  set (N := Z.to_nat (slot_max self + 1)) in *.
  destruct (reserve _ 32 (Some 1%nat)) as [[sk t1]| |] eqn:E1; try discriminate.
  cbn [obind] in H.
  destruct (reserve t1 32 None) as [[ks t2]| |] eqn:E2; try discriminate.
  cbn [obind] in H.
  destruct (reserve t2 16 (Some 1%nat)) as [[sv t3]| |] eqn:E3; try discriminate.
  cbn [obind] in H.
  destruct (reserve t3 16 None) as [[vs t4]| |] eqn:E4; try discriminate.
  cbn [obind] in H.
  destruct (reserve t4 (64 + 128) (Some 1%nat)) as [[pr t5]| |] eqn:E5; try discriminate.
  cbn [obind] in H.
  destruct (reserve t5 16 None) as [[os t6]| |] eqn:E6; try discriminate.
  cbn [obind] in H. inversion H; subst self'; clear H.
  cbn [tracker phash salt_len area storage num_slots slot_target slot_max
       max_reqs shamir_mode testing].
  apply reserve_ok in E1, E2, E3, E4, E5, E6. cbv zeta in *.
  cbn [ptr hash_len tr_num_slots] in E1.
  destruct E1 as (Hsk & P1 & L1 & S1 & _).
  destruct E2 as (Hks & P2 & L2 & S2 & _).
  destruct E3 as (Hsv & P3 & L3 & S3 & _).
  destruct E4 as (Hvs & P4 & L4 & S4 & _).
  destruct E5 as (Hpr & P5 & L5 & S5 & _).
  destruct E6 as (Hos & P6 & L6 & S6 & B6).
  assert (N1 : tr_num_slots t1 = N) by lia.
  assert (N2 : tr_num_slots t2 = N) by lia.
  assert (N3 : tr_num_slots t3 = N) by lia.
  assert (N4 : tr_num_slots t4 = N) by lia.
  assert (N5 : tr_num_slots t5 = N) by lia.
  rewrite N1 in *. rewrite N3 in *. rewrite N5 in *.
  assert (Q1 : ptr t1 = 32) by lia.
  assert (Q2 : ptr t2 = 32 + 32 * Z.of_nat N) by lia.
  assert (Q3 : ptr t3 = 48 + 32 * Z.of_nat N) by lia.
  assert (Q4 : ptr t4 = 48 + 48 * Z.of_nat N) by lia.
  assert (Q5 : ptr t5 = 240 + 48 * Z.of_nat N) by lia.
  rewrite Q1 in Hks. rewrite Q2 in Hsv. rewrite Q3 in Hvs.
  rewrite Q4 in Hpr. rewrite Q5 in Hos.
  subst sk ks sv vs pr os.
  split.
  - unfold sections_from at 1 3 5. cbn [seq map hd Z.of_nat].
    f_equal; try reflexivity; f_equal; lia.
  - repeat split; try reflexivity. lia.
Qed.

End Tracker.

(** C4, as the code has it.  [set_phash] reserves, from byte 0 on and
    each section starting where the one before ends: shamir_key (32
    bytes), the per-slot keys (32 bytes each), shamir_vector (16), the
    per-slot vectors (16 each), the prime seed (192), the per-slot
    offsets (16 each); for each per-slot quantity it reserves
    [slot_max + 1] sections, the tracker being made for
    [slot_max + 1] slots, and the last reserved byte lies before the
    end of phash. *)
Theorem set_phash_reservations (self self' : slots.KeyLocker) (ph : bytes) :
  slots.set_phash self ph = Ok self' ->
  let N := Z.to_nat (slots.slot_max self + 1) in
  let n := Z.of_nat N in
  slots.tracker self' =
    slots.mkTr
      (0, 32) (bitfun.sections_from 32 32 N)
      (32 + 32 * n, 48 + 32 * n) (bitfun.sections_from (48 + 32 * n) 16 N)
      (48 + 48 * n, 240 + 48 * n) (bitfun.sections_from (240 + 48 * n) 16 N)
  /\ length (slots.tr_key (slots.tracker self')) = N
  /\ length (slots.tr_vector (slots.tracker self')) = N
  /\ length (slots.tr_offset (slots.tracker self')) = N
  /\ 240 + 64 * n + 1 < len ph.
Proof.
  intros H. destruct (set_phash_tracker self ph self' H) as (HT & HB & _).
  cbv zeta in *. rewrite HT. cbn [slots.tr_key slots.tr_vector slots.tr_offset].
  rewrite !sections_from_length. repeat split; try reflexivity. exact HB.
Qed.

Lemma set_phash_reservations_witness :
  let N := Z.to_nat (slots.slot_max fixtures.vault_2000 + 1) in
  let n := Z.of_nat N in
  slots.tracker
    (match slots.set_phash fixtures.vault_2000 fixtures.phash_1400 with
     | Ok k => k
     | _ => fixtures.vault_2000
     end) =
    slots.mkTr
      (0, 32) (bitfun.sections_from 32 32 N)
      (32 + 32 * n, 48 + 32 * n) (bitfun.sections_from (48 + 32 * n) 16 N)
      (48 + 48 * n, 240 + 48 * n) (bitfun.sections_from (240 + 48 * n) 16 N)
  /\ length (slots.tr_key (slots.tracker
       (match slots.set_phash fixtures.vault_2000 fixtures.phash_1400 with
        | Ok k => k
        | _ => fixtures.vault_2000
        end))) = N
  /\ length (slots.tr_vector (slots.tracker
       (match slots.set_phash fixtures.vault_2000 fixtures.phash_1400 with
        | Ok k => k
        | _ => fixtures.vault_2000
        end))) = N
  /\ length (slots.tr_offset (slots.tracker
       (match slots.set_phash fixtures.vault_2000 fixtures.phash_1400 with
        | Ok k => k
        | _ => fixtures.vault_2000
        end))) = N
  /\ 240 + 64 * n + 1 < len fixtures.phash_1400.
Proof.
  apply (set_phash_reservations fixtures.vault_2000 _ fixtures.phash_1400).
  vm_compute. reflexivity.
Defined.

(** C4 as stated fails on the number of sections: for a vault with
    [slot_max = 17], [set_phash] reserves 18 keys, vectors and offsets. *)
Lemma set_phash_reserves_one_more :
  exists self',
    slots.set_phash fixtures.vault_2000 fixtures.phash_1400 = Ok self' /\
    slots.slot_max fixtures.vault_2000 = 17 /\
    length (slots.tr_key (slots.tracker self')) = 18%nat /\
    length (slots.tr_vector (slots.tracker self')) = 18%nat /\
    length (slots.tr_offset (slots.tracker self')) = 18%nat.
Proof.
  eexists. split; [vm_compute; reflexivity|].
  repeat split.
Qed.

(** ** Layout *)

Section Layout.

Context {ext : Externals}.
Import slots.

(** What [set_boundaries] guarantees when it returns. *)
Lemma set_boundaries_ok filesize sm t k :
  set_boundaries filesize sm t = Ok k ->
  10 <= num_slots k /\
  num_slots k = (area k - max_len) / slot_len /\
  num_slots k * slot_len + (max_len - slot_len) <= area k /\
  filesize = salt_len k * 2 + area k + storage k /\
  0 <= storage k /\
  (slot_target k = 4 \/ slot_target k = 8) /\
  slot_max k = slot_target k * 2 + 1 /\
  max_reqs k = 4 /\
  salt_len k = calc_salt_size filesize /\
  (shamir_mode k = true -> sm = true /\ max_area / 5 <= area k + storage k) /\
  phash k = [] /\ tracker k = empty_tracker /\ testing k = t.
Proof.
  unfold set_boundaries. cbv zeta.
  set (sl := calc_salt_size filesize).
  set (notsalt := filesize - sl * 2).
  assert (Hcases :
    exists ar sh,
      (if notsalt >=? max_area * 2 then (max_area, sm)
       else if notsalt >=? max_area / 5 then (notsalt / 2, sm)
       else (notsalt, false)) = (ar, sh) /\
      (10 <= (ar - max_len) / slot_len -> 0 <= filesize - sl * 2 - ar) /\
      (sh = true -> sm = true /\ max_area / 5 <= ar + (filesize - sl * 2 - ar))).
  { unfold max_area, max_len, slot_len.
    change (1024 * 1024 / 5) with 209715.
    change (1024 * 1024 * 2) with 2097152.
    change (1024 * 1024) with 1048576.
    destruct (notsalt >=? 2097152) eqn:E1.
    - exists 1048576, sm. rewrite Z.geb_leb in E1. apply Z.leb_le in E1.
      split; [reflexivity|]. unfold notsalt in E1. split.
      + intros _. lia.
      + intros Hs. split; [exact Hs|]. lia.
    - destruct (notsalt >=? 209715) eqn:E2.
      + exists (notsalt / 2), sm. rewrite Z.geb_leb in E2. apply Z.leb_le in E2.
        assert (Hh : notsalt / 2 <= notsalt)
          by (apply Z.div_le_upper_bound; lia).
        assert (Hh0 : 0 <= notsalt / 2) by (apply Z.div_pos; lia).
        split; [reflexivity|]. split.
        * intros _. change (filesize - sl * 2) with notsalt. lia.
        * intros Hs. split; [exact Hs|].
          change (filesize - sl * 2) with notsalt. lia.
      + exists notsalt, false. split; [reflexivity|]. split.
        * intros _. unfold notsalt. lia.
        * discriminate. }
  destruct Hcases as (ar & sh & -> & Hst & Hsh).
  destruct (negb _) eqn:E0; [discriminate|].
  destruct (_ <? 10) eqn:E1; [discriminate|].
  destruct (_ >? _) eqn:E2; [discriminate|].
  intros H. inversion H; subst k; clear H. cbn.
  apply negb_false_iff, Z.eqb_eq in E0.
  apply Z.ltb_ge in E1.
  rewrite Z.gtb_ltb in E2. apply Z.ltb_ge in E2.
  repeat split; try assumption; try reflexivity; try (apply Hst; assumption);
    try (destruct (ar >=? _); [left|right]; reflexivity);
    match goal with
    | H : sh = true |- _ => destruct (Hsh H); assumption
    end.
Qed.

(** The layout depends on the file size alone. *)
Lemma set_boundaries_same filesize sm1 t1 sm2 t2 k1 k2 :
  set_boundaries filesize sm1 t1 = Ok k1 ->
  set_boundaries filesize sm2 t2 = Ok k2 ->
  same_layout k1 k2.
Proof.
  unfold set_boundaries. cbv zeta.
  set (sl := calc_salt_size filesize).
  set (notsalt := filesize - sl * 2).
  destruct (notsalt >=? max_area * 2);
    [|destruct (notsalt >=? max_area / 5)];
    (destruct (negb _); [discriminate|];
     destruct (_ <? 10); [discriminate|];
     destruct (_ >? _); [discriminate|];
     intros H1 H2; inversion H1; inversion H2; subst;
     unfold same_layout; cbn; repeat split; reflexivity).
Qed.

Lemma same_layout_refl a : same_layout a a.
Proof. unfold same_layout. repeat split. Qed.

Lemma same_layout_sym a b : same_layout a b -> same_layout b a.
Proof. unfold same_layout. intuition congruence. Qed.

Lemma same_layout_trans a b c :
  same_layout a b -> same_layout b c -> same_layout a c.
Proof. unfold same_layout. intuition congruence. Qed.

(** What an opened vault can rely on. *)
Lemma opened_facts filesize self :
  opened filesize self ->
  10 <= num_slots self /\
  num_slots self * slot_len + (max_len - slot_len) <= area self /\
  filesize = salt_len self * 2 + area self + storage self /\
  0 <= storage self /\
  (slot_target self = 4 \/ slot_target self = 8) /\
  slot_max self = slot_target self * 2 + 1 /\
  max_reqs self = 4 /\
  let N := Z.to_nat (slot_max self + 1) in
  let n := Z.of_nat N in
  tracker self =
    mkTr (0, 32) (bitfun.sections_from 32 32 N)
         (32 + 32 * n, 48 + 32 * n) (bitfun.sections_from (48 + 32 * n) 16 N)
         (48 + 48 * n, 240 + 48 * n) (bitfun.sections_from (240 + 48 * n) 16 N)
  /\ 240 + 64 * n + 1 < len (phash self).
Proof.
  intros (sm & t & k0 & k1 & Hb & Hp & Hl & Ht).
  apply set_boundaries_ok in Hb.
  destruct Hb as (B1 & B2 & B3 & B4 & B5 & B6 & B7 & B8 & _).
  apply set_phash_tracker in Hp. cbv zeta in Hp.
  destruct Hp as (T1 & T2 & T3 & T4 & T5 & T6 & T7 & T8 & T9 & T10 & _).
  destruct Hl as (L1 & L2 & L3 & L4 & L5 & L6 & L7).
  cbv zeta. rewrite Ht, T1, L6, T9.
  repeat split; try reflexivity; try lia.
Qed.

End Layout.

(** ** Runs *)

Section Runs.

Lemma bind_ok {A B} (m : M A) (f : A -> M B) w b w' :
  bind m f w = (Ok b, w') ->
  exists a w1, m w = (Ok a, w1) /\ f a w1 = (Ok b, w').
Proof.
  unfold bind. destruct (m w) as [[a| |] w1]; try discriminate.
  intros H. exists a, w1. split; [reflexivity|exact H].
Qed.

Lemma bind_ok_intro {A B} (m : M A) (f : A -> M B) w a w1 :
  m w = (Ok a, w1) -> bind m f w = f a w1.
Proof. unfold bind. intros ->. reflexivity. Qed.

Lemma lift_ok {A} (x : outcome A) w a w' :
  lift x w = (Ok a, w') -> x = Ok a /\ w' = w.
Proof. unfold lift. intros H. inversion H. split; reflexivity. Qed.

Lemma ret_ok {A} (x : A) w a w' : ret x w = (Ok a, w') -> a = x /\ w' = w.
Proof. unfold ret. intros H. inversion H. split; reflexivity. Qed.

Lemma obind_ok {A B} (x : outcome A) (f : A -> outcome B) b :
  obind x f = Ok b -> exists a, x = Ok a /\ f a = Ok b.
Proof.
  destruct x as [a| |]; cbn; try discriminate.
  intros H. exists a. split; [reflexivity|exact H].
Qed.

End Runs.

(** Take a run that returned apart, bind by bind. *)
Ltac bind_inv H :=
  let a := fresh "a" in
  let w := fresh "w" in
  let Hm := fresh "Hm" in
  apply bind_ok in H as (a & w & Hm & H).

Ltac obind_inv H :=
  let a := fresh "a" in
  let Hm := fresh "Hm" in
  apply obind_ok in H as (a & Hm & H).

(** ** Slot counts *)

Section SlotCount.

Context {ext : Externals}.
Import slots.

Lemma Qlt_bool_false a b : Qlt_bool a b = false -> (b <= a)%Q.
Proof.
  unfold Qlt_bool. intros H. apply negb_false_iff in H.
  apply Qle_bool_iff. exact H.
Qed.

Lemma sd_randint_range low high w z w' :
  sd_randint low high w = (Ok z, w') -> low <= z <= high.
Proof.
  unfold sd_randint. destruct (tape w) as [|[b|q|x|p] t]; try discriminate.
  destruct ((low <=? x) && (x <=? high)) eqn:E; [|discriminate].
  intros H. inversion H; subst. apply andb_true_iff in E as [E1 E2].
  apply Z.leb_le in E1, E2. lia.
Qed.

(** Whatever the random source does and however deep the recursion goes,
    a count that is returned lies between 1 and [slot_max], for a target
    in that range. *)
Lemma get_slot_count_at_range depth self target sigma w n w' :
  1 <= target <= slot_max self ->
  get_slot_count_at depth self target sigma w = (Ok n, w') ->
  1 <= n <= slot_max self.
Proof.
  intros Ht. revert sigma w n w'.
  induction depth as [|depth IH]; intros sigma w n w' H;
    cbn [get_slot_count_at] in H.
  - discriminate.
  - bind_inv H.
    destruct (Qlt_bool a float_0_2).
    { apply ret_ok in H as [-> _]. exact Ht. }
    bind_inv H.
    destruct a0.
    { apply sd_randint_range in H. lia. }
    bind_inv H. cbv zeta in H.
    set (value := if Qlt_bool (fmul (fmul a0 1) (inject_Z target)) (inject_Z target)
                  then fmul (fmul (fmul a0 1) (inject_Z target)) 3
                  else fmul (fmul a0 1) (inject_Z target)) in H.
    destruct (Qlt_bool (inject_Z (slot_max self)) value) eqn:Emax.
    { eapply IH. exact H. }
    destruct (Qlt_bool value 1) eqn:Emin.
    { apply ret_ok in H as [-> _]. lia. }
    apply ret_ok in H as [-> _].
    apply Qlt_bool_false in Emax, Emin. split.
    + change 1 with (Qfloor 1). apply Qfloor_resp_le. exact Emin.
    + rewrite <- (Qfloor_Z (slot_max self)). apply Qfloor_resp_le. exact Emax.
Qed.

End SlotCount.


Lemma vault_2000_opened :
  @slots.opened fixtures.toy_externals 2000 fixtures.vault_2000_open.
Proof.
  exists true, true, fixtures.vault_2000, fixtures.vault_2000_open.
  split; [vm_compute; reflexivity|].
  split; [vm_compute; reflexivity|].
  split; [apply same_layout_refl|reflexivity].
Qed.



(** ** Derived coordinates *)

Section Derivation.

Context {ext : Externals}.
Import slots.

(** The values read off the hash use the hash, the tracker and, for the
    offsets, the number of slots and the salt length; nothing else. *)
Lemma derivations_agree (k1 k2 : KeyLocker) :
  phash k1 = phash k2 -> tracker k1 = tracker k2 ->
  num_slots k1 = num_slots k2 -> salt_len k1 = salt_len k2 ->
  (forall seg, get_key k1 seg = get_key k2 seg) /\
  get_key_shamir k1 = get_key_shamir k2 /\
  (forall data_len, get_prime k1 data_len = get_prime k2 data_len) /\
  (forall seg, get_offset k1 seg = get_offset k2 seg).
Proof.
  intros Hp Ht Hn Hs.
  unfold get_key, get_key_shamir, get_prime, get_offset, phash_at.
  rewrite Hp, Ht, Hn, Hs. repeat split.
Qed.

Lemma set_phash_same k1 k2 ph k1' k2' :
  same_layout k1 k2 ->
  set_phash k1 ph = Ok k1' -> set_phash k2 ph = Ok k2' ->
  same_layout k1' k2' /\ tracker k1' = tracker k2' /\ phash k1' = phash k2'.
Proof.
  intros (L1 & L2 & L3 & L4 & L5 & L6 & L7) H1 H2.
  apply set_phash_tracker in H1, H2. cbv zeta in *.
  destruct H1 as (T1 & _ & P1 & A1 & A2 & A3 & A4 & A5 & A6 & A7 & _).
  destruct H2 as (T2 & _ & P2 & B1 & B2 & B3 & B4 & B5 & B6 & B7 & _).
  split; [unfold same_layout; repeat split; congruence|].
  split; [|congruence].
  rewrite T1, T2, L6. reflexivity.
Qed.

Lemma opened_same filesize k1 k2 :
  opened filesize k1 -> opened filesize k2 -> phash k1 = phash k2 ->
  same_layout k1 k2 /\ tracker k1 = tracker k2.
Proof.
  intros (sm1 & t1 & a0 & a1 & Ha & Hpa & Hla & Hta)
         (sm2 & t2 & b0 & b1 & Hb & Hpb & Hlb & Htb) Hp.
  rewrite Hp in Hpa.
  destruct (set_phash_same a0 b0 (phash k2) a1 b1
              (set_boundaries_same _ _ _ _ _ _ _ Ha Hb) Hpa Hpb)
    as (Hl & Ht & _).
  split.
  - eapply same_layout_trans; [exact Hla|].
    eapply same_layout_trans; [exact Hl|].
    apply same_layout_sym. exact Hlb.
  - congruence.
Qed.

(** What the constructor returns. *)
Lemma KeyLocker_new_ok ph seed sm t w k w' :
  KeyLocker_new ph seed sm t w = (Ok k, w') ->
  exists k0 s,
    set_boundaries (len (content w)) sm t = Ok k0 /\
    match ph with
    | [] => k = with_salt k0 s
    | _ :: _ => set_phash (with_salt k0 s) ph = Ok k
    end.
Proof.
  unfold KeyLocker_new. intros H.
  bind_inv H. unfold get_size in Hm. inversion Hm; subst a w0; clear Hm.
  bind_inv H. apply lift_ok in Hm as [Hb ->].
  bind_inv H. bind_inv H. bind_inv H. bind_inv H. cbv zeta in H.
  exists a, (a1 ++ a3 ++ seed). split; [exact Hb|].
  destruct ph as [|b ph].
  - apply ret_ok in H as [-> _]. reflexivity.
  - apply lift_ok in H as [H _]. exact H.
Qed.

Lemma with_salt_layout k s : same_layout (with_salt k s) k.
Proof. unfold same_layout. cbn. repeat split. Qed.

End Derivation.

(** C8, as the code has it.  The derivation is a function of the
    password hash and of the size of the file: two vaults made over
    files of the same size with the same hash derive the same keys and
    vectors, the same Shamir key, the same prime and the same candidate
    offsets, whatever the files hold, whatever the salt seed, the mode
    switches and the random source are. *)
Theorem derivation_is_a_function_of_phash {ext : Externals}
    (ph seed1 seed2 : bytes) (sm1 sm2 t1 t2 : bool)
    (w1 w2 w1' w2' : world) (k1 k2 : slots.KeyLocker) :
  len (content w1) = len (content w2) ->
  slots.KeyLocker_new ph seed1 sm1 t1 w1 = (Ok k1, w1') ->
  slots.KeyLocker_new ph seed2 sm2 t2 w2 = (Ok k2, w2') ->
  (forall seg, slots.get_key k1 seg = slots.get_key k2 seg) /\
  slots.get_key_shamir k1 = slots.get_key_shamir k2 /\
  (forall data_len, slots.get_prime k1 data_len = slots.get_prime k2 data_len) /\
  (forall seg, slots.get_offset k1 seg = slots.get_offset k2 seg).
Proof.
  intros Hlen H1 H2.
  apply KeyLocker_new_ok in H1 as (a0 & s1 & Ha & H1).
  apply KeyLocker_new_ok in H2 as (b0 & s2 & Hb & H2).
  rewrite Hlen in Ha.
  pose proof (set_boundaries_same _ _ _ _ _ _ _ Ha Hb) as Hl.
  destruct ph as [|b ph].
  - subst k1 k2. destruct Hl as (L1 & L2 & L3 & L4 & L5 & L6 & L7).
    apply set_boundaries_ok in Ha, Hb.
    destruct Ha as (_ & _ & _ & _ & _ & _ & _ & _ & _ & _ & Pa & Ta & _).
    destruct Hb as (_ & _ & _ & _ & _ & _ & _ & _ & _ & _ & Pb & Tb & _).
    apply derivations_agree; cbn; congruence.
  - assert (Hl' : slots.same_layout (slots.with_salt a0 s1) (slots.with_salt b0 s2)).
    { eapply same_layout_trans; [apply with_salt_layout|].
      eapply same_layout_trans; [exact Hl|].
      apply same_layout_sym, with_salt_layout. }
    destruct (set_phash_same _ _ _ _ _ Hl' H1 H2) as (Hs & Ht & Hp).
    destruct Hs as (L1 & L2 & L3 & L4 & L5 & L6 & L7).
    apply derivations_agree; assumption.
Qed.

Lemma derivation_is_a_function_of_phash_witness :
  (forall seg, @slots.get_key fixtures.vault_a seg
               = @slots.get_key fixtures.vault_b seg) /\
  slots.get_key_shamir fixtures.vault_a = slots.get_key_shamir fixtures.vault_b /\
  (forall data_len,
      @slots.get_prime fixtures.toy_externals fixtures.vault_a data_len
      = @slots.get_prime fixtures.toy_externals fixtures.vault_b data_len) /\
  (forall seg, slots.get_offset fixtures.vault_a seg
               = slots.get_offset fixtures.vault_b seg).
Proof.
  apply (@derivation_is_a_function_of_phash fixtures.toy_externals
           fixtures.phash_1400 [] [1; 2; 3] true false true false
           fixtures.world_a fixtures.world_b
           (snd (@slots.KeyLocker_new fixtures.toy_externals
                   fixtures.phash_1400 [] true true fixtures.world_a))
           (snd (@slots.KeyLocker_new fixtures.toy_externals
                   fixtures.phash_1400 [1; 2; 3] false false fixtures.world_b))).
  - vm_compute. reflexivity.
  - vm_compute. reflexivity.
  - vm_compute. reflexivity.
Defined.

(** C8 as stated fails: the hash alone does not fix the offsets.  Two
    vaults made with the same hash, seed and switches over files of 2000
    and of 3000 bytes have 25 and 39 slots, and [get_offset(0)], which
    reduces its number modulo the number of slots, is 830 in one and
    2397 in the other. *)
Lemma derivation_depends_on_the_file_size :
  exists k1 k2 w1 w2,
    @slots.KeyLocker_new fixtures.toy_externals fixtures.phash_1400 []
      true true (mkWorld [] (repeat 255 2000) 0 []) = (Ok k1, w1) /\
    @slots.KeyLocker_new fixtures.toy_externals fixtures.phash_1400 []
      true true (mkWorld [] (repeat 255 3000) 0 []) = (Ok k2, w2) /\
    slots.phash k1 = slots.phash k2 /\
    slots.num_slots k1 = 25 /\ slots.num_slots k2 = 39 /\
    slots.get_offset k1 0 = Ok 830 /\ slots.get_offset k2 0 = Ok 2397.
Proof.
  eexists _, _, _, _.
  split; [vm_compute; reflexivity|].
  split; [vm_compute; reflexivity|].
  split; [vm_compute; reflexivity|].
  split; [vm_compute; reflexivity|].
  split; [vm_compute; reflexivity|].
  split; vm_compute; reflexivity.
Qed.

(** ** Slices *)

Section Slices.

Context {A : Type}.
Implicit Types l a b c : list A.

Lemma to_nat_len l : Z.to_nat (len l) = length l.
Proof. unfold len. apply Nat2Z.id. Qed.

Lemma slice_length l start stop :
  0 <= start -> start <= stop -> stop <= len l ->
  len (slice l start stop) = stop - start.
Proof.
  intros H0 H1 H2. unfold slice, len in *.
  rewrite length_firstn, length_skipn. lia.
Qed.

Lemma slice_all l : slice l 0 (len l) = l.
Proof.
  unfold slice. cbn [Z.to_nat skipn]. rewrite Z.sub_0_r, to_nat_len.
  apply firstn_all.
Qed.

Lemma slice_0 l stop : slice l 0 stop = firstn (Z.to_nat stop) l.
Proof. unfold slice. rewrite Z.sub_0_r. reflexivity. Qed.

Lemma firstn_len_app a b : firstn (Z.to_nat (len a)) (a ++ b) = a.
Proof.
  rewrite to_nat_len, firstn_app, Nat.sub_diag, firstn_all. cbn.
  apply app_nil_r.
Qed.

Lemma skipn_len_app a b : skipn (Z.to_nat (len a)) (a ++ b) = b.
Proof.
  rewrite to_nat_len, skipn_app, Nat.sub_diag, skipn_all. reflexivity.
Qed.

Lemma slice_app_r a b start stop :
  len a <= start ->
  slice (a ++ b) start stop = slice b (start - len a) (stop - len a).
Proof.
  intros H. unfold slice, len in *.
  rewrite skipn_app.
  rewrite (skipn_all2 a) by lia. cbn [app].
  f_equal; [lia|]. f_equal. lia.
Qed.

Lemma slice_app_l a b stop :
  0 <= stop -> stop <= len a -> slice (a ++ b) 0 stop = slice a 0 stop.
Proof.
  intros H0 H. rewrite !slice_0. unfold len in H.
  rewrite firstn_app.
  replace (Z.to_nat stop - length a)%nat with 0%nat by lia.
  cbn. apply app_nil_r.
Qed.

Lemma slice_prefix a b : slice (a ++ b) 0 (len a) = a.
Proof. rewrite slice_0. apply firstn_len_app. Qed.

Lemma slice_mid a b c :
  slice (a ++ b ++ c) (len a) (len a + len b) = b.
Proof.
  rewrite slice_app_r by lia.
  replace (len a - len a) with 0 by lia.
  replace (len a + len b - len a) with (len b) by lia.
  apply slice_prefix.
Qed.

Lemma len_firstn l n : len (firstn n l) = Z.min (Z.of_nat n) (len l).
Proof. unfold len. rewrite length_firstn. lia. Qed.

Lemma len_skipn l n : len (skipn n l) = Z.max 0 (len l - Z.of_nat n).
Proof. unfold len. rewrite length_skipn. lia. Qed.

Lemma len_map {B} (f : A -> B) l : len (map f l) = len l.
Proof. unfold len. rewrite length_map. reflexivity. Qed.

Lemma skipn_repeat (x : A) n m : skipn n (repeat x m) = repeat x (m - n).
Proof.
  revert m; induction n as [|n IH]; intros [|m]; cbn; try reflexivity.
  apply IH.
Qed.

Lemma firstn_repeat (x : A) n m :
  firstn n (repeat x m) = repeat x (Nat.min n m).
Proof.
  revert m; induction n as [|n IH]; intros [|m]; cbn; try reflexivity.
  rewrite IH. reflexivity.
Qed.

End Slices.

(** ** The cipher *)

Section Cipher.

Import crypto.

Lemma xor_stream_length ks from data :
  length (xor_stream ks from data) = length data.
Proof.
  revert from; induction data as [|b data IH]; intros from; cbn;
    [reflexivity|]. rewrite IH. reflexivity.
Qed.

Lemma xor_stream_len ks from data : len (xor_stream ks from data) = len data.
Proof. unfold len. rewrite xor_stream_length. reflexivity. Qed.

Lemma xor_stream_app ks from a b :
  xor_stream ks from (a ++ b)
  = xor_stream ks from a ++ xor_stream ks (from + length a) b.
Proof.
  revert from; induction a as [|x a IH]; intros from; cbn [app xor_stream length].
  - rewrite Nat.add_0_r. reflexivity.
  - rewrite IH. replace (from + S (length a))%nat with (S from + length a)%nat by lia.
    reflexivity.
Qed.

(** Decrypting is encrypting again. *)
Lemma xor_stream_involutive ks from data :
  xor_stream ks from (xor_stream ks from data) = data.
Proof.
  revert from; induction data as [|b data IH]; intros from; cbn;
    [reflexivity|].
  rewrite IH. f_equal.
  rewrite Z.lxor_assoc, Z.lxor_nilpotent, Z.lxor_0_r. reflexivity.
Qed.

Lemma xor_stream_firstn ks from n data :
  firstn n (xor_stream ks from data) = xor_stream ks from (firstn n data).
Proof.
  revert from n; induction data as [|b data IH]; intros from [|n]; cbn;
    try reflexivity.
  rewrite IH. reflexivity.
Qed.

End Cipher.

(** ** The envelope *)

Section Envelope.

Context {ext : Externals}.
Import bitfun.

Lemma digest_len src : len (slice (sha512 src) 0 chk_len) = 8.
Proof.
  rewrite slice_length; unfold chk_len, len; try rewrite sha512_length; lia.
Qed.

Lemma copy_bytearray_ok src target start stop tstart :
  let stop' := if stop =? 0 then len src else stop in
  0 <= start -> start <= stop' -> stop' <= len src ->
  0 <= tstart -> tstart + (stop' - start) <= len target ->
  copy_bytearray src target start stop tstart
  = Ok (firstn (Z.to_nat tstart) target ++ slice src start stop'
        ++ skipn (Z.to_nat (tstart + (stop' - start))) target).
Proof.
  intros stop' H0 H1 H2 H3 H4. unfold copy_bytearray. fold stop'. cbv zeta.
  destruct (stop' - start + tstart >? len target) eqn:E1;
    [rewrite Z.gtb_ltb in E1; apply Z.ltb_lt in E1; lia|].
  destruct (stop' <? start) eqn:E2; [apply Z.ltb_lt in E2; lia|].
  destruct (stop' >? len src) eqn:E3;
    [rewrite Z.gtb_ltb in E3; apply Z.ltb_lt in E3; lia|].
  reflexivity.
Qed.

Lemma chunk_up_64 n :
  n <= chunk_up n 64 < n + 64 /\ chunk_up n 64 mod 64 = 0.
Proof.
  unfold chunk_up. split; [|apply Z.mod_mul; lia].
  pose proof (Z.div_mod (n - 1) 64). pose proof (Z.mod_pos_bound (n - 1) 64).
  lia.
Qed.

Lemma capacity_facts src :
  len src <= 247 ->
  header + len src <= capacity src /\ capacity src <= 256 /\
  64 <= capacity src /\ capacity src mod 64 = 0.
Proof.
  intros H. unfold capacity, header, chk_len.
  pose proof (len_nonneg src).
  destruct (len src + (8 + 1) >? 64) eqn:E.
  - rewrite Z.gtb_ltb in E. apply Z.ltb_lt in E.
    destruct (chunk_up_64 (len src + (8 + 1))) as [[H1 H2] H3].
    repeat split; try lia; try exact H3.
    apply Z.mod_divide in H3; [|lia]. destruct H3 as [q Hq]. lia.
  - rewrite Z.gtb_ltb in E. apply Z.ltb_ge in E.
    repeat split; try lia.
Qed.

Lemma envelope_len src rest :
  len (envelope src rest) = header + len src + len rest.
Proof.
  unfold envelope. rewrite !len_app, digest_len, len_cons.
  unfold header, chk_len, len. cbn [length]. lia.
Qed.

(** The data portion and the header of an array laid out as an
    envelope. *)
Lemma envelope_data src rest :
  slice (envelope src rest) header (header + len src) = src.
Proof.
  unfold envelope.
  replace header with (len (slice (sha512 src) 0 chk_len ++ [len src])).
  2:{ rewrite len_app, digest_len. reflexivity. }
  rewrite (app_assoc _ [len src]). apply slice_mid.
Qed.

Lemma envelope_checksum src rest :
  slice (envelope src rest) 0 chk_len = slice (sha512 src) 0 chk_len.
Proof.
  unfold envelope.
  set (D := slice (sha512 src) 0 chk_len).
  replace chk_len with (len D) by apply digest_len.
  apply slice_prefix.
Qed.

Lemma envelope_length_byte src rest :
  nth_error (envelope src rest) (Z.to_nat chk_len) = Some (len src).
Proof.
  unfold envelope.
  rewrite nth_error_app2.
  - replace (Z.to_nat chk_len - length (slice (sha512 src) 0 chk_len))%nat
      with 0%nat; [reflexivity|].
    pose proof (digest_len src) as H. unfold len in H. unfold chk_len in *. lia.
  - pose proof (digest_len src) as H. unfold len in H. unfold chk_len in *. lia.
Qed.

End Envelope.

Section ABAFacts.

Context {ext : Externals}.
Import bitfun.

Lemma data_fresh_at (a : ABA) pre src rest :
  arr a = Some (pre ++ src ++ rest) ->
  len pre = header ->
  end_ a = header + len src ->
  updated a = true ->
  data a = Ok (src,
               mkABA (seed a) (arr a) (end_ a)
                     (if (3 <=? length (datas a ++ [src]))%nat
                      then tl (datas a ++ [src]) else datas a ++ [src])
                     false).
Proof.
  intros Harr Hpre Hend Hup. unfold data. rewrite Hup. cbn [negb]. cbv zeta.
  pose proof (len_nonneg src) as Hn.
  rewrite Hend.
  replace (header + len src - header) with (len src) by lia.
  destruct (len src <? 0) eqn:E; [apply Z.ltb_lt in E; lia|].
  unfold get_arr. rewrite Harr. cbn [obind].
  assert (Hne : (header + len src =? 0) = false)
    by (apply Z.eqb_neq; unfold header, chk_len; lia).
  rewrite copy_bytearray_ok; rewrite ?Hne.
  - rewrite <- Hpre at 1 2. rewrite slice_mid.
    cbn [Z.to_nat firstn app obind].
    replace (0 + (header + len src - header)) with (len src) by lia.
    rewrite skipn_all2 by (rewrite repeat_length, to_nat_len; lia).
    rewrite app_nil_r. reflexivity.
  - unfold header, chk_len. lia.
  - lia.
  - rewrite !len_app. pose proof (len_nonneg rest). lia.
  - lia.
  - rewrite len_repeat. lia.
Qed.

Lemma data_fresh (a : ABA) src rest :
  arr a = Some (envelope src rest) ->
  end_ a = header + len src ->
  updated a = true ->
  data a = Ok (src,
               mkABA (seed a) (arr a) (end_ a)
                     (if (3 <=? length (datas a ++ [src]))%nat
                      then tl (datas a ++ [src]) else datas a ++ [src])
                     false).
Proof.
  intros Harr.
  apply (data_fresh_at a (slice (sha512 src) 0 chk_len ++ [len src]) src rest).
  - rewrite Harr. unfold envelope. rewrite <- app_assoc. reflexivity.
  - rewrite len_app, digest_len. reflexivity.
Qed.

Lemma bytes_eqb_refl b : bytes_eqb b b = true.
Proof.
  unfold bytes_eqb. rewrite Nat.eqb_refl. cbn [andb].
  induction b as [|x b IH]; cbn; [reflexivity|].
  rewrite Z.eqb_refl. exact IH.
Qed.

(** A raw array laid out as an envelope validates, and then holds the
    data. *)
Lemma validate_envelope sd0 src rest :
  exists a',
    validate (mkABA [] (Some (envelope src rest)) start sd0 true)
    = Ok (true, a') /\
    ABA_bytes a' = Ok (src, a') /\
    ABA_len a' = len src.
Proof.
  unfold validate, read_lb, get_arr. cbn [arr obind].
  rewrite envelope_length_byte. cbn [obind].
  rewrite envelope_len.
  destruct (header + len src >? header + len src + len rest) eqn:E.
  { rewrite Z.gtb_ltb in E. apply Z.ltb_lt in E. pose proof (len_nonneg rest). lia. }
  unfold checksum.
  rewrite (data_fresh _ src rest) by reflexivity.
  cbn [obind seed arr end_ datas updated app].
  rewrite envelope_checksum, bytes_eqb_refl.
  eexists. split; [reflexivity|]. split.
  - unfold ABA_bytes, data. cbn [updated negb datas].
    destruct (3 <=? length (sd0 ++ [src]))%nat eqn:E3.
    + destruct sd0 as [|x sd0]; [cbn in E3; discriminate|].
      cbn [app tl]. rewrite rev_app_distr. reflexivity.
    + rewrite rev_app_distr. reflexivity.
  - unfold ABA_len. cbn [end_]. unfold start. lia.
Qed.

(** [ABA(src)] with the default size, for data of 1 to 247 bytes: an
    envelope padded with zeros up to the capacity. *)
Lemma ABA_new_ok src :
  src <> [] -> len src <= 247 ->
  ABA_new src 64 [] false
  = Ok (mkABA [] (Some (envelope src
                          (repeat 0 (Z.to_nat (capacity src - header - len src)))))
              (header + len src) [src] true).
Proof.
  intros Hne Hlen. destruct src as [|x l]; [contradiction|].
  unfold ABA_new. cbv iota.
  set (src := x :: l) in *.
  destruct (capacity_facts src Hlen) as (C1 & C2 & C3 & C4).
  pose proof (len_nonneg src) as Hn.
  cbv zeta. fold (capacity src).
  destruct (capacity src - header >? 255) eqn:E.
  { rewrite Z.gtb_ltb in E. apply Z.ltb_lt in E. unfold header, chk_len in *. lia. }
  unfold read, get_arr. cbn [arr end_ obind seed datas updated].
  rewrite copy_bytearray_ok; cbn [Z.eqb];
    try (unfold start, header, chk_len in *; rewrite ?len_repeat; lia).
  cbn [obind].
  rewrite slice_all.
  set (zeros := repeat 0 (Z.to_nat (capacity src))).
  assert (Hz : len (firstn (Z.to_nat start) zeros) = header).
  { rewrite len_firstn. unfold zeros. rewrite len_repeat.
    unfold start, header, chk_len in *. lia. }
  unfold prepend, ABA_len. cbn [end_].
  replace (start + len src - start) with (len src) by lia.
  destruct (len src >? 255) eqn:E1.
  { rewrite Z.gtb_ltb in E1. apply Z.ltb_lt in E1. lia. }
  unfold to_bytes.
  destruct (len src <? 256) eqn:E2; [|apply Z.ltb_ge in E2; lia].
  change (1 <? 0) with false. cbv iota.
  change (Z.to_nat 1) with 1%nat.
  rewrite int_to_bytes_ok by (change (256 ^ Z.of_nat 1) with 256; lia).
  cbn [obind le_bytes].
  rewrite Z.mod_small by lia.
  unfold checksum.
  rewrite (data_fresh_at _ (firstn (Z.to_nat start) zeros) src
             (skipn (Z.to_nat (start + (len src - 0))) zeros));
    [|reflexivity|exact Hz|reflexivity|reflexivity].
  cbn [obind seed arr end_ datas updated app length Nat.leb get_arr].
  assert (H9 : len (slice (sha512 src) 0 chk_len ++ [len src]) = header)
    by (rewrite len_app, digest_len; reflexivity).
  rewrite copy_bytearray_ok; cbn [Z.eqb].
  2-5: rewrite ?len_app, ?digest_len; unfold header, chk_len, len;
       cbn [length]; lia.
  - cbn [obind Z.to_nat firstn app seed arr end_ datas updated].
    rewrite slice_all, Z.add_0_l, Z.sub_0_r.
    match goal with
    | |- context [skipn (Z.to_nat ?e) (firstn _ zeros ++ _)] =>
        replace e with (len (firstn (Z.to_nat start) zeros))
          by (rewrite Hz, len_app, digest_len; reflexivity)
    end.
    rewrite skipn_len_app.
    unfold envelope. rewrite <- !app_assoc. cbn [app].
    do 6 f_equal.
    unfold zeros. rewrite skipn_repeat. f_equal.
    unfold start, header, chk_len in *. lia.
  - rewrite !len_app, digest_len, len_firstn, len_skipn.
    unfold zeros. rewrite !len_repeat.
    unfold start, header, chk_len in *. rewrite len_cons.
    change (len (@nil byte)) with 0. lia.
Qed.

End ABAFacts.

Lemma ABA_new_too_long {ext : Externals} src :
  247 < len src -> bitfun.ABA_new src 64 [] false = Raise ValueError.
Proof.
  intros H. destruct src as [|x l]; [cbn in H; lia|].
  unfold bitfun.ABA_new. cbv iota zeta.
  set (src := x :: l) in *.
  unfold bitfun.header, bitfun.chk_len in *.
  destruct (len src + (8 + 1) >? 64) eqn:E.
  - destruct (chunk_up_64 (len src + (8 + 1))) as [[H1 H2] H3].
    apply Z.mod_divide in H3; [|lia]. destruct H3 as [q Hq].
    destruct (chunk_up (len src + (8 + 1)) 64 - (8 + 1) >? 255) eqn:E1;
      [reflexivity|].
    rewrite Z.gtb_ltb in E1. apply Z.ltb_ge in E1. lia.
  - rewrite Z.gtb_ltb in E. apply Z.ltb_ge in E. lia.
Qed.

(** C5, as the code has it.  With the default capacity of 64,
    constructing an [ABA] from data succeeds for every data of at most
    247 bytes and raises [ValueError] for every longer one: the test is
    on the capacity, the next multiple of 64 that holds header and data,
    less the header. *)
Theorem ABA_new_succeeds_up_to_247 {ext : Externals} (src : bytes) :
  (len src <= 247 -> exists a, bitfun.ABA_new src 64 [] false = Ok a) /\
  (247 < len src -> bitfun.ABA_new src 64 [] false = Raise ValueError).
Proof.
  split.
  - intros H. destruct src as [|x l] eqn:E.
    + eexists. reflexivity.
    + eexists. apply ABA_new_ok; [discriminate|exact H].
  - apply ABA_new_too_long.
Qed.

(** C5 as stated fails: no data of 248 to 255 bytes can be wrapped,
    whatever the hash function is. *)
Lemma ABA_new_fails_at_248 :
  ~ (exists ext : Externals,
       forall src : bytes,
         len src <= 255 -> exists a, @bitfun.ABA_new ext src 64 [] false = Ok a).
Proof.
  intros [ext H].
  destruct (H (repeat 0 248)) as [a Ha].
  - rewrite len_repeat. lia.
  - rewrite (@ABA_new_too_long ext) in Ha; [discriminate|].
    rewrite len_repeat. lia.
Qed.

(** ** Runs that only use the random source *)

Section Quiet.

Import frame.

Lemma tape_only_refl w : tape_only w w.
Proof. repeat split. Qed.

Lemma tape_only_trans w1 w2 w3 :
  tape_only w1 w2 -> tape_only w2 w3 -> tape_only w1 w3.
Proof. unfold tape_only. intuition congruence. Qed.

Lemma tape_only_set_tape w t : tape_only w (set_tape w t).
Proof. repeat split. Qed.

Lemma quiet_ret {A} (a : A) : quiet (ret a).
Proof. intros w. apply tape_only_refl. Qed.

Lemma quiet_lift {A} (x : outcome A) : quiet (lift x).
Proof. intros w. apply tape_only_refl. Qed.

Lemma quiet_raise {A} e : quiet (@raise A e).
Proof. intros w. apply tape_only_refl. Qed.

Lemma quiet_error {A} : quiet (@error A).
Proof. intros w. apply tape_only_refl. Qed.

Lemma quiet_bind {A B} (m : M A) (f : A -> M B) :
  quiet m -> (forall a, quiet (f a)) -> quiet (bind m f).
Proof.
  intros Hm Hf w. unfold bind. specialize (Hm w).
  destruct (m w) as [[a| |] w1]; cbn [snd] in *; try exact Hm.
  eapply tape_only_trans; [exact Hm|]. apply Hf.
Qed.

Lemma quiet_if {A} (c : bool) (m1 m2 : M A) :
  quiet m1 -> quiet m2 -> quiet (if c then m1 else m2).
Proof. destruct c; auto. Qed.

Lemma quiet_urandom n : quiet (urandom n).
Proof.
  intros w. unfold urandom.
  destruct (n <? 0); [apply tape_only_refl|].
  destruct (n =? 0); [apply tape_only_refl|].
  destruct (tape w) as [|[b|q|z|p] t]; try apply tape_only_refl.
  destruct (_ && _); [apply tape_only_set_tape|apply tape_only_refl].
Qed.

Lemma quiet_random_float : quiet random_float.
Proof.
  intros w. unfold random_float.
  destruct (tape w) as [|[b|q|z|p] t]; try apply tape_only_refl.
  destruct (_ && _); [apply tape_only_set_tape|apply tape_only_refl].
Qed.

Lemma quiet_lognormvariate mu sigma : quiet (lognormvariate mu sigma).
Proof.
  intros w. unfold lognormvariate.
  destruct (tape w) as [|[b|q|z|p] t]; try apply tape_only_refl.
  destruct (negb _); [apply tape_only_set_tape|apply tape_only_refl].
Qed.

Lemma quiet_shuffle {A} (l : list A) : quiet (shuffle l).
Proof.
  intros w. unfold shuffle.
  destruct (tape w) as [|[b|q|z|p] t]; try apply tape_only_refl.
  destruct (is_permb _ _); [apply tape_only_set_tape|apply tape_only_refl].
Qed.

Lemma quiet_sd_randint low high : quiet (sd_randint low high).
Proof.
  intros w. unfold sd_randint.
  destruct (tape w) as [|[b|q|z|p] t]; try apply tape_only_refl.
  destruct (_ && _); [apply tape_only_set_tape|apply tape_only_refl].
Qed.

Lemma quiet_randbelow n : quiet (randbelow n).
Proof.
  intros w. unfold randbelow.
  destruct (n <=? 0); [apply tape_only_refl|].
  destruct (tape w) as [|[b|q|z|p] t]; try apply tape_only_refl.
  destruct (_ && _); [apply tape_only_set_tape|apply tape_only_refl].
Qed.

End Quiet.

Create HintDb quiet.

#[local] Hint Resolve quiet_ret quiet_lift quiet_raise quiet_error quiet_urandom
  quiet_random_float quiet_lognormvariate quiet_shuffle quiet_sd_randint
  quiet_randbelow : quiet.

(** Reduce a goal [quiet m] along the binds and branches of [m]. *)
Ltac quiet_step :=
  match goal with
  | |- frame.quiet (bind _ _) => apply quiet_bind; [|intros ?]
  | |- frame.quiet (if _ then _ else _) => apply quiet_if
  | |- frame.quiet (match ?x with _ => _ end) => destruct x
  | |- frame.quiet _ => solve [auto with quiet]
  end.

Ltac quiet_auto := repeat quiet_step.

Section QuietProcedures.

Context {ext : Externals}.
Import frame.

Lemma quiet_get_random n : quiet (crypto.get_random n).
Proof. unfold crypto.get_random. quiet_auto. Qed.
Hint Resolve quiet_get_random : quiet.

Lemma quiet_pad d : quiet (crypto.pad d).
Proof. unfold crypto.pad. quiet_auto. Qed.
Hint Resolve quiet_pad : quiet.

Lemma quiet_encrypt_data d k v c : quiet (crypto.encrypt_data d k v c).
Proof. unfold crypto.encrypt_data. quiet_auto. Qed.

Lemma quiet_decrypt_data d k v c : quiet (crypto.decrypt_data d k v c).
Proof. unfold crypto.decrypt_data. quiet_auto. Qed.
Hint Resolve quiet_encrypt_data quiet_decrypt_data : quiet.

Lemma quiet_get_slot_count_at depth self target sigma :
  quiet (slots.get_slot_count_at depth self target sigma).
Proof.
  revert sigma. induction depth as [|depth IH]; intros sigma;
    cbn [slots.get_slot_count_at]; quiet_auto.
Qed.

Lemma quiet_get_slot_count self target :
  quiet (slots.get_slot_count self target).
Proof. apply quiet_get_slot_count_at. Qed.
Hint Resolve quiet_get_slot_count : quiet.

Lemma quiet_scramble a src : quiet (bitfun.scramble a src).
Proof. unfold bitfun.scramble. quiet_auto. Qed.
Hint Resolve quiet_scramble : quiet.

Lemma quiet_randint n : quiet (shamir.randint n).
Proof. unfold shamir.randint. auto with quiet. Qed.
Hint Resolve quiet_randint : quiet.

Lemma quiet_random_coefficients n prime :
  quiet (shamir.random_coefficients n prime).
Proof.
  induction n as [|n IH]; cbn [shamir.random_coefficients]; quiet_auto.
Qed.
Hint Resolve quiet_random_coefficients : quiet.

Lemma quiet_make_shares minimum shares prime secret data_len :
  quiet (shamir.make_shares minimum shares prime secret data_len).
Proof. unfold shamir.make_shares. quiet_auto. Qed.

Lemma quiet_combos_of_size share_c minimum :
  quiet (shamir.combos_of_size share_c minimum).
Proof. unfold shamir.combos_of_size. quiet_auto. Qed.
Hint Resolve quiet_make_shares quiet_combos_of_size : quiet.

Lemma quiet_read_shamir_sizes prime shares giveup sizes st :
  quiet (slots.read_shamir_sizes prime shares giveup sizes st).
Proof.
  revert st. induction sizes as [|minimum rest IH]; intros st;
    cbn [slots.read_shamir_sizes]; quiet_auto.
Qed.
Hint Resolve quiet_read_shamir_sizes : quiet.

Lemma quiet_read_shamir self prime shares giveup :
  quiet (slots.read_shamir self prime shares giveup).
Proof. unfold slots.read_shamir. quiet_auto. Qed.
Hint Resolve quiet_read_shamir : quiet.

Lemma quiet_random_shares n data_len : quiet (slots.random_shares n data_len).
Proof.
  induction n as [|n IH]; cbn [slots.random_shares]; quiet_auto.
Qed.
Hint Resolve quiet_random_shares : quiet.

Lemma quiet_bogus_runs self n prime count data_len :
  quiet (slots.bogus_runs self n prime count data_len).
Proof.
  induction n as [|n IH]; cbn [slots.bogus_runs]; quiet_auto.
Qed.
Hint Resolve quiet_bogus_runs : quiet.

Lemma quiet_pad_below_prime tries data prime :
  quiet (slots.pad_below_prime tries data prime).
Proof.
  revert data. induction tries as [|tries IH]; intros data;
    cbn [slots.pad_below_prime]; quiet_auto.
Qed.

Lemma quiet_get_valid_slots_loop tries self minimum maximum data_len :
  quiet (slots.get_valid_slots_loop tries self minimum maximum data_len).
Proof.
  induction tries as [|tries IH]; cbn [slots.get_valid_slots_loop];
    quiet_auto.
Qed.

Lemma quiet_read_slot_widths self datablock widths :
  quiet (slots.read_slot_widths self datablock widths).
Proof.
  induction widths as [|data_len rest IH]; cbn [slots.read_slot_widths];
    quiet_auto.
Qed.

End QuietProcedures.

#[local] Hint Resolve quiet_get_random quiet_pad quiet_encrypt_data
  quiet_decrypt_data quiet_get_slot_count quiet_scramble quiet_randint
  quiet_random_coefficients quiet_make_shares quiet_combos_of_size
  quiet_read_shamir_sizes quiet_read_shamir quiet_random_shares
  quiet_bogus_runs quiet_pad_below_prime quiet_get_valid_slots_loop
  quiet_read_slot_widths : quiet.

(** ** Runs that only read the file *)

Section Reads.

Context {ext : Externals}.
Import frame.

Lemma read_only_refl w : read_only w w.
Proof.
  split; [reflexivity|]. exists []. rewrite app_nil_r. split; [reflexivity|constructor].
Qed.

Lemma read_only_trans w1 w2 w3 :
  read_only w1 w2 -> read_only w2 w3 -> read_only w1 w3.
Proof.
  intros [C1 [e1 [I1 F1]]] [C2 [e2 [I2 F2]]]. split; [congruence|].
  exists (e1 ++ e2). rewrite I2, I1, app_assoc. split; [reflexivity|].
  apply Forall_app. split; assumption.
Qed.

Lemma tape_only_read_only w w' : tape_only w w' -> read_only w w'.
Proof.
  intros (C & _ & I). split; [exact C|].
  exists []. rewrite app_nil_r. split; [exact I|constructor].
Qed.

Lemma reads_quiet {A} (m : M A) : quiet m -> reads m.
Proof. intros H w. apply tape_only_read_only, H. Qed.

Lemma reads_bind {A B} (m : M A) (f : A -> M B) :
  reads m -> (forall a, reads (f a)) -> reads (bind m f).
Proof.
  intros Hm Hf w. unfold bind. specialize (Hm w).
  destruct (m w) as [[a| |] w1]; cbn [snd] in *; try exact Hm.
  eapply read_only_trans; [exact Hm|]. apply Hf.
Qed.

Lemma reads_if {A} (c : bool) (m1 m2 : M A) :
  reads m1 -> reads m2 -> reads (if c then m1 else m2).
Proof. destruct c; auto. Qed.

Lemma reads_seek offset : reads (seek offset).
Proof.
  intros w. unfold seek. destruct (offset <? 0); cbn [snd];
    [apply read_only_refl|].
  split; [reflexivity|]. exists []. rewrite app_nil_r.
  split; [reflexivity|constructor].
Qed.

Lemma reads_file_read count : reads (file_read count).
Proof.
  intros w. unfold file_read. cbn [snd content io].
  split; [reflexivity|]. eexists. split; [reflexivity|].
  repeat constructor.
Qed.

Lemma reads_get_size : reads get_size.
Proof. intros w. apply read_only_refl. Qed.

End Reads.

Create HintDb reads.

#[local] Hint Resolve reads_seek reads_file_read reads_get_size : reads.

Ltac reads_step :=
  match goal with
  | |- frame.reads (bind _ _) => apply reads_bind; [|intros ?]
  | |- frame.reads (if _ then _ else _) => apply reads_if
  | |- frame.reads (match ?x with _ => _ end) => destruct x
  | |- frame.reads _ => solve [auto with reads]
  | |- frame.reads _ => solve [apply reads_quiet; quiet_auto; auto with quiet]
  end.

Ltac reads_auto := repeat reads_step.

Section ReadsProcedures.

Context {ext : Externals}.
Import frame.

Lemma reads_read_slot_scan self segs st :
  reads (slots.read_slot_scan self segs st).
Proof.
  revert st. induction segs as [|seg rest IH]; intros st;
    cbn [slots.read_slot_scan]; reads_auto.
Qed.

Lemma reads_read_datablock self segs :
  reads (slots.read_datablock self segs).
Proof.
  induction segs as [|seg rest IH]; cbn [slots.read_datablock]; reads_auto.
Qed.

(** [read_slot] writes nothing. *)
Lemma reads_read_slot self : reads (slots.read_slot self).
Proof.
  unfold slots.read_slot, sample_range.
  reads_auto; auto using reads_read_slot_scan, reads_read_datablock.
Qed.

End ReadsProcedures.

(** ** Runs that write within the slot area *)

Section Keeps.

Context {ext : Externals}.
Import frame.

Variables lo hi : Z.
Hypothesis lo_nonneg : 0 <= lo.

Lemma framed_refl w : framed lo hi w w.
Proof.
  repeat split. exists []. rewrite app_nil_r. split; [reflexivity|constructor].
Qed.

Lemma framed_trans w1 w2 w3 :
  framed lo hi w1 w2 -> framed lo hi w2 w3 -> framed lo hi w1 w3.
Proof.
  intros (L1 & H1 & T1 & e1 & I1 & F1) (L2 & H2 & T2 & e2 & I2 & F2).
  repeat split; try congruence.
  exists (e1 ++ e2). rewrite I2, I1, app_assoc. split; [reflexivity|].
  apply Forall_app. split; assumption.
Qed.

Lemma read_only_framed w w' : read_only w w' -> framed lo hi w w'.
Proof.
  intros (C & evs & I & F).
  unfold framed. rewrite C. repeat split.
  exists evs. split; [exact I|].
  eapply Forall_impl; [|exact F]. intros [o c|o c]; cbn; tauto.
Qed.

Lemma keeps_reads {A} (m : M A) : reads m -> keeps lo hi m (fun _ => True).
Proof.
  intros H w _. split; [apply read_only_framed, H|]. trivial.
Qed.

Lemma keeps_weaken {A} (m : M A) (Q Q' : A -> Prop) :
  keeps lo hi m Q -> (forall a, Q a -> Q' a) -> keeps lo hi m Q'.
Proof.
  intros H HQ w Hw. destruct (H w Hw) as [Hf Ha]. split; [exact Hf|].
  intros a E. apply HQ, Ha, E.
Qed.

Lemma keeps_bind {A B} (m : M A) (f : A -> M B) (Q : A -> Prop)
    (R : B -> Prop) :
  keeps lo hi m Q -> (forall a, Q a -> keeps lo hi (f a) R) ->
  keeps lo hi (bind m f) R.
Proof.
  intros Hm Hf w Hw. unfold bind. destruct (Hm w Hw) as [Hfr Ha].
  destruct (m w) as [[a| |] w1]; cbn [fst snd] in *.
  - assert (Hw1 : hi <= len (content w1)).
    { destruct Hfr as (L & _). rewrite L. exact Hw. }
    destruct (Hf a (Ha a eq_refl) w1 Hw1) as [Hfr2 Hb].
    split; [eapply framed_trans; eassumption|exact Hb].
  - split; [exact Hfr|]. intros b E; discriminate.
  - split; [exact Hfr|]. intros b E; discriminate.
Qed.

Lemma keeps_lift {A} (x : outcome A) : keeps lo hi (lift x) (fun a => x = Ok a).
Proof. intros w _. split; [apply framed_refl|]. cbn. auto. Qed.

Lemma keeps_ret {A} (x : A) : keeps lo hi (ret x) (fun a => a = x).
Proof.
  intros w _. split; [apply framed_refl|]. cbn. intros a E. congruence.
Qed.

Lemma keeps_quiet {A} (m : M A) (Q : A -> Prop) :
  quiet m -> (forall w a w', m w = (Ok a, w') -> Q a) -> keeps lo hi m Q.
Proof.
  intros Hq HQ w _. split.
  - apply read_only_framed, tape_only_read_only, Hq.
  - intros a E. destruct (m w) as [o w'] eqn:Em. cbn in E. subst o.
    eapply HQ. exact Em.
Qed.

Lemma keeps_if {A} (c : bool) (m1 m2 : M A) Q :
  keeps lo hi m1 Q -> keeps lo hi m2 Q -> keeps lo hi (if c then m1 else m2) Q.
Proof. destruct c; auto. Qed.

Lemma keeps_ext {A} (m m' : M A) (Q : A -> Prop) :
  (forall w, m w = m' w) -> keeps lo hi m Q -> keeps lo hi m' Q.
Proof. intros E H w Hw. rewrite <- E. apply H. exact Hw. Qed.

Lemma bind_assoc {A B C} (m : M A) (f : A -> M B) (g : B -> M C) w :
  bind (bind m f) g w = bind m (fun a => bind (f a) g) w.
Proof. unfold bind. destruct (m w) as [[a|e|] w1]; reflexivity. Qed.

Lemma bind_ext {A B} (m : M A) (f f' : A -> M B) w :
  (forall a w1, f a w1 = f' a w1) -> bind m f w = bind m f' w.
Proof.
  intros E. unfold bind. destruct (m w) as [[a|e|] w1];
    [apply E|reflexivity|reflexivity].
Qed.

Lemma keeps_for_each {A S} (l : list A) (body : A -> S -> M S) (s : S) :
  (forall a s', In a l -> keeps lo hi (body a s') (fun _ => True)) ->
  keeps lo hi (for_each l body s) (fun _ => True).
Proof.
  revert s. induction l as [|a l IH]; intros s Hb; cbn [for_each].
  - eapply keeps_weaken; [apply keeps_ret|trivial].
  - eapply keeps_bind; [apply Hb; left; reflexivity|].
    intros s' _. apply IH. intros b s'' Hin. apply Hb. right. exact Hin.
Qed.

(** Writing inside the area of a file that holds it. *)
Lemma write_at_framed f pos data :
  lo <= pos -> pos + len data <= hi -> hi <= len f ->
  len (write_at f pos data) = len f /\
  firstn (Z.to_nat lo) (write_at f pos data) = firstn (Z.to_nat lo) f /\
  skipn (Z.to_nat hi) (write_at f pos data) = skipn (Z.to_nat hi) f.
Proof.
  intros H1 H2 H3. pose proof (len_nonneg data) as Hd.
  unfold write_at.
  destruct (pos <=? len f) eqn:E; [|apply Z.leb_gt in E; lia].
  assert (Hl1 : length (firstn (Z.to_nat pos) f) = Z.to_nat pos)
    by (rewrite length_firstn; unfold len in *; lia).
  repeat split.
  - rewrite !len_app, len_firstn, len_skipn. unfold len in *. lia.
  - rewrite firstn_app, Hl1.
    replace (Z.to_nat lo - Z.to_nat pos)%nat with 0%nat by lia.
    cbn [firstn]. rewrite app_nil_r, firstn_firstn.
    f_equal. lia.
  - rewrite app_assoc, skipn_app.
    rewrite skipn_all2 by (rewrite length_app, Hl1; unfold len in *; lia).
    cbn [app]. rewrite skipn_skipn. f_equal.
    rewrite length_app, Hl1. unfold len in *. lia.
Qed.

(** The step that every write goes through: seek, then something that
    only draws random values, then the write. *)
Lemma keeps_seek_then_write {A} (offset : Z) (mid : M A)
    (data_of : A -> bytes) :
  quiet mid ->
  lo <= offset ->
  (forall w a w', mid w = (Ok a, w') -> offset + len (data_of a) <= hi) ->
  keeps lo hi (bind (seek offset)
                 (fun _ => bind mid (fun a => file_write (data_of a))))
        (fun _ => True).
Proof.
  intros Hq Ho Hd w Hw. split; [|trivial].
  unfold bind at 1. unfold seek.
  destruct (offset <? 0) eqn:E; [apply Z.ltb_lt in E; lia|].
  set (w1 := mkWorld (tape w) (content w) offset (io w)).
  unfold bind. specialize (Hq w1).
  destruct (mid w1) as [[a| |] w2] eqn:Em; cbn [snd] in *.
  - destruct Hq as (C & P & I). unfold file_write. cbn [snd].
    rewrite C, P, I. cbn [content position io w1].
    specialize (Hd _ _ _ Em).
    destruct (write_at_framed (content w) offset (data_of a) Ho Hd Hw)
      as (L & Hh & Ht).
    unfold framed. cbn [content io].
    split; [exact L|]. split; [exact Hh|]. split; [exact Ht|].
    eexists. split; [reflexivity|].
    constructor; [cbn; split; [exact Ho|exact Hd]|constructor].
  - apply read_only_framed. destruct Hq as (C & P & I).
    split; [exact C|]. exists []. rewrite app_nil_r.
    split; [exact I|constructor].
  - apply read_only_framed. destruct Hq as (C & P & I).
    split; [exact C|]. exists []. rewrite app_nil_r.
    split; [exact I|constructor].
Qed.

End Keeps.

Section WriteSteps.

Context {ext : Externals}.
Import frame slots.

Lemma get_offset_range self seg o :
  0 < num_slots self ->
  get_offset self seg = Ok o ->
  salt_len self <= o <= salt_len self + (num_slots self - 1) * slot_len.
Proof.
  intros Hn H. unfold get_offset in H. obind_inv H.
  destruct (negb _); [discriminate|].
  destruct (num_slots self =? 0); [discriminate|].
  inversion H; subst o; clear H.
  pose proof (Z.mod_pos_bound (from_bytes (phash_at self a)) (num_slots self) Hn).
  unfold slot_len. lia.
Qed.

Lemma get_random_len n w b w' :
  crypto.get_random n w = (Ok b, w') -> len b = Z.max 0 n.
Proof.
  unfold crypto.get_random. destruct (n <=? 0) eqn:E.
  - intros H. apply ret_ok in H as [-> _]. apply Z.leb_le in E. cbn. lia.
  - apply Z.leb_gt in E. unfold urandom.
    destruct (n <? 0); [discriminate|].
    destruct (n =? 0) eqn:E0; [apply Z.eqb_eq in E0; lia|].
    destruct (tape w) as [|[x|q|z|p] t]; try discriminate.
    destruct (len x =? n) eqn:El; cbn [andb]; [|discriminate].
    destruct (forallb is_byteb x); [|discriminate].
    intros H. inversion H; subst. apply Z.eqb_eq in El. lia.
Qed.

Lemma encrypt_data_len d k v w c w' :
  crypto.encrypt_data d k v true w = (Ok c, w') -> len c = len d.
Proof.
  unfold crypto.encrypt_data. intros H.
  bind_inv H. bind_inv H. cbv zeta in H. apply ret_ok in H as [-> _].
  unfold crypto.pad in Hm0.
  assert (Hp : exists junk, a0 = d ++ junk).
  { destruct (len d mod 16 =? 0).
    - apply ret_ok in Hm0 as [-> _]. exists []. rewrite app_nil_r. reflexivity.
    - bind_inv Hm0. apply ret_ok in Hm0 as [-> _]. eexists. reflexivity. }
  destruct Hp as [junk ->].
  rewrite len_firstn, xor_stream_len, len_app.
  pose proof (len_nonneg junk). unfold len in *. lia.
Qed.

(** *** What the array objects hold *)

Lemma copy_bytearray_len src target start stop tstart r :
  0 <= start -> 0 <= tstart ->
  bitfun.copy_bytearray src target start stop tstart = Ok r ->
  len r = len target.
Proof.
  intros Hs Ht. unfold bitfun.copy_bytearray. cbv zeta.
  set (stop1 := if stop =? 0 then len src else stop).
  set (stop2 := if stop1 - start + tstart >? len target
                then len target - tstart + start else stop1).
  assert (Hfit : stop2 - start + tstart <= len target).
  { unfold stop2. destruct (stop1 - start + tstart >? len target) eqn:E.
    - lia.
    - rewrite Z.gtb_ltb in E. apply Z.ltb_ge in E. exact E. }
  destruct (stop2 <? start) eqn:E1; [discriminate|].
  destruct (stop2 >? len src) eqn:E2; [discriminate|].
  apply Z.ltb_ge in E1. rewrite Z.gtb_ltb in E2. apply Z.ltb_ge in E2.
  intros H. inversion H; subst r; clear H.
  rewrite !len_app, len_firstn, len_skipn, slice_length by lia.
  pose proof (len_nonneg target). lia.
Qed.

Lemma data_keeps_array a d a' :
  bitfun.data a = Ok (d, a') ->
  bitfun.arr a' = bitfun.arr a /\ bitfun.end_ a' = bitfun.end_ a.
Proof.
  unfold bitfun.data. destruct (negb (bitfun.updated a)).
  - destruct (rev (bitfun.datas a)); [discriminate|].
    intros H. inversion H; subst. split; reflexivity.
  - cbv zeta. destruct (_ <? 0); [discriminate|].
    intros H. obind_inv H. obind_inv H. inversion H; subst.
    split; reflexivity.
Qed.

Lemma sized_prepend n a a' :
  sized n a -> bitfun.prepend a = Ok a' -> sized n a'.
Proof.
  intros [He Ha] H. unfold bitfun.prepend in H.
  destruct (bitfun.ABA_len a >? 255); [discriminate|].
  obind_inv H. obind_inv H. destruct a1 as [chk a1].
  unfold bitfun.checksum in Hm0. obind_inv Hm0. destruct a2 as [d a2].
  inversion Hm0; subst chk a1; clear Hm0.
  apply data_keeps_array in Hm1 as [Harr Hend].
  obind_inv H. obind_inv H. inversion H; subst a'; clear H.
  unfold bitfun.get_arr in Hm0. rewrite Harr in Hm0.
  destruct (bitfun.arr a) as [b|] eqn:Eb; [|discriminate].
  inversion Hm0; subst a1; clear Hm0.
  match goal with
  | Hc : bitfun.copy_bytearray _ _ _ _ _ = Ok _ |- _ =>
      apply copy_bytearray_len in Hc; [|lia|lia];
      split; cbn [bitfun.end_ bitfun.arr];
      [rewrite Hend; exact He|];
      intros b' Hb'; inversion Hb'; subst b'; rewrite Hc; apply Ha; reflexivity
  end.
Qed.

Lemma sized_scramble_with n a src a' :
  sized n a -> bitfun.scramble_with a src = Ok a' -> sized n a'.
Proof.
  intros [He Ha] H. unfold bitfun.scramble_with in H.
  obind_inv H. obind_inv H. inversion H; subst a'; clear H.
  unfold bitfun.get_arr in Hm.
  destruct (bitfun.arr a) as [b|] eqn:Eb; [|discriminate].
  inversion Hm; subst a0; clear Hm.
  match goal with
  | Hc : bitfun.copy_bytearray _ _ _ _ _ = Ok _ |- _ =>
      apply copy_bytearray_len in Hc; [|lia|exact He];
      split; cbn [bitfun.end_ bitfun.arr]; [exact He|];
      intros b' Hb'; inversion Hb'; subst b'; rewrite Hc; apply Ha; reflexivity
  end.
Qed.

Lemma sized_scramble n a src w a' w' :
  sized n a -> bitfun.scramble a src w = (Ok a', w') -> sized n a'.
Proof.
  intros Hs H. unfold bitfun.scramble in H. bind_inv H. cbv zeta in H.
  destruct src as [[|b l]|].
  - bind_inv H. apply lift_ok in H as [H _].
    eapply sized_scramble_with; eassumption.
  - apply lift_ok in H as [H _]. eapply sized_scramble_with; eassumption.
  - bind_inv H. apply lift_ok in H as [H _].
    eapply sized_scramble_with; eassumption.
Qed.

Lemma sized_ABA_new src a :
  bitfun.ABA_new src 64 [] false = Ok a ->
  sized 256 a /\ (len src + bitfun.header < 128 -> sized 128 a).
Proof.
  intros H. destruct src as [|x l].
  - cbn in H. inversion H; subst a.
    split; [|intros _]; (split; cbn; [lia|discriminate]).
  - set (src := x :: l) in *.
    destruct (Z_le_gt_dec (len src) 247) as [Hl|Hl].
    + rewrite ABA_new_ok in H by (try exact Hl; discriminate).
      inversion H; subst a; clear H.
      destruct (capacity_facts src Hl) as (C1 & C2 & C3 & C4).
      pose proof (len_nonneg src) as Hn.
      assert (Hlen : forall b,
                 Some (bitfun.envelope src
                         (repeat 0 (Z.to_nat (bitfun.capacity src
                                               - bitfun.header - len src))))
                 = Some b -> len b = bitfun.capacity src).
      { intros b Hb. inversion Hb; subst b.
        rewrite envelope_len, len_repeat. lia. }
      split; [|intros Hsmall];
        (split; cbn [bitfun.end_ bitfun.arr];
         [unfold bitfun.header, bitfun.chk_len; lia|]);
        intros b Hb; rewrite (Hlen b Hb); [exact C2|].
      unfold bitfun.capacity.
      destruct (len src + bitfun.header >? 64); [|lia].
      destruct (chunk_up_64 (len src + bitfun.header)) as [Hb1 Hb2].
      apply Z.mod_divide in Hb2; [|lia]. destruct Hb2 as [k Hk]. lia.
    + rewrite ABA_new_too_long in H by lia. discriminate.
Qed.

Lemma sized_weaken n m a : n <= m -> sized n a -> sized m a.
Proof.
  intros Hnm [He Ha]. split; [exact He|].
  intros b Hb. specialize (Ha b Hb). lia.
Qed.

Lemma sized_pad_below_prime n tries a prime w a' w' :
  sized n a ->
  slots.pad_below_prime tries a prime w = (Ok a', w') -> sized n a'.
Proof.
  revert a w. induction tries as [|tries IH]; intros a w Hs H;
    cbn [slots.pad_below_prime] in H.
  - discriminate.
  - bind_inv H. bind_inv H. bind_inv H.
    apply sized_scramble with (n := n) in Hm0; [|exact Hs].
    destruct (from_bytes a2 >=? prime).
    + eapply IH; eassumption.
    + apply ret_ok in H as [-> _]. exact Hm0.
Qed.

Lemma make_shares_len minimum shares prime secret data_len w l w' :
  shamir.make_shares minimum shares prime secret data_len w = (Ok l, w') ->
  forall share s, In share l -> share = Ok s -> len s = Z.of_nat data_len.
Proof.
  unfold shamir.make_shares. intros H. bind_inv H.
  apply ret_ok in H as [-> _].
  intros share s Hin Hs. unfold shamir.make_shares_from in Hin.
  cbv zeta in Hin. apply in_until_raise in Hin.
  apply in_map_iff in Hin as (count & Hc & _).
  rewrite Hs in Hc. unfold int_to_bytes in Hc.
  destruct (_ && _); [|discriminate].
  inversion Hc; subst s. unfold len. rewrite le_bytes_length. reflexivity.
Qed.

Lemma in_enumerate {A} (l : list A) i a :
  In (i, a) (slots.enumerate l) -> In a l.
Proof. unfold slots.enumerate. apply in_combine_r. Qed.

(** *** The writes of a vault *)

Variable self : KeyLocker.
Local Abbreviation lo := (salt_len self).
Local Abbreviation hi := (salt_len self + area self).

Hypothesis lo_nonneg : 0 <= lo.
Hypothesis slots_pos : 0 < num_slots self.
Hypothesis slots_fit :
  num_slots self * slot_len + (max_len - slot_len) <= area self.

(** Encrypted data of at most [max_len] bytes goes into the slot area. *)
Lemma keeps_write_encrypted seg data :
  len data <= max_len ->
  keeps lo hi (write_encrypted self seg data) (fun _ => True).
Proof.
  intros Hd. unfold write_encrypted.
  eapply keeps_bind; [apply keeps_lift|]. intros offset Ho.
  apply get_offset_range in Ho; [|exact slots_pos].
  eapply keeps_ext;
    [|apply (keeps_seek_then_write lo hi lo_nonneg offset
               (bind (lift (get_key self seg))
                  (fun kv => crypto.encrypt_data data (fst kv) (snd kv) true))
               (fun c => c))].
  - intros w. apply bind_ext. intros [] w1. apply bind_assoc.
  - quiet_auto.
  - lia.
  - intros w c w' H. bind_inv H. apply encrypt_data_len in H.
    unfold slot_len, max_len in *. lia.
Qed.

(** The slot wiped before a write: 64 random bytes at a slot's offset. *)
Lemma keeps_scrub seg :
  keeps lo hi
    (bind (lift (get_offset self seg))
       (fun offset =>
          bind (seek offset)
            (fun _ => bind (crypto.get_random slot_len)
                        (fun junk => file_write junk))))
    (fun _ => True).
Proof.
  eapply keeps_bind; [apply keeps_lift|]. intros offset Ho.
  apply get_offset_range in Ho; [|exact slots_pos].
  apply (keeps_seek_then_write lo hi lo_nonneg offset _ (fun c => c)).
  - auto with quiet.
  - lia.
  - intros w c w' H. apply get_random_len in H.
    unfold slot_len, max_len in *. lia.
Qed.

Lemma keeps_write_normal data :
  sized max_len data ->
  keeps lo hi (write_normal self data) (fun _ => True).
Proof.
  intros [_ Hd]. unfold write_normal.
  eapply keeps_bind;
    [apply keeps_quiet with (Q := fun _ => True); [auto with quiet|trivial]|].
  intros count _. cbv zeta.
  eapply keeps_bind;
    [apply keeps_quiet with (Q := fun _ => True); [auto with quiet|trivial]|].
  intros slots _.
  apply keeps_for_each. intros [seg val] [] _.
  destruct val.
  - eapply keeps_bind; [apply keeps_lift|]. intros b Hb.
    apply keeps_write_encrypted. apply Hd.
    unfold bitfun.get_arr in Hb. destruct (bitfun.arr data); congruence.
  - eapply keeps_weaken; [apply keeps_ret|trivial].
Qed.

Lemma keeps_write_shamir data :
  sized (max_len - slot_len) data ->
  keeps lo hi (write_shamir self data) (fun _ => True).
Proof.
  intros Hd. unfold write_shamir.
  eapply keeps_bind with (Q := sized max_len).
  { destruct (end_mod64 data).
    - apply keeps_quiet; [quiet_auto|].
      intros w a w' H. bind_inv H. apply lift_ok in H as [H _].
      eapply sized_prepend; [|exact H].
      destruct Hd as [He Ha]. split; cbn [bitfun.end_ bitfun.arr]; [exact He|].
      intros b Hb. injection Hb as <-.
      apply lift_ok in Hm as [Hm _]. unfold bitfun.get_arr in Hm.
      destruct (bitfun.arr data) as [b0|] eqn:E0; [|discriminate].
      inversion Hm; subst a0. specialize (Ha b0 eq_refl).
      rewrite len_app.
      match goal with |- _ + ?x <= _ => change x with 64 end.
      unfold max_len, slot_len in *. lia.
    - eapply keeps_weaken; [apply keeps_ret|].
      intros a ->. eapply sized_weaken; [|exact Hd].
      unfold max_len, slot_len. lia. }
  intros data1 Hd1.
  eapply keeps_bind; [apply keeps_lift|]. intros b Hb. cbv zeta.
  eapply keeps_bind; [apply keeps_lift|]. intros prime _.
  eapply keeps_bind with (Q := fun a => sized max_len a /\ True).
  { apply keeps_quiet; [apply quiet_pad_below_prime|].
    intros w a w' H. split; [|exact I].
    eapply sized_pad_below_prime; eassumption. }
  intros data2 [Hd2 _].
  eapply keeps_bind;
    [apply keeps_quiet with (Q := fun _ => True); [auto with quiet|trivial]|].
  intros count _.
  eapply keeps_bind; [apply keeps_lift|]. intros b2 Hb2.
  eapply keeps_bind;
    [apply keeps_quiet with (Q := fun _ => True);
     [apply quiet_get_valid_slots_loop|trivial]|].
  intros valid _.
  eapply keeps_bind with
    (Q := fun l => forall share s, In share l -> share = Ok s ->
                   len s = Z.of_nat (Z.to_nat (len b))).
  { apply keeps_quiet; [apply quiet_make_shares|].
    intros w l w' H. eapply make_shares_len. exact H. }
  intros shares Hshares.
  assert (Hblen : len b <= max_len).
  { destruct Hd1 as [_ Ha]. apply Ha. unfold bitfun.get_arr in Hb.
    destruct (bitfun.arr data1); congruence. }
  eapply keeps_bind with (Q := fun _ => True).
  { apply keeps_for_each. intros [seg share] [] Hin.
    apply in_enumerate in Hin.
    eapply keeps_bind; [apply keeps_lift|]. intros s Hs.
    eapply keeps_bind; [apply keeps_lift|]. intros v _.
    destruct v.
    - apply keeps_write_encrypted.
      rewrite (Hshares share s Hin Hs). pose proof (len_nonneg b). lia.
    - eapply keeps_weaken; [apply keeps_ret|trivial]. }
  intros _ _.
  eapply keeps_bind;
    [apply keeps_quiet with (Q := fun _ => True); [auto with quiet|trivial]|].
  intros _ _. eapply keeps_weaken; [apply keeps_ret|trivial].
Qed.

End WriteSteps.

(** ** The writes of [write_slot] *)

Section WriteSlot.

Context {ext : Externals}.
Import frame slots.

Lemma keeps_write_slot self data :
  0 <= salt_len self -> 0 < num_slots self ->
  num_slots self * slot_len + (max_len - slot_len) <= area self ->
  keeps (salt_len self) (salt_len self + area self)
        (write_slot self data) (fun _ => True).
Proof.
  intros Hlo Hpos Hfit. unfold write_slot. cbv zeta.
  set (self1 := if shamir_mode self && (len data + bitfun.header >=? max_shamir)
                then with_shamir_mode self false else self).
  assert (Hsalt : salt_len self1 = salt_len self)
    by (unfold self1; destruct (_ && _); reflexivity).
  assert (Harea : area self1 = area self)
    by (unfold self1; destruct (_ && _); reflexivity).
  assert (Hnum : num_slots self1 = num_slots self)
    by (unfold self1; destruct (_ && _); reflexivity).
  assert (Hmode : shamir_mode self1 = true ->
                  len data + bitfun.header < max_shamir).
  { unfold self1. destruct (shamir_mode self) eqn:Es; cbn [andb].
    - destruct (len data + bitfun.header >=? max_shamir) eqn:Eg.
      + cbn. discriminate.
      + intros _. rewrite Z.geb_leb in Eg. apply Z.leb_gt in Eg. exact Eg.
    - rewrite Es. discriminate. }
  rewrite <- Hsalt, <- Harea. rewrite <- Hsalt in Hlo.
  rewrite <- Hnum in Hpos. rewrite <- Hnum, <- Harea in Hfit.
  clearbody self1.
  set (bound := if shamir_mode self1 then max_len - slot_len else max_len).
  eapply keeps_bind with (Q := sized bound).
  { unfold bound. destruct (shamir_mode self1) eqn:Es.
    - apply keeps_quiet; [quiet_auto; apply quiet_encrypt_data|].
      intros w a w' H. bind_inv H. apply lift_ok in H as [H _].
      apply encrypt_data_len in Hm. apply sized_ABA_new in H as [_ H].
      apply sized_weaken with (n := 128);
        [unfold max_len, slot_len; lia|].
      apply H. rewrite Hm. apply Hmode. reflexivity.
    - eapply keeps_weaken; [apply keeps_lift|].
      intros a H. apply sized_ABA_new in H as [H _]. exact H. }
  intros aba Haba.
  eapply keeps_bind with (Q := sized bound).
  { apply keeps_quiet; [apply quiet_scramble|].
    intros w a w' H. eapply sized_scramble; eassumption. }
  clear aba Haba. intros aba Haba.
  eapply keeps_bind with (Q := fun _ => True).
  { destruct (testing self1).
    - eapply keeps_weaken; [apply keeps_ret|trivial].
    - apply keeps_reads. apply reads_bind; [apply reads_read_slot|].
      intros r. apply reads_quiet, quiet_ret. }
  intros found _.
  eapply keeps_bind with (Q := fun _ => True).
  { destruct found.
    - apply keeps_for_each. intros seg [] _.
      apply keeps_scrub; assumption.
    - eapply keeps_weaken; [apply keeps_ret|trivial]. }
  intros _ _.
  eapply keeps_bind with (Q := fun _ => True).
  { unfold bound in Haba. destruct (shamir_mode self1).
    - apply keeps_write_shamir; assumption.
    - apply keeps_write_normal; assumption. }
  intros _ _.
  eapply keeps_bind; [apply keeps_reads, reads_read_slot|].
  intros r _. destruct (len r =? 0).
  - apply keeps_quiet; [apply quiet_error|trivial].
  - eapply keeps_weaken; [apply keeps_ret|trivial].
Qed.

End WriteSlot.

(** Property X1.  Every write of [write_slot], in replicated mode, in Shamir
    mode and while old slots are wiped, lies within the slot area of an
    opened vault: it starts at or after [salt_len] and ends at or before
    [salt_len + area].  The file keeps its length, the salt at its head
    is unchanged, and so is everything from the end of the slot area on:
    the salt at its tail and the storage. *)
Theorem write_slot_stays_in_slot_area {ext : Externals}
    (filesize : Z) (self : slots.KeyLocker) (data : bytes) (w : world) :
  slots.opened filesize self ->
  0 <= slots.salt_len self ->
  len (content w) = filesize ->
  frame.framed (slots.salt_len self)
               (slots.salt_len self + slots.area self)
               w (snd (slots.write_slot self data w)).
Proof.
  intros Hopen Hsalt Hsize.
  destruct (opened_facts filesize self Hopen)
    as (Hn & Hfit & Hfile & Hstore & _).
  apply (keeps_write_slot self data Hsalt); [lia|exact Hfit|].
  rewrite Hsize, Hfile. lia.
Qed.

Lemma write_slot_stays_in_slot_area_witness :
  frame.framed 62 (62 + 1876) fixtures.world_write
    (snd (@slots.write_slot fixtures.toy_externals fixtures.vault_2000_open
            fixtures.secret_hello fixtures.world_write)).
Proof.
  apply (@write_slot_stays_in_slot_area fixtures.toy_externals 2000
           fixtures.vault_2000_open fixtures.secret_hello
           fixtures.world_write).
  - exact vault_2000_opened.
  - vm_compute. discriminate.
  - vm_compute. reflexivity.
Defined.

(** ** Writing, then reading *)

Section Orders.

Lemma is_permb_spec n p :
  is_permb n p = true ->
  length p = n /\
  (forall i, (i < n)%nat -> In i p) /\
  (forall i, In i p -> (i < n)%nat).
Proof.
  unfold is_permb. intros H. apply andb_true_iff in H as [Hl Hc].
  apply Nat.eqb_eq in Hl.
  assert (Hin : incl (seq 0 n) p).
  { intros i Hi. rewrite forallb_forall in Hc. specialize (Hc i Hi).
    apply existsb_exists in Hc as (j & Hj & E). apply Nat.eqb_eq in E.
    subst j. exact Hj. }
  split; [exact Hl|]. split.
  - intros i Hi. apply Hin. apply in_seq. lia.
  - intros i Hi.
    assert (Hback : incl p (seq 0 n)).
    { apply NoDup_length_incl; [apply seq_NoDup| |exact Hin].
      rewrite length_seq. lia. }
    apply Hback in Hi. apply in_seq in Hi. lia.
Qed.

Lemma pick_in {A} (l : list A) p i a :
  In i p -> nth_error l i = Some a -> In a (pick l p).
Proof.
  intros Hi Ha. unfold pick. apply in_flat_map. exists i.
  split; [exact Hi|]. rewrite Ha. left. reflexivity.
Qed.

Lemma pick_length {A} (l : list A) p :
  (forall i, In i p -> (i < length l)%nat) ->
  length (pick l p) = length p.
Proof.
  induction p as [|i p IH]; intros H; [reflexivity|].
  unfold pick in *. cbn [flat_map]. rewrite length_app, IH.
  - destruct (nth_error l i) eqn:E; [reflexivity|].
    apply nth_error_None in E. specialize (H i (or_introl eq_refl)). lia.
  - intros j Hj. apply H. right. exact Hj.
Qed.

Lemma pick_seq n p :
  (forall i, In i p -> (i < n)%nat) -> pick (seq 0 n) p = p.
Proof.
  induction p as [|i p IH]; intros H; [reflexivity|].
  unfold pick in *. cbn [flat_map]. rewrite IH.
  - assert (E : nth_error (seq 0 n) i = Some i).
    { specialize (H i (or_introl eq_refl)).
      rewrite nth_error_nth' with (d := 0%nat) by (rewrite length_seq; lia).
      rewrite seq_nth by lia. reflexivity. }
    rewrite E. reflexivity.
  - intros j Hj. apply H. right. exact Hj.
Qed.

Lemma shuffle_ok {A} (l : list A) w r w' :
  shuffle l w = (Ok r, w') ->
  exists p, is_permb (length l) p = true /\ r = pick l p /\
            content w' = content w.
Proof.
  unfold shuffle. destruct (tape w) as [|[b|q|z|p] t]; try discriminate.
  destruct (is_permb (length l) p) eqn:E; [|discriminate].
  intros H. injection H as <- <-. exists p.
  split; [exact E|]. split; reflexivity.
Qed.

Lemma sample_range_ok n w order w' :
  sample_range n w = (Ok order, w') ->
  (forall i, (i < n)%nat -> In i order) /\
  (forall i, In i order -> (i < n)%nat) /\
  content w' = content w.
Proof.
  unfold sample_range. intros H.
  apply shuffle_ok in H as (p & Hp & -> & Hc).
  rewrite length_seq in Hp. apply is_permb_spec in Hp as (_ & H1 & H2).
  rewrite pick_seq by exact H2. repeat split; assumption.
Qed.

Lemma in_enumerate_iff {A} (l : list A) i a :
  In (i, a) (slots.enumerate l) <-> nth_error l i = Some a.
Proof.
  unfold slots.enumerate.
  assert (G : forall s, In (i, a) (combine (seq s (length l)) l)
                        <-> (s <= i)%nat /\ nth_error l (i - s) = Some a).
  { induction l as [|x l IH]; intros s; cbn [length seq combine].
    - split; [intros []|]. intros [_ H]. destruct (i - s)%nat; discriminate.
    - split.
      + intros [H|H].
        * inversion H; subst. split; [lia|].
          rewrite Nat.sub_diag. reflexivity.
        * apply IH in H as [H1 H2]. split; [lia|].
          replace (i - s)%nat with (S (i - S s)) by lia. exact H2.
      + intros [H1 H2]. destruct (Nat.eq_dec i s) as [->|Hne].
        * rewrite Nat.sub_diag in H2. inversion H2. left. reflexivity.
        * right. apply IH. split; [lia|].
          replace (i - s)%nat with (S (i - S s)) in H2 by lia. exact H2. }
  rewrite G, Nat.sub_0_r. split; [intros [_ H]; exact H|].
  intros H. split; [lia|exact H].
Qed.

End Orders.

Section FileSlices.

Lemma firstn_plus {A} (l : list A) n m :
  firstn (n + m) l = firstn n l ++ firstn m (skipn n l).
Proof.
  revert l. induction n as [|n IH]; intros l; [reflexivity|].
  destruct l as [|x l]; cbn [Nat.add firstn skipn app].
  - rewrite firstn_nil. reflexivity.
  - rewrite IH. reflexivity.
Qed.

Lemma slice_split {A} (f : list A) a b c :
  0 <= a -> a <= b -> b <= c ->
  slice f a c = slice f a b ++ slice f b c.
Proof.
  intros Ha Hab Hbc. unfold slice.
  replace (Z.to_nat (c - a)) with (Z.to_nat (b - a) + Z.to_nat (c - b))%nat
    by lia.
  rewrite firstn_plus. f_equal. rewrite skipn_skipn. do 2 f_equal. lia.
Qed.

Lemma slice_write_at f pos data :
  0 <= pos -> slice (write_at f pos data) pos (pos + len data) = data.
Proof.
  intros Hpos. unfold write_at, slice.
  replace (Z.to_nat (pos + len data - pos)) with (length data)
    by (unfold len; lia).
  destruct (pos <=? len f) eqn:E.
  - apply Z.leb_le in E.
    assert (Hl : length (firstn (Z.to_nat pos) f) = Z.to_nat pos)
      by (rewrite length_firstn; unfold len in E; lia).
    rewrite <- Hl at 1. rewrite skipn_app, skipn_all, Nat.sub_diag.
    cbn [app skipn]. rewrite firstn_app, firstn_all, Nat.sub_diag.
    cbn [firstn]. apply app_nil_r.
  - apply Z.leb_gt in E. rewrite app_assoc.
    assert (Hl : length (f ++ repeat 0 (Z.to_nat (pos - len f)))
                 = Z.to_nat pos)
      by (rewrite length_app, repeat_length; unfold len in *; lia).
    rewrite <- Hl. rewrite skipn_app, skipn_all, Nat.sub_diag.
    cbn [app skipn]. apply firstn_all.
Qed.

End FileSlices.

Lemma crypto_length_firstn (ks : nat -> byte) (block : bytes) :
  firstn (length block) (crypto.xor_stream ks 0 block)
  = crypto.xor_stream ks 0 block.
Proof.
  rewrite <- (xor_stream_length ks 0 block) at 1. apply firstn_all.
Qed.

Section Scramble.

Context {ext : Externals}.
Import bitfun.

Lemma envelope_app src rest : envelope src rest = envelope src [] ++ rest.
Proof.
  unfold envelope. rewrite app_nil_r, <- !app_assoc. reflexivity.
Qed.

Lemma envelope_app_assoc src rest more :
  envelope src rest ++ more = envelope src (rest ++ more).
Proof.
  rewrite (envelope_app src rest), (envelope_app src (rest ++ more)).
  symmetry. apply app_assoc.
Qed.

Lemma urandom_len n w b w' : urandom n w = (Ok b, w') -> len b = n.
Proof.
  unfold urandom. destruct (n <? 0); [discriminate|].
  destruct (n =? 0) eqn:E0.
  - apply Z.eqb_eq in E0. intros H. injection H as <- _. cbn. lia.
  - destruct (tape w) as [|[x|q|z|p] t]; try discriminate.
    destruct (len x =? n) eqn:El; cbn [andb]; [|discriminate].
    destruct (forallb is_byteb x); [|discriminate].
    intros H. injection H as <- _. apply Z.eqb_eq in El. exact El.
Qed.

(** After [scramble()], the array of a fresh object is the envelope of
    its data, filled up with random bytes. *)
Lemma scramble_envelope src w a w' :
  src <> [] -> len src <= 247 ->
  scramble (mkABA [] (Some (envelope src
                              (repeat 0 (Z.to_nat (capacity src - header
                                                   - len src)))))
                  (header + len src) [src] true) None w = (Ok a, w') ->
  exists junk,
    arr a = Some (envelope src junk) /\
    len (envelope src junk) = capacity src.
Proof.
  intros Hne Hlen H.
  destruct (capacity_facts src Hlen) as (C1 & C2 & C3 & C4).
  pose proof (len_nonneg src) as Hn.
  set (zeros := repeat 0 (Z.to_nat (capacity src - header - len src))) in *.
  assert (Hz : @len byte zeros = capacity src - header - len src)
    by (unfold zeros; rewrite len_repeat; lia).
  unfold scramble in H. bind_inv H. apply lift_ok in Hm as [Hm ->].
  cbn [get_arr arr] in Hm. injection Hm as <-. cbv zeta in H.
  cbn [end_] in H. bind_inv H. apply lift_ok in H as [H _].
  apply urandom_len in Hm. rewrite envelope_len, Hz in Hm.
  exists a0. unfold scramble_with in H. cbn [get_arr arr end_ obind] in H.
  rewrite copy_bytearray_ok in H.
  - cbn [obind] in H. injection H as <-. cbn [arr].
    assert (E : firstn (Z.to_nat (header + len src)) (envelope src zeros)
                ++ slice a0 0 (if 0 =? 0 then len a0 else 0)
                ++ skipn (Z.to_nat (header + len src
                                    + ((if 0 =? 0 then len a0 else 0) - 0)))
                     (envelope src zeros)
                = envelope src a0).
    { cbn [Z.eqb]. rewrite slice_all.
      rewrite (envelope_app src zeros), (envelope_app src a0).
      replace (header + len src) with (len (envelope src []))
        by (rewrite envelope_len; cbn; lia).
      rewrite firstn_len_app. f_equal.
      rewrite skipn_all2; [apply app_nil_r|].
      rewrite length_app. unfold len in *. lia. }
    split; [f_equal; exact E|].
    rewrite envelope_len. lia.
  - lia.
  - cbn [Z.eqb]. pose proof (len_nonneg a0). lia.
  - cbn [Z.eqb]. lia.
  - unfold header, chk_len. lia.
  - cbn [Z.eqb]. rewrite envelope_len, Hz. lia.
Qed.

End Scramble.

Section Copies.

Context {ext : Externals}.
Import slots.

Variable self : KeyLocker.
Variable data : bitfun.ABA.
Variable block : bytes.

Hypothesis data_arr : bitfun.arr data = Some block.
Hypothesis block_16 : len block mod 16 = 0.

(** What one write of the array puts into the file. *)
Lemma write_encrypted_ok seg w w' :
  write_encrypted self seg block w = (Ok tt, w') ->
  exists o kv ks,
    get_offset self seg = Ok o /\ 0 <= o /\
    get_key self seg = Ok kv /\
    crypto.aes_new (fst kv) (snd kv) = Ok ks /\
    content w' = write_at (content w) o (crypto.xor_stream ks 0 block).
Proof.
  unfold write_encrypted. intros H.
  bind_inv H. apply lift_ok in Hm as [Ho ->].
  bind_inv H. unfold seek in Hm.
  destruct (a <? 0) eqn:Eo; [discriminate|]. apply Z.ltb_ge in Eo.
  injection Hm as _ <-.
  bind_inv H. apply lift_ok in Hm as [Hk ->].
  bind_inv H. unfold crypto.encrypt_data in Hm. bind_inv Hm.
  apply lift_ok in Hm0 as [Hks ->]. bind_inv Hm.
  unfold crypto.pad in Hm0.
  rewrite (proj2 (Z.eqb_eq _ _) block_16) in Hm0.
  apply ret_ok in Hm0 as [-> ->].
  cbv zeta in Hm. apply ret_ok in Hm as [-> ->].
  unfold file_write in H. injection H as <-.
  match type of Hk with get_key _ _ = Ok ?kv =>
    match type of Hks with _ = Ok ?ks => exists a, kv, ks end end.
  repeat (split; [assumption|]).
  cbn [content position]. f_equal. apply crypto_length_firstn.
Qed.

(** The loop of [write_normal]. *)
Local Abbreviation body :=
  (fun '(seg, val) (_ : unit) =>
     if (val : bool) then
       bind (lift (bitfun.get_arr data))
            (fun b => write_encrypted self seg b)
     else ret tt).

Lemma for_each_inactive l w :
  (forall seg, ~ In (seg, true) l) -> for_each l body tt w = (Ok tt, w).
Proof.
  induction l as [|[seg val] l IH]; intros Hl; cbn [for_each].
  - reflexivity.
  - destruct val.
    + exfalso. apply (Hl seg). left. reflexivity.
    + unfold bind at 1. cbn [ret]. apply IH.
      intros s Hs. apply (Hl s). right. exact Hs.
Qed.

(** The last slot the loop writes still holds the encrypted array when
    the loop ends. *)
Lemma last_copy l w w' :
  for_each l body tt w = (Ok tt, w') ->
  (exists seg, In (seg, true) l) ->
  exists seg o kv ks,
    In (seg, true) l /\
    get_offset self seg = Ok o /\ 0 <= o /\
    get_key self seg = Ok kv /\
    crypto.aes_new (fst kv) (snd kv) = Ok ks /\
    slice (content w') o (o + len block) = crypto.xor_stream ks 0 block.
Proof.
  revert w. induction l as [|[s v] l IH]; intros w H [seg Hin].
  - destruct Hin.
  - cbn [for_each] in H. bind_inv H. destruct a.
    destruct (existsb (fun x : nat * bool => snd x) l) eqn:Ex.
    + apply existsb_exists in Ex as ([s' v'] & Hx & Hv).
      cbn [snd] in Hv. subst v'.
      destruct (IH w0 H (ex_intro _ s' Hx))
        as (seg' & o & kv & ks & Hi & R).
      exists seg', o, kv, ks. split; [right; exact Hi|exact R].
    + assert (Hnone : forall s', ~ In (s', true) l).
      { intros s' Hs'.
        assert (E : existsb (fun x : nat * bool => snd x) l = true)
          by (apply existsb_exists; exists (s', true); split;
              [exact Hs'|reflexivity]).
        congruence. }
      rewrite for_each_inactive in H by exact Hnone.
      injection H as <-.
      destruct Hin as [Hin|Hin]; [|exfalso; exact (Hnone seg Hin)].
      injection Hin as -> ->. cbn beta iota in Hm.
      bind_inv Hm. apply lift_ok in Hm0 as [Hb ->].
      unfold bitfun.get_arr in Hb. rewrite data_arr in Hb.
      injection Hb as <-.
      apply write_encrypted_ok in Hm as (o & kv & ks & Ho & Hpos & Hk & Hks & Hc).
      exists seg, o, kv, ks. split; [left; reflexivity|].
      repeat (split; [assumption|]).
      rewrite Hc, <- (xor_stream_len ks 0 block).
      apply slice_write_at. exact Hpos.
Qed.

(** [write_normal] leaves at least one copy of the encrypted array in a
    candidate slot. *)
Lemma write_normal_leaves_a_copy w w' :
  1 <= slot_target self <= slot_max self ->
  write_normal self data w = (Ok tt, w') ->
  exists seg o kv ks,
    (seg < Z.to_nat (slot_max self))%nat /\
    get_offset self seg = Ok o /\ 0 <= o /\
    get_key self seg = Ok kv /\
    crypto.aes_new (fst kv) (snd kv) = Ok ks /\
    slice (content w') o (o + len block) = crypto.xor_stream ks 0 block.
Proof.
  intros Ht H. unfold write_normal in H. bind_inv H.
  unfold get_slot_count in Hm.
  apply get_slot_count_at_range in Hm; [|exact Ht].
  cbv zeta in H. bind_inv H.
  set (N := Z.to_nat (slot_max self)) in *.
  set (slots := firstn N (repeat true (Z.to_nat a) ++ repeat false N)) in *.
  assert (Hlen : length slots = N).
  { unfold slots. rewrite length_firstn, length_app, !repeat_length. lia. }
  assert (H0 : nth_error slots 0 = Some true).
  { unfold slots. destruct N as [|N'] eqn:EN; [lia|].
    destruct (Z.to_nat a) as [|c] eqn:Ec; [lia|]. reflexivity. }
  apply shuffle_ok in Hm0 as (p & Hp & -> & _).
  rewrite Hlen in Hp. apply is_permb_spec in Hp as (Hpl & Hall & Hlt).
  assert (Hin : In true (pick slots p)).
  { apply pick_in with (i := 0%nat); [apply Hall; lia|exact H0]. }
  apply In_nth_error in Hin as [n Hn].
  assert (Hex : exists seg, In (seg, true) (enumerate (pick slots p)))
    by (exists n; apply in_enumerate_iff; exact Hn).
  destruct (last_copy _ _ _ H Hex) as (seg & o & kv & ks & Hi & R).
  exists seg, o, kv, ks. split; [|exact R].
  apply in_enumerate_iff in Hi.
  assert (Hs : (seg < length (pick slots p))%nat)
    by (apply nth_error_Some; congruence).
  rewrite pick_length in Hs by (rewrite Hlen; exact Hlt). lia.
Qed.

End Copies.

Section Blocks.

Context {ext : Externals}.
Import slots.

Lemma bytes_eqb_eq a b : bitfun.bytes_eqb a b = true -> a = b.
Proof.
  unfold bitfun.bytes_eqb. revert b.
  induction a as [|x a IH]; intros [|y b] H; cbn in H; try discriminate.
  - reflexivity.
  - apply andb_true_iff in H as [Hl H]. apply andb_true_iff in H as [Hx H].
    apply Z.eqb_eq in Hx. subst y. f_equal. apply IH.
    apply andb_true_iff. split; assumption.
Qed.

(** A slot that holds the encrypted envelope of [x] validates, and the
    data read from it is [x]. *)
Lemma intact_slot_block self f seg o kv ks x junk :
  get_offset self seg = Ok o -> 0 <= o ->
  get_key self seg = Ok kv ->
  crypto.aes_new (fst kv) (snd kv) = Ok ks ->
  slice f o (o + len (bitfun.envelope x junk))
  = crypto.xor_stream ks 0 (bitfun.envelope x junk) ->
  len (bitfun.envelope x junk) <= max_len ->
  exists a, slot_block self f seg = Ok (true, a) /\
            bitfun.ABA_bytes a = Ok (x, a).
Proof.
  intros Ho Hpos Hk Hks Hs Hl. unfold slot_block.
  rewrite Ho, Hk. cbn [obind]. rewrite Hks. cbn [obind]. cbv zeta.
  pose proof (len_nonneg (bitfun.envelope x junk)) as Hn.
  rewrite (slice_split f o (o + len (bitfun.envelope x junk)) (o + max_len))
    by lia.
  rewrite Hs, xor_stream_app, xor_stream_involutive.
  set (g := crypto.xor_stream ks _ _).
  rewrite (envelope_app_assoc x junk g).
  destruct (validate_envelope [] x (junk ++ g)) as (a & Hv & Hb & _).
  exists a. split; [|exact Hb].
  unfold bitfun.ABA_new.
  destruct (bitfun.envelope x (junk ++ g)) as [|b l] eqn:E.
  - apply (f_equal len) in E. rewrite envelope_len in E.
    pose proof (len_nonneg x). pose proof (len_nonneg (junk ++ g)).
    unfold bitfun.header, bitfun.chk_len, len in *. cbn [length] in E. lia.
  - cbn [obind]. exact Hv.
Qed.

End Blocks.

Section Scan.

Context {ext : Externals}.
Import slots.

Variable self : KeyLocker.
Variable f : bytes.
Variable x : bytes.

(** Every slot lies within the file. *)
Hypothesis slots_in_file :
  forall seg o, get_offset self seg = Ok o -> 0 <= o /\ o + max_len <= len f.

(** One round of the scan looks at the block of the slot. *)
Lemma scan_step seg rest st w ok a :
  content w = f ->
  slot_block self f seg = Ok (ok, a) ->
  exists w1,
    content w1 = f /\
    read_slot_scan self (seg :: rest) st w
    = if (ok : bool) then
        let found_count := fst st + 1 in
        let valid := if found_count =? 1 then Some a else snd st in
        if found_count >=? 2 then ret (found_count, valid) w1
        else read_slot_scan self rest (found_count, valid) w1
      else read_slot_scan self rest st w1.
Proof.
  intros Hc Hb. unfold slot_block in Hb.
  obind_inv Hb. obind_inv Hb. obind_inv Hb. cbv zeta in Hb. obind_inv Hb.
  destruct (slots_in_file seg _ Hm) as [Hpos Hfit].
  set (w1 := mkWorld (tape w) f (a0 + max_len)
                     (io w ++ [IORead a0 max_len])).
  exists w1. split; [reflexivity|].
  assert (Hraw : len (slice f a0 (a0 + max_len)) = max_len).
  { rewrite slice_length by (unfold max_len in *; lia). lia. }
  cbn [read_slot_scan].
  rewrite (bind_ok_intro _ _ w a0 w) by (unfold lift; rewrite Hm; reflexivity).
  rewrite (bind_ok_intro _ _ w tt (mkWorld (tape w) (content w) a0 (io w))).
  2:{ unfold seek. destruct (a0 <? 0) eqn:E; [apply Z.ltb_lt in E; lia|].
      reflexivity. }
  rewrite (bind_ok_intro _ _ _ (slice f a0 (a0 + max_len)) w1).
  2:{ unfold file_read. cbn [content position tape io]. rewrite Hc.
      unfold w1. rewrite Hraw. reflexivity. }
  rewrite (bind_ok_intro _ _ w1 a1 w1)
    by (unfold lift; rewrite Hm0; reflexivity).
  rewrite (bind_ok_intro _ _ w1
             (crypto.xor_stream a2 0 (slice f a0 (a0 + max_len))) w1).
  2:{ unfold crypto.decrypt_data.
      rewrite (bind_ok_intro _ _ w1 a2 w1)
        by (unfold lift; rewrite Hm1; reflexivity).
      rewrite (bind_ok_intro _ _ w1 (slice f a0 (a0 + max_len)) w1).
      - reflexivity.
      - unfold crypto.pad. rewrite Hraw. reflexivity. }
  rewrite (bind_ok_intro _ _ w1 a3 w1)
    by (unfold lift; rewrite Hm2; reflexivity).
  rewrite (bind_ok_intro _ _ w1 (ok, a) w1)
    by (unfold lift; rewrite Hb; reflexivity).
  cbn [fst snd]. destruct ok; [cbv zeta; destruct (fst st + 1 >=? 2)|];
    reflexivity.
Qed.

(** The scan ends; when a slot validates, it has found one, and the
    first it found holds [x]. *)
Lemma read_slot_scan_ok segs : forall st w,
  content w = f -> scan_inv x st ->
  (forall seg, In seg segs -> slot_agrees self f x seg = true) ->
  exists st' w',
    read_slot_scan self segs st w = (Ok st', w') /\
    content w' = f /\ scan_inv x st' /\
    ((1 <= fst st \/
      exists seg a, In seg segs /\ slot_block self f seg = Ok (true, a)) ->
     1 <= fst st').
Proof.
  induction segs as [|seg rest IH]; intros st w Hc Hinv Hall.
  - exists st, w. cbn [read_slot_scan]. split; [reflexivity|].
    split; [exact Hc|]. split; [exact Hinv|].
    intros [H|(seg & a & [] & _)]. exact H.
  - pose proof (Hall seg (or_introl eq_refl)) as Hseg.
    unfold slot_agrees in Hseg.
    destruct (slot_block self f seg) as [[ok a]|e|] eqn:Eb;
      try discriminate.
    destruct (scan_step seg rest st w ok a Hc Eb) as (w1 & Hc1 & Hstep).
    rewrite Hstep. clear Hstep.
    assert (Hrest : forall s, In s rest -> slot_agrees self f x s = true)
      by (intros s Hs; apply Hall; right; exact Hs).
    destruct Hinv as [Hnn Hfound].
    destruct ok.
    + destruct (bitfun.ABA_bytes a) as [[d a']|e|] eqn:Ed; try discriminate.
      apply bytes_eqb_eq in Hseg. subst d.
      cbv zeta.
      set (valid := if fst st + 1 =? 1 then Some a else snd st).
      assert (Hinv' : scan_inv x (fst st + 1, valid)).
      { split; cbn [fst snd]; [lia|]. intros _. unfold valid.
        destruct (fst st + 1 =? 1) eqn:E1.
        - exists a, a'. split; [reflexivity|exact Ed].
        - apply Z.eqb_neq in E1. apply Hfound. lia. }
      destruct (fst st + 1 >=? 2) eqn:E2.
      * exists (fst st + 1, valid), w1. split; [reflexivity|].
        split; [exact Hc1|]. split; [exact Hinv'|].
        intros _. cbn [fst]. lia.
      * destruct (IH (fst st + 1, valid) w1 Hc1 Hinv' Hrest)
          as (st' & w' & Hrun & Hc' & Hi' & Hp').
        exists st', w'. split; [exact Hrun|]. split; [exact Hc'|].
        split; [exact Hi'|]. intros _. apply Hp'. left. cbn [fst]. lia.
    + destruct (IH st w1 Hc1 (conj Hnn Hfound) Hrest)
        as (st' & w' & Hrun & Hc' & Hi' & Hp').
      exists st', w'. split; [exact Hrun|]. split; [exact Hc'|].
      split; [exact Hi'|].
      intros [H|(s & b & [Hs|Hs] & Hb)].
      * apply Hp'. left. exact H.
      * subst s. rewrite Eb in Hb. discriminate.
      * apply Hp'. right. exists s, b. split; assumption.
Qed.

End Scan.

Section RoundTrip.

Context {ext : Externals}.
Import slots.

(** [write_slot] does not get past [scramble()] with an empty secret:
    the array of the object was never made. *)
Lemma write_slot_empty_secret self w :
  shamir_mode self = false ->
  write_slot self [] w = (Raise AttributeError, w).
Proof.
  intros Hs. unfold write_slot. rewrite Hs. cbn [andb]. cbv zeta.
  rewrite Hs. reflexivity.
Qed.

Lemma mod_64_16 n : n mod 64 = 0 -> n mod 16 = 0.
Proof.
  intros H. apply Z.mod_divide in H; [|lia]. destruct H as [k ->].
  replace (k * 64) with (k * 4 * 16) by lia. apply Z.mod_mul. lia.
Qed.

(** In replicated mode, a [write_slot] that returns has left the
    encrypted envelope of the secret in a candidate slot, and the secret
    is not empty. *)
Lemma write_slot_leaves_a_copy self x w self' w' :
  1 <= slot_target self <= slot_max self ->
  shamir_mode self = false \/ max_shamir <= len x + bitfun.header ->
  write_slot self x w = (Ok self', w') ->
  self' = with_shamir_mode self false /\
  exists seg o kv ks junk,
    (seg < Z.to_nat (slot_max self))%nat /\
    get_offset self seg = Ok o /\ 0 <= o /\
    get_key self seg = Ok kv /\
    crypto.aes_new (fst kv) (snd kv) = Ok ks /\
    len (bitfun.envelope x junk) <= max_len /\
    slice (content w') o (o + len (bitfun.envelope x junk))
    = crypto.xor_stream ks 0 (bitfun.envelope x junk).
Proof.
  intros Ht Hmode H. unfold write_slot in H. cbv zeta in H.
  set (self1 := if shamir_mode self && (len x + bitfun.header >=? max_shamir)
                then with_shamir_mode self false else self) in *.
  assert (Hoff : shamir_mode self1 = false).
  { unfold self1. destruct (shamir_mode self) eqn:Es; cbn [andb].
    - destruct Hmode as [Hm|Hm]; [discriminate|].
      destruct (len x + bitfun.header >=? max_shamir) eqn:Eg; [reflexivity|].
      rewrite Z.geb_leb in Eg. apply Z.leb_gt in Eg. lia.
    - exact Es. }
  assert (Hsame : self1 = with_shamir_mode self false \/ self1 = self).
  { unfold self1. destruct (_ && _); [left|right]; reflexivity. }
  assert (Hself : with_shamir_mode self1 false = with_shamir_mode self false).
  { destruct Hsame as [->| ->]; reflexivity. }
  assert (Hone : self1 = with_shamir_mode self false).
  { rewrite <- Hself. destruct self1; cbn in Hoff; subst; reflexivity. }
  clearbody self1. subst self1.
  cbn [shamir_mode with_shamir_mode] in H.
  bind_inv H. apply lift_ok in Hm as [Hnew ->].
  bind_inv H.
  assert (Hne : x <> []).
  { intros ->. cbn in Hnew. injection Hnew as <-. discriminate. }
  assert (Hlen : len x <= 247).
  { destruct (Z_le_gt_dec (len x) 247) as [Hl|Hl]; [exact Hl|].
    rewrite ABA_new_too_long in Hnew by lia. discriminate. }
  rewrite (ABA_new_ok x Hne Hlen) in Hnew. injection Hnew as <-.
  apply scramble_envelope in Hm as (junk & Harr & Hcap);
    [|exact Hne|exact Hlen].
  destruct (capacity_facts x Hlen) as (C1 & C2 & C3 & C4).
  bind_inv H. bind_inv H. bind_inv H. bind_inv H.
  match goal with
  | Hr : read_slot _ _ = (Ok _, _), Hw : write_normal _ _ _ = (Ok _, _)
    |- _ => rename Hr into Hread; rename Hw into Hwrite
  end.
  match type of H with
  | (if ?c then _ else _) _ = _ => destruct c; [discriminate|]
  end.
  apply ret_ok in H as [-> ->].
  split; [reflexivity|].
  match type of Hwrite with
  | write_normal _ _ _ = (Ok ?u, _) => destruct u
  end.
  apply (write_normal_leaves_a_copy _ a0 (bitfun.envelope x junk) Harr)
    in Hwrite as (seg & o & kv & ks & Hseg & Ho & Hpos & Hk & Hks & Hsl).
  - exists seg, o, kv, ks, junk.
    match type of Hread with
    | read_slot ?k ?wa = _ =>
        pose proof (reads_read_slot k wa) as [Hc _]
    end.
    rewrite Hread in Hc. cbn [snd] in Hc.
    split; [exact Hseg|]. split; [exact Ho|]. split; [exact Hpos|].
    split; [exact Hk|]. split; [exact Hks|].
    split; [rewrite Hcap; unfold max_len; lia|].
    rewrite Hc. exact Hsl.
  - rewrite Hcap. apply mod_64_16. exact C4.
  - exact Ht.
Qed.

End RoundTrip.

(** What [write_slot] wrote in replicated mode, [read_slot] finds. *)
Lemma replicated_round_trip {ext : Externals}
    (filesize : Z) (self self' : slots.KeyLocker) (X : bytes)
    (w w' w2 w3 : world) (order : list nat) :
  slots.opened filesize self ->
  0 <= slots.salt_len self ->
  len (content w) = filesize ->
  slots.shamir_mode self = false
  \/ slots.max_shamir <= len X + bitfun.header ->
  slots.write_slot self X w = (Ok self', w') ->
  slots.candidates_agree self' (content w') X = true ->
  content w2 = content w' ->
  sample_range (Z.to_nat (slots.slot_max self')) w2 = (Ok order, w3) ->
  fst (slots.read_slot self' w2) = Ok X.
Proof.
  intros Hopen Hsalt Hsize Hmode Hrun Hagree Hcont Hsample.
  destruct (opened_facts filesize self Hopen)
    as (Hn & Hfit & Hfile & Hstore & Htarget & Hmax & _).
  assert (Ht : 1 <= slots.slot_target self <= slots.slot_max self) by lia.
  destruct (keeps_write_slot self X Hsalt ltac:(lia) Hfit w) as [Hframe _].
  { rewrite Hsize, Hfile. lia. }
  rewrite Hrun in Hframe. cbn [snd] in Hframe. destruct Hframe as [Hlen _].
  destruct (write_slot_leaves_a_copy self X w self' w' Ht Hmode Hrun)
    as (-> & seg & o & kv & ks & junk & Hseg & Ho & Hpos & Hk & Hks
        & Hl & Hsl).
  set (self1 := slots.with_shamir_mode self false) in *.
  set (f := content w') in *.
  destruct (intact_slot_block self1 f seg o kv ks X junk Ho Hpos Hk Hks Hsl Hl)
    as (a & Hblock & _).
  apply sample_range_ok in Hsample as Hord.
  destruct Hord as (Hall & Hlt & Hc3).
  assert (Hin_file : forall s p, slots.get_offset self1 s = Ok p ->
                       0 <= p /\ p + slots.max_len <= len f).
  { intros s p Hp.
    apply get_offset_range in Hp; [|cbn; lia].
    cbn [self1 slots.salt_len slots.num_slots slots.with_shamir_mode] in Hp.
    rewrite Hlen, Hsize, Hfile.
    unfold slots.slot_len, slots.max_len in *. lia. }
  assert (Hgood : forall s, In s order ->
                    slots.slot_agrees self1 f X s = true).
  { intros s Hs. unfold slots.candidates_agree in Hagree.
    rewrite forallb_forall in Hagree. apply Hagree.
    apply in_seq. specialize (Hlt s Hs). lia. }
  assert (Hinv : slots.scan_inv X (0, None)).
  { split; cbn [fst]; [lia|]. intros H. lia. }
  destruct (read_slot_scan_ok self1 f X Hin_file order (0, None) w3
              ltac:(rewrite Hc3; exact Hcont) Hinv Hgood)
    as (st' & w4 & Hscan & _ & [_ Hfound] & Hsome).
  assert (Hpos' : 1 <= fst st').
  { apply Hsome. right. exists seg, a. split; [|exact Hblock].
    apply Hall. exact Hseg. }
  destruct (Hfound Hpos') as (v & v' & Hv & Hbytes).
  unfold slots.read_slot.
  rewrite (bind_ok_intro _ _ _ _ _ Hsample).
  rewrite (bind_ok_intro _ _ _ _ _ Hscan).
  destruct (fst st' >? 0) eqn:Eg;
    [|rewrite Z.gtb_ltb in Eg; apply Z.ltb_ge in Eg; lia].
  rewrite Hv.
  rewrite (bind_ok_intro _ _ w4 (X, v') w4)
    by (unfold lift; rewrite Hbytes; reflexivity).
  reflexivity.
Qed.


(** Property X2.  In replicated mode (the Shamir switch is off, or the
    secret is too long for Shamir mode, which turns the switch off), on
    an opened vault: when [write_slot(X)] returns and no
    candidate slot of the file validates with other data than [X], then
    [read_slot()] on the same vault and the same file returns exactly
    [X], in whatever order it samples the slots. *)
Theorem write_then_read_replicated {ext : Externals}
    (filesize : Z) (self self' : slots.KeyLocker) (X : bytes)
    (w w' w2 w3 : world) (order : list nat) :
  slots.opened filesize self ->
  0 <= slots.salt_len self ->
  len (content w) = filesize ->
  slots.shamir_mode self = false
  \/ slots.max_shamir <= len X + bitfun.header ->
  slots.write_slot self X w = (Ok self', w') ->
  slots.candidates_agree self' (content w') X = true ->
  content w2 = content w' ->
  sample_range (Z.to_nat (slots.slot_max self')) w2 = (Ok order, w3) ->
  fst (slots.read_slot self' w2) = Ok X.
Proof.
  intros Hopen Hsalt Hsize Hmode Hrun Hagree Hcont Hsample.
  exact (replicated_round_trip filesize self self' X w w' w2 w3 order
           Hopen Hsalt Hsize Hmode Hrun Hagree Hcont Hsample).
Qed.

Lemma write_then_read_replicated_witness :
  fst (@slots.read_slot fixtures.toy_externals fixtures.vault_2000_open
         fixtures.world_reread)
  = Ok fixtures.secret_hello.
Proof.
  apply (@write_then_read_replicated fixtures.toy_externals 2000
           fixtures.vault_2000_open fixtures.vault_2000_open
           fixtures.secret_hello fixtures.world_write
           fixtures.world_written fixtures.world_reread
           (mkWorld [] (content fixtures.world_written) 0 [])
           (seq 0 17)).
  - exact vault_2000_opened.
  - vm_compute. discriminate.
  - vm_compute. reflexivity.
  - left. vm_compute. reflexivity.
  - vm_compute. reflexivity.
  - vm_compute. reflexivity.
  - reflexivity.
  - vm_compute. reflexivity.
Defined.

(** ** What reading leaves alone *)

(** Property X3.  [read_slot()] never writes: whatever it returns or
    raises, the file holds the same bytes afterwards and every file
    operation it performed is a read. *)
Theorem read_slot_only_reads {ext : Externals} (self : slots.KeyLocker)
    (w : world) :
  frame.read_only w (snd (slots.read_slot self w)).
Proof. apply reads_read_slot. Qed.

(** ** Secrets [write_slot] turns down *)

(** Property X4.  A secret of more than 247 bytes is turned down with
    [ValueError] before the file is touched or a random value is drawn,
    in either mode: Shamir mode reverts to replicated mode first, and the
    array object cannot be made. *)
Theorem write_slot_rejects_long_secret {ext : Externals}
    (self : slots.KeyLocker) (x : bytes) (w : world) :
  247 < len x ->
  slots.write_slot self x w = (Raise ValueError, w).
Proof.
  intros Hx. unfold slots.write_slot. cbv zeta.
  assert (Hg : (len x + bitfun.header >=? slots.max_shamir) = true).
  { rewrite Z.geb_leb. apply Z.leb_le.
    unfold bitfun.header, bitfun.chk_len, slots.max_shamir, slots.slot_len.
    lia. }
  rewrite Hg, andb_true_r.
  destruct (slots.shamir_mode self) eqn:Es.
  - cbn [slots.shamir_mode slots.with_shamir_mode].
    unfold bind at 1, lift. rewrite (ABA_new_too_long x Hx). reflexivity.
  - rewrite Es. unfold bind at 1, lift.
    rewrite (ABA_new_too_long x Hx). reflexivity.
Qed.

Lemma write_slot_rejects_long_secret_witness :
  @slots.write_slot fixtures.toy_externals fixtures.vault_2000_open
    (repeat 65 248) fixtures.world_write
  = (Raise ValueError, fixtures.world_write).
Proof.
  apply (@write_slot_rejects_long_secret fixtures.toy_externals
           fixtures.vault_2000_open (repeat 65 248) fixtures.world_write).
  vm_compute. reflexivity.
Defined.

Section OpenedVault.

Context {ext : Externals}.
Import slots.

(** What an opened vault knows about its hash. *)
Lemma opened_hash filesize self :
  opened filesize self ->
  let N := Z.to_nat (slot_max self + 1) in
  let n := Z.of_nat N in
  n = slot_max self + 1 /\
  tracker self =
    mkTr (0, 32) (bitfun.sections_from 32 32 N)
         (32 + 32 * n, 48 + 32 * n) (bitfun.sections_from (48 + 32 * n) 16 N)
         (48 + 48 * n, 240 + 48 * n) (bitfun.sections_from (240 + 48 * n) 16 N)
  /\ 240 + 64 * n + 1 < len (phash self).
Proof.
  intros Hopen. pose proof (opened_facts filesize self Hopen)
    as (_ & _ & _ & _ & Ht & Hmax & _ & Htr).
  cbv zeta in Htr. destruct Htr as [Htr Hlen].
  cbv zeta. split; [lia|]. split; [exact Htr|exact Hlen].
Qed.

Lemma phash_at_len self a b :
  0 <= a -> a <= b -> b <= len (phash self) ->
  len (phash_at self (a, b)) = b - a.
Proof.
  intros. unfold phash_at. cbn [fst snd]. apply slice_length; assumption.
Qed.

(** The Shamir key of an opened vault has the sizes AES takes. *)
Lemma opened_shamir_key filesize self :
  opened filesize self ->
  exists ks, crypto.aes_new (fst (get_key_shamir self))
                            (snd (get_key_shamir self)) = Ok ks.
Proof.
  intros Hopen. destruct (opened_hash filesize self Hopen) as (Hn & Htr & Hl).
  cbv zeta in *. set (n := Z.of_nat (Z.to_nat (slot_max self + 1))) in *.
  pose proof (opened_facts filesize self Hopen)
    as (_ & _ & _ & _ & Ht & Hmax & _).
  unfold get_key_shamir. rewrite Htr. cbn [tr_shamir_key tr_shamir_vector fst snd].
  unfold crypto.aes_new.
  rewrite !phash_at_len by lia.
  replace (48 + 32 * n - (32 + 32 * n)) with 16 by lia.
  eexists. reflexivity.
Qed.

End OpenedVault.

(** Property X5.  The empty secret cannot be written: on an opened vault,
    in either mode, [write_slot(b'')] raises [AttributeError] at
    [scramble()], because the array of the object was never made; the
    file is not touched. *)
Theorem write_slot_rejects_empty_secret {ext : Externals} (filesize : Z)
    (self : slots.KeyLocker) (w : world) :
  slots.opened filesize self ->
  slots.write_slot self [] w = (Raise AttributeError, w).
Proof.
  intros Hopen. destruct (slots.shamir_mode self) eqn:Es.
  - destruct (opened_shamir_key filesize self Hopen) as [ks Hks].
    unfold slots.write_slot. rewrite Es. cbn [andb]. cbv zeta.
    replace (len (@nil byte) + bitfun.header >=? slots.max_shamir)
      with false by reflexivity.
    rewrite Es. unfold crypto.encrypt_data.
    unfold bind, lift. rewrite Hks. reflexivity.
  - apply write_slot_empty_secret. exact Es.
Qed.

Lemma write_slot_rejects_empty_secret_witness :
  @slots.write_slot fixtures.toy_externals fixtures.vault_2000_open []
    fixtures.world_write
  = (Raise AttributeError, fixtures.world_write).
Proof.
  apply (@write_slot_rejects_empty_secret fixtures.toy_externals 2000
           fixtures.vault_2000_open fixtures.world_write).
  exact vault_2000_opened.
Defined.

(** ** Encryption and decryption *)

Section CryptoRoundTrip.

Context {ext : Externals}.

Lemma pad_prefix d w p w' :
  crypto.pad d w = (Ok p, w') -> exists junk, p = d ++ junk.
Proof.
  unfold crypto.pad. destruct (len d mod 16 =? 0).
  - intros H. apply ret_ok in H as [-> _]. exists []. symmetry.
    apply app_nil_r.
  - intros H. bind_inv H. apply ret_ok in H as [-> _]. eexists. reflexivity.
Qed.

Lemma firstn_length_app {A} (a b : list A) : firstn (length a) (a ++ b) = a.
Proof.
  rewrite firstn_app, firstn_all, Nat.sub_diag. cbn [firstn].
  apply app_nil_r.
Qed.

End CryptoRoundTrip.

(** Property X6.  [decrypt_data] undoes [encrypt_data]: what
    [encrypt_data(d, key, vector)] returns, cropped to the length of [d],
    decrypts with the same key and vector to [d] when [crop] is the
    length of [d], whatever bytes the two calls pad with.  This holds for
    the empty [d] too, where [crop=0] asks for no cropping. *)
Theorem decrypt_data_inverts_encrypt_data {ext : Externals}
    (d key vector c padded : bytes) (w w1 w2 w3 : world) :
  crypto.encrypt_data d key vector true w = (Ok c, w1) ->
  crypto.pad c w2 = (Ok padded, w3) ->
  crypto.decrypt_data c key vector (len d) w2 = (Ok d, w3).
Proof.
  intros Henc Hpad. unfold crypto.encrypt_data in Henc.
  bind_inv Henc. apply lift_ok in Hm as [Hks ->].
  bind_inv Henc. apply pad_prefix in Hm as [junk ->].
  cbv zeta in Henc. apply ret_ok in Henc as [-> ->].
  rewrite xor_stream_firstn, firstn_length_app in Hpad |- *.
  pose proof Hpad as Hpad'. apply pad_prefix in Hpad' as [junk2 ->].
  unfold crypto.decrypt_data.
  rewrite (bind_ok_intro _ _ w2 a w2) by (unfold lift; rewrite Hks; reflexivity).
  rewrite (bind_ok_intro _ _ _ _ _ Hpad). cbv zeta.
  rewrite xor_stream_app, xor_stream_involutive.
  unfold ret. f_equal. f_equal.
  destruct (len d =? 0) eqn:E0.
  - apply Z.eqb_eq in E0. destruct d as [|x d]; [|cbn in E0; lia].
    cbn [crypto.xor_stream app length Nat.add] in *.
    unfold crypto.pad in Hpad. cbn in Hpad.
    apply ret_ok in Hpad as [Hj _]. destruct junk2; [reflexivity|discriminate].
  - apply slice_prefix.
Qed.

Lemma decrypt_data_inverts_encrypt_data_witness :
  @crypto.decrypt_data fixtures.toy_externals
    [105; 97; 107; 102; 98] (repeat 1 32) (repeat 2 16) 5
    (mkWorld [DBytes (repeat 4 11)] [] 0 [])
  = (Ok fixtures.secret_hello, mkWorld [] [] 0 []).
Proof.
  apply (@decrypt_data_inverts_encrypt_data fixtures.toy_externals
           fixtures.secret_hello (repeat 1 32) (repeat 2 16)
           [105; 97; 107; 102; 98]
           ([105; 97; 107; 102; 98] ++ repeat 4 11)
           (mkWorld [DBytes (repeat 3 11)] [] 0 []) (mkWorld [] [] 0 [])
           (mkWorld [DBytes (repeat 4 11)] [] 0 []) (mkWorld [] [] 0 [])).
  - vm_compute. reflexivity.
  - vm_compute. reflexivity.
Defined.

(** ** Array objects *)

Section ArrayRoundTrip.

Context {ext : Externals}.
Import bitfun.

(** An array that holds an envelope validates, wherever its end mark
    stands, and gives the data of the envelope. *)
Lemma validate_envelope_at e ds src rest :
  exists v,
    validate (mkABA [] (Some (envelope src rest)) e ds true) = Ok (true, v) /\
    ABA_bytes v = Ok (src, v).
Proof.
  unfold validate, read_lb, get_arr. cbn [arr obind].
  rewrite envelope_length_byte. cbn [obind].
  rewrite envelope_len.
  destruct (header + len src >? header + len src + len rest) eqn:E.
  { rewrite Z.gtb_ltb in E. apply Z.ltb_lt in E.
    pose proof (len_nonneg rest). lia. }
  unfold checksum.
  rewrite (data_fresh _ src rest) by reflexivity.
  cbn [obind seed arr end_ datas updated app].
  rewrite envelope_checksum, bytes_eqb_refl.
  eexists. split; [reflexivity|].
  unfold ABA_bytes, data. cbn [updated negb datas].
  destruct (3 <=? length (ds ++ [src]))%nat eqn:E3.
  - destruct ds as [|x ds]; [cbn in E3; discriminate|].
    cbn [app tl]. rewrite rev_app_distr. reflexivity.
  - rewrite rev_app_distr. reflexivity.
Qed.

End ArrayRoundTrip.

(** Property X7.  An array object made from 1 to 247 bytes of data
    validates and gives the data back, and so does the object after
    [scramble()] has filled the rest of the array with random bytes; the
    array is the data and its 9 bytes of header, rounded up to a multiple
    of 64 bytes. *)
Theorem ABA_validates_and_returns_its_data {ext : Externals} (src : bytes) :
  src <> [] -> len src <= 247 ->
  exists a0 v0,
    bitfun.ABA_new src 64 [] false = Ok a0 /\
    bitfun.validate a0 = Ok (true, v0) /\
    bitfun.ABA_bytes v0 = Ok (src, v0) /\
    forall w a w',
      bitfun.scramble a0 None w = (Ok a, w') ->
      exists v block,
        bitfun.validate a = Ok (true, v) /\
        bitfun.ABA_bytes v = Ok (src, v) /\
        bitfun.arr a = Some block /\
        len block mod 64 = 0 /\
        bitfun.header + len src <= len block < bitfun.header + len src + 64.
Proof.
  intros Hne Hlen.
  destruct (capacity_facts src Hlen) as (C1 & C2 & C3 & C4).
  set (zeros := repeat 0 (Z.to_nat (bitfun.capacity src - bitfun.header
                                    - len src))).
  destruct (validate_envelope_at (bitfun.header + len src) [src] src zeros)
    as (v0 & Hv0 & Hb0).
  eexists. exists v0. split; [apply (ABA_new_ok src Hne Hlen)|].
  split; [exact Hv0|]. split; [exact Hb0|].
  intros w a w' Hs.
  pose proof Hs as Hs'.
  apply scramble_envelope in Hs' as (junk & Harr & Hcap);
    [|exact Hne|exact Hlen].
  assert (Hshape : a = bitfun.mkABA [] (Some (bitfun.envelope src junk))
                         (bitfun.header + len src) [src] true).
  { unfold bitfun.scramble in Hs. bind_inv Hs. cbv zeta in Hs.
    bind_inv Hs. apply lift_ok in Hs as [Hs _].
    unfold bitfun.scramble_with in Hs. obind_inv Hs. obind_inv Hs.
    injection Hs as <-. cbn [bitfun.seed bitfun.end_ bitfun.datas
                             bitfun.updated bitfun.arr] in *.
    rewrite <- Harr. reflexivity. }
  destruct (validate_envelope_at (bitfun.header + len src) [src] src junk)
    as (v & Hv & Hb).
  exists v, (bitfun.envelope src junk).
  split; [rewrite Hshape; exact Hv|]. split; [exact Hb|].
  split; [exact Harr|]. rewrite Hcap. split; [exact C4|].
  split; [exact C1|].
  unfold bitfun.capacity.
  destruct (len src + bitfun.header >? 64) eqn:E.
  - pose proof (chunk_up_64 (len src + bitfun.header)). lia.
  - rewrite Z.gtb_ltb in E. apply Z.ltb_ge in E.
    pose proof (len_nonneg src). unfold bitfun.header, bitfun.chk_len in *.
    lia.
Qed.

Lemma ABA_validates_and_returns_its_data_witness :
  exists a0 v0,
    @bitfun.ABA_new fixtures.toy_externals fixtures.secret_hello 64 [] false
    = Ok a0 /\
    @bitfun.validate fixtures.toy_externals a0 = Ok (true, v0) /\
    bitfun.ABA_bytes v0 = Ok (fixtures.secret_hello, v0) /\
    forall w a w',
      bitfun.scramble a0 None w = (Ok a, w') ->
      exists v block,
        @bitfun.validate fixtures.toy_externals a = Ok (true, v) /\
        bitfun.ABA_bytes v = Ok (fixtures.secret_hello, v) /\
        bitfun.arr a = Some block /\
        len block mod 64 = 0 /\
        bitfun.header + len fixtures.secret_hello <= len block
        < bitfun.header + len fixtures.secret_hello + 64.
Proof.
  apply (@ABA_validates_and_returns_its_data fixtures.toy_externals
           fixtures.secret_hello).
  - discriminate.
  - vm_compute. discriminate.
Defined.

(** ** The password hash of a vault *)

(** Property X9.  [set_phash] needs a hash long enough for all it
    reserves, and one byte to spare beyond the last slice: with
    [slot_max + 1] slices per slot quantity it succeeds when the hash has
    more than [241 + 64 * (slot_max + 1)] bytes, and raises [ValueError]
    otherwise. *)
Theorem set_phash_needs_enough_hash (self : slots.KeyLocker) (ph : bytes) :
  0 <= slots.slot_max self ->
  (241 + 64 * (slots.slot_max self + 1) < len ph ->
   exists k, slots.set_phash self ph = Ok k /\ slots.phash k = ph) /\
  (len ph <= 241 + 64 * (slots.slot_max self + 1) ->
   slots.set_phash self ph = Raise ValueError).
Proof.
  intros H0.
  assert (HN : Z.of_nat (Z.to_nat (slots.slot_max self + 1))
               = slots.slot_max self + 1) by lia.
  unfold slots.set_phash, bitfun.reserve.
  cbn [bitfun.ptr bitfun.hash_len bitfun.tr_num_slots].
  split; intros Hl.
  - repeat match goal with
           | |- context [if ?c then Raise ValueError else _] =>
               let E := fresh "E" in
               destruct c eqn:E;
               [rewrite Z.geb_leb in E; apply Z.leb_le in E; lia|];
               cbn [obind bitfun.ptr bitfun.hash_len bitfun.tr_num_slots]
           end.
    eexists. split; reflexivity.
  - repeat match goal with
           | |- context [if ?c then Raise ValueError else _] =>
               let E := fresh "E" in
               destruct c eqn:E;
               cbn [obind bitfun.ptr bitfun.hash_len bitfun.tr_num_slots];
               [reflexivity|rewrite Z.geb_leb in E; apply Z.leb_gt in E]
           end.
    exfalso. lia.
Qed.

Lemma set_phash_needs_enough_hash_witness :
  (241 + 64 * (slots.slot_max fixtures.vault_2000 + 1)
   < len fixtures.phash_1400 ->
   exists k, slots.set_phash fixtures.vault_2000
               fixtures.phash_1400 = Ok k /\
             slots.phash k = fixtures.phash_1400) /\
  (len fixtures.phash_1400
   <= 241 + 64 * (slots.slot_max fixtures.vault_2000 + 1) ->
   slots.set_phash fixtures.vault_2000
     fixtures.phash_1400 = Raise ValueError).
Proof.
  apply (set_phash_needs_enough_hash fixtures.vault_2000
           fixtures.phash_1400).
  vm_compute. discriminate.
Defined.

(** Property X8.  On an opened vault every slot number from 0 to
    [slot_max] has a key of 32 bytes and a vector of 16 bytes, which AES
    takes, and an offset: a whole number of 64-byte steps after the
    leading salt, with the [max_len] bytes read from there ending within
    the slot area. *)
Theorem opened_vault_derives_every_slot {ext : Externals} (filesize : Z)
    (self : slots.KeyLocker) (seg : nat) :
  slots.opened filesize self ->
  (seg <= Z.to_nat (slots.slot_max self))%nat ->
  exists kv ks o,
    slots.get_key self seg = Ok kv /\
    len (fst kv) = 32 /\ len (snd kv) = 16 /\
    crypto.aes_new (fst kv) (snd kv) = Ok ks /\
    slots.get_offset self seg = Ok o /\
    slots.salt_len self <= o /\
    (o - slots.salt_len self) mod slots.slot_len = 0 /\
    o + slots.max_len <= slots.salt_len self + slots.area self.
Proof.
  intros Hopen Hseg.
  destruct (opened_hash filesize self Hopen) as (Hn & Htr & Hl).
  cbv zeta in *.
  pose proof (opened_facts filesize self Hopen)
    as (Hslots & Hfit & _ & _ & Ht & Hmax & _).
  set (N := Z.to_nat (slots.slot_max self + 1)) in *.
  set (n := Z.of_nat N) in *.
  assert (HsegN : (seg < N)%nat) by lia.
  assert (Hs : 0 <= Z.of_nat seg < n) by lia.
  assert (Hk : slots.get_key self seg
               = Ok (slots.phash_at self (32 + Z.of_nat seg * 32,
                                          32 + Z.of_nat seg * 32 + 32),
                     slots.phash_at self (48 + 32 * n + Z.of_nat seg * 16,
                                          48 + 32 * n + Z.of_nat seg * 16 + 16))).
  { unfold slots.get_key, slots.index. rewrite Htr.
    cbn [slots.tr_key slots.tr_vector].
    rewrite !sections_from_nth by exact HsegN. reflexivity. }
  assert (Ho : slots.get_offset self seg
               = Ok (from_bytes
                       (slots.phash_at self
                          (240 + 48 * n + Z.of_nat seg * 16,
                           240 + 48 * n + Z.of_nat seg * 16 + 16))
                     mod slots.num_slots self * slots.slot_len
                     + slots.salt_len self)).
  { unfold slots.get_offset, slots.index. rewrite Htr.
    cbn [slots.tr_offset]. rewrite sections_from_nth by exact HsegN.
    cbn [obind snd].
    destruct (240 + 48 * n + Z.of_nat seg * 16 + 16 <? len (slots.phash self))
      eqn:E1; [|apply Z.ltb_ge in E1; lia].
    cbn [negb].
    destruct (slots.num_slots self =? 0) eqn:E2;
      [apply Z.eqb_eq in E2; lia|]. reflexivity. }
  eexists. exists (aes_ofb
                     (slots.phash_at self (32 + Z.of_nat seg * 32,
                                           32 + Z.of_nat seg * 32 + 32))
                     (slots.phash_at self (48 + 32 * n + Z.of_nat seg * 16,
                                           48 + 32 * n + Z.of_nat seg * 16 + 16))).
  eexists. split; [exact Hk|]. cbn [fst snd].
  assert (L1 : len (slots.phash_at self (32 + Z.of_nat seg * 32,
                                          32 + Z.of_nat seg * 32 + 32)) = 32)
    by (rewrite phash_at_len; lia).
  assert (L2 : len (slots.phash_at self
                      (48 + 32 * n + Z.of_nat seg * 16,
                       48 + 32 * n + Z.of_nat seg * 16 + 16)) = 16)
    by (rewrite phash_at_len; lia).
  split; [exact L1|]. split; [exact L2|].
  split; [unfold crypto.aes_new; rewrite L1, L2; reflexivity|].
  split; [exact Ho|].
  set (big := from_bytes _).
  pose proof (Z.mod_pos_bound big (slots.num_slots self) ltac:(lia)) as Hb.
  split; [unfold slots.slot_len; lia|].
  split.
  - replace (big mod slots.num_slots self * slots.slot_len
             + slots.salt_len self - slots.salt_len self)
      with (big mod slots.num_slots self * slots.slot_len) by lia.
    apply Z.mod_mul. unfold slots.slot_len. lia.
  - unfold slots.slot_len, slots.max_len in *. lia.
Qed.

Lemma opened_vault_derives_every_slot_witness :
  exists kv ks o,
    slots.get_key fixtures.vault_2000_open 17 = Ok kv /\
    len (fst kv) = 32 /\ len (snd kv) = 16 /\
    @crypto.aes_new fixtures.toy_externals (fst kv) (snd kv) = Ok ks /\
    slots.get_offset fixtures.vault_2000_open 17 = Ok o /\
    slots.salt_len fixtures.vault_2000_open <= o /\
    (o - slots.salt_len fixtures.vault_2000_open) mod slots.slot_len = 0 /\
    o + slots.max_len
    <= slots.salt_len fixtures.vault_2000_open
       + slots.area fixtures.vault_2000_open.
Proof.
  apply (@opened_vault_derives_every_slot fixtures.toy_externals 2000
           fixtures.vault_2000_open 17).
  - exact vault_2000_opened.
  - vm_compute. lia.
Defined.

(** ** The layout of a vault *)

(** Property X10.  When [set_boundaries] accepts a file, the two salts,
    the slot area and the storage make up the file exactly; there are at
    least 10 slots, and even a block of [max_len] bytes in the last slot
    ends within the slot area; there are 9 or 17 candidate slots; and the
    Shamir switch stays on only when it was asked for and the file has at
    least a fifth of [max_area] beside its salts. *)
Theorem set_boundaries_layout {ext : Externals} (filesize : Z)
    (shamir testing : bool) (k : slots.KeyLocker) :
  slots.set_boundaries filesize shamir testing = Ok k ->
  filesize = slots.salt_len k * 2 + slots.area k + slots.storage k /\
  0 <= slots.storage k /\
  10 <= slots.num_slots k /\
  slots.num_slots k * slots.slot_len + (slots.max_len - slots.slot_len)
  <= slots.area k /\
  (slots.slot_max k = 9 \/ slots.slot_max k = 17) /\
  (slots.shamir_mode k = true ->
   shamir = true /\
   slots.max_area / 5 <= filesize - slots.salt_len k * 2).
Proof.
  intros H. apply set_boundaries_ok in H.
  destruct H as (Hn & _ & Hfit & Hfile & Hst & Ht & Hmax & _ & _ & Hsh & _).
  split; [exact Hfile|]. split; [exact Hst|]. split; [exact Hn|].
  split; [exact Hfit|]. split; [lia|].
  intros Hs. destruct (Hsh Hs) as [H1 H2]. split; [exact H1|]. lia.
Qed.

Lemma set_boundaries_layout_witness :
  2000 = slots.salt_len fixtures.vault_2000 * 2
         + slots.area fixtures.vault_2000 + slots.storage fixtures.vault_2000 /\
  0 <= slots.storage fixtures.vault_2000 /\
  10 <= slots.num_slots fixtures.vault_2000 /\
  slots.num_slots fixtures.vault_2000 * slots.slot_len
  + (slots.max_len - slots.slot_len) <= slots.area fixtures.vault_2000 /\
  (slots.slot_max fixtures.vault_2000 = 9
   \/ slots.slot_max fixtures.vault_2000 = 17) /\
  (slots.shamir_mode fixtures.vault_2000 = true ->
   true = true /\
   slots.max_area / 5 <= 2000 - slots.salt_len fixtures.vault_2000 * 2).
Proof.
  apply (@set_boundaries_layout fixtures.toy_externals 2000 true true
           fixtures.vault_2000).
  vm_compute. reflexivity.
Defined.

(** ** Division modulo a prime *)

(** Property X12.  [_divmod] does not reject a divisor with no inverse:
    when the modulus divides [den] (the divisor 0 among them) the loop
    stops after one round with [last_x = 0] and the result is 0, whatever
    [num] is; no [ZeroDivisionError] is raised. *)
Theorem divmod_by_a_multiple_of_the_modulus (num den p : Z) :
  p <> 0 -> (p | den) -> shamir._divmod num den p = 0.
Proof.
  intros Hp Hd. unfold shamir._divmod.
  rewrite (divmod_first_step den p Hp).
  assert (Hm : den mod p = 0) by (apply Z.mod_divide; assumption).
  rewrite Hm.
  etransitivity; [apply f_equal, f_equal, shamir.divmod_loop_equation_1|].
  destruct (Z.eq_dec 0 0) as [e|n]; [|contradiction].
  unfold shamir.divmod_loop_unfold_clause_1. cbn [fst]. lia.
Qed.

Lemma divmod_by_a_multiple_of_the_modulus_witness :
  shamir._divmod 5 14 7 = 0.
Proof.
  apply (divmod_by_a_multiple_of_the_modulus 5 14 7).
  - discriminate.
  - exists 2. reflexivity.
Defined.

(** ** Opening a vault *)

Lemma set_phash_keeps_salt self ph k :
  slots.set_phash self ph = Ok k ->
  slots.salt k = slots.salt self /\ slots.salt_len k = slots.salt_len self.
Proof.
  unfold slots.set_phash. intros H. cbv zeta in H.
  obind_inv H. destruct a as [sk t1].
  obind_inv H. destruct a as [ks t2].
  obind_inv H. destruct a as [sv t3].
  obind_inv H. destruct a as [vs t4].
  obind_inv H. destruct a as [pr t5].
  obind_inv H. destruct a as [os t6].
  injection H as <-. split; reflexivity.
Qed.

(** Property X11.  Opening a vault reads the two salts of the file and
    nothing else, and writes nothing: the leading [salt_len] bytes, then
    the trailing [salt_len] bytes.  The salt of the vault is what these
    two reads returned, followed by the seed. *)
Theorem KeyLocker_new_reads_the_salts {ext : Externals} (ph seed : bytes)
    (shamir testing : bool) (w : world) (k : slots.KeyLocker) (w' : world) :
  slots.KeyLocker_new ph seed shamir testing w = (Ok k, w') ->
  let f := content w in
  let head := slice f 0 (slots.salt_len k) in
  let tail := slice f (len f - slots.salt_len k) (len f) in
  content w' = f /\
  slots.salt k = head ++ tail ++ seed /\
  io w' = io w ++ [IORead 0 (len head);
                   IORead (len f - slots.salt_len k) (len tail)].
Proof.
  intros H. unfold slots.KeyLocker_new, bind, get_size, lift, seek, file_read
    in H.
  destruct (slots.set_boundaries (len (content w)) shamir testing)
    as [k0| |] eqn:Hb; try discriminate.
  cbn [content position tape io Z.ltb Z.compare] in H.
  destruct (len (content w) - slots.salt_len k0 <? 0); [discriminate|].
  cbn [content position tape io] in H.
  replace (len (content w) - slots.salt_len k0 + slots.salt_len k0)
    with (len (content w)) in H by lia.
  replace (0 + slots.salt_len k0) with (slots.salt_len k0) in H by lia.
  assert (Hk : slots.salt k
               = slice (content w) 0 (slots.salt_len k0)
                 ++ slice (content w) (len (content w) - slots.salt_len k0)
                      (len (content w)) ++ seed
               /\ slots.salt_len k = slots.salt_len k0
               /\ content w' = content w
               /\ io w' = (io w ++ [IORead 0 (len (slice (content w) 0
                                                     (slots.salt_len k0)))])
                          ++ [IORead (len (content w) - slots.salt_len k0)
                                (len (slice (content w)
                                        (len (content w) - slots.salt_len k0)
                                        (len (content w))))]).
  { destruct ph as [|b ph].
    - unfold ret in H. injection H as <- <-. repeat split.
    - destruct (slots.set_phash _ _) as [k1| |] eqn:Hp; try discriminate.
      injection H as <- <-.
      apply set_phash_keeps_salt in Hp as [H1 H2].
      cbn [slots.with_salt slots.salt slots.salt_len] in H1, H2.
      repeat split; assumption. }
  destruct Hk as (Hs & Hl & Hc & Hio). cbv zeta. rewrite Hl.
  split; [exact Hc|]. split; [exact Hs|].
  rewrite Hio, <- app_assoc. reflexivity.
Qed.

Lemma KeyLocker_new_reads_the_salts_witness :
  content fixtures.world_a = content fixtures.world_a /\
  slots.salt fixtures.vault_a
  = slice (content fixtures.world_a) 0 (slots.salt_len fixtures.vault_a)
    ++ slice (content fixtures.world_a)
         (len (content fixtures.world_a) - slots.salt_len fixtures.vault_a)
         (len (content fixtures.world_a)) ++ [] /\
  io (mkWorld [] fixtures.file_2000 2000 [IORead 0 62; IORead 1938 62])
  = io fixtures.world_a
    ++ [IORead 0 (len (slice (content fixtures.world_a) 0
                         (slots.salt_len fixtures.vault_a)));
        IORead (len (content fixtures.world_a)
                - slots.salt_len fixtures.vault_a)
          (len (slice (content fixtures.world_a)
                  (len (content fixtures.world_a)
                   - slots.salt_len fixtures.vault_a)
                  (len (content fixtures.world_a))))].
Proof.
  apply (@KeyLocker_new_reads_the_salts fixtures.toy_externals
           fixtures.phash_1400 [] true true fixtures.world_a
           fixtures.vault_a
           (mkWorld [] fixtures.file_2000 2000 [IORead 0 62; IORead 1938 62])).
  vm_compute. reflexivity.
Defined.

(** ** Wiping a vault *)

Section Wipe.

Import slots.

Lemma slice_of_firstn {A} (f : list A) a b :
  0 <= a -> slice (firstn (Z.to_nat b) f) a b = slice f a b.
Proof.
  intros Ha. unfold slice.
  destruct (Z_le_gt_dec a b) as [Hab|Hab].
  - replace (Z.to_nat b) with (Z.to_nat a + Z.to_nat (b - a))%nat by lia.
    rewrite <- firstn_skipn_comm, firstn_firstn, Nat.min_id. reflexivity.
  - replace (Z.to_nat (b - a)) with 0%nat by lia. reflexivity.
Qed.

Variable self : KeyLocker.
Variable filesize : Z.
Variable kept : bytes.

Hypothesis salt_nonneg : 0 <= salt_len self.
Hypothesis area_nonneg : 0 <= area self.
Hypothesis storage_nonneg : 0 <= storage self.
Hypothesis file_parts :
  filesize = salt_len self * 2 + area self + storage self.

(** The file has its length, and the storage holds [kept]. *)
Local Abbreviation storage_kept f :=
  (len f = filesize /\
   slice f (salt_len self + area self) (filesize - salt_len self) = kept).

Lemma write_head_keeps_storage f junk :
  storage_kept f -> len junk = salt_len self + area self ->
  storage_kept (write_at f 0 junk).
Proof.
  intros [Hl Hs] Hj.
  destruct (write_at_framed 0 (salt_len self + area self) ltac:(lia) f 0 junk)
    as (L & _ & T); try lia.
  split; [lia|]. unfold slice in *. rewrite T. exact Hs.
Qed.

Lemma write_tail_keeps_storage f junk :
  storage_kept f -> len junk = salt_len self ->
  storage_kept (write_at f (filesize - salt_len self) junk).
Proof.
  intros [Hl Hs] Hj.
  destruct (write_at_framed (filesize - salt_len self) filesize ltac:(lia) f
              (filesize - salt_len self) junk)
    as (L & H & _); try lia.
  split; [lia|].
  rewrite <- slice_of_firstn by lia. rewrite H.
  rewrite slice_of_firstn by lia. exact Hs.
Qed.

(** Where a round of [wipe] can leave the file. *)
Lemma wipe_round_content w :
  len (content w) = filesize ->
  content (snd (wipe_round self w)) = content w \/
  (exists j1, len j1 = salt_len self + area self /\
              content (snd (wipe_round self w)) = write_at (content w) 0 j1) \/
  (exists j1 j2, len j1 = salt_len self + area self /\
                 len j2 = salt_len self /\
                 content (snd (wipe_round self w))
                 = write_at (write_at (content w) 0 j1)
                            (filesize - salt_len self) j2).
Proof.
  intros Hl.
  remember (content (snd (wipe_round self w))) as x eqn:Hx.
  unfold wipe_round, bind, seek in Hx. cbn [Z.ltb Z.compare] in Hx.
  set (w1 := mkWorld (tape w) (content w) 0 (io w)) in Hx.
  assert (Hq := quiet_urandom (salt_len self + area self) w1).
  destruct (urandom (salt_len self + area self) w1) as [[j1|e|] w2] eqn:E1;
    destruct Hq as (C & P & _); cbn [snd w1 content position] in *;
    try (left; rewrite Hx; exact C).
  apply urandom_len in E1.
  unfold file_write at 1 in Hx. rewrite C, P in Hx.
  set (f1 := write_at (content w) 0 j1) in Hx.
  assert (Hl1 : len f1 = filesize).
  { destruct (write_at_framed 0 (salt_len self + area self) ltac:(lia)
                (content w) 0 j1) as (L & _); try lia.
    unfold f1. lia. }
  unfold seek_end, seek in Hx. cbn [content] in Hx.
  destruct (len f1 + - salt_len self <? 0) eqn:E0;
    [right; left; exists j1; split; [exact E1|exact Hx]|].
  set (w3 := mkWorld _ f1 (len f1 + - salt_len self) _) in Hx.
  assert (Hq := quiet_urandom (salt_len self) w3).
  destruct (urandom (salt_len self) w3) as [[j2|e|] w4] eqn:E2;
    destruct Hq as (C' & P' & _); cbn [snd w3 content position] in *;
    try (right; left; exists j1; split; [exact E1|rewrite Hx; exact C']).
  apply urandom_len in E2.
  right. right. exists j1, j2. split; [exact E1|]. split; [exact E2|].
  unfold file_write in Hx. cbn [snd content] in Hx. rewrite C', P' in Hx.
  rewrite Hx. f_equal. lia.
Qed.

Lemma wipe_round_keeps_storage w :
  storage_kept (content w) -> storage_kept (content (snd (wipe_round self w))).
Proof.
  intros Hk.
  destruct (wipe_round_content w (proj1 Hk))
    as [-> |[(j1 & H1 & ->)|(j1 & j2 & H1 & H2 & ->)]].
  - exact Hk.
  - apply write_head_keeps_storage; assumption.
  - apply write_tail_keeps_storage; [|exact H2].
    apply write_head_keeps_storage; assumption.
Qed.

Lemma wipe_keeps_storage can_write reps w :
  storage_kept (content w) ->
  storage_kept (content (snd (wipe can_write self reps w))).
Proof.
  intros Hk. unfold wipe. destruct (negb can_write); [exact Hk|].
  generalize (seq 0 reps). intros l. revert w Hk.
  induction l as [|x l IH]; intros w Hk; cbn [for_each]; [exact Hk|].
  unfold bind. pose proof (wipe_round_keeps_storage w Hk) as H1.
  destruct (wipe_round self w) as [[[]|e|] w1]; cbn [snd] in *;
    [apply IH; exact H1|exact H1|exact H1].
Qed.

End Wipe.

(** Property X13.  [wipe] overwrites the two salts and the slot area and
    nothing else: on an opened vault the file keeps its length and the
    storage, from the end of the slot area to the trailing salt, keeps
    its bytes, however many rounds are run and wherever a round stops;
    on a file that is not open for writing nothing happens at all. *)
Theorem wipe_spares_the_storage {ext : Externals} (filesize : Z)
    (self : slots.KeyLocker) (reps : nat) (w : world) :
  slots.opened filesize self ->
  0 <= slots.salt_len self ->
  len (content w) = filesize ->
  len (content (snd (slots.wipe true self reps w))) = filesize /\
  slice (content (snd (slots.wipe true self reps w)))
        (slots.salt_len self + slots.area self)
        (filesize - slots.salt_len self)
  = slice (content w) (slots.salt_len self + slots.area self)
          (filesize - slots.salt_len self) /\
  slots.wipe false self reps w = (Ok tt, w).
Proof.
  intros Hopen Hsalt Hsize.
  destruct (opened_facts filesize self Hopen)
    as (Hn & Hfit & Hfile & Hstore & _).
  assert (Harea : 0 <= slots.area self)
    by (unfold slots.slot_len, slots.max_len in Hfit; lia).
  destruct (wipe_keeps_storage self filesize
              (slice (content w) (slots.salt_len self + slots.area self)
                     (filesize - slots.salt_len self))
              Hsalt Harea Hstore Hfile true reps w) as [H1 H2].
  { split; [exact Hsize|reflexivity]. }
  split; [exact H1|]. split; [exact H2|reflexivity].
Qed.

Lemma vault_220000_opened :
  @slots.opened fixtures.toy_externals 220000 fixtures.vault_220000_open.
Proof.
  exists true, true, fixtures.vault_220000, fixtures.vault_220000_open.
  split; [vm_compute; reflexivity|].
  split; [vm_compute; reflexivity|].
  split; [apply same_layout_refl|reflexivity].
Qed.

Lemma wipe_spares_the_storage_witness :
  len (content (snd (slots.wipe true fixtures.vault_220000_open 3
                       fixtures.world_wipe_220000))) = 220000 /\
  slice (content (snd (slots.wipe true fixtures.vault_220000_open 3
                         fixtures.world_wipe_220000)))
        (slots.salt_len fixtures.vault_220000_open
         + slots.area fixtures.vault_220000_open)
        (220000 - slots.salt_len fixtures.vault_220000_open)
  = slice (content fixtures.world_wipe_220000)
          (slots.salt_len fixtures.vault_220000_open
           + slots.area fixtures.vault_220000_open)
          (220000 - slots.salt_len fixtures.vault_220000_open) /\
  slots.wipe false fixtures.vault_220000_open 3 fixtures.world_wipe_220000
  = (Ok tt, fixtures.world_wipe_220000).
Proof.
  apply (@wipe_spares_the_storage fixtures.toy_externals 220000
           fixtures.vault_220000_open 3 fixtures.world_wipe_220000).
  - exact vault_220000_opened.
  - vm_compute. discriminate.
  - vm_compute. reflexivity.
Defined.

(** ** Slicing data *)

Section Slicer.

Context {A : Type}.
Import bitfun.

Lemma py_slice_nonneg (data : list A) start stop :
  0 <= start -> start <= stop ->
  py_slice data start stop = slice data start stop.
Proof.
  intros Hs Hst. unfold py_slice, py_index.
  destruct (start <? 0) eqn:E1; [apply Z.ltb_lt in E1; lia|].
  destruct (stop <? 0) eqn:E2; [apply Z.ltb_lt in E2; lia|].
  unfold slice, len.
  destruct (Z_le_gt_dec (Z.of_nat (length data)) start) as [H|H].
  - rewrite !Z.min_r by lia.
    rewrite !skipn_all2 by lia. rewrite !firstn_nil. reflexivity.
  - rewrite (Z.min_l start) by lia.
    destruct (Z_le_gt_dec stop (Z.of_nat (length data))) as [H2|H2].
    + rewrite Z.min_l by lia. reflexivity.
    + rewrite Z.min_r by lia.
      rewrite !firstn_all2; [reflexivity| |];
        rewrite length_skipn; lia.
Qed.

Lemma slicer_from_concat (data : list A) args : forall stop,
  0 <= stop -> Forall (fun a => 0 <= a) args ->
  concat (slicer_from data stop args)
  = slice data stop (stop + fold_right Z.add 0 args) /\
  0 <= fold_right Z.add 0 args.
Proof.
  induction args as [|a args IH]; intros stop Hs Hall;
    cbn [slicer_from concat fold_right].
  - split; [|lia]. unfold slice. rewrite Z.add_0_r, Z.sub_diag. reflexivity.
  - inversion Hall as [|? ? Ha Hrest]; subst.
    destruct (IH (stop + a) ltac:(lia) Hrest) as [IH1 IH2].
    split; [|lia].
    rewrite IH1, py_slice_nonneg by lia.
    rewrite (slice_split data stop (stop + a)
               (stop + (a + fold_right Z.add 0 args))) by lia.
    do 2 f_equal. lia.
Qed.

Lemma slicer_from_lengths (data : list A) args : forall stop,
  0 <= stop -> Forall (fun a => 0 <= a) args ->
  stop + fold_right Z.add 0 args <= len data ->
  map len (slicer_from data stop args) = args.
Proof.
  induction args as [|a args IH]; intros stop Hs Hall Hfit;
    cbn [slicer_from map fold_right] in *; [reflexivity|].
  inversion Hall as [|? ? Ha Hrest]; subst.
  destruct (slicer_from_concat data args (stop + a) ltac:(lia) Hrest)
    as [_ Hsum].
  rewrite IH by (try assumption; lia).
  rewrite py_slice_nonneg, slice_length by lia.
  f_equal. lia.
Qed.

End Slicer.

(** Property X14.  [slicer] cuts the data into consecutive pieces: for
    lengths that are not negative, the pieces put together are the first
    [sum(args)] bytes of the data, there is one piece per length, and
    when the lengths add up to no more than the data holds, each piece
    has exactly its length. *)
Theorem slicer_cuts_consecutive_pieces {A : Type} (data : list A)
    (args : list Z) :
  Forall (fun a => 0 <= a) args ->
  concat (bitfun.slicer data args)
  = firstn (Z.to_nat (fold_right Z.add 0 args)) data /\
  length (bitfun.slicer data args) = length args /\
  (fold_right Z.add 0 args <= len data ->
   map len (bitfun.slicer data args) = args).
Proof.
  intros Hall. unfold bitfun.slicer.
  destruct (slicer_from_concat data args 0 ltac:(lia) Hall) as [Hc Hs].
  split; [|split].
  - rewrite Hc. unfold slice. cbn [Z.to_nat skipn]. f_equal. lia.
  - clear. generalize 0. induction args as [|a args IH]; intros stop;
      cbn [bitfun.slicer_from length]; [reflexivity|]. rewrite IH. reflexivity.
  - intros Hfit. apply slicer_from_lengths; [lia|exact Hall|lia].
Qed.

Lemma slicer_cuts_consecutive_pieces_witness :
  concat (bitfun.slicer [1; 2; 3; 4; 5; 6] [2; 0; 3])
  = firstn (Z.to_nat (fold_right Z.add 0 [2; 0; 3])) [1; 2; 3; 4; 5; 6] /\
  length (bitfun.slicer [1; 2; 3; 4; 5; 6] [2; 0; 3]) = length [2; 0; 3] /\
  (fold_right Z.add 0 [2; 0; 3] <= len [1; 2; 3; 4; 5; 6] ->
   map len (bitfun.slicer [1; 2; 3; 4; 5; 6] [2; 0; 3]) = [2; 0; 3]).
Proof.
  apply (slicer_cuts_consecutive_pieces [1; 2; 3; 4; 5; 6] [2; 0; 3]).
  repeat constructor; lia.
Defined.

(** ** Integers as bytes *)

(** Property X15.  Whatever the floating-point logarithm makes of the
    byte count, the bytes [to_bytes] returns for an integer are that
    integer: [from_bytes(to_bytes(i)) = i], every byte is in range, and
    an integer below 256 takes one byte. *)
Theorem to_bytes_round_trip {ext : Externals} (i : Z) (b : bytes) :
  bitfun.to_bytes i = Ok b ->
  from_bytes b = i /\ is_bytes b /\ 0 <= i /\ (i < 256 -> len b = 1).
Proof.
  unfold bitfun.to_bytes. cbv zeta.
  set (count := if i <? 256 then 1 else ceil_log256 i).
  destruct (count <? 0); [discriminate|].
  unfold int_to_bytes.
  destruct ((0 <=? i) && (i <? 256 ^ Z.of_nat (Z.to_nat count))) eqn:E;
    [|discriminate].
  apply andb_true_iff in E as [E1 E2].
  apply Z.leb_le in E1. apply Z.ltb_lt in E2.
  intros H. injection H as <-.
  split; [apply from_bytes_le_bytes; lia|].
  split; [apply le_bytes_is_bytes|]. split; [exact E1|].
  intros Hi. unfold count.
  destruct (i <? 256) eqn:E3; [|apply Z.ltb_ge in E3; lia].
  reflexivity.
Qed.

Lemma to_bytes_round_trip_witness :
  from_bytes [232; 3] = 1000 /\ is_bytes [232; 3] /\ 0 <= 1000 /\
  (1000 < 256 -> len [232; 3] = 1).
Proof.
  apply (@to_bytes_round_trip fixtures.toy_externals 1000 [232; 3]).
  vm_compute. reflexivity.
Defined.

(** ** Copying into an array *)

(** Property X16.  [copy_bytearray] never changes the length of the
    target: with [stop] at 0 standing for the end of the source, it
    copies [n] bytes from [start] of the source to [tstart] of the
    target, where [n] is what was asked for cut down to what the target
    has room for, and leaves the rest of the target as it was. *)
Theorem copy_bytearray_stays_within_target {ext : Externals}
    (src target : bytes) (start stop tstart : Z) (r : bytes) :
  0 <= start -> 0 <= tstart ->
  bitfun.copy_bytearray src target start stop tstart = Ok r ->
  let asked := (if stop =? 0 then len src else stop) - start in
  let n := Z.min asked (len target - tstart) in
  0 <= n /\
  len r = len target /\
  r = slice target 0 tstart ++ slice src start (start + n)
      ++ slice target (tstart + n) (len target).
Proof.
  intros Hs Ht H. pose proof (copy_bytearray_len _ _ _ _ _ _ Hs Ht H) as Hl.
  unfold bitfun.copy_bytearray in H. cbv zeta in *.
  set (stop1 := if stop =? 0 then len src else stop) in *.
  destruct (stop1 - start + tstart >? len target) eqn:E.
  - rewrite Z.gtb_ltb in E. apply Z.ltb_lt in E.
    destruct (len target - tstart + start <? start) eqn:E1; [discriminate|].
    destruct (len target - tstart + start >? len src); [discriminate|].
    apply Z.ltb_ge in E1. injection H as <-.
    rewrite Z.min_r by lia. split; [lia|]. split; [exact Hl|].
    rewrite slice_0. f_equal. f_equal; [f_equal; lia|].
    unfold slice.
    replace (tstart + (len target - tstart)) with (len target) by lia.
    rewrite Z.sub_diag. cbn [Z.to_nat firstn].
    replace (len target - tstart + start - start) with (len target - tstart)
      by lia.
    apply skipn_all2. unfold len. lia.
  - rewrite Z.gtb_ltb in E. apply Z.ltb_ge in E.
    destruct (stop1 <? start) eqn:E1; [discriminate|].
    destruct (stop1 >? len src); [discriminate|].
    apply Z.ltb_ge in E1. injection H as <-.
    rewrite Z.min_l by lia. split; [lia|]. split; [exact Hl|].
    rewrite slice_0. f_equal. f_equal; [f_equal; lia|].
    unfold slice.
    rewrite firstn_all2 by (rewrite length_skipn; unfold len; lia).
    reflexivity.
Qed.

Lemma copy_bytearray_stays_within_target_witness :
  0 <= Z.min ((if 0 =? 0 then len [7; 8; 9; 10] else 0) - 1)
             (len [1; 2; 3; 4; 5] - 3) /\
  len [1; 2; 3; 8; 9] = len [1; 2; 3; 4; 5] /\
  [1; 2; 3; 8; 9]
  = slice [1; 2; 3; 4; 5] 0 3
    ++ slice [7; 8; 9; 10] 1
         (1 + Z.min ((if 0 =? 0 then len [7; 8; 9; 10] else 0) - 1)
                    (len [1; 2; 3; 4; 5] - 3))
    ++ slice [1; 2; 3; 4; 5]
         (3 + Z.min ((if 0 =? 0 then len [7; 8; 9; 10] else 0) - 1)
                    (len [1; 2; 3; 4; 5] - 3))
         (len [1; 2; 3; 4; 5]).
Proof.
  apply (@copy_bytearray_stays_within_target fixtures.toy_externals
           [7; 8; 9; 10] [1; 2; 3; 4; 5] 1 0 3 [1; 2; 3; 8; 9]).
  - lia.
  - lia.
  - vm_compute. reflexivity.
Defined.

(** ** Shares *)

(** Property X17.  [make_shares] is a generator of at most [shares]
    shares.  Each is a residue modulo the prime written in exactly
    [data_len] bytes; a residue that does not fit raises [OverflowError],
    which ends the generator, so only the last thing it hands out can be
    an error.  When the prime is at most [256 ^ data_len] nothing
    overflows and all [shares] shares are produced.  With a threshold of
    1 (or less) no coefficient is drawn and every share is the secret
    itself, reduced modulo the prime. *)
Theorem make_shares_gives_residues (minimum : Z) (shares : nat) (prime : Z)
    (secret : bytes) (data_len : nat) (w : world)
    (l : list (outcome bytes)) (w' : world) :
  1 < prime ->
  shamir.make_shares minimum shares prime secret data_len w = (Ok l, w') ->
  (length l <= shares)%nat /\
  (forall share, In share l ->
     (exists s, share = Ok s /\ len s = Z.of_nat data_len /\
                0 <= from_bytes s < prime)
     \/ share = Raise OverflowError) /\
  (forall i, (S i < length l)%nat -> exists s, nth_error l i = Some (Ok s)) /\
  (prime <= 256 ^ Z.of_nat data_len ->
   length l = shares /\ forall share, In share l -> exists s, share = Ok s) /\
  (minimum <= 1 ->
   forall share, In share l ->
     share = int_to_bytes (from_bytes secret mod prime) data_len).
Proof.
  intros Hp H. unfold shamir.make_shares in H. bind_inv H.
  apply ret_ok in H as [-> _].
  assert (Hval : forall share,
             In share (shamir.make_shares_from a shares prime secret data_len) ->
             exists v, 0 <= v < prime /\ share = int_to_bytes v data_len /\
                       (a = [] -> v = from_bytes secret mod prime)).
  { intros share Hin. unfold shamir.make_shares_from in Hin. cbv zeta in Hin.
    apply in_until_raise in Hin.
    apply in_map_iff in Hin as (count & <- & _).
    rewrite eval_poly_peval by lia.
    eexists. split; [apply Z.mod_pos_bound; lia|]. split; [reflexivity|].
    intros ->. cbn [poly.peval]. f_equal. lia. }
  split.
  { unfold shamir.make_shares_from. cbv zeta.
    etransitivity; [apply until_raise_length|].
    rewrite length_map, length_seq. apply Nat.le_refl. }
  split; [|split; [|split]].
  - intros share Hin. destruct (Hval share Hin) as (v & Hv & -> & _).
    unfold int_to_bytes.
    destruct ((0 <=? v) && (v <? 256 ^ Z.of_nat data_len)) eqn:E;
      [left|right; reflexivity].
    apply andb_true_iff in E as [_ E]. apply Z.ltb_lt in E.
    eexists. split; [reflexivity|]. split.
    + unfold len. rewrite le_bytes_length. reflexivity.
    + rewrite from_bytes_le_bytes by lia. exact Hv.
  - intros i Hi. unfold shamir.make_shares_from in *. cbv zeta in *.
    apply until_raise_ends. exact Hi.
  - intros Hfit. split; [apply make_shares_from_length; assumption|].
    intros share Hin. destruct (Hval share Hin) as (v & Hv & -> & _).
    rewrite int_to_bytes_ok by lia. eexists. reflexivity.
  - intros Hmin share Hin. destruct (Hval share Hin) as (v & Hv & -> & Hs).
    rewrite Hs; [reflexivity|].
    apply random_coefficients_length in Hm.
    replace (Z.to_nat (minimum - 1)) with 0%nat in Hm by lia.
    destruct a; [reflexivity|discriminate].
Qed.

Lemma make_shares_gives_residues_witness :
  (length [Ok [9%Z]; Ok [9%Z]; @Ok bytes [9%Z]] <= 3)%nat /\
  (forall share, In share [Ok [9]; Ok [9]; Ok [9]] ->
     (exists s, share = Ok s /\ len s = Z.of_nat 1 /\
                0 <= from_bytes s < 11)
     \/ share = Raise OverflowError) /\
  (forall i, (S i < length [Ok [9%Z]; Ok [9%Z]; @Ok bytes [9%Z]])%nat ->
     exists s, nth_error [Ok [9]; Ok [9]; Ok [9]] i = Some (Ok s)) /\
  (11 <= 256 ^ Z.of_nat 1 ->
   length [Ok [9]; Ok [9]; @Ok bytes [9]] = 3%nat /\
   forall share, In share [Ok [9]; Ok [9]; Ok [9]] -> exists s, share = Ok s) /\
  (1 <= 1 ->
   forall share, In share [Ok [9]; Ok [9]; Ok [9]] ->
     share = int_to_bytes (from_bytes [20] mod 11) 1).
Proof.
  apply (make_shares_gives_residues 1 3 11 [20] 1
           (mkWorld [] [] 0 []) [Ok [9]; Ok [9]; Ok [9]]
           (mkWorld [] [] 0 [])).
  - lia.
  - vm_compute. reflexivity.
Defined.

(** ** Padding below the prime *)

Section PadBelowPrime.

Context {ext : Externals}.
Import bitfun.

Lemma scramble_with_keeps_data a junk a' b :
  arr a = Some b -> 0 <= end_ a <= len b ->
  scramble_with a junk = Ok a' ->
  exists b', arr a' = Some b' /\ len b' = len b /\
             firstn (Z.to_nat (end_ a)) b' = firstn (Z.to_nat (end_ a)) b /\
             end_ a' = end_ a.
Proof.
  intros Hb He H. unfold scramble_with, get_arr in H. rewrite Hb in H.
  cbn [obind] in H. obind_inv H. injection H as <-.
  assert (Hl : len a0 = len b).
  { eapply copy_bytearray_len; [| |exact Hm]; lia. }
  exists a0. cbn [arr end_]. split; [reflexivity|]. split; [exact Hl|].
  split; [|reflexivity].
  unfold copy_bytearray in Hm. cbv zeta in Hm.
  repeat match type of Hm with
         | (if ?c then _ else _) = _ => destruct c; try discriminate
         end.
  all: injection Hm as <-.
  all: rewrite firstn_app, firstn_firstn, Nat.min_id.
  all: rewrite length_firstn.
  all: replace (Z.to_nat (end_ a) - Nat.min (Z.to_nat (end_ a)) (length b))%nat
         with 0%nat by (unfold len in *; lia).
  all: cbn [firstn]; apply app_nil_r.
Qed.

Lemma pad_below_prime_ok tries : forall a prime w a' w' b,
  arr a = Some b -> 0 <= end_ a <= len b ->
  slots.pad_below_prime tries a prime w = (Ok a', w') ->
  exists b', arr a' = Some b' /\ len b' = len b /\
             firstn (Z.to_nat (end_ a)) b' = firstn (Z.to_nat (end_ a)) b /\
             end_ a' = end_ a /\ from_bytes b' < prime.
Proof.
  induction tries as [|tries IH]; intros a prime w a' w' b Hb He H;
    cbn [slots.pad_below_prime] in H; [discriminate|].
  bind_inv H. bind_inv H. bind_inv H.
  assert (Hs : exists b1, arr a1 = Some b1 /\ len b1 = len b /\
                 firstn (Z.to_nat (end_ a)) b1 = firstn (Z.to_nat (end_ a)) b /\
                 end_ a1 = end_ a).
  { unfold scramble in Hm0. bind_inv Hm0. cbv zeta in Hm0.
    destruct a0 as [|x junk].
    - bind_inv Hm0. apply lift_ok in Hm0 as [Hm0 _].
      eapply scramble_with_keeps_data; eassumption.
    - apply lift_ok in Hm0 as [Hm0 _].
      eapply scramble_with_keeps_data; eassumption. }
  destruct Hs as (b1 & Hb1 & Hl1 & Hf1 & He1).
  apply lift_ok in Hm1 as [Hg ->]. unfold get_arr in Hg. rewrite Hb1 in Hg.
  injection Hg as <-.
  destruct (from_bytes b1 >=? prime) eqn:E.
  - destruct (IH a1 prime _ a' w' b1 Hb1 ltac:(lia) H)
      as (b' & Hb' & Hl' & Hf' & He' & Hlt).
    exists b'. split; [exact Hb'|]. split; [lia|].
    rewrite He1 in Hf'. split; [congruence|]. split; [congruence|exact Hlt].
  - apply ret_ok in H as [-> _]. rewrite Z.geb_leb in E. apply Z.leb_gt in E.
    exists b1. repeat (split; [assumption|]). exact E.
Qed.

End PadBelowPrime.

(** Property X18.  The padding loop of [write_shamir] changes nothing but
    the fill of the array: when it returns, the array has the length it
    had, its bytes up to the end mark (checksum, length byte and data)
    are as they were, and the array read as an integer is below the
    prime. *)
Theorem pad_below_prime_keeps_the_data {ext : Externals} (tries : nat)
    (a a' : bitfun.ABA) (prime : Z) (w w' : world) (b : bytes) :
  bitfun.arr a = Some b -> 0 <= bitfun.end_ a <= len b ->
  slots.pad_below_prime tries a prime w = (Ok a', w') ->
  exists b', bitfun.arr a' = Some b' /\ len b' = len b /\
             firstn (Z.to_nat (bitfun.end_ a)) b'
             = firstn (Z.to_nat (bitfun.end_ a)) b /\
             bitfun.end_ a' = bitfun.end_ a /\ from_bytes b' < prime.
Proof. apply pad_below_prime_ok. Qed.

Lemma pad_below_prime_keeps_the_data_witness :
  exists b', bitfun.arr (bitfun.mkABA [] (Some [1; 2; 3; 5]) 2 [] true)
             = Some b' /\
             len b' = len [1; 2; 3; 4] /\
             firstn (Z.to_nat (bitfun.end_
                                 (bitfun.mkABA [] (Some [1; 2; 3; 4]) 2 [] true)))
                    b'
             = firstn (Z.to_nat (bitfun.end_
                                   (bitfun.mkABA [] (Some [1; 2; 3; 4]) 2 [] true)))
                      [1; 2; 3; 4] /\
             bitfun.end_ (bitfun.mkABA [] (Some [1; 2; 3; 5]) 2 [] true)
             = bitfun.end_ (bitfun.mkABA [] (Some [1; 2; 3; 4]) 2 [] true) /\
             from_bytes b' < 256 ^ 4 - 1.
Proof.
  apply (@pad_below_prime_keeps_the_data fixtures.toy_externals 2
           (bitfun.mkABA [] (Some [1; 2; 3; 4]) 2 [] true)
           (bitfun.mkABA [] (Some [1; 2; 3; 5]) 2 [] true)
           (256 ^ 4 - 1)
           (mkWorld [DBytes (3 :: 5 :: repeat 0 126)] [] 0 [])
           (mkWorld [] [] 0 []) [1; 2; 3; 4]).
  - reflexivity.
  - vm_compute. split; discriminate.
  - vm_compute. reflexivity.
Defined.

(** ** Shuffling *)

Section Shuffles.

Lemma flat_map_nth_error {A} (l : list A) : forall pre,
  flat_map (fun i => match nth_error (pre ++ l) i with
                     | Some a => [a]
                     | None => []
                     end) (seq (length pre) (length l)) = l.
Proof.
  induction l as [|x l IH]; intros pre; cbn [length seq flat_map];
    [reflexivity|].
  rewrite nth_error_app2, Nat.sub_diag by lia. cbn [nth_error app].
  f_equal.
  specialize (IH (pre ++ [x])).
  rewrite <- app_assoc, length_app in IH. cbn [app length] in IH.
  rewrite Nat.add_1_r in IH. exact IH.
Qed.

Lemma pick_all {A} (l : list A) : pick l (seq 0 (length l)) = l.
Proof. exact (flat_map_nth_error l []). Qed.

(** A shuffle is a permutation. *)
Lemma pick_permutation {A} (l : list A) p :
  is_permb (length l) p = true -> Permutation l (pick l p).
Proof.
  intros Hp. apply is_permb_spec in Hp as (Hl & Hall & Hlt).
  assert (Hperm : Permutation (seq 0 (length l)) p).
  { apply NoDup_Permutation_bis; [apply seq_NoDup| |].
    - rewrite length_seq. lia.
    - intros i Hi. apply in_seq in Hi. apply Hall. lia. }
  rewrite <- (pick_all l) at 1. unfold pick.
  apply Permutation_flat_map. exact Hperm.
Qed.

Lemma shuffle_permutation {A} (l : list A) w r w' :
  shuffle l w = (Ok r, w') -> Permutation l r.
Proof.
  intros H. apply shuffle_ok in H as (p & Hp & -> & _).
  apply pick_permutation. exact Hp.
Qed.

End Shuffles.

(** ** Slots for shares *)

Section ValidSlots.

Context {ext : Externals}.
Import slots.

Lemma count_occ_repeat_true n m :
  count_occ bool_dec (repeat true n ++ repeat false m) true = n.
Proof.
  rewrite count_occ_app.
  rewrite (count_occ_repeat_eq bool_dec) by reflexivity.
  rewrite (count_occ_repeat_neq bool_dec) by discriminate. lia.
Qed.

Lemma get_valid_slots_loop_ok tries self minimum maximum data_len :
  forall w valid w',
  1 <= slot_target self <= slot_max self ->
  0 <= minimum <= maximum ->
  get_valid_slots_loop tries self minimum maximum data_len w = (Ok valid, w') ->
  length valid = Z.to_nat maximum /\
  minimum <= Z.of_nat (count_occ bool_dec valid true) <= maximum.
Proof.
  induction tries as [|tries IH]; intros w valid w' Ht Hm H;
    cbn [get_valid_slots_loop] in H; [discriminate|].
  bind_inv H. unfold get_slot_count in Hm0.
  apply get_slot_count_at_range in Hm0; [|exact Ht].
  cbv zeta in H. bind_inv H. bind_inv H.
  apply shuffle_permutation in Hm1.
  destruct (test_offsets data_len (sorted a1)).
  - apply ret_ok in H as [-> _].
    rewrite <- (Permutation_length Hm1).
    rewrite <- (proj1 (Permutation_count_occ bool_dec _ _) Hm1 true).
    rewrite count_occ_repeat_true, length_app, !repeat_length. lia.
  - eapply IH; eassumption.
Qed.

End ValidSlots.

(** Property X20.  The slots [get_valid_slots] marks for shares: the list
    it returns has one entry per candidate slot ([maximum] of them), and
    between [minimum] and [maximum] of them are marked, so at least as
    many shares are written as are needed to put the secret together. *)
Theorem get_valid_slots_marks_enough {ext : Externals} (filesize : Z)
    (self : slots.KeyLocker) (minimum maximum data_len : Z)
    (w : world) (valid : list bool) (w' : world) :
  slots.opened filesize self ->
  0 <= minimum <= maximum ->
  slots.get_valid_slots self minimum maximum data_len w = (Ok valid, w') ->
  length valid = Z.to_nat maximum /\
  minimum <= Z.of_nat (count_occ bool_dec valid true) <= maximum.
Proof.
  intros Hopen Hm H.
  destruct (opened_facts filesize self Hopen)
    as (_ & _ & _ & _ & Ht & Hmax & _).
  eapply get_valid_slots_loop_ok; [|exact Hm|exact H]. lia.
Qed.

Lemma get_valid_slots_marks_enough_witness :
  length (repeat true 7 ++ repeat false 10)
  = Z.to_nat 17 /\
  2 <= Z.of_nat
         (count_occ bool_dec
            (repeat true 7 ++ repeat false 10) true)
    <= 17.
Proof.
  apply (@get_valid_slots_marks_enough fixtures.toy_externals 2000
           fixtures.vault_2000_open 2 17 64
           (mkWorld [DFloat (6 # 10); DFloat (5 # 10); DFloat (1 # 4);
                     DPerm ([0; 3; 2] ++ [1] ++ seq 4 13)%nat] [] 0 [])
           (repeat true 7 ++ repeat false 10)
           (mkWorld [] [] 0 [])).
  - exact vault_2000_opened.
  - lia.
  - vm_compute. reflexivity.
Defined.

(** ** The prime of a vault *)

(** Property X19.  An opened vault can always draw its prime for shares
    of 1 to 128 bytes, the two widths [read_slot] tries among them: the
    192 bytes reserved for it give a key of 32 bytes, a vector of 16
    bytes and a root of 128 bytes, so no assertion of [get_prime] fails,
    and the prime is what [getPrime] makes of [8 * data_len] bits and a
    generator that depends on these bytes alone. *)
Theorem opened_vault_draws_its_prime {ext : Externals} (filesize : Z)
    (self : slots.KeyLocker) (data_len : Z) :
  slots.opened filesize self ->
  0 < data_len <= 128 ->
  exists ks root,
    len root = 128 /\
    slots.get_prime self data_len
    = Ok (getPrime (data_len * 8)
            (fun call count =>
               slice (crypto.xor_stream ks (call * length root) root) 0 count)).
Proof.
  intros Hopen Hlen.
  destruct (opened_hash filesize self Hopen) as (Hn & Htr & Hl).
  cbv zeta in *.
  pose proof (opened_facts filesize self Hopen)
    as (_ & _ & _ & _ & Ht & Hmax & _).
  set (n := Z.of_nat (Z.to_nat (slots.slot_max self + 1))) in *.
  unfold slots.get_prime. rewrite Htr. cbn [slots.tr_prime].
  set (seed := slots.phash_at self (48 + 48 * n, 240 + 48 * n)).
  assert (Hseed : len seed = 192).
  { unfold seed. rewrite phash_at_len; lia. }
  unfold crypto.get_prime.
  destruct (len seed <? 128) eqn:E; [apply Z.ltb_lt in E; lia|].
  assert (L1 : len (slice seed 0 32) = 32) by (rewrite slice_length; lia).
  assert (L2 : len (slice seed 32 48) = 16) by (rewrite slice_length; lia).
  unfold crypto.aes_new at 1. rewrite L1, L2. cbn [Z.eqb Pos.eqb orb andb obind].
  cbv zeta.
  assert (L3 : len (skipn 64 seed) = 128) by (rewrite len_skipn; lia).
  rewrite L3.
  destruct (128 <? data_len) eqn:E1; [apply Z.ltb_lt in E1; lia|].
  cbn [obind]. rewrite L3.
  change (128 mod 16 =? 0) with true. cbn [negb].
  rewrite E1.
  exists (aes_ofb (slice seed 0 32) (slice seed 32 48)), (skipn 64 seed).
  split; [exact L3|reflexivity].
Qed.

Lemma opened_vault_draws_its_prime_witness :
  exists ks root,
    len root = 128 /\
    @slots.get_prime fixtures.toy_externals fixtures.vault_2000_open 64
    = Ok (@getPrime fixtures.toy_externals (64 * 8)
            (fun call count =>
               slice (crypto.xor_stream ks (call * length root) root) 0 count)).
Proof.
  apply (@opened_vault_draws_its_prime fixtures.toy_externals 2000
           fixtures.vault_2000_open 64).
  - exact vault_2000_opened.
  - lia.
Defined.

(** ** Combinations of shares *)

Section Sorting.

Lemma increasing_cons a l :
  increasing (a :: l) = true <->
  increasing l = true /\ forall y, In y l -> a < y.
Proof.
  revert a. induction l as [|b l IH]; intros a.
  - cbn. split; [intros _; split; [reflexivity|intros y []]|reflexivity].
  - change (increasing (a :: b :: l)) with ((a <? b) && increasing (b :: l)).
    rewrite andb_true_iff, Z.ltb_lt. split.
    + intros [Hab Hrest]. split; [exact Hrest|].
      intros y [<-|Hy]; [exact Hab|].
      apply IH in Hrest as [_ Hb]. specialize (Hb y Hy). lia.
    + intros [Hrest Hall]. split; [apply Hall; left; reflexivity|exact Hrest].
Qed.

Lemma increasing_NoDup l : increasing l = true -> NoDup l.
Proof.
  induction l as [|a l IH]; intros H; [constructor|].
  apply increasing_cons in H as [Hl Hall].
  constructor; [|apply IH; exact Hl].
  intros Hin. specialize (Hall a Hin). lia.
Qed.

Lemma in_insert_sorted x y l :
  In y (insert_sorted x l) <-> y = x \/ In y l.
Proof.
  induction l as [|z l IH]; cbn [insert_sorted].
  - cbn. intuition.
  - destruct (x <=? z); cbn [In]; [intuition|]. rewrite IH. intuition.
Qed.

Lemma length_insert_sorted x l :
  length (insert_sorted x l) = S (length l).
Proof.
  induction l as [|z l IH]; cbn [insert_sorted]; [reflexivity|].
  destruct (x <=? z); cbn [length]; [reflexivity|]. rewrite IH. reflexivity.
Qed.

Lemma increasing_insert_sorted x l :
  increasing l = true -> ~ In x l -> increasing (insert_sorted x l) = true.
Proof.
  induction l as [|z l IH]; intros Hl Hx; cbn [insert_sorted]; [reflexivity|].
  apply increasing_cons in Hl as [Hl Hall].
  destruct (x <=? z) eqn:E.
  - apply Z.leb_le in E. apply increasing_cons. split.
    + apply increasing_cons. split; assumption.
    + intros y [<-|Hy].
      * assert (x <> z) by (intros ->; apply Hx; left; reflexivity). lia.
      * specialize (Hall y Hy). lia.
  - apply Z.leb_gt in E. apply increasing_cons. split.
    + apply IH; [exact Hl|]. intros Hin. apply Hx. right. exact Hin.
    + intros y Hy. apply in_insert_sorted in Hy as [->|Hy]; [lia|].
      apply Hall. exact Hy.
Qed.

Lemma remove_insert_sorted x l :
  ~ In x l -> remove Z.eq_dec x (insert_sorted x l) = l.
Proof.
  induction l as [|z l IH]; intros Hx; cbn [insert_sorted].
  - cbn. destruct (Z.eq_dec x x); [reflexivity|contradiction].
  - assert (Hz : x <> z) by (intros ->; apply Hx; left; reflexivity).
    assert (Hl : ~ In x l) by (intros H; apply Hx; right; exact H).
    destruct (x <=? z).
    + cbn [remove]. destruct (Z.eq_dec x x); [|contradiction].
      destruct (Z.eq_dec x z); [contradiction|].
      f_equal. apply notin_remove. exact Hl.
    + cbn [remove]. destruct (Z.eq_dec x z); [contradiction|].
      f_equal. apply IH. exact Hl.
Qed.

(** A list that goes up and holds [x] is [x] put into a shorter one. *)
Lemma increasing_take_out x c :
  increasing c = true -> In x c ->
  exists c0, c = insert_sorted x c0 /\ ~ In x c0 /\
             increasing c0 = true /\ incl c0 c.
Proof.
  induction c as [|y c IH]; intros Hc Hin; [destruct Hin|].
  apply increasing_cons in Hc as [Hc Hall].
  destruct (Z.eq_dec y x) as [->|Hne].
  - exists c. split; [|split; [|split]].
    + destruct c as [|z c]; [reflexivity|]. cbn [insert_sorted].
      specialize (Hall z (or_introl eq_refl)).
      destruct (x <=? z) eqn:E; [reflexivity|apply Z.leb_gt in E; lia].
    + intros H. specialize (Hall x H). lia.
    + exact Hc.
    + intros z Hz. right. exact Hz.
  - destruct Hin as [He|Hin]; [contradiction|].
    destruct (IH Hc Hin) as (c0 & -> & Hx0 & Hc0 & Hi0).
    exists (y :: c0). split; [|split; [|split]].
    + cbn [insert_sorted]. specialize (Hall x Hin).
      destruct (x <=? y) eqn:E; [apply Z.leb_le in E; lia|reflexivity].
    + intros [He|H]; [contradiction|exact (Hx0 H)].
    + apply increasing_cons. split; [exact Hc0|].
      intros z Hz. apply Hall. apply Hi0. exact Hz.
    + intros z [<-|Hz]; [left; reflexivity|right; apply Hi0; exact Hz].
Qed.

Lemma sorted_cons x l : sorted (x :: l) = insert_sorted x (sorted l).
Proof. reflexivity. Qed.

End Sorting.

Section Combinations.

(** The sorted combinations of [r] items of a list without repetition
    are the lists of [r] items of it that go up, each once. *)
Lemma sorted_combinations l : NoDup l -> forall r,
  NoDup (map sorted (combinations r l)) /\
  forall c, In c (map sorted (combinations r l)) <->
            length c = r /\ increasing c = true /\ incl c l.
Proof.
  induction l as [|x l IH]; intros Hnd r.
  - destruct r as [|r]; cbn [combinations map].
    + split; [constructor; [intros []|constructor]|].
      intros c. split.
      * intros [<-|[]]. split; [reflexivity|]. split; [reflexivity|].
        intros y [].
      * intros (Hl & _ & _). destruct c; [left; reflexivity|discriminate].
    + split; [constructor|]. intros c. split; [intros []|].
      intros (Hl & _ & Hi). destruct c as [|y c]; [discriminate|].
      destruct (Hi y (or_introl eq_refl)).
  - inversion Hnd as [|? ? Hx Hnd']; subst.
    destruct r as [|r]; cbn [combinations].
    + cbn [map]. split; [constructor; [intros []|constructor]|].
      intros c. split.
      * intros [<-|[]]. split; [reflexivity|]. split; [reflexivity|].
        intros y [].
      * intros (Hl & _ & _). destruct c; [left; reflexivity|discriminate].
    + destruct (IH Hnd' r) as [NA HA]. destruct (IH Hnd' (S r)) as [NB HB].
      rewrite map_app, map_map.
      assert (Emap : map (fun c => sorted (x :: c)) (combinations r l)
                     = map (insert_sorted x) (map sorted (combinations r l)))
        by (rewrite map_map; reflexivity).
      rewrite Emap.
      set (A := map sorted (combinations r l)) in *.
      set (B := map sorted (combinations (S r) l)) in *.
      assert (HxA : forall c, In c A -> ~ In x c).
      { intros c Hc Hin. apply HA in Hc as (_ & _ & Hi). exact (Hx (Hi x Hin)). }
      split.
      * apply NoDup_app.
        -- apply NoDup_map_NoDup_ForallPairs; [|exact NA].
           intros a b Ha Hb E.
           rewrite <- (remove_insert_sorted x a (HxA a Ha)).
           rewrite <- (remove_insert_sorted x b (HxA b Hb)).
           rewrite E. reflexivity.
        -- exact NB.
        -- intros c Hc Hc'. apply in_map_iff in Hc as (c0 & <- & Hc0).
           apply HB in Hc' as (_ & _ & Hi).
           apply Hx, Hi, in_insert_sorted. left. reflexivity.
      * intros c. rewrite in_app_iff. split.
        -- intros [Hc|Hc].
           ++ apply in_map_iff in Hc as (c0 & <- & Hc0).
              pose proof (HxA c0 Hc0) as Hx0.
              apply HA in Hc0 as (Hl & Hs & Hi).
              split; [rewrite length_insert_sorted; lia|].
              split; [apply increasing_insert_sorted; assumption|].
              intros y Hy. apply in_insert_sorted in Hy as [->|Hy];
                [left; reflexivity|right; apply Hi; exact Hy].
           ++ apply HB in Hc as (Hl & Hs & Hi).
              split; [exact Hl|]. split; [exact Hs|].
              intros y Hy. right. apply Hi. exact Hy.
        -- intros (Hl & Hs & Hi).
           destruct (in_dec Z.eq_dec x c) as [Hin|Hnin].
           ++ left. destruct (increasing_take_out x c Hs Hin)
                as (c0 & -> & Hx0 & Hs0 & Hi0).
              apply in_map. apply HA.
              rewrite length_insert_sorted in Hl.
              split; [lia|]. split; [exact Hs0|].
              intros y Hy.
              destruct (Hi y (proj2 (in_insert_sorted x y c0) (or_intror Hy)))
                as [<-|H]; [contradiction|exact H].
           ++ right. apply HB. split; [exact Hl|]. split; [exact Hs|].
              intros y Hy. destruct (Hi y Hy) as [<-|H];
                [contradiction|exact H].
Qed.

End Combinations.

(** Property X21.  One round of [get_combos] yields every set of
    [minimum] share numbers out of [1 .. share_c] exactly once, each as
    a list that goes up, whatever order the shuffle puts the numbers in:
    no combination is tried twice and none is left out. *)
Theorem get_combos_yields_every_subset_once (share_c minimum : nat)
    (w : world) (combos : list (list Z)) (w' : world) :
  shamir.combos_of_size share_c minimum w = (Ok combos, w') ->
  NoDup combos /\
  forall c, In c combos <->
            length c = minimum /\ increasing c = true /\
            forall i, In i c -> 1 <= i <= Z.of_nat share_c.
Proof.
  intros H. unfold shamir.combos_of_size in H. bind_inv H.
  apply ret_ok in H as [-> _].
  apply shuffle_permutation in Hm.
  set (base := map (fun i => Z.of_nat i + 1) (seq 0 share_c)) in *.
  assert (Hbase : forall i, In i base <-> 1 <= i <= Z.of_nat share_c).
  { intros i. unfold base. rewrite in_map_iff. split.
    - intros (k & <- & Hk). apply in_seq in Hk. lia.
    - intros Hi. exists (Z.to_nat (i - 1)). split; [lia|].
      apply in_seq. lia. }
  assert (Hnd : NoDup a).
  { apply (Permutation_NoDup Hm). unfold base.
    apply NoDup_map_NoDup_ForallPairs; [|apply seq_NoDup].
    intros i j _ _ E. lia. }
  destruct (sorted_combinations a Hnd minimum) as [N Hc].
  split; [exact N|]. intros c. rewrite Hc. split.
  - intros (Hl & Hs & Hi). split; [exact Hl|]. split; [exact Hs|].
    intros i Hin. apply Hbase. apply (Permutation_in _ (Permutation_sym Hm)).
    apply Hi. exact Hin.
  - intros (Hl & Hs & Hi). split; [exact Hl|]. split; [exact Hs|].
    intros i Hin. apply (Permutation_in _ Hm). apply Hbase. apply Hi.
    exact Hin.
Qed.

Lemma get_combos_yields_every_subset_once_witness :
  NoDup [[2; 3]; [1; 3]; [1; 2]] /\
  forall c, In c [[2; 3]; [1; 3]; [1; 2]] <->
            length c = 2%nat /\ increasing c = true /\
            forall i, In i c -> 1 <= i <= Z.of_nat 3.
Proof.
  apply (get_combos_yields_every_subset_once 3 2
           (mkWorld [DPerm [2; 1; 0]%nat] [] 0 [])
           [[2; 3]; [1; 3]; [1; 2]] (mkWorld [] [] 0 [])).
  vm_compute. reflexivity.
Defined.

(** ** The abstract file of a FileMapper *)

Section Blocks.

Context {A : Type}.

Lemma slice_app_left (a b : list A) start stop :
  0 <= start -> stop <= len a ->
  slice (a ++ b) start stop = slice a start stop.
Proof.
  intros Hs Hst. unfold slice, len in *.
  destruct (Z_le_gt_dec start stop) as [H|H].
  - rewrite skipn_app, firstn_app, length_skipn.
    replace (Z.to_nat (stop - start) - (length a - Z.to_nat start))%nat
      with 0%nat by lia.
    cbn [firstn]. apply app_nil_r.
  - replace (Z.to_nat (stop - start)) with 0%nat by lia. reflexivity.
Qed.

Lemma slice_of_slice (f : list A) s l p c :
  0 <= s -> 0 <= p -> 0 <= c -> p + c <= l ->
  slice (slice f s (s + l)) p (p + c) = slice f (s + p) (s + p + c).
Proof.
  intros Hs Hp Hc Hl. unfold slice.
  replace (s + l - s) with l by lia.
  replace (p + c - p) with c by lia.
  replace (s + p + c - (s + p)) with c by lia.
  replace (Z.to_nat l) with (Z.to_nat p + Z.to_nat (l - p))%nat by lia.
  rewrite <- firstn_skipn_comm, skipn_skipn, firstn_firstn.
  replace (Nat.min (Z.to_nat c) (Z.to_nat (l - p))) with (Z.to_nat c) by lia.
  do 2 f_equal. lia.
Qed.

Import filemapper.

Lemma before_len_nonneg (bs : list (list A)) i : 0 <= before (map len bs) i.
Proof.
  unfold before. revert i. induction bs as [|b bs IH]; intros i.
  - destruct i; cbn; lia.
  - destruct i as [|i]; cbn [map firstn fold_right]; [lia|].
    specialize (IH i). unfold len in *. lia.
Qed.

Lemma slice_concat (bs : list (list A)) : forall i b p c,
  nth_error bs i = Some b ->
  0 <= p -> 0 <= c -> p + c <= len b ->
  slice (concat bs) (before (map len bs) i + p)
        (before (map len bs) i + p + c)
  = slice b p (p + c).
Proof.
  induction bs as [|b0 bs IH]; intros i b p c Hb Hp Hc Hl.
  - destruct i; discriminate.
  - destruct i as [|i]; cbn [nth_error] in Hb.
    + injection Hb as ->. unfold before. cbn [firstn fold_right concat].
      rewrite !Z.add_0_l. apply slice_app_left; lia.
    + unfold before in *. cbn [map firstn fold_right concat].
      pose proof (before_len_nonneg bs i) as Hn. unfold before in Hn.
      rewrite slice_app_r by lia.
      replace (len b0 + fold_right Z.add 0 (firstn i (map len bs)) + p - len b0)
        with (fold_right Z.add 0 (firstn i (map len bs)) + p) by lia.
      replace (len b0 + fold_right Z.add 0 (firstn i (map len bs)) + p + c
               - len b0)
        with (fold_right Z.add 0 (firstn i (map len bs)) + p + c) by lia.
      apply IH; assumption.
Qed.

Lemma nth_error_slice (f : list A) a b k :
  0 <= a -> 0 <= k ->
  nth_error (slice f a b) (Z.to_nat k)
  = if k <? b - a then nth_error f (Z.to_nat (a + k)) else None.
Proof.
  intros Ha Hk. unfold slice. rewrite nth_error_firstn, nth_error_skipn.
  replace (Z.to_nat a + Z.to_nat k)%nat with (Z.to_nat (a + k)) by lia.
  destruct (Nat.ltb_spec (Z.to_nat k) (Z.to_nat (b - a)));
    destruct (Z.ltb_spec k (b - a)); try reflexivity; lia.
Qed.

Lemma slice_one (f : list A) a :
  0 <= a ->
  slice f a (a + 1)
  = match nth_error f (Z.to_nat a) with Some x => [x] | None => [] end.
Proof.
  intros Ha. unfold slice. replace (Z.to_nat (a + 1 - a)) with 1%nat by lia.
  rewrite <- hd_error_skipn. destruct (skipn (Z.to_nat a) f); reflexivity.
Qed.

Lemma nth_error_write_at (f : bytes) p d k :
  0 <= p -> p + len d <= len f -> 0 <= k ->
  nth_error (write_at f p d) (Z.to_nat k)
  = if (p <=? k) && (k <? p + len d) then nth_error d (Z.to_nat (k - p))
    else nth_error f (Z.to_nat k).
Proof.
  intros Hp Hfit Hk. pose proof (len_nonneg d) as Hd. unfold write_at.
  destruct (Z.leb_spec p (len f)) as [_|H]; [|lia]. cbv iota.
  assert (Hl1 : length (firstn (Z.to_nat p) f) = Z.to_nat p)
    by (rewrite length_firstn; unfold len in *; lia).
  rewrite nth_error_app, Hl1.
  destruct (Nat.ltb_spec (Z.to_nat k) (Z.to_nat p)) as [H|H].
  - rewrite nth_error_firstn.
    destruct (Nat.ltb_spec (Z.to_nat k) (Z.to_nat p)); [|lia].
    destruct (Z.leb_spec p k); [lia|reflexivity].
  - destruct (Z.leb_spec p k); [|lia]. cbn [andb].
    rewrite nth_error_app.
    replace (Z.to_nat k - Z.to_nat p)%nat with (Z.to_nat (k - p)) by lia.
    unfold len in *.
    destruct (Nat.ltb_spec (Z.to_nat (k - p)) (length d));
      destruct (Z.ltb_spec k (p + Z.of_nat (length d))); try lia;
      [reflexivity|].
    rewrite nth_error_skipn. f_equal. lia.
Qed.

End Blocks.

Section Mapper.

Import filemapper.

Lemma before_succ lens i l :
  nth_error lens i = Some l -> before lens (S i) = before lens i + l.
Proof.
  unfold before. revert i. induction lens as [|x lens IH]; intros i H.
  - destruct i; discriminate.
  - destruct i as [|i]; cbn [nth_error] in H.
    + injection H as ->. cbn. lia.
    + specialize (IH i H).
      change (firstn (S (S i)) (x :: lens)) with (x :: firstn (S i) lens).
      change (firstn (S i) (x :: lens)) with (x :: firstn i lens).
      cbn [fold_right]. lia.
Qed.

Lemma before_all lens i :
  (length lens <= i)%nat -> before lens i = fold_right Z.add 0 lens.
Proof. intros H. unfold before. rewrite firstn_all2 by exact H. reflexivity. Qed.

Lemma before_mono lens i j :
  Forall (fun l => 0 < l) lens -> (i <= j)%nat ->
  before lens i <= before lens j.
Proof.
  intros Hpos. unfold before. revert i j.
  induction Hpos as [|x lens Hx Hpos IH]; intros i j Hij.
  - rewrite !firstn_nil. lia.
  - destruct i as [|i], j as [|j]; cbn [firstn fold_right]; try lia.
    + specialize (IH 0%nat j ltac:(lia)). cbn [firstn fold_right] in IH. lia.
    + specialize (IH i j ltac:(lia)). lia.
Qed.

(** Within a section the position is below the size; at the end of the
    last one it is the size. *)
Lemma before_bound lens i l :
  Forall (fun l => 0 < l) lens -> nth_error lens i = Some l ->
  before lens i + l <= fold_right Z.add 0 lens /\
  (Z.of_nat i = len lens - 1 -> before lens i + l = fold_right Z.add 0 lens).
Proof.
  intros Hpos Hl. rewrite <- (before_succ lens i l Hl).
  assert (Hi : (i < length lens)%nat) by (apply nth_error_Some; congruence).
  split.
  - rewrite <- (before_all lens (length lens)) by lia.
    apply before_mono; [exact Hpos|lia].
  - intros He. apply before_all. unfold len in He. lia.
Qed.

Lemma blocks_len (f : bytes) n : forall (lens sts : list Z),
  length sts = length lens ->
  (forall i s l, nth_error sts i = Some s ->
                 nth_error lens i = Some l -> 0 <= s /\ 0 < l /\ s + l <= n) ->
  len f = n ->
  map (@len byte) (map (fun '(s, l) => slice f s (s + l)) (combine sts lens))
  = lens.
Proof.
  induction lens as [|l ls IH]; intros sts Hlen Hin Hf.
  - destruct sts; [reflexivity|discriminate].
  - destruct sts as [|s ss]; [discriminate|].
    cbn [combine map].
    destruct (Hin 0%nat s l eq_refl eq_refl) as (H0 & H1 & H2).
    rewrite slice_length by lia. f_equal; [lia|].
    apply IH; [cbn in Hlen; lia| |exact Hf].
    intros i s' l' Hs' Hl'. apply (Hin (S i) s' l'); assumption.
Qed.

Lemma abstract_blocks fm (f : bytes) :
  laid_out fm (len f) ->
  map (@len byte) (map (fun '(s, l) => slice f s (s + l))
               (combine (starts fm) (mapper fm)))
  = mapper fm.
Proof.
  intros (Hlen & Hpos & Hin & _).
  apply (blocks_len f (len f)); [exact Hlen| |reflexivity].
  intros i s l Hs Hl. destruct (Hin i s l Hs Hl) as [H0 H1].
  rewrite Forall_forall in Hpos.
  pose proof (Hpos l (nth_error_In _ _ Hl)). lia.
Qed.

Lemma nth_error_block fm (f : bytes) i s l :
  nth_error (starts fm) i = Some s -> nth_error (mapper fm) i = Some l ->
  nth_error (map (fun '(s, l) => slice f s (s + l))
                 (combine (starts fm) (mapper fm))) i
  = Some (slice f s (s + l)).
Proof.
  intros Hs Hl. rewrite nth_error_map.
  assert (E : nth_error (combine (starts fm) (mapper fm)) i = Some (s, l)).
  { revert Hs Hl. generalize (starts fm) (mapper fm). clear.
    induction i as [|i IH]; intros [|x xs] [|y ys] Hs Hl;
      cbn [nth_error combine] in *; try discriminate.
    - congruence.
    - apply IH; assumption. }
  rewrite E. reflexivity.
Qed.

(** A piece of the abstract file that lies in one section is that piece
    of the file. *)
Lemma abstract_slice fm (f : bytes) i s l p c :
  laid_out fm (len f) ->
  nth_error (starts fm) i = Some s -> nth_error (mapper fm) i = Some l ->
  0 <= p -> 0 <= c -> p + c <= l ->
  slice (abstract fm f) (before (mapper fm) i + p)
        (before (mapper fm) i + p + c)
  = slice f (s + p) (s + p + c).
Proof.
  intros Hlaid Hs Hl Hp Hc Hfit.
  pose proof Hlaid as (Hlen & Hpos & Hin & _).
  destruct (Hin i s l Hs Hl) as [H0 H1].
  unfold abstract.
  pose proof (abstract_blocks fm f Hlaid) as E.
  pose proof (nth_error_block fm f i s l Hs Hl) as Hb.
  set (bs := map (fun '(s, l) => slice f s (s + l))
                 (combine (starts fm) (mapper fm))) in *.
  rewrite <- E.
  rewrite (slice_concat bs i (slice f s (s + l)) p c);
    [|exact Hb|lia|lia|rewrite slice_length; lia].
  apply slice_of_slice; lia.
Qed.

Lemma len_abstract fm (f : bytes) :
  laid_out fm (len f) -> len (abstract fm f) = size fm.
Proof.
  intros Hlaid. pose proof Hlaid as (Hlen & Hpos & Hin & Hsize & _).
  unfold abstract. rewrite Hsize.
  pose proof (abstract_blocks fm f Hlaid) as E.
  set (bs := map (fun '(s, l) => slice f s (s + l))
                 (combine (starts fm) (mapper fm))) in *.
  rewrite <- E. clear E. generalize bs. clear bs.
  intros bs. induction bs as [|b bs IH]; [reflexivity|].
  cbn [concat map fold_right]. rewrite len_app, IH. reflexivity.
Qed.

Lemma before_nonneg lens i : Forall (fun l => 0 < l) lens -> 0 <= before lens i.
Proof.
  intros H. pose proof (before_mono lens 0 i H ltac:(lia)) as Hm.
  unfold before in Hm at 1. cbn in Hm. exact Hm.
Qed.

(** One byte of the abstract file is one byte of the file. *)
Lemma nth_error_abstract fm (f : bytes) i s l q :
  laid_out fm (len f) ->
  nth_error (starts fm) i = Some s -> nth_error (mapper fm) i = Some l ->
  0 <= q < l ->
  nth_error (abstract fm f) (Z.to_nat (before (mapper fm) i + q))
  = nth_error f (Z.to_nat (s + q)).
Proof.
  intros Hlaid Hs Hl Hq.
  pose proof Hlaid as (Hlen & Hpos & Hin & _).
  destruct (Hin i s l Hs Hl) as [H0 H1].
  pose proof (before_nonneg (mapper fm) i Hpos) as Hb.
  pose proof (abstract_slice fm f i s l q 1 Hlaid Hs Hl) as E.
  rewrite !slice_one in E by lia.
  assert (Ha : (Z.to_nat (before (mapper fm) i + q)
                < length (abstract fm f))%nat).
  { pose proof (len_abstract fm f Hlaid) as La.
    destruct Hlaid as (_ & _ & _ & Hsize & _).
    destruct (before_bound (mapper fm) i l Hpos Hl) as [Hbb _].
    unfold len in La. lia. }
  assert (Hf : (Z.to_nat (s + q) < length f)%nat)
    by (unfold len in H1; lia).
  apply nth_error_Some in Ha, Hf.
  destruct (nth_error (abstract fm f) _) as [x|]; [|congruence].
  destruct (nth_error f _) as [y|]; [|congruence].
  specialize (E ltac:(lia) ltac:(lia) ltac:(lia)). congruence.
Qed.

(** Every place of the abstract file lies in one section. *)
Lemma locate lens : Forall (fun l => 0 < l) lens ->
  forall k, 0 <= k < fold_right Z.add 0 lens ->
  exists j l q, nth_error lens j = Some l /\ 0 <= q < l /\
                k = before lens j + q.
Proof.
  induction 1 as [|x lens Hx Hpos IH]; intros k Hk; cbn [fold_right] in Hk.
  - lia.
  - destruct (Z_lt_ge_dec k x) as [H|H].
    + exists 0%nat, x, k. unfold before. cbn. repeat split; lia.
    + destruct (IH (k - x) ltac:(lia)) as (j & l & q & Hj & Hq & E).
      exists (S j), l, q. repeat split; try lia; [exact Hj|].
      unfold before in *. cbn [firstn fold_right]. lia.
Qed.

Lemma len_write_at (f : bytes) p d :
  0 <= p -> p + len d <= len f -> len (write_at f p d) = len f.
Proof.
  intros Hp Hfit.
  apply (write_at_framed 0 (len f) ltac:(lia) f p d); lia.
Qed.

Lemma laid_out_len fm n n' : n' = n -> laid_out fm n -> laid_out fm n'.
Proof. intros ->. trivial. Qed.

(** The abstract file after one write inside a section, when no two
    sections overlap. *)
Lemma abstract_after_write fm (f : bytes) i s l p d :
  laid_out fm (len f) -> disjoint fm ->
  nth_error (starts fm) i = Some s -> nth_error (mapper fm) i = Some l ->
  0 <= p -> p + len d <= l ->
  forall k, 0 <= k < size fm ->
  nth_error (abstract fm (write_at f (s + p) d)) (Z.to_nat k)
  = if (before (mapper fm) i + p <=? k)
       && (k <? before (mapper fm) i + p + len d)
    then nth_error d (Z.to_nat (k - (before (mapper fm) i + p)))
    else nth_error (abstract fm f) (Z.to_nat k).
Proof.
  intros Hlaid Hdis Hs Hl Hp Hfit k Hk.
  pose proof Hlaid as (Hlen & Hpos & Hin & Hsize & _).
  pose proof (len_nonneg d) as Hd.
  destruct (Hin i s l Hs Hl) as [H0 H1].
  assert (Hlaid' : laid_out fm (len (write_at f (s + p) d)))
    by (eapply laid_out_len; [apply len_write_at; lia|exact Hlaid]).
  rewrite Hsize in Hk.
  destruct (locate (mapper fm) Hpos k Hk) as (j & lj & q & Hlj & Hq & ->).
  assert (Hsj : exists sj, nth_error (starts fm) j = Some sj).
  { destruct (nth_error (starts fm) j) eqn:E; [eauto|].
    apply nth_error_None in E.
    assert (j < length (mapper fm))%nat by (apply nth_error_Some; congruence).
    lia. }
  destruct Hsj as [sj Hsj].
  destruct (Hin j sj lj Hsj Hlj) as [Hj0 Hj1].
  rewrite (nth_error_abstract fm _ j sj lj q Hlaid' Hsj Hlj Hq).
  rewrite (nth_error_abstract fm f j sj lj q Hlaid Hsj Hlj Hq).
  rewrite nth_error_write_at by lia.
  pose proof (before_succ (mapper fm) i l Hl) as Bi.
  pose proof (before_succ (mapper fm) j lj Hlj) as Bj.
  destruct (Nat.eq_dec j i) as [->|Hne].
  - assert (sj = s) by congruence. assert (lj = l) by congruence. subst.
    destruct (Z.leb_spec (s + p) (s + q));
      destruct (Z.leb_spec (before (mapper fm) i + p)
                           (before (mapper fm) i + q)); try lia;
      cbn [andb]; [|reflexivity].
    destruct (Z.ltb_spec (s + q) (s + p + len d));
      destruct (Z.ltb_spec (before (mapper fm) i + q)
                           (before (mapper fm) i + p + len d)); try lia;
      [|reflexivity].
    do 2 f_equal. lia.
  - assert (Hfile : (s + p <=? sj + q) && (sj + q <? s + p + len d) = false).
    { destruct (Hdis j i sj lj s l Hne Hsj Hlj Hs Hl);
        destruct (Z.leb_spec (s + p) (sj + q));
        destruct (Z.ltb_spec (sj + q) (s + p + len d));
        try reflexivity; lia. }
    assert (Habs : (before (mapper fm) i + p <=? before (mapper fm) j + q)
                   && (before (mapper fm) j + q
                       <? before (mapper fm) i + p + len d) = false).
    { destruct (Nat.lt_ge_cases j i) as [Hc|Hc].
      - pose proof (before_mono (mapper fm) (S j) i Hpos ltac:(lia)).
        destruct (Z.leb_spec (before (mapper fm) i + p)
                             (before (mapper fm) j + q));
          [lia|reflexivity].
      - pose proof (before_mono (mapper fm) (S i) j Hpos ltac:(lia)).
        destruct (Z.ltb_spec (before (mapper fm) j + q)
                             (before (mapper fm) i + p + len d));
          [lia|apply andb_false_r]. }
    rewrite Hfile, Habs. reflexivity.
Qed.

(** The read, write or move of [count] bytes in the section in use. *)
Lemma io_step mode c (data : bytes) w :
  0 <= position w -> 0 <= c -> position w + c <= len (content w) ->
  (mode = ModeWrite -> c <= len data) ->
  exists got w1,
    match mode with
    | ModeRead => src_read c
    | ModeWrite => bind (file_write (bitfun.py_slice data 0 c))
                        (fun _ => ret data)
    | ModeSeek => bind (seek_rel c) (fun _ => ret data)
    end w = (Ok got, w1) /\
    position w1 = position w + c /\ tape w1 = tape w /\
    len (content w1) = len (content w) /\
    match mode with
    | ModeRead => got = slice (content w) (position w) (position w + c) /\
                  frame.read_only w w1
    | ModeWrite => got = data /\
                   content w1
                   = write_at (content w) (position w) (slice data 0 c)
    | ModeSeek => got = data /\ content w1 = content w /\ io w1 = io w
    end.
Proof.
  intros Hp Hc Hfit Hdata. destruct mode.
  - unfold src_read, file_read.
    destruct (Z.ltb_spec c (-1)) as [H|_]; [lia|].
    destruct (Z.eqb_spec c (-1)) as [H|_]; [lia|].
    eexists _, _. split; [reflexivity|]. cbn [position tape content io].
    rewrite slice_length by lia.
    repeat split; try lia.
    eexists. split; [reflexivity|]. repeat constructor.
  - specialize (Hdata eq_refl).
    unfold bind, file_write, ret.
    rewrite py_slice_nonneg by lia.
    assert (Hl : len (slice data 0 c) = c) by (rewrite slice_length; lia).
    eexists _, _. split; [reflexivity|]. cbn [position tape content io].
    rewrite Hl. repeat split.
    apply len_write_at; lia.
  - unfold bind, seek_rel, seek, ret.
    destruct (Z.ltb_spec (position w + c) 0) as [H|_]; [lia|].
    eexists _, _. split; [reflexivity|]. cbn [position tape content io].
    repeat split.
Qed.

Local Abbreviation adjust fm c avail :=
  (if (avail - c =? 0) && (Z.of_nat (section fm) <? max_section fm)
   then bind (update_seek (mkFM (mapper fm) (starts fm) (S (section fm)) 0
                                (pos fm + c) (size fm) (max_section fm)))
             (fun _ => ret (mkFM (mapper fm) (starts fm) (S (section fm)) 0
                                 (pos fm + c) (size fm) (max_section fm)))
   else ret (mkFM (mapper fm) (starts fm) (section fm) (mapper_ptr fm + c)
                  (pos fm + c) (size fm) (max_section fm))).

(** The pointers after [count] bytes: the next section when this one is
    used up and is not the last. *)
Lemma adjust_step fm c w1 n s l :
  laid_out fm n ->
  nth_error (starts fm) (section fm) = Some s ->
  nth_error (mapper fm) (section fm) = Some l ->
  0 <= mapper_ptr fm -> 0 <= c <= l - mapper_ptr fm ->
  pos fm = before (mapper fm) (section fm) + mapper_ptr fm ->
  position w1 = s + mapper_ptr fm + c -> len (content w1) = n ->
  exists fm1 w2,
    adjust fm c (l - mapper_ptr fm) w1 = (Ok fm1, w2) /\
    in_order fm1 n (position w2) /\
    mapper fm1 = mapper fm /\ starts fm1 = starts fm /\
    size fm1 = size fm /\ pos fm1 = pos fm + c /\
    content w2 = content w1 /\ tape w2 = tape w1 /\ io w2 = io w1 /\
    (c = l - mapper_ptr fm -> pos fm1 < size fm ->
     section fm1 = S (section fm)).
Proof.
  intros Hlaid Hs Hl Hptr Hc Hp Hsrc Hn.
  pose proof Hlaid as (Hlen & Hpos & Hin & Hsize & Hmax).
  destruct (before_bound (mapper fm) (section fm) l Hpos Hl) as [Hb1 Hb2].
  assert (Hsec : (section fm < length (mapper fm))%nat)
    by (apply nth_error_Some; congruence).
  destruct ((l - mapper_ptr fm - c =? 0)
            && (Z.of_nat (section fm) <? max_section fm)) eqn:E.
  - apply andb_prop in E as [E1 E2].
    apply Z.eqb_eq in E1. apply Z.ltb_lt in E2.
    assert (Hnext : (S (section fm) < length (mapper fm))%nat)
      by (unfold len in Hmax; lia).
    destruct (nth_error (mapper fm) (S (section fm))) as [l'|] eqn:Hl';
      [|apply nth_error_None in Hl'; lia].
    destruct (nth_error (starts fm) (S (section fm))) as [s'|] eqn:Hs';
      [|apply nth_error_None in Hs'; lia].
    destruct (Hin _ s' l' Hs' Hl') as [H0 H1].
    assert (Hl'pos : 0 < l').
    { rewrite Forall_forall in Hpos. apply Hpos.
      eapply nth_error_In. exact Hl'. }
    unfold update_seek, bind, lift, slots.index, seek, ret.
    cbn [starts section]. rewrite Hs'. cbv beta iota.
    destruct (Z.ltb_spec s' 0) as [H|_]; [lia|].
    eexists _, _. split; [reflexivity|].
    cbn [position tape content io mapper starts size pos section].
    split; [split; [exact Hlaid|]|repeat split].
    exists s', l'. cbn [starts mapper section mapper_ptr pos].
    repeat split; try assumption; try lia.
    rewrite (before_succ _ _ _ Hl). lia.
  - assert (Hend : mapper_ptr fm + c = l ->
                   Z.of_nat (section fm) = max_section fm).
    { intros Hx. apply andb_false_iff in E as [E|E].
      - apply Z.eqb_neq in E. lia.
      - apply Z.ltb_ge in E. unfold len in Hmax. lia. }
    unfold ret. eexists _, _. split; [reflexivity|].
    cbn [position tape content io mapper starts size pos section].
    split; [split; [exact Hlaid|]|].
    + exists s, l. cbn [starts mapper section mapper_ptr pos].
      repeat split; try assumption; try lia.
    + do 7 (split; [reflexivity|]).
      intros Hx Hlt. exfalso.
      specialize (Hend ltac:(lia)). specialize (Hb2 ltac:(lia)). lia.
Qed.

Lemma abstract_same_sections fm fm1 (f : bytes) :
  mapper fm1 = mapper fm -> starts fm1 = starts fm ->
  abstract fm1 f = abstract fm f.
Proof. intros H1 H2. unfold abstract. rewrite H1, H2. reflexivity. Qed.

Lemma outside_same_sections fm fm1 x :
  mapper fm1 = mapper fm -> starts fm1 = starts fm ->
  outside fm x -> outside fm1 x.
Proof. intros H1 H2. unfold outside. rewrite H1, H2. trivial. Qed.

Lemma disjoint_same_sections fm fm1 :
  mapper fm1 = mapper fm -> starts fm1 = starts fm ->
  disjoint fm -> disjoint fm1.
Proof. intros H1 H2. unfold disjoint. rewrite H1, H2. trivial. Qed.

Lemma slice_empty {A} (f : list A) a : slice f a a = [].
Proof. unfold slice. rewrite Z.sub_diag. reflexivity. Qed.

Lemma slice_to_end {A} (f : list A) a b :
  0 <= a <= len f -> slice f a (Z.min b (len f)) = slice f a b.
Proof.
  intros Ha. destruct (Z_le_gt_dec b (len f)) as [H|H].
  - rewrite Z.min_l by lia. reflexivity.
  - rewrite Z.min_r by lia. unfold slice, len in *.
    rewrite !firstn_all2; [reflexivity| |]; rewrite length_skipn; lia.
Qed.

Lemma len_slice_0 {A} (f : list A) b :
  0 <= b -> len (slice f 0 b) = Z.min b (len f).
Proof. intros Hb. rewrite slice_0, len_firstn. lia. Qed.

(** What [_rw] does to an object in order, for [request] bytes: it goes
    over the bytes that are left, at most [request] of them, and ends in
    order. *)
Lemma rw_ok : forall fuel fm request mode (data : bytes) w,
  in_order fm (len (content w)) (position w) -> 0 <= request ->
  (mode = ModeWrite -> len data = request) ->
  (0 < fuel)%nat ->
  (pos fm < size fm -> (length (mapper fm) - section fm < fuel)%nat) ->
  exists res fm' w',
    _rw fuel fm request mode data w = (Ok (res, fm'), w') /\
    in_order fm' (len (content w')) (position w') /\
    mapper fm' = mapper fm /\ starts fm' = starts fm /\
    pos fm' = pos fm + Z.min request (size fm - pos fm) /\
    tape w' = tape w /\ len (content w') = len (content w) /\
    match mode with
    | ModeRead =>
        res = Some (slice (abstract fm (content w)) (pos fm)
                          (pos fm + Z.min request (size fm - pos fm))) /\
        frame.read_only w w'
    | ModeWrite =>
        res = None /\
        (forall x, 0 <= x -> outside fm x ->
           nth_error (content w') (Z.to_nat x)
           = nth_error (content w) (Z.to_nat x)) /\
        (disjoint fm -> forall k, 0 <= k < size fm ->
           nth_error (abstract fm (content w')) (Z.to_nat k)
           = if (pos fm <=? k)
                && (k <? pos fm + Z.min request (size fm - pos fm))
             then nth_error data (Z.to_nat (k - pos fm))
             else nth_error (abstract fm (content w)) (Z.to_nat k))
    | ModeSeek => res = None /\ content w' = content w /\ io w' = io w
    end.
Proof.
  induction fuel as [|fuel IH];
    intros fm request mode data w Hord Hreq Hdata Hf0 Hfuel; [lia|].
  pose proof Hord as (Hlaid & s & l & Hs & Hl & Hptr & Hlast & Hp & Hsrc).
  pose proof Hlaid as (Hlen & Hpos & Hin & Hsize & Hmax).
  destruct (before_bound (mapper fm) (section fm) l Hpos Hl) as [Hb1 Hb2].
  pose proof (before_nonneg (mapper fm) (section fm) Hpos) as Hb0.
  destruct (Hin _ s l Hs Hl) as [Hs0 Hs1].
  assert (Hsec : (section fm < length (mapper fm))%nat)
    by (apply nth_error_Some; congruence).
  cbn [_rw]. rewrite Z.geb_leb.
  destruct (Z.leb_spec (size fm) (pos fm)) as [Eend|Eend].
  - replace (Z.min request (size fm - pos fm)) with 0 by lia.
    rewrite Z.add_0_r.
    exists (match mode with ModeRead => Some [] | _ => None end), fm, w.
    split; [reflexivity|]. split; [exact Hord|].
    do 5 (split; [reflexivity || lia|]).
    destruct mode.
    + split; [rewrite slice_empty; reflexivity|apply read_only_refl].
    + split; [reflexivity|]. split; [reflexivity|].
      intros _ k Hk.
      destruct (Z.leb_spec (pos fm) k); destruct (Z.ltb_spec k (pos fm));
        try reflexivity; lia.
    + repeat split.
  - assert (Hlt : mapper_ptr fm < l).
    { destruct (Z.eq_dec (mapper_ptr fm) l) as [e|e]; [|lia].
      specialize (Hlast e). specialize (Hb2 ltac:(lia)). lia. }
    specialize (Hfuel Eend).
    unfold bind at 1, lift, slots.index. rewrite Hl. cbv beta iota zeta.
    assert (Ec : (if l - mapper_ptr fm >=? request then request
                  else l - mapper_ptr fm)
                 = Z.min request (l - mapper_ptr fm)).
    { rewrite Z.geb_leb.
      destruct (Z.leb_spec request (l - mapper_ptr fm)); lia. }
    rewrite !Ec. clear Ec.
    set (c := Z.min request (l - mapper_ptr fm)).
    assert (Hc : 0 <= c <= l - mapper_ptr fm /\ c <= request) by lia.
    destruct (io_step mode c data w) as
      (got & w1 & Hio & Hp1 & Ht1 & Hn1 & Hm1); try lia.
    { intros E. specialize (Hdata E). lia. }
    rewrite (bind_ok_intro _ _ _ _ _ Hio).
    destruct (adjust_step fm c w1 (len (content w)) s l Hlaid Hs Hl) as
      (fm1 & w2 & Hadj & Hord1 & Hmap1 & Hst1 & Hsz1 & Hpos1 & Hc2 & Ht2
       & Hio2 & Hadv); try lia.
    rewrite (bind_ok_intro _ _ _ _ _ Hadj).
    assert (Hn2 : len (content w2) = len (content w)) by congruence.
    rewrite <- Hn2 in Hord1.
    assert (Hr : mode = ModeRead ->
                 got = slice (abstract fm (content w)) (pos fm) (pos fm + c)
                 /\ frame.read_only w w2).
    { intros ->. destruct Hm1 as [-> (Hcc & evs & Hev & Hfa)]. split.
      - rewrite Hp, Hsrc.
        symmetry. apply (abstract_slice fm (content w) _ s l); auto; lia.
      - split; [congruence|]. exists evs. split; [congruence|exact Hfa]. }
    assert (Hwo : mode = ModeWrite -> forall x, 0 <= x -> outside fm x ->
                  nth_error (content w2) (Z.to_nat x)
                  = nth_error (content w) (Z.to_nat x)).
    { intros ->. destruct Hm1 as [_ Hcw]. intros x Hx Hout.
      specialize (Hdata eq_refl).
      rewrite Hc2, Hcw, Hsrc.
      assert (Hld : len (slice data 0 c) = c) by (rewrite slice_length; lia).
      rewrite nth_error_write_at by lia. rewrite Hld.
      destruct (Hout _ s l Hs Hl);
        destruct (Z.leb_spec (s + mapper_ptr fm) x);
        destruct (Z.ltb_spec x (s + mapper_ptr fm + c));
        try reflexivity; lia. }
    assert (Hwa : mode = ModeWrite -> disjoint fm ->
                  forall k, 0 <= k < size fm ->
                  nth_error (abstract fm (content w2)) (Z.to_nat k)
                  = if (pos fm <=? k) && (k <? pos fm + c)
                    then nth_error data (Z.to_nat (k - pos fm))
                    else nth_error (abstract fm (content w)) (Z.to_nat k)).
    { intros ->. destruct Hm1 as [_ Hcw]. intros Hdis k Hk.
      specialize (Hdata eq_refl).
      assert (Hld : len (slice data 0 c) = c) by (rewrite slice_length; lia).
      rewrite Hc2, Hcw, Hsrc.
      rewrite (abstract_after_write fm (content w) _ s l (mapper_ptr fm)
                 (slice data 0 c) Hlaid Hdis Hs Hl) by lia.
      rewrite Hld, <- Hp.
      destruct (Z.leb_spec (pos fm) k); [|reflexivity].
      destruct (Z.ltb_spec k (pos fm + c)); [|reflexivity].
      cbn [andb]. rewrite nth_error_slice by lia.
      destruct (Z.ltb_spec (k - pos fm) (c - 0)); [|lia].
      reflexivity. }
    assert (Hsk : mode = ModeSeek -> content w2 = content w /\ io w2 = io w).
    { intros ->. destruct Hm1 as (_ & Hcc & Hii). split; congruence. }
    assert (Hgot : mode = ModeWrite -> got = data)
      by (intros ->; apply Hm1).
    clear Hm1 Hio Hadj.
    rewrite Z.gtb_ltb.
    destruct (Z.ltb_spec c request) as [Hmore|Hdone].
    + assert (Ecl : c = l - mapper_ptr fm) by lia.
      assert (HM : Z.min request (size fm - pos fm)
                   = c + Z.min (request - c) (size fm1 - pos fm1)) by lia.
      assert (Hfuel1 : (0 < fuel)%nat) by lia.
      assert (Hfuel2 : pos fm1 < size fm1 ->
                       (length (mapper fm1) - section fm1 < fuel)%nat).
      { intros Hx. rewrite Hsz1 in Hx. rewrite (Hadv Ecl Hx), Hmap1. lia. }
      destruct mode.
      * destruct (IH fm1 (request - c) ModeRead data w2 Hord1 ltac:(lia)
                    ltac:(discriminate) Hfuel1 Hfuel2)
          as (res' & fm' & w' & Hrun & Hord' & Hmap' & Hst' & Hpos' & Ht'
              & Hn' & -> & Hro').
        remember (Z.min (request - c) (size fm1 - pos fm1)) as M1 eqn:EM1.
        rewrite (bind_ok_intro _ _ _ _ _ Hrun). cbn [fst snd]. unfold ret.
        eexists _, _, _. split; [reflexivity|].
        split; [exact Hord'|].
        split; [congruence|]. split; [congruence|].
        split; [lia|].
        split; [congruence|]. split; [congruence|].
        destruct (Hr eq_refl) as [-> Hro]. split.
        -- f_equal. rewrite HM.
           rewrite (abstract_same_sections fm fm1 _ Hmap1 Hst1).
           destruct Hro as [-> _]. rewrite Hpos1, Z.add_assoc.
           symmetry. apply slice_split; lia.
        -- eapply read_only_trans; eassumption.
      * specialize (Hdata eq_refl). rewrite (Hgot eq_refl).
        rewrite py_slice_nonneg by lia.
        assert (Hld : len (slice data c (len data)) = request - c)
          by (rewrite slice_length; lia).
        destruct (IH fm1 (request - c) ModeWrite (slice data c (len data)) w2
                    Hord1 ltac:(lia) (fun _ => Hld) Hfuel1 Hfuel2)
          as (res' & fm' & w' & Hrun & Hord' & Hmap' & Hst' & Hpos' & Ht'
              & Hn' & -> & Hout' & Habs').
        remember (Z.min (request - c) (size fm1 - pos fm1)) as M1 eqn:EM1.
        exists None, fm', w'. split; [exact Hrun|].
        split; [exact Hord'|].
        split; [congruence|]. split; [congruence|].
        split; [lia|].
        split; [congruence|]. split; [congruence|].
        split; [reflexivity|]. split.
        -- intros x Hx Hout.
           rewrite (Hout' x Hx (outside_same_sections _ _ _ Hmap1 Hst1 Hout)).
           apply Hwo; auto.
        -- intros Hdis k Hk.
           pose proof (Habs' (disjoint_same_sections _ _ Hmap1 Hst1 Hdis) k
                             ltac:(lia)) as E.
           rewrite !(abstract_same_sections fm fm1 _ Hmap1 Hst1) in E.
           rewrite E, (Hwa eq_refl Hdis k Hk), Hpos1, HM.
           destruct (Z.leb_spec (pos fm + c) k);
             destruct (Z.ltb_spec k (pos fm + c + M1));
             destruct (Z.leb_spec (pos fm) k);
             destruct (Z.ltb_spec k (pos fm + c));
             destruct (Z.ltb_spec k (pos fm + (c + M1)));
             try lia; cbn [andb]; try reflexivity.
           rewrite nth_error_slice by lia.
           destruct (Z.ltb_spec (k - (pos fm + c)) (len data - c)); [|lia].
           f_equal. lia.
      * destruct (IH fm1 (request - c) ModeSeek data w2 Hord1 ltac:(lia)
                    ltac:(discriminate) Hfuel1 Hfuel2)
          as (res' & fm' & w' & Hrun & Hord' & Hmap' & Hst' & Hpos' & Ht'
              & Hn' & -> & Hcc' & Hio').
        exists None, fm', w'. split; [exact Hrun|].
        split; [exact Hord'|].
        split; [congruence|]. split; [congruence|].
        split; [lia|].
        split; [congruence|]. split; [congruence|].
        destruct (Hsk eq_refl) as [Hcc Hii].
        split; [reflexivity|]. split; congruence.
    + assert (HM : Z.min request (size fm - pos fm) = c) by lia.
      rewrite HM.
      exists (match mode with ModeRead => Some got | _ => None end), fm1, w2.
      split; [reflexivity|]. split; [exact Hord1|].
      do 4 (split; [congruence|]). split; [exact Hn2|].
      destruct mode.
      * destruct (Hr eq_refl) as [-> Hro]. split; [reflexivity|exact Hro].
      * split; [reflexivity|]. split; [apply Hwo; reflexivity|].
        apply Hwa. reflexivity.
      * split; [reflexivity|]. apply Hsk. reflexivity.
Qed.

Lemma size_nonneg fm n : laid_out fm n -> 0 <= size fm.
Proof.
  intros (_ & Hpos & _ & Hsize & _). rewrite Hsize.
  rewrite <- (before_all (mapper fm) (length (mapper fm))) by lia.
  apply before_nonneg. exact Hpos.
Qed.

Lemma in_order_pos fm n p : in_order fm n p -> 0 <= pos fm <= size fm.
Proof.
  intros ((Hlen & Hpos & Hin & Hsize & Hmax) & s & l & Hs & Hl & Hptr & _
          & Hp & _).
  destruct (before_bound (mapper fm) (section fm) l Hpos Hl) as [Hb1 _].
  pose proof (before_nonneg (mapper fm) (section fm) Hpos). lia.
Qed.

(** *** The constructor *)

Lemma scan_maps_ok maps :
  (forall a b, In (a, b) maps -> a < b) ->
  scan_maps maps = Ok (map (fun '(a, b) => b - a) maps, map fst maps).
Proof.
  induction maps as [|[a b] maps IH]; intros H; [reflexivity|].
  cbn [scan_maps map fst]. rewrite Z.gtb_ltb.
  destruct (Z.ltb_spec a b) as [_|Hx];
    [|specialize (H a b (or_introl eq_refl)); lia].
  cbn [negb]. rewrite IH by (intros; apply H; right; assumption).
  reflexivity.
Qed.

Lemma scan_maps_assert maps a b :
  In (a, b) maps -> b <= a -> scan_maps maps = Raise AssertionError.
Proof.
  induction maps as [|[a' b'] maps IH]; intros Hin Hba; [destruct Hin|].
  cbn [scan_maps]. rewrite Z.gtb_ltb.
  destruct (Z.ltb_spec a' b') as [Hlt|_]; [|reflexivity].
  cbn [negb]. destruct Hin as [E|Hin]; [injection E as -> ->; lia|].
  rewrite (IH Hin Hba). reflexivity.
Qed.

Lemma abstract_of_maps maps (f : bytes) sec ptr p sz mx :
  abstract (mkFM (map (fun '(a, b) => b - a) maps) (map fst maps)
                 sec ptr p sz mx) f
  = concat (map (fun '(a, b) => slice f a b) maps).
Proof.
  unfold abstract. cbn [starts mapper]. f_equal.
  induction maps as [|[a b] maps IH]; [reflexivity|].
  cbn [map fst combine]. rewrite IH.
  replace (a + (b - a)) with b by lia. reflexivity.
Qed.

Lemma new_ok maps w :
  maps <> [] ->
  (forall a b, In (a, b) maps -> 0 <= a /\ a < b /\ b <= len (content w)) ->
  exists fm w',
    FileMapper_new maps w = (Ok fm, w') /\
    in_order fm (len (content w')) (position w') /\
    pos fm = 0 /\
    mapper fm = map (fun '(a, b) => b - a) maps /\
    starts fm = map fst maps /\
    tape w' = tape w /\ content w' = content w /\ io w' = io w.
Proof.
  intros Hne Hmaps.
  unfold FileMapper_new, bind, seek, lift.
  destruct (Z.ltb_spec 0 0) as [H|_]; [lia|].
  rewrite scan_maps_ok by (intros a b Hab; apply (Hmaps a b Hab)).
  cbn [fst snd].
  destruct maps as [|[a0 b0] rest] eqn:Em; [congruence|]. rewrite <- Em in *.
  assert (H0 : nth_error (map fst maps) 0 = Some a0) by (rewrite Em; reflexivity).
  assert (H0' : nth_error (map (fun '(a, b) => b - a) maps) 0
                = Some (b0 - a0)) by (rewrite Em; reflexivity).
  destruct (Hmaps a0 b0) as (Ha & Hab & Hb); [rewrite Em; left; reflexivity|].
  unfold update_seek, bind, lift, slots.index, seek, ret.
  cbn [starts section]. rewrite H0. cbv beta iota.
  destruct (Z.ltb_spec a0 0) as [H|_]; [lia|].
  eexists _, _. split; [reflexivity|].
  cbn [position tape content io pos mapper starts].
  split; [|repeat split].
  split.
  - unfold laid_out. cbn [starts mapper size max_section].
    split; [rewrite !length_map; reflexivity|].
    split.
    { apply Forall_forall. intros l Hl. apply in_map_iff in Hl.
      destruct Hl as ([a b] & <- & Hin). specialize (Hmaps a b Hin). lia. }
    split; [|split; reflexivity].
    intros i s l Hs Hl. rewrite nth_error_map in Hs, Hl.
    destruct (nth_error maps i) as [[a b]|] eqn:E; [|discriminate].
    cbn in Hs, Hl. injection Hs as <-. injection Hl as <-.
    specialize (Hmaps a b (nth_error_In _ _ E)). lia.
  - exists a0, (b0 - a0). cbn [starts mapper section mapper_ptr pos].
    repeat split; try assumption; try lia.
Qed.

End Mapper.

(** *** Reading, writing and seeking *)

Section MapperCalls.

Context {ext : Externals}.
Import filemapper.

Lemma read_ok fm count w :
  in_order fm (len (content w)) (position w) -> 0 <= count ->
  (length (mapper fm) < recursion_depth)%nat ->
  exists fm' w',
    read fm count w
    = (Ok (slice (abstract fm (content w)) (pos fm) (pos fm + count), fm'),
       w') /\
    in_order fm' (len (content w')) (position w') /\
    mapper fm' = mapper fm /\ starts fm' = starts fm /\
    pos fm' = Z.min (pos fm + count) (size fm) /\
    tape w' = tape w /\ frame.read_only w w'.
Proof.
  intros Hord Hcount Hdepth.
  destruct (rw_ok recursion_depth fm count ModeRead [] w Hord Hcount
              ltac:(discriminate) ltac:(lia) ltac:(lia))
    as (res & fm' & w' & Hrun & Hord' & Hmap & Hst & Hpos & Ht & Hn & ->
        & Hro).
  pose proof (in_order_pos _ _ _ Hord) as Hp.
  destruct Hord as [Hlaid _].
  exists fm', w'. unfold read.
  rewrite (bind_ok_intro _ _ _ _ _ Hrun). cbn [fst snd]. unfold ret.
  split.
  - do 3 f_equal.
    replace (pos fm + Z.min count (size fm - pos fm))
      with (Z.min (pos fm + count) (len (abstract fm (content w))))
      by (rewrite (len_abstract fm _ Hlaid); lia).
    apply slice_to_end. rewrite (len_abstract fm _ Hlaid). lia.
  - split; [exact Hord'|]. split; [exact Hmap|]. split; [exact Hst|].
    split; [lia|]. split; [exact Ht|exact Hro].
Qed.

Lemma write_ok fm (data : bytes) w :
  in_order fm (len (content w)) (position w) ->
  (length (mapper fm) < recursion_depth)%nat ->
  exists fm' w',
    write fm data w = (Ok fm', w') /\
    in_order fm' (len (content w')) (position w') /\
    mapper fm' = mapper fm /\ starts fm' = starts fm /\
    pos fm' = Z.min (pos fm + len data) (size fm) /\
    tape w' = tape w /\ len (content w') = len (content w) /\
    (forall x, 0 <= x -> outside fm x ->
       nth_error (content w') (Z.to_nat x)
       = nth_error (content w) (Z.to_nat x)) /\
    (disjoint fm ->
     abstract fm (content w')
     = write_at (abstract fm (content w)) (pos fm)
                (slice data 0 (size fm - pos fm))).
Proof.
  intros Hord Hdepth.
  pose proof (len_nonneg data) as Hd.
  destruct (rw_ok recursion_depth fm (len data) ModeWrite data w Hord Hd
              (fun _ => eq_refl) ltac:(lia) ltac:(lia))
    as (res & fm' & w' & Hrun & Hord' & Hmap & Hst & Hpos & Ht & Hn & ->
        & Hout & Habs).
  pose proof (in_order_pos _ _ _ Hord) as Hp.
  destruct Hord as [Hlaid _].
  exists fm', w'. unfold write.
  rewrite (bind_ok_intro _ _ _ _ _ Hrun). cbn [fst snd]. unfold ret.
  split; [reflexivity|].
  split; [exact Hord'|]. split; [exact Hmap|]. split; [exact Hst|].
  split; [lia|]. split; [exact Ht|]. split; [exact Hn|].
  split; [exact Hout|].
  intros Hdis.
  assert (Hlaid' : laid_out fm (len (content w')))
    by (eapply laid_out_len; [exact Hn|exact Hlaid]).
  pose proof (len_abstract fm _ Hlaid) as La.
  pose proof (len_abstract fm _ Hlaid') as La'.
  assert (Hld : len (slice data 0 (size fm - pos fm))
                = Z.min (size fm - pos fm) (len data))
    by (apply len_slice_0; lia).
  apply nth_error_ext. intros n.
  destruct (Nat.lt_ge_cases n (Z.to_nat (size fm))) as [Hin|Hbeyond].
  - specialize (Habs Hdis (Z.of_nat n) ltac:(lia)).
    rewrite Nat2Z.id in Habs. rewrite Habs.
    pose proof (nth_error_write_at (abstract fm (content w)) (pos fm)
                  (slice data 0 (size fm - pos fm)) (Z.of_nat n)
                  ltac:(lia) ltac:(lia) ltac:(lia)) as E.
    rewrite Nat2Z.id in E. rewrite E, Hld.
    destruct (Z.leb_spec (pos fm) (Z.of_nat n)); [|reflexivity].
    destruct (Z.ltb_spec (Z.of_nat n)
                (pos fm + Z.min (len data) (size fm - pos fm)));
      destruct (Z.ltb_spec (Z.of_nat n)
                  (pos fm + Z.min (size fm - pos fm) (len data)));
      try lia; cbn [andb]; [|reflexivity].
    rewrite nth_error_slice by lia.
    destruct (Z.ltb_spec (Z.of_nat n - pos fm) (size fm - pos fm - 0));
      [|lia].
    reflexivity.
  - transitivity (@None byte); [|symmetry]; apply nth_error_None.
    + unfold len in La'. lia.
    + pose proof (len_write_at (abstract fm (content w)) (pos fm)
                    (slice data 0 (size fm - pos fm))
                    ltac:(lia) ltac:(lia)) as Lw.
      unfold len in Lw, La. lia.
Qed.

Lemma seek_from_start_ok fm count w :
  laid_out fm (len (content w)) -> mapper fm <> [] ->
  (length (mapper fm) < recursion_depth)%nat ->
  exists fm' w',
    seek_from_start fm count w = (Ok fm', w') /\
    in_order fm' (len (content w')) (position w') /\
    mapper fm' = mapper fm /\ starts fm' = starts fm /\
    pos fm' = clamp count (size fm) /\
    tape w' = tape w /\ content w' = content w /\ io w' = io w.
Proof.
  intros Hlaid Hne Hdepth.
  pose proof Hlaid as (Hlen & Hpos & Hin & Hsize & Hmax).
  pose proof (size_nonneg fm _ Hlaid) as Hsz.
  destruct (mapper fm) as [|l0 ls] eqn:Em; [congruence|]. rewrite <- Em in *.
  destruct (starts fm) as [|s0 ss] eqn:Es;
    [rewrite Em in Hlen; discriminate|]. rewrite <- Es in *.
  assert (Hs : nth_error (starts fm) 0 = Some s0) by (rewrite Es; reflexivity).
  assert (Hl : nth_error (mapper fm) 0 = Some l0) by (rewrite Em; reflexivity).
  destruct (Hin 0%nat s0 l0 Hs Hl) as [Hs0 Hs1].
  assert (Hl0 : 0 < l0).
  { rewrite Forall_forall in Hpos. apply Hpos. rewrite Em. left. reflexivity. }
  set (fm0 := mkFM (mapper fm) (starts fm) 0 0 0 (size fm) (max_section fm)).
  set (w0 := mkWorld (tape w) (content w) s0 (io w)).
  assert (Hseek : update_seek fm0 w = (Ok tt, w0)).
  { unfold update_seek, bind, lift, slots.index, seek. cbn [starts section fm0].
    rewrite Hs. cbv beta iota.
    destruct (Z.ltb_spec s0 0) as [H|_]; [lia|]. reflexivity. }
  assert (Hord0 : in_order fm0 (len (content w0)) (position w0)).
  { split; [exact Hlaid|]. exists s0, l0.
    cbn [fm0 w0 starts mapper section mapper_ptr pos position].
    repeat split; try assumption; try lia. }
  destruct (rw_ok recursion_depth fm0 (if count <? 0 then 0 else count)
              ModeSeek [] w0 Hord0)
    as (res & fm' & w' & Hrun & Hord' & Hmap & Hst & Hp' & Ht & Hn & ->
        & Hcc & Hii).
  { destruct (Z.ltb_spec count 0); lia. }
  { discriminate. }
  { lia. }
  { cbn [fm0 mapper section]. lia. }
  exists fm', w'. unfold seek_from_start. fold fm0.
  rewrite (bind_ok_intro _ _ _ _ _ Hseek).
  rewrite (bind_ok_intro _ _ _ _ _ Hrun). cbn [snd]. unfold ret.
  split; [reflexivity|]. split; [exact Hord'|].
  split; [exact Hmap|]. split; [exact Hst|].
  split.
  { rewrite Hp'. cbn [fm0 pos size]. unfold clamp.
    destruct (Z.ltb_spec count 0); lia. }
  split; [exact Ht|]. split; [exact Hcc|exact Hii].
Qed.

Lemma seek_ok fm count ref w :
  in_order fm (len (content w)) (position w) ->
  (length (mapper fm) < recursion_depth)%nat ->
  exists fm' w',
    seek_to fm count ref w = (Ok fm', w') /\
    in_order fm' (len (content w')) (position w') /\
    mapper fm' = mapper fm /\ starts fm' = starts fm /\
    pos fm' = clamp (seek_target fm count ref) (size fm) /\
    tape w' = tape w /\ content w' = content w /\ io w' = io w.
Proof.
  intros Hord Hdepth.
  pose proof (in_order_pos _ _ _ Hord) as Hp.
  pose proof Hord as (Hlaid & s & l & Hs & Hl & Hptr & Hlast & Hpp & Hsrc).
  assert (Hne : mapper fm <> []).
  { intros E. rewrite E in Hl. destruct (section fm); discriminate. }
  pose proof (fun c => seek_from_start_ok fm c w Hlaid Hne Hdepth) as Hstart.
  assert (Hstay : exists fm' w',
            ret fm w = (Ok fm', w') /\
            in_order fm' (len (content w')) (position w') /\
            mapper fm' = mapper fm /\ starts fm' = starts fm /\
            pos fm' = clamp (pos fm) (size fm) /\
            tape w' = tape w /\ content w' = content w /\ io w' = io w).
  { exists fm, w. split; [reflexivity|]. split; [exact Hord|].
    do 2 (split; [reflexivity|]). split; [unfold clamp; lia|].
    repeat split. }
  assert (Hrel : 0 <= count -> exists fm' w',
            bind (_rw recursion_depth fm count ModeSeek [])
                 (fun r => ret (snd r)) w = (Ok fm', w') /\
            in_order fm' (len (content w')) (position w') /\
            mapper fm' = mapper fm /\ starts fm' = starts fm /\
            pos fm' = clamp (pos fm + count) (size fm) /\
            tape w' = tape w /\ content w' = content w /\ io w' = io w).
  { intros Hc.
    destruct (rw_ok recursion_depth fm count ModeSeek [] w Hord Hc
                ltac:(discriminate) ltac:(lia) ltac:(lia))
      as (res & fm' & w' & Hrun & Hord' & Hmap & Hst & Hp' & Ht & Hn & ->
          & Hcc & Hii).
    exists fm', w'. rewrite (bind_ok_intro _ _ _ _ _ Hrun). cbn [snd].
    split; [reflexivity|]. split; [exact Hord'|].
    split; [exact Hmap|]. split; [exact Hst|].
    split; [unfold clamp; lia|].
    split; [exact Ht|]. split; [exact Hcc|exact Hii]. }
  assert (Hback : count < 0 -> - count < mapper_ptr fm -> exists fm' w',
            bind (seek_rel count)
                 (fun _ => ret (mkFM (mapper fm) (starts fm) (section fm)
                                     (mapper_ptr fm + count) (pos fm + count)
                                     (size fm) (max_section fm))) w
            = (Ok fm', w') /\
            in_order fm' (len (content w')) (position w') /\
            mapper fm' = mapper fm /\ starts fm' = starts fm /\
            pos fm' = clamp (pos fm + count) (size fm) /\
            tape w' = tape w /\ content w' = content w /\ io w' = io w).
  { intros Hneg Hin.
    pose proof Hlaid as (Hlen & Hpos & Hsec & Hsize & Hmax).
    destruct (Hsec _ s l Hs Hl) as [Hs0 Hs1].
    pose proof (before_nonneg (mapper fm) (section fm) Hpos) as Hb0.
    unfold bind, seek_rel, seek, ret.
    destruct (Z.ltb_spec (position w + count) 0) as [H|_]; [lia|].
    eexists _, _. split; [reflexivity|].
    cbn [position tape content io mapper starts pos].
    split.
    { split; [exact Hlaid|]. exists s, l.
      cbn [starts mapper section mapper_ptr pos].
      repeat split; try assumption; try lia. }
    do 2 (split; [reflexivity|]). split; [unfold clamp; lia|].
    repeat split. }
  unfold seek_to, seek_target.
  destruct ref as [r|].
  - destruct (Z.eqb_spec r 0); [apply Hstart|].
    destruct (Z.eqb_spec r 1).
    + destruct (Z.ltb_spec count 0).
      * rewrite Z.gtb_ltb.
        destruct (Z.ltb_spec (- count) (mapper_ptr fm));
          [apply Hback; assumption|apply Hstart].
      * apply Hrel. assumption.
    + destruct (Z.eqb_spec r 2); [apply Hstart|apply Hstay].
  - destruct (Z.ltb_spec count 0); cbn [Z.eqb]; apply Hstart.
Qed.

End MapperCalls.

Section MapperCompose.

Context {ext : Externals}.
Import filemapper.

Lemma in_order_size fm fm1 n n1 p p1 :
  in_order fm n p -> in_order fm1 n1 p1 -> mapper fm1 = mapper fm ->
  size fm1 = size fm.
Proof.
  intros ((_ & _ & _ & H & _) & _) ((_ & _ & _ & H1 & _) & _) E.
  rewrite H, H1, E. reflexivity.
Qed.

Lemma slice_beyond {A} (f : list A) a b : len f <= a -> slice f a b = [].
Proof.
  intros H. unfold slice, len in *. rewrite skipn_all2 by lia.
  apply firstn_nil.
Qed.

Lemma slice_whole {A} (f : list A) b : len f <= b -> slice f 0 b = f.
Proof.
  intros H. rewrite slice_0. apply firstn_all2. unfold len in H. lia.
Qed.

End MapperCompose.

(** *** The example object *)

Section MapperExample.

Import filemapper mapper_fixtures.

Lemma fm_two_laid_out : laid_out fm_two 30.
Proof.
  unfold laid_out, fm_two. cbn [starts mapper size max_section].
  split; [reflexivity|]. split; [repeat constructor|].
  split; [|split; reflexivity].
  intros [|[|i]] s l Hs Hl; cbn in Hs, Hl.
  - injection Hs as <-. injection Hl as <-. lia.
  - injection Hs as <-. injection Hl as <-. lia.
  - destruct i; discriminate.
Qed.

Lemma fm_two_in_order :
  in_order fm_two (len (content world_two)) (position world_two).
Proof.
  split; [exact fm_two_laid_out|]. exists 10, 5.
  cbn. repeat split; try reflexivity; try lia; discriminate.
Qed.

Lemma fm_two_at_3_in_order :
  in_order fm_two_at_3 (len (content world_two_at_3))
           (position world_two_at_3).
Proof.
  split; [exact fm_two_laid_out|]. exists 10, 5.
  cbn. repeat split; try reflexivity; try lia; discriminate.
Qed.

Lemma fm_two_disjoint : disjoint fm_two.
Proof.
  intros i j si li sj lj Hne Hsi Hli Hsj Hlj.
  destruct i as [|[|i]], j as [|[|j]]; cbn in Hsi, Hli, Hsj, Hlj;
    try congruence;
    try (destruct i; discriminate); try (destruct j; discriminate);
    injection Hsi as <-; injection Hli as <-;
    injection Hsj as <-; injection Hlj as <-; lia.
Qed.

End MapperExample.

(** Property X22.  [FileMapper(name, *maps)] over maps that lie within
    the file, each with its end after its start, makes an object in
    order at position 0 whose size is the sum of the lengths and whose
    abstract file is the mapped pieces of the file one after the other;
    the file is not read or written. *)
Theorem FileMapper_new_maps_the_sections (maps : list (Z * Z)) (w : world) :
  maps <> [] ->
  (forall a b, In (a, b) maps -> 0 <= a /\ a < b /\ b <= len (content w)) ->
  exists fm w',
    filemapper.FileMapper_new maps w = (Ok fm, w') /\
    filemapper.tell fm = 0 /\
    filemapper.size fm = fold_right Z.add 0 (map (fun '(a, b) => b - a) maps) /\
    filemapper.abstract fm (content w')
    = concat (map (fun '(a, b) => slice (content w) a b) maps) /\
    filemapper.in_order fm (len (content w')) (position w') /\
    content w' = content w /\ io w' = io w.
Proof.
  intros Hne Hmaps.
  destruct (new_ok maps w Hne Hmaps)
    as (fm & w' & Hrun & Hord & Hpos & Hmap & Hst & Ht & Hc & Hio).
  exists fm, w'. split; [exact Hrun|]. split; [exact Hpos|].
  split; [destruct Hord as ((_ & _ & _ & -> & _) & _); rewrite Hmap;
          reflexivity|].
  split.
  { rewrite Hc. destruct fm as [m s sec ptr p sz mx].
    cbn [filemapper.mapper filemapper.starts] in Hmap, Hst. subst m s.
    apply abstract_of_maps. }
  split; [exact Hord|]. split; [exact Hc|exact Hio].
Qed.

Lemma FileMapper_new_maps_the_sections_witness :
  exists fm w',
    filemapper.FileMapper_new mapper_fixtures.maps_two mapper_fixtures.world_30
    = (Ok fm, w') /\
    filemapper.tell fm = 0 /\
    filemapper.size fm = 10 /\
    filemapper.abstract fm (content w')
    = [10; 11; 12; 13; 14; 20; 21; 22; 23; 24] /\
    filemapper.in_order fm (len (content w')) (position w') /\
    content w' = content mapper_fixtures.world_30 /\
    io w' = io mapper_fixtures.world_30.
Proof.
  apply (FileMapper_new_maps_the_sections mapper_fixtures.maps_two
           mapper_fixtures.world_30).
  - discriminate.
  - intros a b [E|[E|[]]]; injection E as <- <-; vm_compute;
      repeat split; discriminate.
Defined.

(** Property X23.  The constructor asserts every map: one whose end is
    not after its start raises [AssertionError], wherever it stands
    among the maps. *)
Theorem FileMapper_new_asserts_the_maps (maps : list (Z * Z)) (a b : Z)
    (w : world) :
  In (a, b) maps -> b <= a ->
  fst (filemapper.FileMapper_new maps w) = Raise AssertionError.
Proof.
  intros Hin Hba. unfold filemapper.FileMapper_new, bind, seek, lift.
  cbn [Z.ltb Z.compare]. rewrite (scan_maps_assert maps a b Hin Hba).
  reflexivity.
Qed.

Lemma FileMapper_new_asserts_the_maps_witness :
  fst (filemapper.FileMapper_new [(10, 15); (20, 20)]
         mapper_fixtures.world_30) = Raise AssertionError.
Proof.
  apply (FileMapper_new_asserts_the_maps [(10, 15); (20, 20)] 20 20
           mapper_fixtures.world_30).
  - right. left. reflexivity.
  - lia.
Defined.

(** Property X24.  On an object in order [read(count)], for a count that
    is not negative, returns the bytes of the abstract file from the
    position on, [count] of them or as many as are left, going from
    section to section; the position moves on by as much, and the file
    is only read. *)
Theorem read_returns_the_mapped_bytes {ext : Externals}
    (fm : filemapper.FileMapper) (count : Z) (w : world) :
  filemapper.in_order fm (len (content w)) (position w) ->
  0 <= count ->
  (length (filemapper.mapper fm) < recursion_depth)%nat ->
  exists fm' w',
    filemapper.read fm count w
    = (Ok (slice (filemapper.abstract fm (content w)) (filemapper.tell fm)
                 (filemapper.tell fm + count), fm'), w') /\
    filemapper.tell fm' = Z.min (filemapper.tell fm + count)
                                (filemapper.size fm) /\
    filemapper.in_order fm' (len (content w')) (position w') /\
    frame.read_only w w'.
Proof.
  intros Hord Hcount Hdepth.
  destruct (read_ok fm count w Hord Hcount Hdepth)
    as (fm' & w' & Hrun & Hord' & _ & _ & Hpos & _ & Hro).
  exists fm', w'. split; [exact Hrun|]. split; [exact Hpos|].
  split; [exact Hord'|exact Hro].
Qed.

Lemma read_returns_the_mapped_bytes_witness :
  exists fm' w',
    @filemapper.read fixtures.toy_externals mapper_fixtures.fm_two_at_3 4
      mapper_fixtures.world_two_at_3
    = (Ok (slice (filemapper.abstract mapper_fixtures.fm_two_at_3
                    (content mapper_fixtures.world_two_at_3))
                 (filemapper.tell mapper_fixtures.fm_two_at_3)
                 (filemapper.tell mapper_fixtures.fm_two_at_3 + 4), fm'),
       w') /\
    filemapper.tell fm'
    = Z.min (filemapper.tell mapper_fixtures.fm_two_at_3 + 4)
            (filemapper.size mapper_fixtures.fm_two_at_3) /\
    filemapper.in_order fm' (len (content w')) (position w') /\
    frame.read_only mapper_fixtures.world_two_at_3 w'.
Proof.
  apply (@read_returns_the_mapped_bytes fixtures.toy_externals
           mapper_fixtures.fm_two_at_3 4 mapper_fixtures.world_two_at_3).
  - exact fm_two_at_3_in_order.
  - lia.
  - vm_compute. lia.
Defined.

(** Property X25.  [write(data)] on an object in order changes no byte
    of the file outside the mapped sections and not the length of the
    file, however long the data is; the position moves on by the length
    of the data, or to the end of the abstract file. *)
Theorem write_touches_only_the_sections {ext : Externals}
    (fm : filemapper.FileMapper) (data : bytes) (w : world) :
  filemapper.in_order fm (len (content w)) (position w) ->
  (length (filemapper.mapper fm) < recursion_depth)%nat ->
  exists fm' w',
    filemapper.write fm data w = (Ok fm', w') /\
    len (content w') = len (content w) /\
    (forall x, 0 <= x -> filemapper.outside fm x ->
       nth_error (content w') (Z.to_nat x)
       = nth_error (content w) (Z.to_nat x)) /\
    filemapper.tell fm' = Z.min (filemapper.tell fm + len data)
                                (filemapper.size fm) /\
    filemapper.in_order fm' (len (content w')) (position w').
Proof.
  intros Hord Hdepth.
  destruct (write_ok fm data w Hord Hdepth)
    as (fm' & w' & Hrun & Hord' & _ & _ & Hpos & _ & Hn & Hout & _).
  exists fm', w'. split; [exact Hrun|]. split; [exact Hn|].
  split; [exact Hout|]. split; [exact Hpos|exact Hord'].
Qed.

Lemma write_touches_only_the_sections_witness :
  exists fm' w',
    @filemapper.write fixtures.toy_externals mapper_fixtures.fm_two_at_3
      (repeat 255 20) mapper_fixtures.world_two_at_3 = (Ok fm', w') /\
    len (content w') = len (content mapper_fixtures.world_two_at_3) /\
    (forall x, 0 <= x -> filemapper.outside mapper_fixtures.fm_two_at_3 x ->
       nth_error (content w') (Z.to_nat x)
       = nth_error (content mapper_fixtures.world_two_at_3) (Z.to_nat x)) /\
    filemapper.tell fm'
    = Z.min (filemapper.tell mapper_fixtures.fm_two_at_3
             + len (repeat 255 20))
            (filemapper.size mapper_fixtures.fm_two_at_3) /\
    filemapper.in_order fm' (len (content w')) (position w').
Proof.
  apply (@write_touches_only_the_sections fixtures.toy_externals
           mapper_fixtures.fm_two_at_3 (repeat 255 20)
           mapper_fixtures.world_two_at_3).
  - exact fm_two_at_3_in_order.
  - vm_compute. lia.
Defined.

(** Property X26.  When no two sections overlap, [write(data)] on an
    object in order puts the data into the abstract file at the
    position and changes nothing else of it; data that would go past
    the end of the abstract file is dropped without an error. *)
Theorem write_patches_the_abstract_file {ext : Externals}
    (fm : filemapper.FileMapper) (data : bytes) (w : world) :
  filemapper.in_order fm (len (content w)) (position w) ->
  filemapper.disjoint fm ->
  (length (filemapper.mapper fm) < recursion_depth)%nat ->
  exists fm' w',
    filemapper.write fm data w = (Ok fm', w') /\
    filemapper.abstract fm (content w')
    = write_at (filemapper.abstract fm (content w)) (filemapper.tell fm)
               (slice data 0 (filemapper.size fm - filemapper.tell fm)).
Proof.
  intros Hord Hdis Hdepth.
  destruct (write_ok fm data w Hord Hdepth)
    as (fm' & w' & Hrun & _ & _ & _ & _ & _ & _ & _ & Habs).
  exists fm', w'. split; [exact Hrun|exact (Habs Hdis)].
Qed.

Lemma write_patches_the_abstract_file_witness :
  exists fm' w',
    @filemapper.write fixtures.toy_externals mapper_fixtures.fm_two_at_3
      (repeat 255 20) mapper_fixtures.world_two_at_3 = (Ok fm', w') /\
    filemapper.abstract mapper_fixtures.fm_two_at_3 (content w')
    = write_at (filemapper.abstract mapper_fixtures.fm_two_at_3
                  (content mapper_fixtures.world_two_at_3))
               (filemapper.tell mapper_fixtures.fm_two_at_3)
               (slice (repeat 255 20) 0
                  (filemapper.size mapper_fixtures.fm_two_at_3
                   - filemapper.tell mapper_fixtures.fm_two_at_3)).
Proof.
  apply (@write_patches_the_abstract_file fixtures.toy_externals
           mapper_fixtures.fm_two_at_3 (repeat 255 20)
           mapper_fixtures.world_two_at_3).
  - exact fm_two_at_3_in_order.
  - exact fm_two_disjoint.
  - vm_compute. lia.
Defined.

(** Property X27.  [seek(count, ref)] on an object in order never fails
    and never leaves the abstract file: the position becomes the target
    brought into the range from 0 to the size, for [ref] 0, 1, 2 or
    none; the object stays in order and the file is not read or
    written. *)
Theorem seek_lands_within_the_abstract_file {ext : Externals}
    (fm : filemapper.FileMapper) (count : Z) (ref : option Z) (w : world) :
  filemapper.in_order fm (len (content w)) (position w) ->
  (length (filemapper.mapper fm) < recursion_depth)%nat ->
  exists fm' w',
    filemapper.seek_to fm count ref w = (Ok fm', w') /\
    filemapper.tell fm'
    = filemapper.clamp (filemapper.seek_target fm count ref)
                       (filemapper.size fm) /\
    filemapper.in_order fm' (len (content w')) (position w') /\
    content w' = content w /\ io w' = io w.
Proof.
  intros Hord Hdepth.
  destruct (seek_ok fm count ref w Hord Hdepth)
    as (fm' & w' & Hrun & Hord' & _ & _ & Hpos & _ & Hc & Hio).
  exists fm', w'. split; [exact Hrun|]. split; [exact Hpos|].
  split; [exact Hord'|]. split; [exact Hc|exact Hio].
Qed.

Lemma seek_lands_within_the_abstract_file_witness :
  exists fm' w',
    @filemapper.seek_to fixtures.toy_externals mapper_fixtures.fm_two_at_3
      (-4) None mapper_fixtures.world_two_at_3 = (Ok fm', w') /\
    filemapper.tell fm'
    = filemapper.clamp
        (filemapper.seek_target mapper_fixtures.fm_two_at_3 (-4) None)
        (filemapper.size mapper_fixtures.fm_two_at_3) /\
    filemapper.in_order fm' (len (content w')) (position w') /\
    content w' = content mapper_fixtures.world_two_at_3 /\
    io w' = io mapper_fixtures.world_two_at_3.
Proof.
  apply (@seek_lands_within_the_abstract_file fixtures.toy_externals
           mapper_fixtures.fm_two_at_3 (-4) None
           mapper_fixtures.world_two_at_3).
  - exact fm_two_at_3_in_order.
  - vm_compute. lia.
Defined.

(** Property X28.  What [write] put into the abstract file [read] gives
    back: when no two sections overlap and the data fits before the end
    of the abstract file, writing the data, seeking back to where the
    object stood and reading as many bytes returns the data, across the
    sections it was spread over. *)
Theorem write_seek_read_round_trip {ext : Externals}
    (fm : filemapper.FileMapper) (data : bytes) (w : world) :
  filemapper.in_order fm (len (content w)) (position w) ->
  filemapper.disjoint fm ->
  (length (filemapper.mapper fm) < recursion_depth)%nat ->
  filemapper.tell fm + len data <= filemapper.size fm ->
  exists fm1 w1 fm2 w2 fm3 w3,
    filemapper.write fm data w = (Ok fm1, w1) /\
    filemapper.seek_to fm1 (filemapper.tell fm) (Some 0) w1 = (Ok fm2, w2) /\
    filemapper.read fm2 (len data) w2 = (Ok (data, fm3), w3).
Proof.
  unfold filemapper.tell.
  intros Hord Hdis Hdepth Hfit.
  pose proof (len_nonneg data) as Hd.
  pose proof (in_order_pos _ _ _ Hord) as Hp.
  destruct (write_ok fm data w Hord Hdepth)
    as (fm1 & w1 & Hrun1 & Hord1 & Hmap1 & Hst1 & Hpos1 & _ & Hn1 & _
        & Habs).
  specialize (Habs Hdis).
  pose proof (in_order_size _ _ _ _ _ _ Hord Hord1 Hmap1) as Hsz1.
  destruct (seek_ok fm1 (filemapper.pos fm) (Some 0) w1 Hord1)
    as (fm2 & w2 & Hrun2 & Hord2 & Hmap2 & Hst2 & Hpos2 & _ & Hc2 & _);
    [rewrite Hmap1; exact Hdepth|].
  destruct (read_ok fm2 (len data) w2 Hord2 Hd)
    as (fm3 & w3 & Hrun3 & _);
    [rewrite Hmap2, Hmap1; exact Hdepth|].
  exists fm1, w1, fm2, w2, fm3, w3.
  split; [exact Hrun1|]. split; [exact Hrun2|].
  rewrite Hrun3. do 3 f_equal.
  rewrite (abstract_same_sections fm1 fm2) by assumption.
  rewrite (abstract_same_sections fm fm1) by assumption.
  rewrite Hc2, Habs, Hpos2. unfold filemapper.seek_target, filemapper.clamp. cbn [Z.eqb].
  rewrite Hsz1.
  replace (Z.max 0 (Z.min (filemapper.pos fm) (filemapper.size fm))) with (filemapper.pos fm) by lia.
  rewrite slice_whole by lia.
  apply slice_write_at. lia.
Qed.

Lemma write_seek_read_round_trip_witness :
  exists fm1 w1 fm2 w2 fm3 w3,
    @filemapper.write fixtures.toy_externals mapper_fixtures.fm_two_at_3
      [201; 202; 203; 204] mapper_fixtures.world_two_at_3 = (Ok fm1, w1) /\
    @filemapper.seek_to fixtures.toy_externals fm1
      (filemapper.tell mapper_fixtures.fm_two_at_3) (Some 0) w1
    = (Ok fm2, w2) /\
    @filemapper.read fixtures.toy_externals fm2 (len [201; 202; 203; 204]) w2
    = (Ok ([201; 202; 203; 204], fm3), w3).
Proof.
  apply (@write_seek_read_round_trip fixtures.toy_externals
           mapper_fixtures.fm_two_at_3 [201; 202; 203; 204]
           mapper_fixtures.world_two_at_3).
  - exact fm_two_at_3_in_order.
  - exact fm_two_disjoint.
  - vm_compute. lia.
  - vm_compute. discriminate.
Defined.

(** Property X29.  Reading in pieces is reading at once: on an object in
    order, [read(a)] followed by [read(b)] returns two pieces that put
    together are what [read(a + b)] returns from the same position, and
    both ways end at the same position, also when the end of the
    abstract file cuts the reads short. *)
Theorem read_in_pieces {ext : Externals}
    (fm : filemapper.FileMapper) (a b : Z) (w : world) :
  filemapper.in_order fm (len (content w)) (position w) ->
  0 <= a -> 0 <= b ->
  (length (filemapper.mapper fm) < recursion_depth)%nat ->
  exists x fm1 w1 y fm2 w2 z fm3 w3,
    filemapper.read fm a w = (Ok (x, fm1), w1) /\
    filemapper.read fm1 b w1 = (Ok (y, fm2), w2) /\
    filemapper.read fm (a + b) w = (Ok (z, fm3), w3) /\
    x ++ y = z /\ filemapper.tell fm2 = filemapper.tell fm3.
Proof.
  unfold filemapper.tell.
  intros Hord Ha Hb Hdepth.
  pose proof (in_order_pos _ _ _ Hord) as Hp.
  destruct (read_ok fm a w Hord Ha Hdepth)
    as (fm1 & w1 & Hrun1 & Hord1 & Hmap1 & Hst1 & Hpos1 & _ & Hro1).
  pose proof (in_order_size _ _ _ _ _ _ Hord Hord1 Hmap1) as Hsz1.
  destruct (read_ok fm1 b w1 Hord1 Hb)
    as (fm2 & w2 & Hrun2 & _ & _ & _ & Hpos2 & _);
    [rewrite Hmap1; exact Hdepth|].
  destruct (read_ok fm (a + b) w Hord ltac:(lia) Hdepth)
    as (fm3 & w3 & Hrun3 & _ & _ & _ & Hpos3 & _).
  eexists _, fm1, w1, _, fm2, w2, _, fm3, w3.
  split; [exact Hrun1|]. split; [exact Hrun2|]. split; [exact Hrun3|].
  split; [|lia].
  rewrite (abstract_same_sections fm fm1) by assumption.
  destruct Hro1 as [-> _].
  destruct Hord as [Hlaid _].
  pose proof (len_abstract fm _ Hlaid) as La.
  rewrite Hpos1.
  destruct (Z_le_gt_dec (filemapper.pos fm + a) (filemapper.size fm)) as [Hin|Hover].
  - rewrite Z.min_l by lia. rewrite Z.add_assoc.
    symmetry. apply slice_split; lia.
  - rewrite Z.min_r by lia.
    rewrite (slice_beyond _ (filemapper.size fm)) by lia. rewrite app_nil_r.
    rewrite <- (slice_to_end _ _ (filemapper.pos fm + a)) by lia.
    rewrite <- (slice_to_end _ _ (filemapper.pos fm + (a + b))) by lia.
    rewrite !Z.min_r by lia. reflexivity.
Qed.

Lemma read_in_pieces_witness :
  exists x fm1 w1 y fm2 w2 z fm3 w3,
    @filemapper.read fixtures.toy_externals mapper_fixtures.fm_two_at_3 4
      mapper_fixtures.world_two_at_3 = (Ok (x, fm1), w1) /\
    @filemapper.read fixtures.toy_externals fm1 9 w1 = (Ok (y, fm2), w2) /\
    @filemapper.read fixtures.toy_externals mapper_fixtures.fm_two_at_3
      (4 + 9) mapper_fixtures.world_two_at_3 = (Ok (z, fm3), w3) /\
    x ++ y = z /\ filemapper.tell fm2 = filemapper.tell fm3.
Proof.
  apply (@read_in_pieces fixtures.toy_externals mapper_fixtures.fm_two_at_3
           4 9 mapper_fixtures.world_two_at_3).
  - exact fm_two_at_3_in_order.
  - lia.
  - lia.
  - vm_compute. lia.
Defined.

(** Property X30.  A negative count is passed on to the file as it is:
    before the end of the abstract file, [read(-1)] returns the file
    underneath from where it stands to its end, mapped or not, and
    moves the position of the object one byte back; a count below -1
    raises the [ValueError] of the file's own [read]. *)
Theorem read_negative_count {ext : Externals}
    (fm : filemapper.FileMapper) (count : Z) (w : world) :
  filemapper.in_order fm (len (content w)) (position w) ->
  filemapper.tell fm < filemapper.size fm ->
  (0 < recursion_depth)%nat ->
  count < 0 ->
  if count =? -1
  then exists fm' w',
         filemapper.read fm count w
         = (Ok (slice (content w) (position w) (len (content w)), fm'), w')
         /\ filemapper.tell fm' = filemapper.tell fm - 1
  else fst (filemapper.read fm count w) = Raise ValueError.
Proof.
  unfold filemapper.tell.
  intros ((Hlen & Hpos & Hin & Hsize & Hmax) & s & l & Hs & Hl & Hptr
          & Hlast & Hp & Hsrc) Hlt Hdepth Hneg.
  destruct (before_bound _ _ l Hpos Hl) as [Hb1 Hb2].
  assert (Hav : 0 < l - filemapper.mapper_ptr fm).
  { destruct (Z.eq_dec (filemapper.mapper_ptr fm) l) as [e|e]; [|lia].
    specialize (Hlast e). specialize (Hb2 ltac:(lia)). lia. }
  assert (Ec : (if l - filemapper.mapper_ptr fm >=? count then count
                else l - filemapper.mapper_ptr fm) = count).
  { rewrite Z.geb_leb.
    destruct (Z.leb_spec count (l - filemapper.mapper_ptr fm)); lia. }
  unfold filemapper.read.
  destruct recursion_depth as [|depth]; [lia|].
  cbn [filemapper._rw]. rewrite Z.geb_leb.
  destruct (Z.leb_spec (filemapper.size fm) (filemapper.pos fm)) as [H|_];
    [lia|].
  unfold bind, lift, slots.index, filemapper.src_read, file_read, ret.
  rewrite Hl. cbv beta iota zeta. rewrite !Ec.
  destruct (Z.eqb_spec count (-1)) as [->|Hne].
  - change (-1 <? -1) with false. cbv beta iota.
    replace (l - filemapper.mapper_ptr fm - -1 =? 0) with false
      by (symmetry; apply Z.eqb_neq; lia).
    cbn [andb]. change (-1 >? -1) with false. cbv beta iota.
    cbn [fst snd filemapper.pos].
    replace (position w + (len (content w) - position w))
      with (len (content w)) by lia.
    eexists _, _. split; [reflexivity|]. cbn [filemapper.pos]. lia.
  - destruct (Z.ltb_spec count (-1)) as [_|H]; [|lia].
    reflexivity.
Qed.

Lemma read_negative_count_witness :
  exists fm' w',
    @filemapper.read fixtures.toy_externals mapper_fixtures.fm_two_at_3 (-1)
      mapper_fixtures.world_two_at_3
    = (Ok (slice (content mapper_fixtures.world_two_at_3)
                 (position mapper_fixtures.world_two_at_3)
                 (len (content mapper_fixtures.world_two_at_3)), fm'), w')
    /\ filemapper.tell fm'
       = filemapper.tell mapper_fixtures.fm_two_at_3 - 1.
Proof.
  apply (@read_negative_count fixtures.toy_externals
           mapper_fixtures.fm_two_at_3 (-1) mapper_fixtures.world_two_at_3).
  - exact fm_two_at_3_in_order.
  - vm_compute. reflexivity.
  - vm_compute. lia.
  - lia.
Defined.

(** ** Writing a secret: where, how much, and back again *)

Section WriteSlotClaims.

Context {ext : Externals}.
Import slots.

(** A secret of more than 247 bytes stops [write_slot] at the array
    object, in either mode. *)
Lemma write_slot_too_long self (x : bytes) w :
  247 < len x -> write_slot self x w = (Raise ValueError, w).
Proof.
  intros Hx. unfold write_slot. cbv zeta.
  assert (Hg : (len x + bitfun.header >=? max_shamir) = true).
  { rewrite Z.geb_leb. apply Z.leb_le.
    unfold bitfun.header, bitfun.chk_len, max_shamir, slot_len. lia. }
  rewrite Hg, andb_true_r.
  destruct (shamir_mode self) eqn:Es.
  - cbn [shamir_mode with_shamir_mode].
    unfold bind at 1, lift. rewrite (ABA_new_too_long x Hx). reflexivity.
  - rewrite Es. unfold bind at 1, lift.
    rewrite (ABA_new_too_long x Hx). reflexivity.
Qed.

(** With the Shamir switch on and a secret that reaches [max_shamir],
    [write_slot] is [write_slot] with the switch off. *)
Lemma write_slot_reverts self (x : bytes) w :
  shamir_mode self = true -> max_shamir <= len x + bitfun.header ->
  write_slot self x w = write_slot (with_shamir_mode self false) x w.
Proof.
  intros Hs Hx. unfold write_slot.
  assert (Hg : (len x + bitfun.header >=? max_shamir) = true)
    by (rewrite Z.geb_leb; apply Z.leb_le; exact Hx).
  rewrite Hs, Hg. cbn [andb shamir_mode with_shamir_mode]. reflexivity.
Qed.

(** A part of the file from the end of the area on is kept with the
    rest. *)
Lemma slice_after {A} (f f' : list A) hi a b :
  skipn (Z.to_nat hi) f' = skipn (Z.to_nat hi) f -> 0 <= hi <= a ->
  slice f' a b = slice f a b.
Proof.
  intros H Ha. unfold slice.
  replace (Z.to_nat a) with (Z.to_nat (a - hi) + Z.to_nat hi)%nat by lia.
  rewrite <- !skipn_skipn, H. reflexivity.
Qed.

End WriteSlotClaims.

(** C7.  Every write of [write_slot] on an opened vault, in replicated
    mode, in Shamir mode and while old slots are wiped, starts at or
    after [salt_len] and ends at or before [salt_len + area]; the file
    keeps its length, and the salt at its head, the storage and the salt
    at its tail hold the bytes they held, whatever the random source
    does and whether [write_slot] returns or raises. *)
Theorem write_slot_writes_only_the_slot_area {ext : Externals}
    (filesize : Z) (self : slots.KeyLocker) (data : bytes) (w : world) :
  slots.opened filesize self ->
  0 <= slots.salt_len self ->
  len (content w) = filesize ->
  (exists evs,
     io (snd (slots.write_slot self data w)) = io w ++ evs /\
     forall o l, In (IOWrite o l) evs ->
       slots.salt_len self <= o /\
       o + l <= slots.salt_len self + slots.area self) /\
  len (content (snd (slots.write_slot self data w))) = filesize /\
  slice (content (snd (slots.write_slot self data w)))
        0 (slots.salt_len self)
  = slice (content w) 0 (slots.salt_len self) /\
  slice (content (snd (slots.write_slot self data w)))
        (slots.salt_len self + slots.area self)
        (filesize - slots.salt_len self)
  = slice (content w) (slots.salt_len self + slots.area self)
          (filesize - slots.salt_len self) /\
  slice (content (snd (slots.write_slot self data w)))
        (filesize - slots.salt_len self) filesize
  = slice (content w) (filesize - slots.salt_len self) filesize.
Proof.
  intros Hopen Hsalt Hsize.
  destruct (opened_facts filesize self Hopen)
    as (Hn & Hfit & Hfile & Hstore & _).
  assert (Harea : 0 <= slots.area self)
    by (unfold slots.slot_len, slots.max_len in Hfit; lia).
  destruct (keeps_write_slot self data Hsalt ltac:(lia) Hfit w)
    as [(Hlen & Hhead & Htail & evs & Hio & Hev) _].
  { rewrite Hsize, Hfile. lia. }
  split.
  { exists evs. split; [exact Hio|].
    intros o l Hin. rewrite Forall_forall in Hev.
    exact (Hev _ Hin). }
  split; [rewrite Hlen; exact Hsize|].
  split; [rewrite !slice_0; exact Hhead|].
  split; apply (slice_after _ _ _ _ _ Htail); lia.
Qed.

Lemma write_slot_writes_only_the_slot_area_witness :
  (exists evs,
     io (snd (@slots.write_slot fixtures.toy_externals
                fixtures.vault_220000_open fixtures.secret_120
                fixtures.world_write_220000))
     = io fixtures.world_write_220000 ++ evs /\
     forall o l, In (IOWrite o l) evs ->
       slots.salt_len fixtures.vault_220000_open <= o /\
       o + l <= slots.salt_len fixtures.vault_220000_open
                + slots.area fixtures.vault_220000_open) /\
  len (content (snd (@slots.write_slot fixtures.toy_externals
                       fixtures.vault_220000_open fixtures.secret_120
                       fixtures.world_write_220000))) = 220000 /\
  slice (content (snd (@slots.write_slot fixtures.toy_externals
                         fixtures.vault_220000_open fixtures.secret_120
                         fixtures.world_write_220000)))
        0 (slots.salt_len fixtures.vault_220000_open)
  = slice (content fixtures.world_write_220000)
          0 (slots.salt_len fixtures.vault_220000_open) /\
  slice (content (snd (@slots.write_slot fixtures.toy_externals
                         fixtures.vault_220000_open fixtures.secret_120
                         fixtures.world_write_220000)))
        (slots.salt_len fixtures.vault_220000_open
         + slots.area fixtures.vault_220000_open)
        (220000 - slots.salt_len fixtures.vault_220000_open)
  = slice (content fixtures.world_write_220000)
          (slots.salt_len fixtures.vault_220000_open
           + slots.area fixtures.vault_220000_open)
          (220000 - slots.salt_len fixtures.vault_220000_open) /\
  slice (content (snd (@slots.write_slot fixtures.toy_externals
                         fixtures.vault_220000_open fixtures.secret_120
                         fixtures.world_write_220000)))
        (220000 - slots.salt_len fixtures.vault_220000_open) 220000
  = slice (content fixtures.world_write_220000)
          (220000 - slots.salt_len fixtures.vault_220000_open) 220000.
Proof.
  apply (@write_slot_writes_only_the_slot_area fixtures.toy_externals 220000
           fixtures.vault_220000_open fixtures.secret_120
           fixtures.world_write_220000).
  - exact vault_220000_opened.
  - vm_compute. discriminate.
  - vm_compute. reflexivity.
Defined.

(** C3, as the code has it.  Only a secret of more than 247 bytes makes
    [write_slot] fail before any file operation and any random draw,
    with [ValueError], in either mode.  A secret that with its header
    reaches [max_shamir] does not make a Shamir-mode [write_slot] fail:
    the switch is turned off and the call is the replicated-mode
    [write_slot] of the same secret. *)
Theorem write_slot_oversize {ext : Externals}
    (self : slots.KeyLocker) (data : bytes) (w : world) :
  (247 < len data ->
   slots.write_slot self data w = (Raise ValueError, w)) /\
  (slots.shamir_mode self = true ->
   slots.max_shamir <= len data + bitfun.header ->
   slots.write_slot self data w
   = slots.write_slot (slots.with_shamir_mode self false) data w).
Proof.
  split.
  - apply write_slot_too_long.
  - apply write_slot_reverts.
Qed.

(** C3 as stated fails: in a vault with the Shamir switch on, a secret
    of 120 bytes goes past [max_shamir] with its header, and
    [write_slot] does not fail: it returns with the switch off, having
    wiped the 17 candidate slots, written copies of 192 bytes and read
    slots back (event 17 is the first copy, event 25 the first read of
    the check). *)
Lemma write_slot_oversize_shamir_is_written :
  slots.shamir_mode fixtures.vault_220000_open = true /\
  2 * slots.slot_len - 9 < len fixtures.secret_120 /\
  slots.max_shamir <= len fixtures.secret_120 + bitfun.header /\
  match fst (@slots.write_slot fixtures.toy_externals
               fixtures.vault_220000_open fixtures.secret_120
               fixtures.world_write_220000) with
  | Ok k => slots.shamir_mode k = false
  | _ => False
  end /\
  length (io (snd (@slots.write_slot fixtures.toy_externals
                     fixtures.vault_220000_open fixtures.secret_120
                     fixtures.world_write_220000))) = 36%nat /\
  nth_error (io (snd (@slots.write_slot fixtures.toy_externals
                        fixtures.vault_220000_open fixtures.secret_120
                        fixtures.world_write_220000))) 17
  = Some (IOWrite 22247 192) /\
  nth_error (io (snd (@slots.write_slot fixtures.toy_externals
                        fixtures.vault_220000_open fixtures.secret_120
                        fixtures.world_write_220000))) 25
  = Some (IORead 24935 256).
Proof.
  split; [vm_compute; reflexivity|].
  split; [vm_compute; reflexivity|].
  split; [vm_compute; discriminate|].
  split; [vm_compute; reflexivity|].
  split; [vm_compute; reflexivity|].
  split; vm_compute; reflexivity.
Qed.



